(** * BusTub storage core: extendible hash table, LRU-K replacer,
      buffer pool manager instance and B+-tree internal page.

    A shallow embedding of
      - src/container/hash/extendible_hash_table.cpp
      - src/buffer/lru_k_replacer.cpp
      - src/buffer/buffer_pool_manager_instance.cpp
      - src/storage/page/b_plus_tree_internal_page.cpp
    and the properties checked against them.

    Conventions.
    - [frame_id_t] and [page_id_t] are 32-bit signed integers: values in [Z].
    - [size_t] counters (access counts, the replacer's size, bucket
      capacities) are unbounded naturals: wrapping one takes 2^64 increments.
    - The [int]s of the hash table (depths, number of buckets, masks) are
      naturals, which they equal as long as the global depth is at most 30;
      the doubled directory length, the one [int] that can overflow, is
      computed with its wrap-around.
    - A [std::shared_ptr<Bucket>] is a handle into an arena of buckets, so two
      directory slots that hold the same pointer hold the same handle and see
      each other's updates.
    - The mutexes serialise the public operations; each operation is modelled
      as one atomic state transformer. *)

From Stdlib Require Import ZArith Lia List Bool Sorted.
From stdpp Require Import base tactics option list gmap.

Local Open Scope nat_scope.

(* ===================================================================== *)
(** * Outcomes of a call                                                  *)
(* ===================================================================== *)

(** What a call on a component with state [S] and return type [A] does:
    it returns, it leaves by a C++ exception, its behaviour is undefined, or
    ([Timeout]) it has given no result: the fuel given to a loop is used up,
    or the page table that the call goes through returns no table. *)
Inductive result (S A : Type) : Type :=
| Ret (a : A) (s : S)
| Throw (s : S)
| Undef
| Timeout.

Arguments Ret {S A} a s.
Arguments Throw {S A} s.
Arguments Undef {S A}.
Arguments Timeout {S A}.

(** [static_cast<int>(n)] for a [size_t] value [n]: the low 32 bits, read as
    a two's complement number. *)
Definition static_cast_int (n : Z) : Z := ((n + 2 ^ 31) mod 2 ^ 32 - 2 ^ 31)%Z.

(* ===================================================================== *)
(** * Extendible hash table                                               *)
(* ===================================================================== *)

Module EHT.
Section Table.

Context {K V : Type} `{EqDecision K}.

(** [std::hash<K>()(key)], a [size_t]. *)
Variable hash : K → nat.

(** ** Bucket *)

Record Bucket : Type := mkBucket {
  size_  : nat;              (* capacity given to the constructor *)
  depth_ : nat;              (* local depth *)
  list_  : list (K * V)      (* std::list<std::pair<K, V>> *)
}.

(** Modelled from the spec: [IsFull] is declared in extendible_hash_table.h,
    which is not among the sources.  The spec bounds a bucket's list by
    [bucket_size] and lets an insert proceed when the bucket "has spare
    capacity": the bucket is full when its list has reached the capacity. *)
Definition IsFull (b : Bucket) : bool := size_ b <=? length (list_ b).

(** [Bucket::Find]: the value of the first pair whose key matches. *)
Fixpoint list_find_key (key : K) (l : list (K * V)) : option V :=
  match l with
  | [] => None
  | (k, v) :: l' => if decide (k = key) then Some v else list_find_key key l'
  end.

Definition Bucket_Find (key : K) (b : Bucket) : option V :=
  list_find_key key (list_ b).

(** [Bucket::Remove]: erase the first pair whose key matches. *)
Fixpoint list_erase_key (key : K) (l : list (K * V)) : option (list (K * V)) :=
  match l with
  | [] => None
  | (k, v) :: l' =>
      if decide (k = key) then Some l'
      else match list_erase_key key l' with
           | Some r => Some ((k, v) :: r)
           | None => None
           end
  end.

Definition Bucket_Remove (key : K) (b : Bucket) : bool * Bucket :=
  match list_erase_key key (list_ b) with
  | Some l' => (true, mkBucket (size_ b) (depth_ b) l')
  | None => (false, b)
  end.

(** The first loop of [Bucket::Insert]: overwrite the value of the first pair
    whose key matches. *)
Fixpoint list_update_key (key : K) (value : V) (l : list (K * V))
  : option (list (K * V)) :=
  match l with
  | [] => None
  | (k, v) :: l' =>
      if decide (k = key) then Some ((k, value) :: l')
      else match list_update_key key value l' with
           | Some r => Some ((k, v) :: r)
           | None => None
           end
  end.

(** [Bucket::Insert]: [None] is the [false] return (full, key absent). *)
Definition Bucket_Insert (key : K) (value : V) (b : Bucket) : option Bucket :=
  match list_update_key key value (list_ b) with
  | Some l' => Some (mkBucket (size_ b) (depth_ b) l')
  | None =>
      if IsFull b then None
      else Some (mkBucket (size_ b) (depth_ b) (list_ b ++ [(key, value)]))
  end.

Definition IncrementDepth (b : Bucket) : Bucket :=
  mkBucket (size_ b) (S (depth_ b)) (list_ b).

(** ** Table *)

(** [dir_] holds bucket handles; [heap] is the arena the handles point into.
    A bucket that no directory slot refers to any more (the split bucket) is
    released by its last [shared_ptr] in the source; here it stays in the
    arena, unreachable. *)
Record Table : Type := mkTable {
  global_depth_ : nat;
  bucket_size_  : nat;
  num_buckets_  : nat;
  dir_          : list nat;
  heap          : list Bucket
}.

Definition null_bucket : Bucket := mkBucket 0 0 [].

(** [*h] for a handle [h]. *)
Definition deref (t : Table) (h : nat) : Bucket := default null_bucket (heap t !! h).

(** [dir_[i]]. *)
Definition dir_at (t : Table) (i : nat) : nat := default 0 (dir_ t !! i).

Definition set_bucket (t : Table) (h : nat) (b : Bucket) : Table :=
  mkTable (global_depth_ t) (bucket_size_ t) (num_buckets_ t) (dir_ t)
          (<[h := b]> (heap t)).

(** The constructor: depth 0, one bucket, one directory slot. *)
Definition init (bucket_size : nat) : Table :=
  mkTable 0 bucket_size 1 [0] [mkBucket bucket_size 0 []].

(** [IndexOf]: [hash(key) & mask] for the [int mask = (1 << global_depth_) - 1]. *)
Definition IndexOf (t : Table) (key : K) : nat :=
  Nat.land (hash key) (Nat.shiftl 1 (global_depth_ t) - 1).

Definition GetGlobalDepth (t : Table) : nat := global_depth_ t.
Definition GetLocalDepth (t : Table) (dir_index : nat) : nat :=
  depth_ (deref t (dir_at t dir_index)).
Definition GetNumBuckets (t : Table) : nat := num_buckets_ t.

Definition Find (t : Table) (key : K) : option V :=
  Bucket_Find key (deref t (dir_at t (IndexOf t key))).

Definition Remove (t : Table) (key : K) : bool * Table :=
  let target_bucket := dir_at t (IndexOf t key) in
  let '(r, b) := Bucket_Remove key (deref t target_bucket) in
  (r, set_bucket t target_bucket b).

(** Step 1 of the loop body: when the bucket's local depth equals the global
    depth, [global_depth_++], [int length = dir_.size()],
    [dir_.resize(length << 1)] and the copy loop [dir_[i + length] = dir_[i]],
    which together append a copy of the directory to itself.  The doubled
    length is computed in [int]: for a directory of [2 ^ 30] slots it wraps
    to a negative number, which as the [size_t] argument of [resize] is
    beyond [max_size()], and [resize] throws [std::length_error].  [None] is
    that exception, which leaves [Insert]. *)
Definition grow (t : Table) (directory_index : nat) : option Table :=
  if GetLocalDepth t directory_index =? GetGlobalDepth t then
    let len := static_cast_int (Z.of_nat (length (dir_ t))) in
    let new_size := static_cast_int (Z.shiftl len 1) in
    if (new_size <? 0)%Z then None
    else Some (mkTable (S (global_depth_ t)) (bucket_size_ t) (num_buckets_ t)
                       (dir_ t ++ dir_ t) (heap t))
  else Some t.

(** Step 3.1: every slot that holds the split bucket is redirected by the
    bit [mask] of its index. *)
Definition redirect (target_bucket new_bucket old_bucket mask : nat)
    (dir : list nat) : list nat :=
  imap (λ i h, if decide (h = target_bucket)
               then (if Nat.land i mask =? 0 then new_bucket else old_bucket)
               else h) dir.

(** Step 3.2: one iteration of the loop over the split bucket's items; the
    result of the bucket insert is ignored, as in the source. *)
Definition reinsert (t : Table) (item : K * V) : Table :=
  let h := dir_at t (IndexOf t item.1) in
  match Bucket_Insert item.1 item.2 (deref t h) with
  | Some b => set_bucket t h b
  | None => t
  end.

(** The body of the [while] loop of [Insert]; [None] when [dir_.resize]
    throws. *)
Definition split (t : Table) (directory_index target_bucket : nat) : option Table :=
  match grow t directory_index with
  | None => None
  | Some t1 =>
      let t2 := set_bucket t1 target_bucket (IncrementDepth (deref t1 target_bucket)) in
      let depth := depth_ (deref t2 target_bucket) in
      let mask := Nat.shiftl 1 (depth - 1) in
      let new_bucket := length (heap t2) in
      let old_bucket := S (length (heap t2)) in
      let t3 := mkTable (global_depth_ t2) (bucket_size_ t2) (S (num_buckets_ t2))
                  (redirect target_bucket new_bucket old_bucket mask (dir_ t2))
                  (heap t2 ++ [mkBucket (bucket_size_ t2) depth [];
                               mkBucket (bucket_size_ t2) depth []]) in
      Some (fold_left reinsert (list_ (deref t2 target_bucket)) t3)
  end.

(** The [while] loop of [Insert], with its two loop-carried variables.
    [None]: [Insert] returns no table, because the loop has not finished
    within [fuel] iterations or because it was left by the exception of
    [dir_.resize]. *)
Fixpoint Insert_loop (fuel : nat) (t : Table) (directory_index target_bucket : nat)
    (key : K) (value : V) : option Table :=
  match Bucket_Insert key value (deref t target_bucket) with
  | Some b => Some (set_bucket t target_bucket b)
  | None =>
      match fuel with
      | 0 => None
      | S fuel' =>
          match split t directory_index target_bucket with
          | None => None
          | Some t' =>
              let directory_index' := IndexOf t' key in
              Insert_loop fuel' t' directory_index' (dir_at t' directory_index')
                          key value
          end
      end
  end.

Definition Insert (fuel : nat) (t : Table) (key : K) (value : V) : option Table :=
  let directory_index := IndexOf t key in
  Insert_loop fuel t directory_index (dir_at t directory_index) key value.

(** ** Well-formed and reachable tables *)

(** The directory and depth invariant of the table, with what the buckets
    hold: a live bucket of local depth [L] sits in exactly the slots that
    agree with each other on their low [L] bits, and each of its keys hashes
    to one of these slots.  The global depth is at most 30: every [int] of
    the source (the depths, [num_buckets_], the masks [1 << depth] and the
    directory length) then holds the number it stands for. *)
Record wf (t : Table) : Prop := mk_wf {
  wf_len   : length (dir_ t) = 2 ^ global_depth_ t;
  wf_alloc : ∀ i h, dir_ t !! i = Some h → h < length (heap t);
  wf_depth : ∀ i h, dir_ t !! i = Some h → depth_ (deref t h) ≤ global_depth_ t;
  wf_share : ∀ i j h, dir_ t !! i = Some h → j < 2 ^ global_depth_ t →
               (dir_ t !! j = Some h ↔
                j mod 2 ^ depth_ (deref t h) = i mod 2 ^ depth_ (deref t h));
  wf_size  : ∀ i h, dir_ t !! i = Some h → size_ (deref t h) = bucket_size_ t;
  wf_cap   : ∀ i h, dir_ t !! i = Some h →
               length (list_ (deref t h)) ≤ bucket_size_ t;
  wf_nodup : ∀ i h, dir_ t !! i = Some h → NoDup (list_ (deref t h)).*1;
  wf_home  : ∀ i h k v, dir_ t !! i = Some h → (k, v) ∈ list_ (deref t h) →
               dir_ t !! (hash k mod 2 ^ global_depth_ t) = Some h;
  wf_int   : global_depth_ t ≤ 30
}.

(** The states a table goes through: built by the constructor, then changed
    by [Insert] calls that return and by [Remove] calls ([Find] changes
    nothing). *)
Inductive reachable : Table → Prop :=
| reach_init (bucket_size : nat) : reachable (init bucket_size)
| reach_insert fuel t key value t' :
    reachable t → Insert fuel t key value = Some t' → reachable t'
| reach_remove t key :
    reachable t → reachable (Remove t key).2.

(** The hash function tells any two keys apart within its low [D] bits (as
    the identity hash of a [D]-bit integer key does). *)
Definition separates (D : nat) : Prop :=
  ∀ k k' : K, hash k mod 2 ^ D = hash k' mod 2 ^ D → k = k'.

(** The directory slots that hold the handle [h]. *)
Definition slots_of (t : Table) (h : nat) : list nat :=
  filter (λ j, dir_ t !! j = Some h) (seq 0 (length (dir_ t))).

(** The buckets that the directory refers to. *)
Definition live_buckets (t : Table) : gset nat := list_to_set (dir_ t).

(** [num_buckets_] counts them. *)
Definition counted (t : Table) : Prop := num_buckets_ t = size (live_buckets t).

End Table.

(** A concrete run with the identity hash and buckets of two pairs: inserting
    0, 1, 3, 4 and then 8 splits twice in a row and reaches global depth 3. *)
Definition put (t : Table (K:=nat) (V:=nat)) (kv : nat * nat) : Table :=
  default t (Insert id 8 t kv.1 kv.2).

Definition example_table : Table (K:=nat) (V:=nat) :=
  fold_left put [(0, 10); (1, 11); (3, 13); (4, 14)] (init 2).

End EHT.

(* ===================================================================== *)
(** * LRU-K replacer                                                      *)
(* ===================================================================== *)

Module LRUK.

(** The two [std::list<frame_id_t>] hold their front at the head.  Each
    [std::unordered_map<frame_id_t, iterator>] index is kept as its key set:
    the iterator stored for a frame is the one of the node pushed last for
    it, that is, of its first occurrence from the front.  The two maps read
    with [operator[]] are read with a default ([0], [false]): an entry that
    [operator[]] creates holds that default, and nothing ever asks whether an
    entry exists. *)
Record Replacer : Type := mkReplacer {
  replacer_size_     : nat;
  k_                 : nat;
  curr_size_         : nat;
  access_record_map_ : gmap Z nat;
  evictable_map_     : gmap Z bool;
  outer_list_        : list Z;
  outer_index_       : gset Z;
  pool_cache_list_   : list Z;
  pool_cache_index_  : gset Z
}.

Definition init (num_frames k : nat) : Replacer :=
  mkReplacer num_frames k 0 ∅ ∅ [] ∅ [] ∅.

(** [access_record_map_[f]] and [evictable_map_[f]] as values. *)
Definition access_count (r : Replacer) (f : Z) : nat :=
  default 0 (access_record_map_ r !! f).
Definition is_evictable (r : Replacer) (f : Z) : bool :=
  default false (evictable_map_ r !! f).

(** [list.erase(it)] for the iterator of the first occurrence of [f]. *)
Fixpoint list_erase (f : Z) (l : list Z) : list Z :=
  match l with
  | [] => []
  | x :: l' => if decide (x = f) then l' else x :: list_erase f l'
  end.

(** The range check shared by [RecordAccess], [SetEvictable] and [Remove]:
    [frame_id >= static_cast<int>(replacer_size_)]. *)
Definition invalid_frame (r : Replacer) (frame_id : Z) : bool :=
  (static_cast_int (Z.of_nat (replacer_size_ r)) <=? frame_id)%Z.

(** The body of either loop of [Evict] once it has found [frame] in the list
    it scans; [outer] tells which list that is.  Erasing through an index
    entry that does not exist dereferences a singular iterator.  The size
    is not zero here. *)
Definition evict_frame (outer : bool) (frame : Z) (r : Replacer)
  : result Replacer (option Z) :=
  if outer then
    if decide (frame ∈ outer_index_ r) then
      Ret (Some frame)
        (mkReplacer (replacer_size_ r) (k_ r) (curr_size_ r - 1)
           (delete frame (access_record_map_ r))
           (delete frame (evictable_map_ r))
           (list_erase frame (outer_list_ r))
           (outer_index_ r ∖ {[frame]})
           (pool_cache_list_ r) (pool_cache_index_ r))
    else Undef
  else
    if decide (frame ∈ pool_cache_index_ r) then
      Ret (Some frame)
        (mkReplacer (replacer_size_ r) (k_ r) (curr_size_ r - 1)
           (delete frame (access_record_map_ r))
           (delete frame (evictable_map_ r))
           (outer_list_ r) (outer_index_ r)
           (list_erase frame (pool_cache_list_ r))
           (pool_cache_index_ r ∖ {[frame]}))
    else Undef.

(** [Evict]: [Ret None] is the [false] return. *)
Definition Evict (r : Replacer) : result Replacer (option Z) :=
  if curr_size_ r =? 0 then Ret None r
  else
    match find (is_evictable r) (rev (outer_list_ r)) with
    | Some frame => evict_frame true frame r
    | None =>
        match find (is_evictable r) (rev (pool_cache_list_ r)) with
        | Some frame => evict_frame false frame r
        | None => Ret None r
        end
    end.

Definition RecordAccess (frame_id : Z) (r : Replacer) : result Replacer unit :=
  if invalid_frame r frame_id then Throw r
  else
    let count := S (access_count r frame_id) in
    let access := <[frame_id := count]> (access_record_map_ r) in
    if count <? k_ r then
      if decide (frame_id ∈ outer_index_ r) then
        Ret tt (mkReplacer (replacer_size_ r) (k_ r) (curr_size_ r) access
                  (evictable_map_ r) (outer_list_ r) (outer_index_ r)
                  (pool_cache_list_ r) (pool_cache_index_ r))
      else
        Ret tt (mkReplacer (replacer_size_ r) (k_ r) (curr_size_ r) access
                  (evictable_map_ r)
                  (frame_id :: outer_list_ r) ({[frame_id]} ∪ outer_index_ r)
                  (pool_cache_list_ r) (pool_cache_index_ r))
    else if count =? k_ r then
      if decide (frame_id ∈ outer_index_ r) then
        Ret tt (mkReplacer (replacer_size_ r) (k_ r) (curr_size_ r) access
                  (evictable_map_ r)
                  (list_erase frame_id (outer_list_ r))
                  (outer_index_ r ∖ {[frame_id]})
                  (frame_id :: pool_cache_list_ r)
                  ({[frame_id]} ∪ pool_cache_index_ r))
      else Undef
    else
      let cache :=
        if decide (frame_id ∈ pool_cache_index_ r)
        then list_erase frame_id (pool_cache_list_ r)
        else pool_cache_list_ r in
      Ret tt (mkReplacer (replacer_size_ r) (k_ r) (curr_size_ r) access
                (evictable_map_ r) (outer_list_ r) (outer_index_ r)
                (frame_id :: cache) ({[frame_id]} ∪ pool_cache_index_ r)).

Definition SetEvictable (frame_id : Z) (set_evictable : bool) (r : Replacer)
  : result Replacer unit :=
  if invalid_frame r frame_id then Throw r
  else if access_count r frame_id =? 0 then Ret tt r
  else if eqb (is_evictable r frame_id) set_evictable then Ret tt r
  else
    Ret tt (mkReplacer (replacer_size_ r) (k_ r)
              (if set_evictable then S (curr_size_ r) else curr_size_ r - 1)
              (access_record_map_ r)
              (<[frame_id := set_evictable]> (evictable_map_ r))
              (outer_list_ r) (outer_index_ r)
              (pool_cache_list_ r) (pool_cache_index_ r)).

Definition Remove (frame_id : Z) (r : Replacer) : result Replacer unit :=
  if invalid_frame r frame_id then Throw r
  else if access_count r frame_id =? 0 then Ret tt r
  else if negb (is_evictable r frame_id) then Throw r
  else if access_count r frame_id <? k_ r then
    if decide (frame_id ∈ outer_index_ r) then
      Ret tt (mkReplacer (replacer_size_ r) (k_ r) (curr_size_ r - 1)
                (delete frame_id (access_record_map_ r))
                (delete frame_id (evictable_map_ r))
                (list_erase frame_id (outer_list_ r))
                (outer_index_ r ∖ {[frame_id]})
                (pool_cache_list_ r) (pool_cache_index_ r))
    else Undef
  else
    if decide (frame_id ∈ pool_cache_index_ r) then
      Ret tt (mkReplacer (replacer_size_ r) (k_ r) (curr_size_ r - 1)
                (delete frame_id (access_record_map_ r))
                (delete frame_id (evictable_map_ r))
                (outer_list_ r) (outer_index_ r)
                (list_erase frame_id (pool_cache_list_ r))
                (pool_cache_index_ r ∖ {[frame_id]}))
    else Undef.

Definition Size (r : Replacer) : nat := curr_size_ r.

(** ** Calls, runs and reachable states *)

Inductive call : Type :=
| CRecordAccess (frame_id : Z)
| CSetEvictable (frame_id : Z) (set_evictable : bool)
| CEvict
| CRemove (frame_id : Z).

(** The state a call leaves behind, when it returns or throws. *)
Definition state_after {A} (o : result Replacer A) : option Replacer :=
  match o with
  | Ret _ r => Some r
  | Throw r => Some r
  | Undef | Timeout => None
  end.

Definition exec (c : call) (r : Replacer) : option Replacer :=
  match c with
  | CRecordAccess f => state_after (RecordAccess f r)
  | CSetEvictable f b => state_after (SetEvictable f b r)
  | CEvict => state_after (Evict r)
  | CRemove f => state_after (Remove f r)
  end.

Inductive reachable : Replacer → Prop :=
| reach_init num_frames k : reachable (init num_frames k)
| reach_exec c r r' : reachable r → exec c r = Some r' → reachable r'.

(** ** Access times

    The replacer keeps no timestamps.  To speak of the K-th most recent
    access, a run is replayed with a clock that ticks at every call; the
    history of a frame holds the times of its accesses, the latest first, and
    is dropped when the frame is evicted or removed. *)
Record Timed : Type := mkTimed {
  now     : nat;
  state   : Replacer;
  history : gmap Z (list nat)
}.

Definition history_of (h : gmap Z (list nat)) (f : Z) : list nat :=
  default [] (h !! f).

Definition timed_exec (c : call) (s : Timed) : option Timed :=
  match c with
  | CRecordAccess f =>
      match RecordAccess f (state s) with
      | Ret _ r => Some (mkTimed (S (now s)) r
                           (<[f := now s :: history_of (history s) f]> (history s)))
      | Throw r => Some (mkTimed (S (now s)) r (history s))
      | _ => None
      end
  | CSetEvictable f b =>
      (λ r, mkTimed (S (now s)) r (history s)) <$> state_after (SetEvictable f b (state s))
  | CEvict =>
      match Evict (state s) with
      | Ret (Some f) r => Some (mkTimed (S (now s)) r (delete f (history s)))
      | Ret None r => Some (mkTimed (S (now s)) r (history s))
      | _ => None
      end
  | CRemove f =>
      match Remove f (state s) with
      | Ret _ r =>
          Some (mkTimed (S (now s)) r
                  (if access_count (state s) f =? 0 then history s
                   else delete f (history s)))
      | Throw r => Some (mkTimed (S (now s)) r (history s))
      | _ => None
      end
  end.

Fixpoint timed_run (cs : list call) (s : Timed) : option Timed :=
  match cs with
  | [] => Some s
  | c :: cs' => match timed_exec c s with
                | Some s' => timed_run cs' s'
                | None => None
                end
  end.

(** The time of the K-th most recent access of [f], if it has [K] accesses. *)
Definition kth_recent_access (s : Timed) (f : Z) : option nat :=
  history_of (history s) f !! (k_ (state s) - 1).

(** The time of the earliest access in the history of [f]. *)
Definition earliest_access (s : Timed) (f : Z) : option nat :=
  last (history_of (history s) f).

(** Two frames, K = 2: frame 0 is accessed at times 0 and 3, frame 1 at times
    1 and 2; both are then made evictable. *)
Definition two_frames_run : list call :=
  [CRecordAccess 0; CRecordAccess 1; CRecordAccess 1; CRecordAccess 0;
   CSetEvictable 0 true; CSetEvictable 1 true].

Definition two_frames_start : Timed := mkTimed 0 (init 2 2) ∅.

(** Three frames, K = 2, frame 0 accessed once and pinned. *)
Definition one_access : Replacer :=
  match RecordAccess 0 (init 3 2) with
  | Ret _ r => r
  | _ => init 3 2
  end.

(** ** Invariant *)

(** The number of frames marked evictable. *)
Definition evictable_count (m : gmap Z bool) : nat :=
  size (filter (λ kv : Z * bool, kv.2 = true) m).

Record wf (r : Replacer) : Prop := mk_wf {
  wf_outer_nodup : NoDup (outer_list_ r);
  wf_cache_nodup : NoDup (pool_cache_list_ r);
  wf_outer_index : ∀ f, f ∈ outer_index_ r ↔ f ∈ outer_list_ r;
  wf_cache_index : ∀ f, f ∈ pool_cache_index_ r ↔ f ∈ pool_cache_list_ r;
  wf_outer : ∀ f, f ∈ outer_list_ r ↔ 0 < access_count r f < k_ r;
  wf_cache : ∀ f, f ∈ pool_cache_list_ r ↔ 0 < access_count r f ∧ k_ r ≤ access_count r f;
  wf_tracked : ∀ f, is_evictable r f = true → 0 < access_count r f;
  wf_size : curr_size_ r = evictable_count (evictable_map_ r)
}.

(** ** The order of the two lists

    What the replayed clock adds to the invariant: the history of a frame is
    as long as its access count and holds past times, the latest first; the
    history list is ordered by first access and the cache list by latest
    access, the most recent at the front. *)

(** The time of the latest access in the history of [f]. *)
Definition latest_access (s : Timed) (f : Z) : option nat :=
  head (history_of (history s) f).

Definition first_time (s : Timed) (f : Z) : nat := default 0 (earliest_access s f).
Definition last_time (s : Timed) (f : Z) : nat := default 0 (latest_access s f).

Record timed_wf (s : Timed) : Prop := mk_timed_wf {
  twf_state  : wf (state s);
  twf_count  : ∀ f, length (history_of (history s) f) = access_count (state s) f;
  twf_past   : ∀ f t, t ∈ history_of (history s) f → t < now s;
  twf_sorted : ∀ f, StronglySorted (λ t u, u < t) (history_of (history s) f);
  twf_outer  : StronglySorted (λ f g, first_time s g < first_time s f)
                 (outer_list_ (state s));
  twf_cache  : StronglySorted (λ f g, last_time s g < last_time s f)
                 (pool_cache_list_ (state s))
}.

(** The replayed runs of a replacer, from its construction on. *)
Definition timed_reachable (s : Timed) : Prop :=
  ∃ num_frames k cs, timed_run cs (mkTimed 0 (init num_frames k) ∅) = Some s.

(** Where [two_frames_run] ends. *)
Definition two_frames_end : Timed :=
  default two_frames_start (timed_run two_frames_run two_frames_start).

(** Three frames, K = 3: frames 0, 1 and 2 are first accessed in this order,
    frame 0 is accessed again last, and all are made evictable. *)
Definition three_frames_run : list call :=
  [CRecordAccess 0; CRecordAccess 1; CRecordAccess 2; CRecordAccess 0;
   CSetEvictable 0 true; CSetEvictable 1 true; CSetEvictable 2 true].

Definition three_frames_end : Timed :=
  default (mkTimed 0 (init 3 3) ∅)
    (timed_run three_frames_run (mkTimed 0 (init 3 3) ∅)).

(** A replacer with K = 1, before any access. *)
Definition lru1 : Replacer := init 4 1.

End LRUK.

(* ===================================================================== *)
(** * Buffer pool manager instance                                        *)
(* ===================================================================== *)

Module BPM.
Section Pool.

(** The content of a page-sized buffer, and the zero-filled one that
    [ResetMemory] leaves. *)
Context {Data : Type}.
Variable zero : Data.

(** [std::hash<page_id_t>] and the [bucket_size_] constant of the header,
    for the page table. *)
Variable hash : Z → nat.
Variable bucket_size : nat.

(** Modelled from the spec: [Page] is declared in storage/page/page.h, which
    is not among the sources.  The spec gives a page its byte buffer, its
    [page_id] with the [INVALID_PAGE_ID = -1] sentinel, a pin count and a
    dirty flag; a fresh page is invalid, unpinned, clean and zero-filled. *)
Record Page : Type := mkPage {
  data_      : Data;
  page_id_   : Z;
  pin_count_ : Z;
  is_dirty_  : bool
}.

Definition INVALID_PAGE_ID : Z := (-1)%Z.

Definition fresh_page : Page := mkPage zero INVALID_PAGE_ID 0 false.

(** Modelled from the spec: the disk manager is an external collaborator
    ([write_page], [read_page], [deallocate_page]).  It is kept as the image
    of each page written so far, a page never written reading as zeroes, and
    the list of page ids it was asked to deallocate. *)
Record Disk : Type := mkDisk {
  image       : gmap Z Data;
  deallocated : list Z
}.

Definition WritePage (page_id : Z) (d : Data) (dk : Disk) : Disk :=
  mkDisk (<[page_id := d]> (image dk)) (deallocated dk).

Definition ReadPage (page_id : Z) (dk : Disk) : Data :=
  default zero (image dk !! page_id).

Definition DeallocatePage (page_id : Z) (dk : Disk) : Disk :=
  mkDisk (image dk) (deallocated dk ++ [page_id]).

Record Pool : Type := mkPool {
  pages_        : list Page;                     (* Page[pool_size_] *)
  page_table_   : EHT.Table (K:=Z) (V:=Z);       (* page id to frame id *)
  replacer_     : LRUK.Replacer;
  free_list_    : list Z;                        (* front at the head *)
  next_page_id_ : Z;
  disk_         : Disk
}.

Definition pool_size_ (s : Pool) : nat := length (pages_ s).

Definition set_pages (s : Pool) (ps : list Page) : Pool :=
  mkPool ps (page_table_ s) (replacer_ s) (free_list_ s) (next_page_id_ s) (disk_ s).
Definition set_table (s : Pool) (t : EHT.Table) : Pool :=
  mkPool (pages_ s) t (replacer_ s) (free_list_ s) (next_page_id_ s) (disk_ s).
Definition set_replacer (s : Pool) (r : LRUK.Replacer) : Pool :=
  mkPool (pages_ s) (page_table_ s) r (free_list_ s) (next_page_id_ s) (disk_ s).
Definition set_free (s : Pool) (l : list Z) : Pool :=
  mkPool (pages_ s) (page_table_ s) (replacer_ s) l (next_page_id_ s) (disk_ s).
Definition set_next (s : Pool) (n : Z) : Pool :=
  mkPool (pages_ s) (page_table_ s) (replacer_ s) (free_list_ s) n (disk_ s).
Definition set_disk (s : Pool) (d : Disk) : Pool :=
  mkPool (pages_ s) (page_table_ s) (replacer_ s) (free_list_ s) (next_page_id_ s) d.

(** [pages_[frame_id]]; [None] outside the array. *)
Definition page_at (s : Pool) (frame_id : Z) : option Page :=
  if (frame_id <? 0)%Z then None else pages_ s !! Z.to_nat frame_id.

Definition set_page (s : Pool) (frame_id : Z) (pg : Page) : Pool :=
  set_pages s (<[Z.to_nat frame_id := pg]> (pages_ s)).

(** The constructor: every frame is in the free list, in increasing order. *)
Definition init (pool_size replacer_k : nat) (dk : Disk) : Pool :=
  mkPool (replicate pool_size fresh_page)
         (EHT.init bucket_size)
         (LRUK.init pool_size replacer_k)
         (map (λ i, static_cast_int (Z.of_nat i)) (seq 0 pool_size))
         0 dk.

(** A call into the replacer from inside the pool: its exception, undefined
    behaviour or result becomes the pool's. *)
Definition on_replacer {A B} (s : Pool) (o : result LRUK.Replacer A)
    (k : A → Pool → result Pool B) : result Pool B :=
  match o with
  | Ret a r => k a (set_replacer s r)
  | Throw r => Throw (set_replacer s r)
  | Undef => Undef
  | Timeout => Timeout
  end.

(** The loop that opens [NewPgImp] and the miss path of [FetchPgImp]:
    no frame has [GetPinCount() <= 0]. *)
Definition all_pinned (s : Pool) : bool :=
  forallb (λ pg, negb (pin_count_ pg <=? 0)%Z) (pages_ s).

(** The frame to reuse, as [NewPgImp] and [FetchPgImp] both pick it: the
    front of the free list, else the replacer's victim.  [Ret None] is the
    [return nullptr] taken when the replacer has no victim. *)
Definition take_frame (s : Pool) : result Pool (option Z) :=
  match free_list_ s with
  | frame_id :: rest => Ret (Some frame_id) (set_free s rest)
  | [] => on_replacer s (LRUK.Evict (replacer_ s)) (λ victim s', Ret victim s')
  end.

(** Write the frame back if dirty, then drop its page from the page table. *)
Definition retire (s : Pool) (frame_id : Z) (frame : Page) : Pool :=
  let s1 :=
    if is_dirty_ frame then
      set_page (set_disk s (WritePage (page_id_ frame) (data_ frame) (disk_ s)))
               frame_id (mkPage (data_ frame) (page_id_ frame) (pin_count_ frame) false)
    else s in
  set_table s1 (EHT.Remove hash (page_table_ s1) (page_id_ frame)).2.

(** The tail shared by the two functions: record the access, pin the frame in
    the replacer, enter the page in the page table.  When the page table's
    [Insert] returns no table (its loop is cut short by the fuel, or left by
    the exception of [dir_.resize]), the call has no result either. *)
Definition publish {A} (fuel : nat) (s : Pool) (page_id frame_id : Z) (a : A)
  : result Pool (option A) :=
  on_replacer s (LRUK.RecordAccess frame_id (replacer_ s)) (λ _ s1,
  on_replacer s1 (LRUK.SetEvictable frame_id false (replacer_ s1)) (λ _ s2,
  match EHT.Insert hash fuel (page_table_ s2) page_id frame_id with
  | Some t => Ret (Some a) (set_table s2 t)
  | None => Timeout
  end)).

(** [NewPgImp]: the new page id and the frame of the page, or [None] for
    [nullptr]. *)
Definition NewPgImp (fuel : nat) (s : Pool) : result Pool (option (Z * Z)) :=
  if all_pinned s then Ret None s
  else
    match take_frame s with
    | Ret None s1 => Ret None s1
    | Ret (Some frame_id) s1 =>
        match page_at s1 frame_id with
        | None => Undef
        | Some frame =>
            let s2 := retire s1 frame_id frame in
            let new_page_id := next_page_id_ s2 in
            let s3 := set_next s2 (new_page_id + 1)%Z in
            match page_at s3 frame_id with
            | None => Undef
            | Some frame' =>
                let s4 := set_page s3 frame_id
                            (mkPage zero new_page_id (pin_count_ frame' + 1)%Z
                                    (is_dirty_ frame')) in
                publish fuel s4 new_page_id frame_id (new_page_id, frame_id)
            end
        end
    | Throw s1 => Throw s1
    | Undef => Undef
    | Timeout => Timeout
    end.

(** [FetchPgImp]: the frame of the page, or [None] for [nullptr]. *)
Definition FetchPgImp (fuel : nat) (page_id : Z) (s : Pool) : result Pool (option Z) :=
  match EHT.Find hash (page_table_ s) page_id with
  | Some frame_id =>
      on_replacer s (LRUK.RecordAccess frame_id (replacer_ s)) (λ _ s1,
      on_replacer s1 (LRUK.SetEvictable frame_id false (replacer_ s1)) (λ _ s2,
      match page_at s2 frame_id with
      | None => Undef
      | Some frame =>
          Ret (Some frame_id)
              (set_page s2 frame_id
                 (mkPage (data_ frame) (page_id_ frame) (pin_count_ frame + 1)%Z
                         (is_dirty_ frame)))
      end))
  | None =>
      if all_pinned s then Ret None s
      else
        match take_frame s with
        | Ret None s1 => Ret None s1
        | Ret (Some frame_id) s1 =>
            match page_at s1 frame_id with
            | None => Undef
            | Some frame =>
                let s2 := retire s1 frame_id frame in
                match page_at s2 frame_id with
                | None => Undef
                | Some frame' =>
                    let s3 := set_page s2 frame_id
                                (mkPage (ReadPage page_id (disk_ s2)) page_id
                                        (pin_count_ frame' + 1)%Z (is_dirty_ frame')) in
                    publish fuel s3 page_id frame_id frame_id
                end
            end
        | Throw s1 => Throw s1
        | Undef => Undef
        | Timeout => Timeout
        end
  end.

Definition UnpinPgImp (page_id : Z) (is_dirty : bool) (s : Pool) : result Pool bool :=
  match EHT.Find hash (page_table_ s) page_id with
  | None => Ret false s
  | Some frame_id =>
      match page_at s frame_id with
      | None => Undef
      | Some frame =>
          if (pin_count_ frame <=? 0)%Z then Ret false s
          else
            let frame' := mkPage (data_ frame) (page_id_ frame) (pin_count_ frame - 1)%Z
                                 (if is_dirty then true else is_dirty_ frame) in
            let s1 := set_page s frame_id frame' in
            if (pin_count_ frame' =? 0)%Z then
              on_replacer s1 (LRUK.SetEvictable frame_id true (replacer_ s1))
                          (λ _ s2, Ret true s2)
            else Ret true s1
      end
  end.

Definition FlushPgImp (page_id : Z) (s : Pool) : result Pool bool :=
  if (page_id =? INVALID_PAGE_ID)%Z then Ret false s
  else
    match EHT.Find hash (page_table_ s) page_id with
    | None => Ret false s
    | Some frame_id =>
        match page_at s frame_id with
        | None => Undef
        | Some frame =>
            Ret true
              (set_page (set_disk s (WritePage page_id (data_ frame) (disk_ s)))
                 frame_id
                 (mkPage (data_ frame) (page_id_ frame) (pin_count_ frame) false))
        end
    end.

(** [FlushAllPgsImp] takes [latch_] and then calls [FlushPgImp], which locks
    the same [std::mutex] again from the same thread: with at least one
    frame the behaviour is undefined. *)
Definition FlushAllPgsImp (s : Pool) : result Pool unit :=
  match pages_ s with
  | [] => Ret tt s
  | _ :: _ => Undef
  end.

Definition DeletePgImp (page_id : Z) (s : Pool) : result Pool bool :=
  match EHT.Find hash (page_table_ s) page_id with
  | None => Ret true s
  | Some frame_id =>
      match page_at s frame_id with
      | None => Undef
      | Some frame =>
          if (0 <? pin_count_ frame)%Z then Ret false s
          else
            let s1 := set_table s (EHT.Remove hash (page_table_ s) page_id).2 in
            on_replacer s1 (LRUK.Remove frame_id (replacer_ s1)) (λ _ s2,
              let s3 := set_free s2 (free_list_ s2 ++ [frame_id]) in
              let s4 := set_page s3 frame_id (mkPage zero INVALID_PAGE_ID 0 false) in
              Ret true (set_disk s4 (DeallocatePage page_id (disk_ s4))))
      end
  end.

(** ** Calls and reachable states *)

(** The public calls, and the write a caller holding a page makes to its
    buffer. *)
Inductive call : Type :=
| CNew (fuel : nat)
| CFetch (fuel : nat) (page_id : Z)
| CUnpin (page_id : Z) (is_dirty : bool)
| CFlush (page_id : Z)
| CFlushAll
| CDelete (page_id : Z)
| CWrite (frame_id : Z) (d : Data).

Definition state_after {A} (o : result Pool A) : option Pool :=
  match o with
  | Ret _ s => Some s
  | Throw s => Some s
  | Undef | Timeout => None
  end.

Definition write_data (frame_id : Z) (d : Data) (s : Pool) : option Pool :=
  match page_at s frame_id with
  | Some frame =>
      Some (set_page s frame_id
              (mkPage d (page_id_ frame) (pin_count_ frame) (is_dirty_ frame)))
  | None => None
  end.

Definition exec (c : call) (s : Pool) : option Pool :=
  match c with
  | CNew fuel => state_after (NewPgImp fuel s)
  | CFetch fuel page_id => state_after (FetchPgImp fuel page_id s)
  | CUnpin page_id is_dirty => state_after (UnpinPgImp page_id is_dirty s)
  | CFlush page_id => state_after (FlushPgImp page_id s)
  | CFlushAll => state_after (FlushAllPgsImp s)
  | CDelete page_id => state_after (DeletePgImp page_id s)
  | CWrite frame_id d => write_data frame_id d s
  end.

(** The states of a pool: built by the constructor, for any [replacer_k]
    and any disk, then changed by calls that return or throw.  Frame ids are
    [int]s: the constructor casts the index of each frame to one, so the
    pool size is one that this cast keeps, below [2 ^ 31]. *)
Inductive reachable : Pool → Prop :=
| reach_init pool_size replacer_k dk :
    (Z.of_nat pool_size < 2 ^ 31)%Z →
    reachable (init pool_size replacer_k dk)
| reach_exec c s s' : reachable s → exec c s = Some s' → reachable s'.

(** A sequence of calls, each of which returns or throws. *)
Fixpoint run (cs : list call) (s : Pool) : option Pool :=
  match cs with
  | [] => Some s
  | c :: cs' => match exec c s with
                | Some s' => run cs' s'
                | None => None
                end
  end.

(** Every frame has a positive pin count. *)
Definition every_frame_pinned (s : Pool) : Prop :=
  ∀ f pg, page_at s f = Some pg → (0 < pin_count_ pg)%Z.

(** No page id in the page table agrees with [page_id] on the low [D] bits
    of the hash, unless it is [page_id]. *)
Definition told_apart (D : nat) (s : Pool) (page_id : Z) : Prop :=
  ∀ q, is_Some (EHT.Find hash (page_table_ s) q) →
       hash q mod 2 ^ D = hash page_id mod 2 ^ D → q = page_id.

(** ** Invariant *)

(** With [K = 1] the replacer's first [RecordAccess] of a frame is
    undefined, so no frame ever gets an access history ([inv_k]). *)
Record inv (s : Pool) : Prop := mk_inv {
  inv_replacer : LRUK.wf (replacer_ s);
  inv_table    : EHT.wf hash (page_table_ s);
  inv_size     : LRUK.replacer_size_ (replacer_ s) = length (pages_ s);
  inv_small    : (Z.of_nat (length (pages_ s)) < 2 ^ 31)%Z;
  inv_k        : LRUK.k_ (replacer_ s) = 1 →
                   ∀ f, LRUK.access_count (replacer_ s) f = 0;
  inv_resident : ∀ p f, EHT.Find hash (page_table_ s) p = Some f →
                   ∃ pg, page_at s f = Some pg ∧ page_id_ pg = p ∧ f ∉ free_list_ s;
  inv_free_nodup : NoDup (free_list_ s);
  inv_free     : ∀ f, f ∈ free_list_ s →
                   ∃ pg, page_at s f = Some pg ∧ pin_count_ pg = 0%Z;
  inv_used     : ∀ f pg, page_at s f = Some pg → f ∉ free_list_ s →
                   0 < LRUK.access_count (replacer_ s) f ∧ (0 ≤ pin_count_ pg)%Z ∧
                   (LRUK.is_evictable (replacer_ s) f = true ↔ pin_count_ pg = 0%Z);
  inv_tracked  : ∀ f, 0 < LRUK.access_count (replacer_ s) f →
                   is_Some (page_at s f) ∧ f ∉ free_list_ s;
  inv_bucket   : EHT.bucket_size_ (page_table_ s) = bucket_size
}.

(** The invariant between the moment [NewPgImp] or [FetchPgImp] has taken the
    frame [f] out of the free list or the replacer and the moment it has
    published it again: [f] is in neither, and every other frame is as in
    [inv]. *)
Record inv_limbo (f : Z) (s : Pool) : Prop := mk_inv_limbo {
  limbo_replacer : LRUK.wf (replacer_ s);
  limbo_table    : EHT.wf hash (page_table_ s);
  limbo_size     : LRUK.replacer_size_ (replacer_ s) = length (pages_ s);
  limbo_small    : (Z.of_nat (length (pages_ s)) < 2 ^ 31)%Z;
  limbo_k        : LRUK.k_ (replacer_ s) = 1 →
                     ∀ f', LRUK.access_count (replacer_ s) f' = 0;
  limbo_resident : ∀ p f', EHT.Find hash (page_table_ s) p = Some f' →
                     ∃ pg, page_at s f' = Some pg ∧ page_id_ pg = p ∧ f' ∉ free_list_ s;
  limbo_free_nodup : NoDup (free_list_ s);
  limbo_free     : ∀ f', f' ∈ free_list_ s →
                     ∃ pg, page_at s f' = Some pg ∧ pin_count_ pg = 0%Z;
  limbo_used     : ∀ f' pg, page_at s f' = Some pg → f' ∉ free_list_ s → f' ≠ f →
                     0 < LRUK.access_count (replacer_ s) f' ∧ (0 ≤ pin_count_ pg)%Z ∧
                     (LRUK.is_evictable (replacer_ s) f' = true ↔ pin_count_ pg = 0%Z);
  limbo_tracked  : ∀ f', 0 < LRUK.access_count (replacer_ s) f' →
                     is_Some (page_at s f') ∧ f' ∉ free_list_ s;
  limbo_page     : is_Some (page_at s f);
  limbo_not_free : f ∉ free_list_ s;
  limbo_untracked : LRUK.access_count (replacer_ s) f = 0;
  limbo_bucket   : EHT.bucket_size_ (page_table_ s) = bucket_size
}.

(** What the reuse of the frame [f] for the page [pid] leaves behind, in
    [NewPgImp] and on the miss path of [FetchPgImp] alike: the frame held an
    unpinned page, written to disk if it was dirty; no other frame changes;
    the page table loses the old page id and gains [pid]; and the frame came
    from the front of the free list, or, the free list being empty, from the
    replacer. *)
Definition reused (s s' : Pool) (pid f : Z) : Prop :=
  ∃ old, page_at s f = Some old ∧ pin_count_ old = 0%Z ∧
    disk_ s' = (if is_dirty_ old
                then WritePage (page_id_ old) (data_ old) (disk_ s) else disk_ s) ∧
    (∀ f', f' ≠ f → page_at s' f' = page_at s f') ∧
    (∀ q, EHT.Find hash (page_table_ s') q =
          if decide (q = pid) then Some f
          else if decide (q = page_id_ old) then None
          else EHT.Find hash (page_table_ s) q) ∧
    (free_list_ s = f :: free_list_ s' ∨
     (free_list_ s = [] ∧ free_list_ s' = [] ∧
      LRUK.is_evictable (replacer_ s) f = true ∧
      ∃ r1, LRUK.Evict (replacer_ s) = Ret (Some f) r1)).

End Pool.

(** A concrete pool: two frames, LRU-2, buffers that hold one number, and
    the hash of a page id taken as its absolute value.  Two pages are
    created, and page 0 is unpinned. *)
Definition example_hash (z : Z) : nat := Z.to_nat (Z.abs z).

Definition example_start : Pool (Data:=nat) :=
  init 0 2 2 2 (mkDisk ∅ []).

Definition example_pool : Pool (Data:=nat) :=
  default example_start
    (run 0 example_hash [CNew 4; CNew 4; CUnpin 0 true] example_start).

(** The pool that [BufferPoolManagerInstance(2, disk_manager, 1)] builds:
    two frames and a replacer with [K = 1]. *)
Definition lru1_pool : Pool (Data:=nat) :=
  init 0 2 2 1 (mkDisk ∅ []).

End BPM.

(* ===================================================================== *)
(** * B+-tree internal page                                               *)
(* ===================================================================== *)

Module BPT.
Section InternalPage.

Context {KeyType Data : Type}.

(** The [KeyComparator]: negative, zero or positive. *)
Variable comparator : KeyType → KeyType → Z.

(** The buffer pool the page operations run against. *)
Variable zero : Data.
Variable hash : Z → nat.

(** [reinterpret_cast<BPlusTreePage *>(page->GetData())->SetParentPageId(id)]
    on the buffer of a child page. *)
Variable SetParentPageId : Z → Data → Data.

(** Modelled from the spec: the header of [BPlusTreePage] is declared in
    storage/page/b_plus_tree_page.h, which is not among the sources.  The
    spec lists its fields (current size, max size, page id, parent id); the
    slots that follow it in the page buffer are [array_], as many as the
    buffer has room for, of which the first [size_] are in use. *)
Record InternalPage : Type := mkInternal {
  size_           : Z;
  max_size_       : Z;
  parent_page_id_ : Z;
  page_id_        : Z;
  array_          : list (KeyType * Z)
}.

(** [GetMinSize] belongs to the same missing header. *)
Variable GetMinSize : InternalPage → Z.

Definition GetSize (pg : InternalPage) : Z := size_ pg.
Definition GetPageId (pg : InternalPage) : Z := page_id_ pg.

Definition SetSize (n : Z) (pg : InternalPage) : InternalPage :=
  mkInternal n (max_size_ pg) (parent_page_id_ pg) (page_id_ pg) (array_ pg).

Definition IncreaseSize (n : Z) (pg : InternalPage) : InternalPage :=
  SetSize (size_ pg + n) pg.

Definition set_array (l : list (KeyType * Z)) (pg : InternalPage) : InternalPage :=
  mkInternal (size_ pg) (max_size_ pg) (parent_page_id_ pg) (page_id_ pg) l.

(** [array_[index]]; [None] outside the buffer. *)
Definition slot_at (pg : InternalPage) (index : Z) : option (KeyType * Z) :=
  if (index <? 0)%Z then None else array_ pg !! Z.to_nat index.

Definition KeyAt (pg : InternalPage) (index : Z) : option KeyType :=
  fst <$> slot_at pg index.

Definition ValueAt (pg : InternalPage) (index : Z) : option Z :=
  snd <$> slot_at pg index.

Definition SetKeyAt (index : Z) (key : KeyType) (pg : InternalPage)
  : option InternalPage :=
  match slot_at pg index with
  | Some (_, v) => Some (set_array (<[Z.to_nat index := (key, v)]> (array_ pg)) pg)
  | None => None
  end.

(** [std::lower_bound(first, first + len, key, comp)] over the slots, with
    [comp(pair, k) = comparator(pair.first, k) < 0]: the halving loop of the
    library.  [fuel] bounds the iterations; [len] of them are enough. *)
Fixpoint lower_bound_loop (fuel : nat) (pg : InternalPage) (key : KeyType)
    (first len : Z) : option Z :=
  if (len <=? 0)%Z then Some first
  else
    match fuel with
    | 0 => None
    | S fuel' =>
        let half := Z.shiftr len 1 in
        let middle := (first + half)%Z in
        match slot_at pg middle with
        | None => None
        | Some slot =>
            if (comparator slot.1 key <? 0)%Z
            then lower_bound_loop fuel' pg key (middle + 1)%Z (len - half - 1)%Z
            else lower_bound_loop fuel' pg key first half
        end
    end.

Definition lower_bound (pg : InternalPage) (key : KeyType) (first last : Z)
  : option Z :=
  lower_bound_loop (Z.to_nat (last - first)) pg key first (last - first)%Z.

(** [Lookup]; [None] when it reads outside the buffer. *)
Definition Lookup (pg : InternalPage) (key : KeyType) : option Z :=
  match lower_bound pg key 1 (GetSize pg) with
  | None => None
  | Some target =>
      if (target =? GetSize pg)%Z then ValueAt pg (GetSize pg - 1)
      else
        match slot_at pg target with
        | None => None
        | Some slot =>
            if (comparator slot.1 key =? 0)%Z then Some slot.2
            else ValueAt pg (target - 1)
        end
  end.

(** [std::copy(items, items + size, array_ + at)], where [items] points at
    slot [from] of another page: [None] for a negative count and for a read
    or a write outside a buffer. *)
Definition copy_slots (src : list (KeyType * Z)) (from size : Z)
    (dst : list (KeyType * Z)) (at_ : Z) : option (list (KeyType * Z)) :=
  if (size <? 0)%Z || (from <? 0)%Z || (at_ <? 0)%Z then None
  else if (Z.of_nat (length src) <? from + size)%Z then None
  else if (Z.of_nat (length dst) <? at_ + size)%Z then None
  else Some (take (Z.to_nat at_) dst
             ++ take (Z.to_nat size) (drop (Z.to_nat from) src)
             ++ drop (Z.to_nat (at_ + size)) dst).

(** The body of the loop of [CopyNFrom] for the child page [child]: fetch
    it, set its parent page id, unpin it as dirty.  A [nullptr] from
    [FetchPage] is dereferenced. *)
Definition adopt (fuel : nat) (parent child : Z) (b : BPM.Pool (Data:=Data))
  : result (BPM.Pool (Data:=Data)) unit :=
  match BPM.FetchPgImp zero hash fuel child b with
  | Ret (Some frame_id) b1 =>
      match BPM.page_at b1 frame_id with
      | None => Undef
      | Some page =>
          let b2 := BPM.set_page b1 frame_id
                      (BPM.mkPage (SetParentPageId parent (BPM.data_ page))
                                  (BPM.page_id_ page) (BPM.pin_count_ page)
                                  (BPM.is_dirty_ page)) in
          match BPM.UnpinPgImp hash (BPM.page_id_ page) true b2 with
          | Ret _ b3 => Ret tt b3
          | Throw b3 => Throw b3
          | Undef => Undef
          | Timeout => Timeout
          end
      end
  | Ret None _ => Undef
  | Throw b1 => Throw b1
  | Undef => Undef
  | Timeout => Timeout
  end.

(** The loop [for (i = 0; i < size; i++)] of [CopyNFrom], from [i] on, with
    [count] iterations left. *)
Fixpoint adopt_loop (fuel : nat) (pg : InternalPage) (i : Z) (count : nat)
    (b : BPM.Pool (Data:=Data)) : result (BPM.Pool (Data:=Data)) unit :=
  match count with
  | 0 => Ret tt b
  | S count' =>
      match ValueAt pg (i + GetSize pg) with
      | None => Undef
      | Some child =>
          match adopt fuel (GetPageId pg) child b with
          | Ret _ b' => adopt_loop fuel pg (i + 1)%Z count' b'
          | Throw b' => Throw b'
          | Undef => Undef
          | Timeout => Timeout
          end
      end
  end.

(** [CopyNFrom(items, size, bpm)] on the page [pg], with [items] pointing
    at slot [from] of [src]. *)
Definition CopyNFrom (fuel : nat) (src : list (KeyType * Z)) (from size : Z)
    (pg : InternalPage) (b : BPM.Pool (Data:=Data))
  : result (BPM.Pool (Data:=Data)) InternalPage :=
  match copy_slots src from size (array_ pg) (GetSize pg) with
  | None => Undef
  | Some l =>
      let pg1 := set_array l pg in
      match adopt_loop fuel pg1 0 (Z.to_nat size) b with
      | Ret _ b' => Ret (IncreaseSize size pg1) b'
      | Throw b' => Throw b'
      | Undef => Undef
      | Timeout => Timeout
      end
  end.

(** [MoveHalfTo]: the page itself and the recipient, as they are left.
    Both are views of page buffers that the caller holds; they are kept
    apart from the buffers of the children that the pool hands out, so a
    slot that names the page itself or the recipient as its child is outside
    what is modelled. *)
Definition MoveHalfTo (fuel : nat) (this recipient : InternalPage)
    (b : BPM.Pool (Data:=Data))
  : result (BPM.Pool (Data:=Data)) (InternalPage * InternalPage) :=
  let start_split_indx := GetMinSize this in
  let original_size := GetSize this in
  let this' := SetSize start_split_indx this in
  match CopyNFrom fuel (array_ this') start_split_indx
          (original_size - start_split_indx) recipient b with
  | Ret recipient' b' => Ret (this', recipient') b'
  | Throw b' => Throw b'
  | Undef => Undef
  | Timeout => Timeout
  end.

(** ** What the statements speak of *)

(** The keys at indices [1 .. size - 1] increase strictly. *)
Definition keys_increasing (pg : InternalPage) : Prop :=
  ∀ i j ki kj, (1 ≤ i)%Z → (i < j)%Z → (j < GetSize pg)%Z →
    KeyAt pg i = Some ki → KeyAt pg j = Some kj → (comparator ki kj < 0)%Z.

(** The comparator is a three-way comparison of a total preorder. *)
Definition three_way : Prop :=
  (∀ a b, Z.sgn (comparator b a) = (- Z.sgn (comparator a b))%Z) ∧
  (∀ a b c, (comparator a b ≤ 0)%Z → (comparator b c ≤ 0)%Z →
            (comparator a c ≤ 0)%Z).

(** The children [cs] are adopted one after the other by the page [parent],
    taking the pool from [b] to [b']: each child is fetched into a frame of
    the pool, where it is pinned; the parent page id in its buffer is set;
    and it is unpinned as dirty, which leaves its frame with the new parent
    id, the dirty flag set and the pin count it had before the fetch. *)
Inductive adopted (GetParentPageId : Data → Z) (parent : Z)
  : list Z → BPM.Pool (Data:=Data) → BPM.Pool (Data:=Data) → Prop :=
| adopted_nil b : adopted GetParentPageId parent [] b b
| adopted_cons child cs b fuel frame_id b1 page b3 page3 b' :
    BPM.FetchPgImp zero hash fuel child b = Ret (Some frame_id) b1 →
    BPM.page_at b1 frame_id = Some page →
    BPM.page_id_ page = child → (0 < BPM.pin_count_ page)%Z →
    BPM.UnpinPgImp hash child true
      (BPM.set_page b1 frame_id
         (BPM.mkPage (SetParentPageId parent (BPM.data_ page)) child
                     (BPM.pin_count_ page) (BPM.is_dirty_ page)))
    = Ret true b3 →
    BPM.page_at b3 frame_id = Some page3 →
    BPM.page_id_ page3 = child →
    GetParentPageId (BPM.data_ page3) = parent →
    BPM.is_dirty_ page3 = true →
    BPM.pin_count_ page3 = (BPM.pin_count_ page - 1)%Z →
    adopted GetParentPageId parent cs b3 b' →
    adopted GetParentPageId parent (child :: cs) b b'.

(** The slots [[min_size, size)] of a page, which [MoveHalfTo] moves. *)
Definition upper_half (pg : InternalPage) : list (KeyType * Z) :=
  take (Z.to_nat (GetSize pg - GetMinSize pg))
       (drop (Z.to_nat (GetMinSize pg)) (array_ pg)).

(** Page ids that the hash must tell apart within [D] bits for the page
    table to take them in: those resident in [b] and those in [cs]. *)
Definition hash_tells_apart (D : nat) (b : BPM.Pool (Data:=Data)) (cs : list Z) : Prop :=
  ∀ q q', (is_Some (EHT.Find hash (BPM.page_table_ b) q) ∨ q ∈ cs) →
          (is_Some (EHT.Find hash (BPM.page_table_ b) q') ∨ q' ∈ cs) →
          hash q mod 2 ^ D = hash q' mod 2 ^ D → q = q'.

(** ** The other operations of the page *)

Definition SetValueAt (index : Z) (value : Z) (pg : InternalPage)
  : option InternalPage :=
  match slot_at pg index with
  | Some (k, _) => Some (set_array (<[Z.to_nat index := (k, value)]> (array_ pg)) pg)
  | None => None
  end.

(** [array_[index] = slot]; [None] outside the buffer. *)
Definition write_slot (index : Z) (slot : KeyType * Z) (pg : InternalPage)
  : option InternalPage :=
  match slot_at pg index with
  | Some _ => Some (set_array (<[Z.to_nat index := slot]> (array_ pg)) pg)
  | None => None
  end.

(** The loop of [std::find_if] in [ValueIndex], with [count] slots left to
    look at from [i] on. *)
Fixpoint value_index_loop (count : nat) (pg : InternalPage) (value : Z) (i : Z)
  : option Z :=
  match count with
  | 0 => Some i
  | S count' =>
      match slot_at pg i with
      | None => None
      | Some slot =>
          if (slot.2 =? value)%Z then Some i
          else value_index_loop count' pg value (i + 1)%Z
      end
  end.

(** [ValueIndex]: the index of the first slot in use whose value is [value],
    the size when there is none.  [None] for a negative size, which makes
    the range of [find_if] invalid, and for a read outside the buffer. *)
Definition ValueIndex (value : Z) (pg : InternalPage) : option Z :=
  if (GetSize pg <? 0)%Z then None
  else value_index_loop (Z.to_nat (GetSize pg)) pg value 0.

(** [std::move_backward(array_ + first, array_ + last, array_ + d_last)] and
    [std::move(array_ + first, array_ + last, array_ + d_first)] within one
    buffer, for the two directions the page uses them in (to the right, to
    the left): every slot is read before it is overwritten. *)
Definition move_backward_slots (first last d_last : Z) (l : list (KeyType * Z))
  : option (list (KeyType * Z)) :=
  copy_slots l first (last - first) l (d_last - (last - first)).

Definition move_slots (first last d_first : Z) (l : list (KeyType * Z))
  : option (list (KeyType * Z)) :=
  copy_slots l first (last - first) l d_first.

Definition PopulateNewRoot (old_value : Z) (new_key : KeyType) (new_value : Z)
    (pg : InternalPage) : option InternalPage :=
  match SetKeyAt 1 new_key pg with
  | None => None
  | Some pg1 =>
      match SetValueAt 0 old_value pg1 with
      | None => None
      | Some pg2 =>
          match SetValueAt 1 new_value pg2 with
          | None => None
          | Some pg3 => Some (SetSize 2 pg3)
          end
      end
  end.

(** [InsertNodeAfter]: the new size and the page. *)
Definition InsertNodeAfter (old_value : Z) (new_key : KeyType) (new_value : Z)
    (pg : InternalPage) : option (Z * InternalPage) :=
  match ValueIndex old_value pg with
  | None => None
  | Some value_index =>
      let new_value_idx := (value_index + 1)%Z in
      match move_backward_slots new_value_idx (GetSize pg) (GetSize pg + 1)
              (array_ pg) with
      | None => None
      | Some l =>
          match write_slot new_value_idx (new_key, new_value) (set_array l pg) with
          | None => None
          | Some pg1 => let pg2 := IncreaseSize 1 pg1 in Some (GetSize pg2, pg2)
          end
      end
  end.

(** [Remove(index)]. *)
Definition Remove (index : Z) (pg : InternalPage) : option InternalPage :=
  match move_slots (index + 1) (GetSize pg) index (array_ pg) with
  | None => None
  | Some l => Some (IncreaseSize (-1) (set_array l pg))
  end.

Definition RemoveAndReturnOnlyChild (pg : InternalPage) : option (Z * InternalPage) :=
  match ValueAt pg 0 with
  | None => None
  | Some only_value => Some (only_value, SetSize 0 pg)
  end.

(** [CopyLastFrom(pair, bpm)] on the page [pg]. *)
Definition CopyLastFrom (fuel : nat) (slot : KeyType * Z) (pg : InternalPage)
    (b : BPM.Pool (Data:=Data)) : result (BPM.Pool (Data:=Data)) InternalPage :=
  match write_slot (GetSize pg) slot pg with
  | None => Undef
  | Some pg1 =>
      let pg2 := IncreaseSize 1 pg1 in
      match adopt fuel (GetPageId pg2) slot.2 b with
      | Ret _ b' => Ret pg2 b'
      | Throw b' => Throw b'
      | Undef => Undef
      | Timeout => Timeout
      end
  end.

(** [CopyFirstFrom(pair, bpm)] on the page [pg]. *)
Definition CopyFirstFrom (fuel : nat) (slot : KeyType * Z) (pg : InternalPage)
    (b : BPM.Pool (Data:=Data)) : result (BPM.Pool (Data:=Data)) InternalPage :=
  match move_backward_slots 0 (GetSize pg) (GetSize pg + 1) (array_ pg) with
  | None => Undef
  | Some l =>
      match write_slot 0 slot (set_array l pg) with
      | None => Undef
      | Some pg1 =>
          let pg2 := IncreaseSize 1 pg1 in
          match adopt fuel (GetPageId pg2) slot.2 b with
          | Ret _ b' => Ret pg2 b'
          | Throw b' => Throw b'
          | Undef => Undef
          | Timeout => Timeout
          end
      end
  end.

(** [MoveAllTo]: the page itself and the recipient, as they are left. *)
Definition MoveAllTo (fuel : nat) (middle_key : KeyType)
    (this recipient : InternalPage) (b : BPM.Pool (Data:=Data))
  : result (BPM.Pool (Data:=Data)) (InternalPage * InternalPage) :=
  match SetKeyAt 0 middle_key this with
  | None => Undef
  | Some this1 =>
      match CopyNFrom fuel (array_ this1) 0 (GetSize this1) recipient b with
      | Ret recipient' b' => Ret (SetSize 0 this1, recipient') b'
      | Throw b' => Throw b'
      | Undef => Undef
      | Timeout => Timeout
      end
  end.

Definition MoveFirstToEndOf (fuel : nat) (middle_key : KeyType)
    (this recipient : InternalPage) (b : BPM.Pool (Data:=Data))
  : result (BPM.Pool (Data:=Data)) (InternalPage * InternalPage) :=
  match SetKeyAt 0 middle_key this with
  | None => Undef
  | Some this1 =>
      match slot_at this1 0 with
      | None => Undef
      | Some first_item =>
          match CopyLastFrom fuel first_item recipient b with
          | Ret recipient' b' =>
              match move_slots 1 (GetSize this1) 0 (array_ this1) with
              | None => Undef
              | Some l => Ret (IncreaseSize (-1) (set_array l this1), recipient') b'
              end
          | Throw b' => Throw b'
          | Undef => Undef
          | Timeout => Timeout
          end
      end
  end.

Definition MoveLastToFrontOf (fuel : nat) (middle_key : KeyType)
    (this recipient : InternalPage) (b : BPM.Pool (Data:=Data))
  : result (BPM.Pool (Data:=Data)) (InternalPage * InternalPage) :=
  match slot_at this (GetSize this - 1) with
  | None => Undef
  | Some last_item =>
      match SetKeyAt 0 middle_key recipient with
      | None => Undef
      | Some recipient1 =>
          match CopyFirstFrom fuel last_item recipient1 b with
          | Ret recipient' b' => Ret (IncreaseSize (-1) this, recipient') b'
          | Throw b' => Throw b'
          | Undef => Undef
          | Timeout => Timeout
          end
      end
  end.

(** The slots in use. *)
Definition slots (pg : InternalPage) : list (KeyType * Z) :=
  take (Z.to_nat (GetSize pg)) (array_ pg).

(** The buffer [l] of a page with [n] slots in use after the slots from
    [idx] on have moved one place to the right and [x] has been written at
    [idx], and after the slots behind [idx] have moved one place to the left
    over it. *)
Definition shifted_right (idx n : nat) (x : KeyType * Z) (l : list (KeyType * Z))
  : list (KeyType * Z) :=
  take idx l ++ x :: take (n - idx) (drop idx l) ++ drop (S n) l.

Definition shifted_left (idx n : nat) (l : list (KeyType * Z)) : list (KeyType * Z) :=
  take idx l ++ take (n - S idx) (drop (S idx) l) ++ drop (n - 1) l.

End InternalPage.

(** Concrete pages, with integer keys compared by subtraction and a buffer
    that holds the parent page id: a page of four slots in use that gives its
    upper half to an empty sibling, over a pool of three frames. *)
Definition int_comparator (a b : Z) : Z := (a - b)%Z.

Definition left_page : InternalPage (KeyType:=Z) :=
  mkInternal 4 4 (-1) 7 [(0, 20); (10, 21); (20, 22); (30, 23)]%Z.

Definition right_page : InternalPage (KeyType:=Z) :=
  mkInternal 0 4 (-1) 8 [(0, 0); (0, 0); (0, 0); (0, 0)]%Z.

Definition half_min_size (pg : InternalPage (KeyType:=Z)) : Z := ((max_size_ pg + 1) / 2)%Z.

Definition set_parent (id : Z) (d : Z) : Z := id.
Definition get_parent (d : Z) : Z := d.

Definition pool3 : BPM.Pool (Data:=Z) :=
  BPM.init (-1)%Z 2 3 2 (BPM.mkDisk ∅ []).

(** A pool whose only frame is pinned. *)
Definition pool1_pinned : BPM.Pool (Data:=Z) :=
  default (BPM.init (-1)%Z 2 1 2 (BPM.mkDisk ∅ []))
    (BPM.run (-1)%Z BPM.example_hash [BPM.CNew 4]
       (BPM.init (-1)%Z 2 1 2 (BPM.mkDisk ∅ []))).

(** A pool whose two frames are pinned and hold the pages 22 and 23. *)
Definition pool2_resident : BPM.Pool (Data:=Z) :=
  default (BPM.init (-1)%Z 2 2 2 (BPM.mkDisk ∅ []))
    (BPM.run (-1)%Z BPM.example_hash [BPM.CFetch 4 22; BPM.CFetch 4 23]
       (BPM.init (-1)%Z 2 2 2 (BPM.mkDisk ∅ []))).

(** A page with three of its six slots in use. *)
Definition roomy_page : InternalPage (KeyType:=Z) :=
  mkInternal 3 6 (-1) 9 [(0, 20); (10, 21); (30, 23); (0, 0); (0, 0); (0, 0)]%Z.

End BPT.

(* ===================================================================== *)
(** * Properties                                                          *)
(* ===================================================================== *)

(** Proof steps used throughout. *)
Ltac arith := intuition (try lia; try congruence).
Ltac splits := repeat match goal with |- _ ∧ _ => split end.

(* ===================================================================== *)
(** * Low bits of directory indices                                       *)
(* ===================================================================== *)

(** [a & ((1 << n) - 1)] keeps the low [n] bits. *)
Lemma land_mask_mod (a n : nat) : Nat.land a (Nat.shiftl 1 n - 1) = a mod 2 ^ n.
Proof.
  rewrite Nat.shiftl_1_l, <- Nat.land_ones, Nat.ones_equiv.
  f_equal. lia.
Qed.

(** [(i & (1 << L)) == 0] tests bit [L]. *)
Lemma land_bit_zero (i L : nat) :
  (Nat.land i (Nat.shiftl 1 L) =? 0) = negb (Nat.testbit i L).
Proof.
  rewrite Nat.shiftl_1_l.
  destruct (Nat.testbit i L) eqn:Hb; simpl.
  - apply Nat.eqb_neq. intros H0.
    assert (Hc : Nat.testbit (Nat.land i (2 ^ L)) L = true).
    { rewrite Nat.land_spec, Hb, Nat.pow2_bits_true. reflexivity. }
    rewrite H0 in Hc. rewrite Nat.bits_0 in Hc. discriminate.
  - apply Nat.eqb_eq. apply Nat.bits_inj. intros m.
    rewrite Nat.land_spec, Nat.bits_0, Nat.pow2_bits_eqb.
    destruct (Nat.eqb_spec L m) as [->|]; [rewrite Hb|]; auto using andb_false_r.
Qed.

Lemma mod_pow2_succ (i L : nat) :
  i mod 2 ^ S L = i mod 2 ^ L + (if Nat.testbit i L then 2 ^ L else 0).
Proof.
  replace (2 ^ S L) with (2 ^ L * 2) by (simpl; lia).
  rewrite Nat.Div0.mod_mul_r. f_equal.
  rewrite <- Nat.testbit_spec'. destruct (Nat.testbit i L); simpl; lia.
Qed.

Lemma mod_mod_pow2 (j L G : nat) : L ≤ G → (j mod 2 ^ G) mod 2 ^ L = j mod 2 ^ L.
Proof.
  intros HLG. replace G with (L + (G - L)) by lia.
  rewrite Nat.pow_add_r, Nat.Div0.mod_mul_r.
  rewrite (Nat.mul_comm (2 ^ L)), Nat.Div0.mod_add.
  apply Nat.Div0.mod_mod.
Qed.

Lemma pow2_pos (n : nat) : 0 < 2 ^ n.
Proof. induction n; simpl; lia. Qed.

(** Indices that agree on their low [S L] bits agree on the low [L] bits and
    on bit [L], and conversely. *)
Lemma same_low_succ (i j L : nat) :
  i mod 2 ^ S L = j mod 2 ^ S L ↔
  i mod 2 ^ L = j mod 2 ^ L ∧ Nat.testbit i L = Nat.testbit j L.
Proof.
  rewrite !mod_pow2_succ.
  pose proof (Nat.mod_upper_bound i (2 ^ L)) as Hi.
  pose proof (Nat.mod_upper_bound j (2 ^ L)) as Hj.
  pose proof (pow2_pos L).
  destruct (Nat.testbit i L), (Nat.testbit j L); split; intros; try lia;
    try (split; [lia | reflexivity]); destruct H0; try lia; discriminate.
Qed.

(** Among [m] consecutive indices starting at a multiple of [m], exactly one
    has a given residue. *)
Lemma count_residue_block (m r c : nat) :
  r < m →
  length (filter (λ j, j mod m = r) (seq (c * m) m)) = 1.
Proof.
  intros Hr.
  assert (Hgen : ∀ n s, length (filter (λ j, j mod m = r) (seq (c * m + s) n))
                 = length (filter (λ x, x = r) (seq s n)) ∨ m ≤ s + n ∧ m < s + n).
  { induction n as [|n IH]; intros s; [left; reflexivity|].
    destruct (decide (m < s + S n)) as [Hlt|Hge]; [right; lia|]. left.
    simpl. rewrite !filter_cons.
    assert (Hmod : (c * m + s) mod m = s).
    { rewrite Nat.add_comm, Nat.Div0.mod_add. apply Nat.mod_small. lia. }
    destruct (IH (S s)) as [IH'|?]; [|lia].
    replace (c * m + S s) with (S (c * m + s)) in IH' by lia.
    rewrite Hmod. destruct (decide (s = r)); simpl; rewrite IH'; reflexivity. }
  destruct (Hgen m 0) as [Heq|?]; [|lia].
  rewrite Nat.add_0_r in Heq. rewrite Heq. clear Heq Hgen.
  assert (Hone : ∀ n s, s ≤ r → r < s + n →
            length (filter (λ x, x = r) (seq s n)) = 1).
  { induction n as [|n IH]; intros s Hs Hlt; [lia|].
    simpl. rewrite filter_cons. destruct (decide (s = r)) as [->|Hne]; simpl.
    - f_equal. clear IH. assert (Hz : ∀ n s, r < s → filter (λ x, x = r) (seq s n) = []).
      { clear. induction n as [|n IH]; intros s Hs; [reflexivity|].
        simpl. rewrite filter_cons. destruct (decide (s = r)); [lia|].
        apply IH. lia. }
      rewrite Hz; [reflexivity | lia].
    - apply IH; lia. }
  apply Hone; lia.
Qed.

Lemma filter_ext_elem {A} (P Q : A → Prop) `{∀ x, Decision (P x)} `{∀ x, Decision (Q x)}
    (l : list A) :
  (∀ x, x ∈ l → P x ↔ Q x) → filter P l = filter Q l.
Proof.
  induction l as [|x l IH]; intros Hext; [reflexivity|].
  rewrite !filter_cons. rewrite IH by (intros y Hy; apply Hext; right; exact Hy).
  destruct (decide (P x)) as [Hp|Hp], (decide (Q x)) as [Hq|Hq]; try reflexivity;
    exfalso; apply (Hext x ltac:(left)) in Hp || apply (Hext x ltac:(left)) in Hq; auto.
Qed.

Lemma count_residue (m r c : nat) :
  r < m →
  length (filter (λ j, j mod m = r) (seq 0 (c * m))) = c.
Proof.
  intros Hr. induction c as [|c IH]; [reflexivity|].
  replace (S c * m) with (c * m + m) by lia.
  rewrite seq_app, filter_app, length_app, IH. simpl.
  rewrite count_residue_block by assumption. lia.
Qed.

(** A [size_t] value below [2 ^ 31] is the same number as an [int]. *)
Lemma static_cast_int_small (n : Z) :
  (0 ≤ n < 2 ^ 31)%Z → static_cast_int n = n.
Proof.
  intros Hn. unfold static_cast_int.
  rewrite Z.mod_small by lia. lia.
Qed.

(* ===================================================================== *)
(** * Extendible hash table: properties                                   *)
(* ===================================================================== *)

Module EHT_Facts.
Import EHT.

Section Lists.
Context {K V : Type} `{EqDecision K}.
Implicit Types (l : list (K * V)) (k key : K) (v value : V).

Lemma find_key_elem l k v : list_find_key k l = Some v → (k, v) ∈ l.
Proof.
  induction l as [|[k0 v0] l IH]; simpl; [discriminate|].
  destruct (decide (k0 = k)) as [->|]; intros Hf.
  - injection Hf as ->. left.
  - right. auto.
Qed.

Lemma find_key_None l k : list_find_key k l = None ↔ k ∉ l.*1.
Proof.
  induction l as [|[k0 v0] l IH]; simpl.
  - split; [intros _; apply not_elem_of_nil | reflexivity].
  - rewrite not_elem_of_cons. destruct (decide (k0 = k)) as [->|Hne].
    + split; [discriminate | intros [? _]; congruence].
    + rewrite IH. split; [intros; split; [congruence | assumption] | intros [_ ?]; assumption].
Qed.

Lemma find_key_nodup l k v : NoDup l.*1 → (k, v) ∈ l → list_find_key k l = Some v.
Proof.
  induction l as [|[k0 v0] l IH]; simpl; intros Hnd Hin.
  - apply elem_of_nil in Hin as [].
  - apply NoDup_cons in Hnd as [Hk0 Hnd].
    apply elem_of_cons in Hin as [Heq|Hin].
    + injection Heq as -> ->. rewrite decide_True; reflexivity.
    + destruct (decide (k0 = k)) as [->|]; [|auto].
      exfalso. apply Hk0. apply (list_elem_of_fmap_2 fst) in Hin. exact Hin.
Qed.

Lemma find_key_app l1 l2 k :
  list_find_key k (l1 ++ l2) =
  match list_find_key k l1 with Some v => Some v | None => list_find_key k l2 end.
Proof.
  induction l1 as [|[k0 v0] l1 IH]; simpl; [reflexivity|].
  destruct (decide (k0 = k)); [reflexivity | exact IH].
Qed.

Lemma find_key_filter (P : K → bool) l k :
  list_find_key k (filter (λ kv, P kv.1 = true) l) =
  if P k then list_find_key k l else None.
Proof.
  induction l as [|[k0 v0] l IH]; simpl; [destruct (P k); reflexivity|].
  rewrite filter_cons. simpl.
  destruct (decide (P k0 = true)) as [Hp|Hp]; simpl.
  - destruct (decide (k0 = k)) as [->|]; [rewrite Hp; reflexivity | exact IH].
  - rewrite IH. destruct (decide (k0 = k)) as [->|]; [|reflexivity].
    destruct (P k); [congruence | reflexivity].
Qed.

Lemma update_key_None l k v : list_update_key k v l = None ↔ k ∉ l.*1.
Proof.
  induction l as [|[k0 v0] l IH]; simpl.
  - split; [intros _; apply not_elem_of_nil | reflexivity].
  - rewrite not_elem_of_cons. destruct (decide (k0 = k)) as [->|Hne].
    + split; [discriminate | intros [? _]; congruence].
    + destruct (list_update_key k v l) eqn:Hu.
      * split; [discriminate|]. intros [_ Hn]. apply IH in Hn. discriminate.
      * split; [|reflexivity]. intros _. split; [congruence|]. apply IH. reflexivity.
Qed.

Lemma update_key_Some l k v l' :
  list_update_key k v l = Some l' →
  l'.*1 = l.*1 ∧ length l' = length l ∧ list_find_key k l' = Some v ∧
  (∀ k', k' ≠ k → list_find_key k' l' = list_find_key k' l).
Proof.
  revert l'. induction l as [|[k0 v0] l IH]; simpl; intros l'; [discriminate|].
  destruct (decide (k0 = k)) as [->|Hne].
  - intros Hs. injection Hs as <-. simpl. rewrite decide_True by reflexivity.
    repeat split. intros k' Hk'. rewrite decide_False by congruence.
    rewrite decide_False by congruence. reflexivity.
  - destruct (list_update_key k v l) as [r|] eqn:Hu; [|discriminate].
    intros Hs. injection Hs as <-. destruct (IH r eq_refl) as (H1 & H2 & H3 & H4).
    repeat split.
    + rewrite !fmap_cons. f_equal. assumption.
    + simpl. lia.
    + simpl. rewrite decide_False by assumption. assumption.
    + intros k' Hk'. simpl. destruct (decide (k0 = k')); [reflexivity | auto].
Qed.

Lemma erase_key_None l k : list_erase_key k l = None ↔ k ∉ l.*1.
Proof.
  induction l as [|[k0 v0] l IH]; simpl.
  - split; [intros _; apply not_elem_of_nil | reflexivity].
  - rewrite not_elem_of_cons. destruct (decide (k0 = k)) as [->|Hne].
    + split; [discriminate | intros [? _]; congruence].
    + destruct (list_erase_key k l) eqn:Hu.
      * split; [discriminate|]. intros [_ Hn]. apply IH in Hn. discriminate.
      * split; [|reflexivity]. intros _. split; [congruence|]. apply IH. reflexivity.
Qed.

Lemma erase_key_Some l k l' :
  list_erase_key k l = Some l' →
  l' ⊆ l ∧ length l' ≤ length l ∧ (NoDup l.*1 → NoDup l'.*1) ∧
  (NoDup l.*1 → list_find_key k l' = None) ∧
  (∀ k', k' ≠ k → list_find_key k' l' = list_find_key k' l).
Proof.
  revert l'. induction l as [|[k0 v0] l IH]; simpl; intros l'; [discriminate|].
  destruct (decide (k0 = k)) as [->|Hne].
  - intros Hs. injection Hs as <-. repeat split.
    + intros x Hx. right. exact Hx.
    + lia.
    + intros Hnd. apply NoDup_cons in Hnd as [_ ?]. assumption.
    + intros Hnd. apply NoDup_cons in Hnd as [Hk _]. apply find_key_None. assumption.
    + intros k' Hk'. rewrite decide_False by congruence. reflexivity.
  - destruct (list_erase_key k l) as [r|] eqn:Hu; [|discriminate].
    intros Hs. injection Hs as <-.
    destruct (IH r eq_refl) as (H1 & H2 & H3 & H4 & H5).
    repeat split.
    + intros x Hx. apply elem_of_cons in Hx as [->|Hx]; [left | right; auto].
    + simpl. lia.
    + intros Hnd. simpl in *. apply NoDup_cons in Hnd as [Hk Hnd].
      apply NoDup_cons. split; [|auto]. intros Hin. apply Hk.
      apply list_elem_of_fmap in Hin as [[k1 v1] [-> Hin]].
      apply H1 in Hin. apply (list_elem_of_fmap_2 fst) in Hin. exact Hin.
    + intros Hnd. simpl in *. apply NoDup_cons in Hnd as [_ Hnd].
      rewrite decide_False by assumption. auto.
    + intros k' Hk'. simpl. destruct (decide (k0 = k')); [reflexivity | auto].
Qed.

Lemma update_key_elem l k v l' k' v' :
  list_update_key k v l = Some l' → (k', v') ∈ l' → k' = k ∨ (k', v') ∈ l.
Proof.
  revert l'. induction l as [|[k0 v0] l IH]; simpl; intros l'; [discriminate|].
  destruct (decide (k0 = k)) as [->|Hne].
  - intros Hs. injection Hs as <-. intros Hin.
    apply elem_of_cons in Hin as [Heq|Hin]; [left; congruence | right; right; exact Hin].
  - destruct (list_update_key k v l) as [r|] eqn:Hu; [|discriminate].
    intros Hs. injection Hs as <-. intros Hin.
    apply elem_of_cons in Hin as [Heq|Hin]; [right; rewrite Heq; left|].
    destruct (IH r eq_refl Hin); [left | right; right]; assumption.
Qed.

End Lists.
Section Facts.
Context {K V : Type} `{EqDecision K} (hash : K → nat).

Local Abbreviation Table := (@EHT.Table K V).
Local Abbreviation Bucket := (@EHT.Bucket K V).
Local Abbreviation IndexOf := (EHT.IndexOf hash).
Local Abbreviation Find := (EHT.Find hash).
Local Abbreviation Remove := (EHT.Remove hash).
Local Abbreviation Insert := (EHT.Insert hash).
Local Abbreviation Insert_loop := (EHT.Insert_loop hash).
Local Abbreviation split := (EHT.split hash).
Local Abbreviation reinsert := (EHT.reinsert hash).
Local Abbreviation wf := (EHT.wf hash).
Local Abbreviation reachable := (EHT.reachable hash).

Implicit Types (t : Table) (b : Bucket) (k key : K) (v value : V).

Lemma IndexOf_mod t k : IndexOf t k = hash k mod 2 ^ global_depth_ t.
Proof. apply land_mask_mod. Qed.

Lemma IndexOf_lt t k : wf t → IndexOf t k < length (dir_ t).
Proof.
  intros Hwf. rewrite IndexOf_mod, (wf_len _ _ Hwf).
  apply Nat.mod_upper_bound. pose proof (pow2_pos (global_depth_ t)). lia.
Qed.

Lemma dir_at_lookup t i : i < length (dir_ t) → dir_ t !! i = Some (dir_at t i).
Proof.
  intros Hi. unfold dir_at. destruct (lookup_lt_is_Some_2 _ _ Hi) as [h ->].
  reflexivity.
Qed.

Lemma dir_at_Some t i h : dir_ t !! i = Some h → dir_at t i = h.
Proof. unfold dir_at. intros ->. reflexivity. Qed.

Lemma dir_IndexOf t k : wf t → dir_ t !! IndexOf t k = Some (dir_at t (IndexOf t k)).
Proof. intros Hwf. apply dir_at_lookup, IndexOf_lt, Hwf. Qed.

Lemma deref_set_eq t h b : h < length (heap t) → deref (set_bucket t h b) h = b.
Proof.
  intros Hh. unfold deref, set_bucket. simpl.
  rewrite list_lookup_insert_eq by assumption. reflexivity.
Qed.

Lemma deref_set_ne t h h' b : h ≠ h' → deref (set_bucket t h b) h' = deref t h'.
Proof.
  intros Hh. unfold deref, set_bucket. simpl.
  rewrite list_lookup_insert_ne by assumption. reflexivity.
Qed.

Lemma wf_init bucket_size : wf (init bucket_size : Table).
Proof.
  split; simpl.
  - reflexivity.
  - intros [|i] h Hl; simplify_eq/=. lia.
  - intros [|i] h Hl; simplify_eq/=. unfold deref. simpl. lia.
  - intros [|i] j h Hl Hj; simplify_eq/=. unfold deref. simpl.
    assert (j = 0) as -> by lia. split; reflexivity.
  - intros [|i] h Hl; simplify_eq/=. reflexivity.
  - intros [|i] h Hl; simplify_eq/=. unfold deref. simpl. lia.
  - intros [|i] h Hl; simplify_eq/=. unfold deref. simpl. constructor.
  - intros [|i] h k v Hl Hin; simplify_eq/=. unfold deref in Hin. simpl in Hin.
    apply elem_of_nil in Hin as [].
  - lia.
Qed.

(** Replacing a live bucket by one of the same depth and capacity whose keys
    all belong to it keeps the table well formed. *)
Lemma wf_set_bucket t i h b :
  wf t → dir_ t !! i = Some h →
  depth_ b = depth_ (deref t h) → size_ b = bucket_size_ t →
  length (list_ b) ≤ bucket_size_ t → NoDup (list_ b).*1 →
  (∀ k v, (k, v) ∈ list_ b → dir_ t !! (hash k mod 2 ^ global_depth_ t) = Some h) →
  wf (set_bucket t h b).
Proof.
  intros Hwf Hi Hd Hs Hc Hnd Hhome.
  pose proof (wf_alloc _ _ Hwf _ _ Hi) as Hh.
  assert (Hder : ∀ h', deref (set_bucket t h b) h' =
                       if decide (h = h') then b else deref t h').
  { intros h'. destruct (decide (h = h')) as [<-|Hne];
      [apply deref_set_eq; assumption | apply deref_set_ne; assumption]. }
  split; simpl.
  - apply Hwf.
  - intros i' h' Hl. rewrite length_insert. eapply wf_alloc; eassumption.
  - intros i' h' Hl. rewrite Hder. destruct (decide (h = h')) as [<-|].
    + rewrite Hd. eapply wf_depth; eassumption.
    + eapply wf_depth; eassumption.
  - intros i' j h' Hl Hj. rewrite Hder. destruct (decide (h = h')) as [<-|].
    + rewrite Hd. eapply wf_share; eassumption.
    + eapply wf_share; eassumption.
  - intros i' h' Hl. rewrite Hder. destruct (decide (h = h')) as [<-|];
      [assumption | eapply wf_size; eassumption].
  - intros i' h' Hl. rewrite Hder. destruct (decide (h = h')) as [<-|];
      [assumption | eapply wf_cap; eassumption].
  - intros i' h' Hl. rewrite Hder. destruct (decide (h = h')) as [<-|];
      [assumption | eapply wf_nodup; eassumption].
  - intros i' h' k v Hl. rewrite Hder. destruct (decide (h = h')) as [<-|].
    + apply Hhome.
    + intros Hin. eapply wf_home; eassumption.
  - apply Hwf.
Qed.

Lemma Find_set_bucket t h b k :
  h < length (heap t) →
  Find (set_bucket t h b) k =
  if decide (dir_at t (IndexOf t k) = h) then Bucket_Find k b else Find t k.
Proof.
  intros Hh. unfold Find. change (IndexOf (set_bucket t h b) k) with (IndexOf t k).
  change (dir_at (set_bucket t h b)) with (dir_at t).
  destruct (decide (dir_at t (IndexOf t k) = h)) as [->|Hne].
  - rewrite deref_set_eq by assumption. reflexivity.
  - rewrite deref_set_ne by congruence. reflexivity.
Qed.

(** *** [Bucket::Insert] *)

Lemma Bucket_Insert_Some b k v b' :
  Bucket_Insert k v b = Some b' →
  depth_ b' = depth_ b ∧ size_ b' = size_ b ∧
  Bucket_Find k b' = Some v ∧
  (∀ k', k' ≠ k → Bucket_Find k' b' = Bucket_Find k' b) ∧
  (length (list_ b) ≤ size_ b → length (list_ b') ≤ size_ b) ∧
  (NoDup (list_ b).*1 → NoDup (list_ b').*1) ∧
  (∀ k' v', (k', v') ∈ list_ b' → k' = k ∨ (k', v') ∈ list_ b).
Proof.
  unfold Bucket_Insert, Bucket_Find.
  destruct (list_update_key k v (list_ b)) as [l'|] eqn:Hu.
  - intros Hs. injection Hs as <-. simpl.
    destruct (update_key_Some _ _ _ _ Hu) as (H1 & H2 & H3 & H4).
    repeat split; try assumption.
    + rewrite H2. auto.
    + rewrite H1. auto.
    + intros k' v'. apply update_key_elem with (v := v). assumption.
  - unfold IsFull. destruct (Nat.leb_spec (size_ b) (length (list_ b))) as [|Hlt];
      [discriminate|].
    intros Hs. injection Hs as <-. simpl.
    apply update_key_None in Hu.
    repeat split.
    + rewrite find_key_app. apply find_key_None in Hu. rewrite Hu. simpl.
      rewrite decide_True; reflexivity.
    + intros k' Hk'. rewrite find_key_app.
      destruct (list_find_key k' (list_ b)); [reflexivity|]. simpl.
      rewrite decide_False by congruence. reflexivity.
    + intros _. rewrite length_app. simpl. lia.
    + intros Hnd. rewrite fmap_app. apply NoDup_app. split; [assumption|].
      split; [|apply NoDup_singleton].
      intros x Hx Hx'. apply list_elem_of_singleton in Hx'. simpl in Hx'. congruence.
    + intros k' v' Hin. apply elem_of_app in Hin as [Hin|Hin]; [right; assumption|].
      apply list_elem_of_singleton in Hin. left. congruence.
Qed.

Lemma Bucket_Insert_None b k v :
  Bucket_Insert k v b = None ↔ (k ∉ (list_ b).*1) ∧ size_ b ≤ length (list_ b).
Proof.
  unfold Bucket_Insert, IsFull.
  destruct (list_update_key k v (list_ b)) as [l'|] eqn:Hu.
  - split; [discriminate|]. intros [Hk _]. apply (update_key_None _ _ v) in Hk. congruence.
  - apply update_key_None in Hu.
    destruct (Nat.leb_spec (size_ b) (length (list_ b))); split; try discriminate; auto.
    intros [_ ?]. lia.
Qed.

(** *** One [Bucket::Insert] that succeeds on the bucket of [key] *)

Lemma insert_here_wf t k v b' :
  wf t → Bucket_Insert k v (deref t (dir_at t (IndexOf t k))) = Some b' →
  wf (set_bucket t (dir_at t (IndexOf t k)) b').
Proof.
  intros Hwf Hins. pose proof (dir_IndexOf t k Hwf) as Hdir.
  set (h := dir_at t (IndexOf t k)) in *.
  destruct (Bucket_Insert_Some _ _ _ _ Hins) as (Hd & Hs & _ & _ & Hc & Hnd & Hel).
  pose proof (wf_size _ _ Hwf _ _ Hdir) as Hsz.
  eapply wf_set_bucket; try eassumption.
  - congruence.
  - rewrite <- Hsz. apply Hc. rewrite Hsz. eapply wf_cap; eassumption.
  - apply Hnd. eapply wf_nodup; eassumption.
  - intros k' v' Hin. destruct (Hel _ _ Hin) as [->|Hin'].
    + rewrite <- IndexOf_mod. exact Hdir.
    + eapply wf_home; eassumption.
Qed.

Lemma insert_here_find t k v b' k' :
  wf t → Bucket_Insert k v (deref t (dir_at t (IndexOf t k))) = Some b' →
  Find (set_bucket t (dir_at t (IndexOf t k)) b') k' =
  if decide (k' = k) then Some v else Find t k'.
Proof.
  intros Hwf Hins. pose proof (dir_IndexOf t k Hwf) as Hdir.
  destruct (Bucket_Insert_Some _ _ _ _ Hins) as (_ & _ & Hf & Hother & _).
  rewrite Find_set_bucket by (eapply wf_alloc; eassumption).
  destruct (decide (k' = k)) as [->|Hne].
  - rewrite decide_True by reflexivity. exact Hf.
  - destruct (decide (dir_at t (IndexOf t k') = dir_at t (IndexOf t k))) as [He|];
      [|reflexivity].
    rewrite Hother by assumption. unfold EHT.Find. rewrite He. reflexivity.
Qed.

(** *** [Remove] *)

Lemma Remove_wf t k : wf t → wf (Remove t k).2.
Proof.
  intros Hwf. pose proof (dir_IndexOf t k Hwf) as Hdir. unfold EHT.Remove.
  set (h := dir_at t (IndexOf t k)) in *. unfold Bucket_Remove.
  destruct (list_erase_key k (list_ (deref t h))) as [l'|] eqn:He; simpl.
  - destruct (erase_key_Some _ _ _ He) as (Hsub & Hlen & Hnd & _ & _).
    eapply wf_set_bucket; try eassumption; simpl.
    + reflexivity.
    + eapply wf_size; eassumption.
    + pose proof (wf_cap _ _ Hwf _ _ Hdir). lia.
    + apply Hnd. eapply wf_nodup; eassumption.
    + intros k' v' Hin. eapply wf_home; [eassumption..|]. apply Hsub. exact Hin.
  - eapply wf_set_bucket; try eassumption.
    + reflexivity.
    + eapply wf_size; eassumption.
    + eapply wf_cap; eassumption.
    + eapply wf_nodup; eassumption.
    + intros k' v' Hin. eapply wf_home; eassumption.
Qed.

Lemma Remove_find t k k' :
  wf t → Find (Remove t k).2 k' = if decide (k' = k) then None else Find t k'.
Proof.
  intros Hwf. pose proof (dir_IndexOf t k Hwf) as Hdir. unfold EHT.Remove.
  set (h := dir_at t (IndexOf t k)) in *.
  pose proof (wf_alloc _ _ Hwf _ _ Hdir) as Hh.
  pose proof (wf_nodup _ _ Hwf _ _ Hdir) as Hnd.
  unfold Bucket_Remove.
  destruct (list_erase_key k (list_ (deref t h))) as [l'|] eqn:He; simpl.
  - destruct (erase_key_Some _ _ _ He) as (_ & _ & _ & Hgone & Hother).
    rewrite Find_set_bucket by assumption. unfold Bucket_Find. simpl.
    destruct (decide (k' = k)) as [->|Hne].
    + fold h. rewrite decide_True by reflexivity. auto.
    + destruct (decide (dir_at t (IndexOf t k') = h)) as [Hh'|]; [|reflexivity].
      rewrite Hother by assumption. unfold EHT.Find, Bucket_Find. rewrite Hh'.
      reflexivity.
  - rewrite Find_set_bucket by assumption.
    apply erase_key_None in He. apply find_key_None in He.
    destruct (decide (k' = k)) as [->|Hne].
    + fold h. rewrite decide_True by reflexivity. exact He.
    + destruct (decide (dir_at t (IndexOf t k') = h)) as [Hh'|]; [|reflexivity].
      unfold EHT.Find. rewrite Hh'. reflexivity.
Qed.

Lemma Remove_result t k : (Remove t k).1 = bool_decide (is_Some (Find t k)).
Proof.
  unfold EHT.Remove, EHT.Find, Bucket_Remove, Bucket_Find.
  set (l := list_ (deref t (dir_at t (IndexOf t k)))).
  destruct (list_erase_key k l) as [l'|] eqn:He; simpl.
  - symmetry. apply bool_decide_eq_true.
    destruct (list_find_key k l) eqn:Hf; [eauto|].
    apply find_key_None in Hf. apply erase_key_None in Hf. congruence.
  - symmetry. apply bool_decide_eq_false. apply erase_key_None in He.
    apply find_key_None in He. rewrite He. intros [? ?]. discriminate.
Qed.

(** *** Doubling the directory *)

Lemma lookup_double (d : list nat) (j : nat) :
  j < 2 * length d → (d ++ d) !! j = d !! (j mod length d).
Proof.
  intros Hj. destruct (decide (j < length d)) as [Hlt|Hge].
  - rewrite lookup_app_l by assumption. rewrite Nat.mod_small by assumption. reflexivity.
  - rewrite lookup_app_r by lia. f_equal.
    replace j with ((j - length d) + 1 * length d) at 2 by lia.
    rewrite Nat.Div0.mod_add. rewrite Nat.mod_small by lia. reflexivity.
Qed.

(** The doubled length of a directory of [2 ^ G] slots, as an [int], is
    negative exactly for [G = 30]. *)
Lemma int_doubling (G : nat) :
  G ≤ 30 →
  (static_cast_int (Z.shiftl (static_cast_int (Z.of_nat (2 ^ G))) 1) <? 0)%Z = (G =? 30).
Proof.
  intros HG. rewrite Nat2Z.inj_pow. change (Z.of_nat 2) with 2%Z.
  destruct (Nat.eqb_spec G 30) as [->|Hne].
  - vm_compute. reflexivity.
  - assert (Hle : (2 ^ Z.of_nat G ≤ 2 ^ 29)%Z) by (apply Z.pow_le_mono_r; lia).
    assert (Hpos : (0 < 2 ^ Z.of_nat G)%Z) by (apply Z.pow_pos_nonneg; lia).
    rewrite (static_cast_int_small (2 ^ Z.of_nat G)) by lia.
    rewrite Z.shiftl_mul_pow2 by lia. change (2 ^ 1)%Z with 2%Z.
    rewrite static_cast_int_small by lia. apply Z.ltb_ge. lia.
Qed.

Lemma grow_Some t di t1 :
  grow t di = Some t1 →
  t1 = if GetLocalDepth t di =? GetGlobalDepth t
       then mkTable (S (global_depth_ t)) (bucket_size_ t) (num_buckets_ t)
                    (dir_ t ++ dir_ t) (heap t)
       else t.
Proof.
  unfold grow. destruct (_ =? _); [destruct (_ <? _)%Z; [discriminate|]|];
    intros [= <-]; reflexivity.
Qed.

(** [dir_.resize] throws exactly when a directory of [2 ^ 30] slots is to be
    doubled. *)
Lemma grow_None t di :
  wf t →
  grow t di = None ↔ GetLocalDepth t di = GetGlobalDepth t ∧ global_depth_ t = 30.
Proof.
  intros Hwf. unfold grow. rewrite (wf_len _ _ Hwf), (int_doubling _ (wf_int _ _ Hwf)).
  unfold GetGlobalDepth.
  destruct (Nat.eqb_spec (GetLocalDepth t di) (global_depth_ t)) as [He|Hne].
  - destruct (Nat.eqb_spec (global_depth_ t) 30); split; try discriminate; try tauto.
  - split; [discriminate | tauto].
Qed.

Lemma grow_heap t di t1 : grow t di = Some t1 → heap t1 = heap t.
Proof. intros ->%grow_Some. destruct (_ =? _); reflexivity. Qed.

Lemma grow_bucket_size t di t1 : grow t di = Some t1 → bucket_size_ t1 = bucket_size_ t.
Proof. intros ->%grow_Some. destruct (_ =? _); reflexivity. Qed.

Lemma grow_num_buckets t di t1 : grow t di = Some t1 → num_buckets_ t1 = num_buckets_ t.
Proof. intros ->%grow_Some. destruct (_ =? _); reflexivity. Qed.

Lemma grow_deref t di t1 h : grow t di = Some t1 → deref t1 h = deref t h.
Proof. intros Hg. unfold deref. rewrite (grow_heap _ _ _ Hg). reflexivity. Qed.

Lemma grow_dir t di t1 j :
  wf t → grow t di = Some t1 → j < 2 ^ global_depth_ t1 →
  dir_ t1 !! j = dir_ t !! (j mod 2 ^ global_depth_ t).
Proof.
  intros Hwf ->%grow_Some. unfold GetLocalDepth, GetGlobalDepth.
  destruct (_ =? _); simpl; intros Hj.
  - rewrite lookup_double; rewrite (wf_len _ _ Hwf); [reflexivity | lia].
  - rewrite Nat.mod_small by assumption. reflexivity.
Qed.

Lemma grow_depth_le t di t1 :
  grow t di = Some t1 → global_depth_ t ≤ global_depth_ t1 ≤ S (global_depth_ t).
Proof. intros ->%grow_Some. destruct (_ =? _); simpl; lia. Qed.

Lemma grow_wf t di t1 : wf t → grow t di = Some t1 → wf t1.
Proof.
  intros Hwf Hg.
  assert (Hint : global_depth_ t1 ≤ 30).
  { pose proof (wf_int _ _ Hwf) as Hi. pose proof (grow_None t di Hwf) as Hn.
    pose proof Hg as ->%grow_Some.
    destruct (Nat.eqb_spec (GetLocalDepth t di) (GetGlobalDepth t)) as [He|Hne];
      [|exact Hi].
    cbn [global_depth_]. destruct (decide (global_depth_ t = 30)) as [H30|]; [|lia].
    rewrite (proj2 Hn (conj He H30)) in Hg. discriminate. }
  assert (Hlen : length (dir_ t1) = 2 ^ global_depth_ t1).
  { pose proof Hg as ->%grow_Some. destruct (_ =? _); simpl; [|apply Hwf].
    rewrite length_app, (wf_len _ _ Hwf). lia. }
  assert (Hmodlt : ∀ j, j mod 2 ^ global_depth_ t < 2 ^ global_depth_ t).
  { intros j. apply Nat.mod_upper_bound. pose proof (pow2_pos (global_depth_ t)). lia. }
  assert (Hlook : ∀ i h, dir_ t1 !! i = Some h →
            i < 2 ^ global_depth_ t1 ∧
            dir_ t !! (i mod 2 ^ global_depth_ t) = Some h).
  { intros i h Hl. pose proof (lookup_lt_Some _ _ _ Hl) as Hi. rewrite Hlen in Hi.
    split; [assumption|]. rewrite <- (grow_dir t di t1) by assumption. exact Hl. }
  pose proof (proj1 (grow_depth_le t di t1 Hg)) as HG.
  pose proof (λ h, grow_deref t di t1 h Hg) as Hderef.
  pose proof (grow_bucket_size t di t1 Hg) as Hbs.
  split.
  - exact Hlen.
  - intros i h Hl. rewrite (grow_heap _ _ _ Hg). destruct (Hlook _ _ Hl) as [_ Hl'].
    eapply wf_alloc; eassumption.
  - intros i h Hl. rewrite Hderef. destruct (Hlook _ _ Hl) as [_ Hl'].
    pose proof (wf_depth _ _ Hwf _ _ Hl'). lia.
  - intros i j h Hl Hj. rewrite Hderef. destruct (Hlook _ _ Hl) as [_ Hl'].
    rewrite (grow_dir t di t1) by assumption.
    rewrite (wf_share _ _ Hwf _ (j mod 2 ^ global_depth_ t) _ Hl' (Hmodlt j)).
    pose proof (wf_depth _ _ Hwf _ _ Hl') as Hd.
    rewrite !mod_mod_pow2 by assumption. reflexivity.
  - intros i h Hl. rewrite Hderef, Hbs.
    destruct (Hlook _ _ Hl) as [_ Hl']. eapply wf_size; eassumption.
  - intros i h Hl. rewrite Hderef, Hbs.
    destruct (Hlook _ _ Hl) as [_ Hl']. eapply wf_cap; eassumption.
  - intros i h Hl. rewrite Hderef.
    destruct (Hlook _ _ Hl) as [_ Hl']. eapply wf_nodup; eassumption.
  - intros i h k v Hl. rewrite Hderef. intros Hin.
    destruct (Hlook _ _ Hl) as [_ Hl'].
    assert (Hb : hash k mod 2 ^ global_depth_ t1 < 2 ^ global_depth_ t1).
    { apply Nat.mod_upper_bound. pose proof (pow2_pos (global_depth_ t1)). lia. }
    rewrite (grow_dir t di t1) by assumption.
    rewrite mod_mod_pow2 by assumption. eapply wf_home; eassumption.
  - exact Hint.
Qed.

Lemma grow_dir_IndexOf t di t1 k :
  wf t → grow t di = Some t1 → dir_at t1 (IndexOf t1 k) = dir_at t (IndexOf t k).
Proof.
  intros Hwf Hg. unfold dir_at. rewrite !IndexOf_mod. rewrite (grow_dir t di t1).
  - rewrite mod_mod_pow2 by apply (grow_depth_le t di t1 Hg). reflexivity.
  - assumption.
  - assumption.
  - apply Nat.mod_upper_bound. pose proof (pow2_pos (global_depth_ t1)). lia.
Qed.

Lemma grow_Find t di t1 k : wf t → grow t di = Some t1 → Find t1 k = Find t k.
Proof.
  intros Hwf Hg. unfold EHT.Find. rewrite (grow_dir_IndexOf t di t1) by assumption.
  rewrite (grow_deref t di t1 _ Hg). reflexivity.
Qed.

(** After step 1 the bucket to split has a local depth below the global one. *)
Lemma grow_room t di t1 h :
  wf t → grow t di = Some t1 → dir_ t !! di = Some h →
  depth_ (deref t1 h) < global_depth_ t1.
Proof.
  intros Hwf Hg Hl. rewrite (grow_deref t di t1 _ Hg).
  pose proof (wf_depth _ _ Hwf _ _ Hl) as Hd.
  apply grow_Some in Hg as ->.
  unfold GetLocalDepth, GetGlobalDepth. rewrite (dir_at_Some _ _ _ Hl).
  destruct (Nat.eqb_spec (depth_ (deref t h)) (global_depth_ t)); simpl; lia.
Qed.

(** The slot of the bucket to split still holds it after step 1. *)
Lemma grow_slot t di t1 T :
  wf t → grow t di = Some t1 → dir_ t !! di = Some T → dir_ t1 !! di = Some T.
Proof.
  intros Hwf Hg Hdi.
  pose proof (lookup_lt_Some _ _ _ Hdi) as Hlt. rewrite (wf_len _ _ Hwf) in Hlt.
  pose proof (proj1 (grow_depth_le t di t1 Hg)) as Hle.
  pose proof (Nat.pow_le_mono_r 2 _ _ ltac:(lia) Hle).
  rewrite (grow_dir t di t1) by (try assumption; lia).
  rewrite Nat.mod_small by assumption. exact Hdi.
Qed.

(** *** Splitting a bucket *)

Lemma redirect_lookup T n o mask (dir : list nat) j :
  redirect T n o mask dir !! j =
  (λ h, if decide (h = T) then (if Nat.land j mask =? 0 then n else o) else h)
    <$> dir !! j.
Proof. unfold redirect. apply list_lookup_imap. Qed.

(** Step 3.2 moves every item of the split bucket into one of the two fresh
    buckets, which sit at the end of the arena: the items whose directory slot
    now holds the first one are appended to it in order, the others to the
    second one. *)
Lemma fold_reinsert G bs nb (dir : list nat) (hp : list Bucket) s d
    (P : K → bool) (its : list (K * V)) :
  ∀ lN lO : list (K * V),
  (∀ k v, (k, v) ∈ its →
     dir !! (hash k mod 2 ^ G) = Some (if P k then length hp else S (length hp))) →
  NoDup its.*1 →
  (∀ k, k ∈ its.*1 → (k ∉ lN.*1) ∧ (k ∉ lO.*1)) →
  length lN + length (filter (λ kv, P kv.1 = true) its) ≤ s →
  length lO + length (filter (λ kv, negb (P kv.1) = true) its) ≤ s →
  fold_left reinsert its
    (mkTable G bs nb dir (hp ++ [mkBucket s d lN; mkBucket s d lO]))
  = mkTable G bs nb dir
      (hp ++ [mkBucket s d (lN ++ filter (λ kv, P kv.1 = true) its);
              mkBucket s d (lO ++ filter (λ kv, negb (P kv.1) = true) its)]).
Proof.
  induction its as [|[k v] its IH]; intros lN lO Hhome Hnd Hfresh HcN HcO.
  - simpl. rewrite !filter_nil, !app_nil_r. reflexivity.
  - rewrite fmap_cons in Hnd. apply NoDup_cons in Hnd as [Hk Hnd]. simpl in Hk.
    destruct (Hfresh k) as [HkN HkO]; [left|].
    assert (Hhome' : ∀ k' v', (k', v') ∈ its →
              dir !! (hash k' mod 2 ^ G) = Some (if P k' then length hp else S (length hp))).
    { intros k' v' Hin. apply (Hhome k' v'). right. exact Hin. }
    assert (Hne : ∀ k', k' ∈ its.*1 → k' ≠ k) by (intros k' Hin ->; auto).
    specialize (Hhome k v ltac:(left)).
    cbn [fold_left]. unfold EHT.reinsert at 2. cbn [fst snd].
    rewrite IndexOf_mod. unfold dir_at. cbn [global_depth_ dir_]. rewrite Hhome.
    cbn [default].
    destruct (P k) eqn:HP.
    + assert (HfN : filter (λ kv : K * V, P kv.1 = true) ((k, v) :: its)
                    = (k, v) :: filter (λ kv, P kv.1 = true) its).
      { rewrite filter_cons. simpl. rewrite decide_True by assumption. reflexivity. }
      assert (HfO : filter (λ kv : K * V, negb (P kv.1) = true) ((k, v) :: its)
                    = filter (λ kv, negb (P kv.1) = true) its).
      { rewrite filter_cons. simpl. rewrite decide_False; [reflexivity|].
        rewrite HP. discriminate. }
      rewrite HfN, HfO in *. simpl in HcN. clear HfN HfO.
      unfold deref at 1. simpl. rewrite lookup_app_r, Nat.sub_diag by lia. simpl.
      unfold Bucket_Insert. simpl.
      rewrite (proj2 (update_key_None lN k v) HkN).
      unfold IsFull. simpl. rewrite (proj2 (Nat.leb_gt _ _)) by lia.
      unfold set_bucket. simpl.
      rewrite insert_app_r_alt, Nat.sub_diag by lia. simpl.
      rewrite IH; try assumption.
      * rewrite <- app_assoc. reflexivity.
      * intros k' Hin. destruct (Hfresh k') as [H1 H2]; [right; exact Hin|].
        split; [|assumption]. rewrite fmap_app. intros Hin'.
        apply elem_of_app in Hin' as [?|Hin']; [auto|].
        apply list_elem_of_singleton in Hin'. simpl in Hin'. eapply Hne; eassumption.
      * rewrite length_app. simpl. lia.
    + assert (HfN : filter (λ kv : K * V, P kv.1 = true) ((k, v) :: its)
                    = filter (λ kv, P kv.1 = true) its).
      { rewrite filter_cons. simpl. rewrite decide_False; [reflexivity|].
        rewrite HP. discriminate. }
      assert (HfO : filter (λ kv : K * V, negb (P kv.1) = true) ((k, v) :: its)
                    = (k, v) :: filter (λ kv, negb (P kv.1) = true) its).
      { rewrite filter_cons. simpl. rewrite decide_True; [reflexivity|].
        rewrite HP. reflexivity. }
      rewrite HfN, HfO in *. simpl in HcO. clear HfN HfO.
      unfold deref at 1. simpl.
      rewrite lookup_app_r by lia.
      replace (S (length hp) - length hp) with 1 by lia. simpl.
      unfold Bucket_Insert. simpl.
      rewrite (proj2 (update_key_None lO k v) HkO).
      unfold IsFull. simpl. rewrite (proj2 (Nat.leb_gt _ _)) by lia.
      unfold set_bucket. simpl.
      rewrite insert_app_r_alt by lia.
      replace (S (length hp) - length hp) with 1 by lia. simpl.
      rewrite IH; try assumption.
      * rewrite <- app_assoc. reflexivity.
      * intros k' Hin. destruct (Hfresh k') as [H1 H2]; [right; exact Hin|].
        split; [assumption|]. rewrite fmap_app. intros Hin'.
        apply elem_of_app in Hin' as [?|Hin']; [auto|].
        apply list_elem_of_singleton in Hin'. simpl in Hin'. eapply Hne; eassumption.
      * rewrite length_app. simpl. lia.
Qed.

(** The table one iteration of the loop body produces. *)
Lemma split_eq t di T t1 :
  wf t → dir_ t !! di = Some T → grow t di = Some t1 →
  let L := depth_ (deref t1 T) in
  let P := λ k, negb (Nat.testbit (hash k) L) in
  split t di T =
  Some (mkTable (global_depth_ t1) (bucket_size_ t1) (S (num_buckets_ t1))
    (redirect T (length (heap t1)) (S (length (heap t1))) (Nat.shiftl 1 L) (dir_ t1))
    (<[T := IncrementDepth (deref t1 T)]> (heap t1) ++
     [mkBucket (bucket_size_ t1) (S L)
        (filter (λ kv, P kv.1 = true) (list_ (deref t1 T)));
      mkBucket (bucket_size_ t1) (S L)
        (filter (λ kv, negb (P kv.1) = true) (list_ (deref t1 T)))])).
Proof.
  intros Hwf Hdi Hg L P.
  pose proof (grow_wf t di t1 Hwf Hg) as Hwf1.
  pose proof (grow_room t di t1 T Hwf Hg Hdi) as Hroom. fold L in Hroom.
  pose proof (grow_slot t di t1 T Hwf Hg Hdi) as HT1.
  pose proof (wf_alloc _ _ Hwf1 _ _ HT1) as HTlt.
  unfold EHT.split. rewrite Hg. f_equal.
  rewrite deref_set_eq by assumption.
  cbn [depth_ IncrementDepth list_]. fold L.
  replace (S L - 1) with L by lia.
  cbn [set_bucket heap global_depth_ bucket_size_ num_buckets_ dir_].
  rewrite length_insert.
  pose proof (fold_reinsert (global_depth_ t1) (bucket_size_ t1) (S (num_buckets_ t1))
    (redirect T (length (heap t1)) (S (length (heap t1))) (Nat.shiftl 1 L) (dir_ t1))
    (<[T := IncrementDepth (deref t1 T)]> (heap t1)) (bucket_size_ t1) (S L) P
    (list_ (deref t1 T)) [] []) as Hfold.
  rewrite length_insert in Hfold. cbn [app] in Hfold. apply Hfold; clear Hfold.
  - intros k v Hin. rewrite redirect_lookup.
    rewrite (wf_home _ _ Hwf1 _ _ _ _ HT1 Hin). cbn [fmap option_fmap option_map].
    rewrite decide_True by reflexivity. rewrite land_bit_zero.
    rewrite Nat.mod_pow2_bits_low by assumption. reflexivity.
  - eapply wf_nodup; eassumption.
  - intros k _. split; apply not_elem_of_nil.
  - pose proof (wf_cap _ _ Hwf1 _ _ HT1).
    pose proof (length_filter (λ kv : K * V, P kv.1 = true) (list_ (deref t1 T))).
    simpl. lia.
  - pose proof (wf_cap _ _ Hwf1 _ _ HT1).
    pose proof (length_filter (λ kv : K * V, negb (P kv.1) = true) (list_ (deref t1 T))).
    simpl. lia.
Qed.

(** One iteration of the loop body keeps the table well formed, keeps every
    binding, and leaves the split bucket's slots with buckets one level
    deeper. *)
Lemma split_spec t di T t' :
  wf t → dir_ t !! di = Some T → split t di T = Some t' →
  wf t' ∧
  bucket_size_ t' = bucket_size_ t ∧
  (∀ k, Find t' k = Find t k) ∧
  (∀ k, dir_at t (IndexOf t k) = T →
        depth_ (deref t' (dir_at t' (IndexOf t' k))) = S (depth_ (deref t T))).
Proof.
  intros Hwf Hdi Hsplit.
  destruct (grow t di) as [t1|] eqn:Hg;
    [|unfold EHT.split in Hsplit; rewrite Hg in Hsplit; discriminate].
  rewrite (split_eq t di T t1 Hwf Hdi Hg) in Hsplit. injection Hsplit as Hsplit.
  subst t'.
  pose proof (grow_wf t di t1 Hwf Hg) as Hwf1.
  pose proof (grow_room t di t1 T Hwf Hg Hdi) as Hroom.
  pose proof (λ k, grow_Find t di t1 k Hwf Hg) as HFind1.
  pose proof (λ k (_ : wf t), grow_dir_IndexOf t di t1 k Hwf Hg) as HIdx1.
  pose proof (grow_deref t di t1 T Hg) as HderT.
  pose proof (grow_bucket_size t di t1 Hg) as Hbs1.
  pose proof (grow_slot t di t1 T Hwf Hg Hdi) as HT1.
  pose proof di as i1.
  clear Hg.
  set (L := depth_ (deref t1 T)) in *.
  set (P := λ k : K, negb (Nat.testbit (hash k) L)).
  set (n := length (heap t1)).
  set (bN := mkBucket (bucket_size_ t1) (S L)
               (filter (λ kv : K * V, P kv.1 = true) (list_ (deref t1 T)))).
  set (bO := mkBucket (bucket_size_ t1) (S L)
               (filter (λ kv : K * V, negb (P kv.1) = true) (list_ (deref t1 T)))).
  set (t' := mkTable _ _ _ _ _).
  pose proof (wf_alloc _ _ Hwf1 _ _ HT1) as HTlt. fold n in HTlt.
  assert (HdN : deref t' n = bN).
  { unfold deref, t'. cbn [heap]. rewrite lookup_app_r; rewrite length_insert; [|lia].
    fold n. rewrite Nat.sub_diag. reflexivity. }
  assert (HdO : deref t' (S n) = bO).
  { unfold deref, t'. cbn [heap]. rewrite lookup_app_r; rewrite length_insert; [|fold n; lia].
    fold n. replace (S n - n) with 1 by lia. reflexivity. }
  assert (Hdh : ∀ h, h < n → h ≠ T → deref t' h = deref t1 h).
  { intros h Hh HhT. unfold deref, t'. cbn [heap].
    rewrite lookup_app_l by (rewrite length_insert; exact Hh).
    rewrite list_lookup_insert_ne by congruence. reflexivity. }
  assert (Hdir : ∀ j, dir_ t' !! j =
            (λ h, if decide (h = T)
                  then (if negb (Nat.testbit j L) then n else S n) else h)
              <$> dir_ t1 !! j).
  { intros j. unfold t'. cbn [dir_]. rewrite redirect_lookup.
    rewrite land_bit_zero. reflexivity. }
  assert (Hcase : ∀ i h, dir_ t' !! i = Some h →
            (dir_ t1 !! i = Some T ∧ Nat.testbit i L = false ∧ h = n) ∨
            (dir_ t1 !! i = Some T ∧ Nat.testbit i L = true ∧ h = S n) ∨
            (dir_ t1 !! i = Some h ∧ h ≠ T ∧ h < n)).
  { intros i h. rewrite Hdir. destruct (dir_ t1 !! i) as [h1|] eqn:Hl1; [|discriminate].
    cbn. destruct (decide (h1 = T)) as [->|Hne].
    - destruct (Nat.testbit i L); cbn; intros [= <-]; auto.
    - intros [= <-]. right. right. repeat split; try assumption.
      eapply wf_alloc; eassumption. }
  assert (HtoN : ∀ j, dir_ t1 !! j = Some T → Nat.testbit j L = false →
                      dir_ t' !! j = Some n).
  { intros j Hj Hb. rewrite Hdir, Hj. cbn. rewrite decide_True by reflexivity.
    rewrite Hb. reflexivity. }
  assert (HtoO : ∀ j, dir_ t1 !! j = Some T → Nat.testbit j L = true →
                      dir_ t' !! j = Some (S n)).
  { intros j Hj Hb. rewrite Hdir, Hj. cbn. rewrite decide_True by reflexivity.
    rewrite Hb. reflexivity. }
  assert (Hkeep : ∀ j h, dir_ t1 !! j = Some h → h ≠ T → dir_ t' !! j = Some h).
  { intros j h Hj Hne. rewrite Hdir, Hj. cbn. rewrite decide_False by assumption.
    reflexivity. }
  assert (Hitems : ∀ k v, (k, v) ∈ list_ (deref t1 T) →
            dir_ t1 !! (hash k mod 2 ^ global_depth_ t1) = Some T).
  { intros k v Hin. eapply wf_home; eassumption. }
  assert (Hbitk : ∀ k, Nat.testbit (hash k mod 2 ^ global_depth_ t1) L
                       = Nat.testbit (hash k) L).
  { intros k. apply Nat.mod_pow2_bits_low. exact Hroom. }
  assert (Hwf' : wf t').
  { split.
    - unfold t'. cbn [dir_ global_depth_]. unfold redirect. rewrite length_imap.
      apply Hwf1.
    - intros i h Hl. unfold t'. cbn [heap]. rewrite length_app, length_insert. fold n.
      simpl. destruct (Hcase _ _ Hl) as [(_ & _ & ->)|[(_ & _ & ->)|(_ & _ & ?)]]; lia.
    - intros i h Hl. change (global_depth_ t') with (global_depth_ t1).
      destruct (Hcase _ _ Hl) as [(_ & _ & ->)|[(_ & _ & ->)|(Hl1 & Hne & Hlt)]].
      + rewrite HdN. simpl. lia.
      + rewrite HdO. simpl. lia.
      + rewrite Hdh by assumption. eapply wf_depth; eassumption.
    - intros i j h Hl Hj. change (global_depth_ t') with (global_depth_ t1) in Hj.
      destruct (lookup_lt_is_Some_2 (dir_ t1) j) as [hj Hlj];
        [rewrite (wf_len _ _ Hwf1); exact Hj|].
      destruct (Hcase _ _ Hl) as [(Hl1 & Hb & ->)|[(Hl1 & Hb & ->)|(Hl1 & Hne & Hlt)]].
      + rewrite HdN. cbn [depth_ bN]. rewrite same_low_succ, Hb.
        pose proof (wf_share _ _ Hwf1 _ j _ Hl1 Hj) as Hsh. fold L in Hsh.
        rewrite <- Hsh. split.
        * intros Hjn. destruct (Hcase _ _ Hjn) as [(? & ? & _)|[(_ & _ & ?)|(_ & _ & ?)]];
            [auto | lia | lia].
        * intros [Hj1 Hjb]. apply HtoN; assumption.
      + rewrite HdO. cbn [depth_ bO]. rewrite same_low_succ, Hb.
        pose proof (wf_share _ _ Hwf1 _ j _ Hl1 Hj) as Hsh. fold L in Hsh.
        rewrite <- Hsh. split.
        * intros Hjn. destruct (Hcase _ _ Hjn) as [(_ & _ & ?)|[(? & ? & _)|(_ & _ & ?)]];
            [lia | auto | lia].
        * intros [Hj1 Hjb]. apply HtoO; assumption.
      + rewrite Hdh by assumption.
        rewrite <- (wf_share _ _ Hwf1 _ j _ Hl1 Hj). split.
        * intros Hjn. destruct (Hcase _ _ Hjn) as [(_ & _ & ?)|[(_ & _ & ?)|(? & _ & _)]];
            [lia | lia | assumption].
        * intros Hj1. apply Hkeep; assumption.
    - intros i h Hl. change (bucket_size_ t') with (bucket_size_ t1).
      destruct (Hcase _ _ Hl) as [(_ & _ & ->)|[(_ & _ & ->)|(Hl1 & Hne & Hlt)]].
      + rewrite HdN. reflexivity.
      + rewrite HdO. reflexivity.
      + rewrite Hdh by assumption. eapply wf_size; eassumption.
    - intros i h Hl. change (bucket_size_ t') with (bucket_size_ t1).
      pose proof (wf_cap _ _ Hwf1 _ _ HT1) as HcT.
      destruct (Hcase _ _ Hl) as [(_ & _ & ->)|[(_ & _ & ->)|(Hl1 & Hne & Hlt)]].
      + rewrite HdN. cbn [list_ bN].
        pose proof (length_filter (λ kv : K * V, P kv.1 = true) (list_ (deref t1 T))). lia.
      + rewrite HdO. cbn [list_ bO].
        pose proof (length_filter (λ kv : K * V, negb (P kv.1) = true)
                      (list_ (deref t1 T))). lia.
      + rewrite Hdh by assumption. eapply wf_cap; eassumption.
    - intros i h Hl.
      pose proof (wf_nodup _ _ Hwf1 _ _ HT1) as HndT.
      destruct (Hcase _ _ Hl) as [(_ & _ & ->)|[(_ & _ & ->)|(Hl1 & Hne & Hlt)]].
      + rewrite HdN. cbn [list_ bN]. refine (sublist_NoDup _ _ HndT _).
        apply fmap_sublist, sublist_filter.
      + rewrite HdO. cbn [list_ bO]. refine (sublist_NoDup _ _ HndT _).
        apply fmap_sublist, sublist_filter.
      + rewrite Hdh by assumption. eapply wf_nodup; eassumption.
    - intros i h k v Hl. change (global_depth_ t') with (global_depth_ t1).
      destruct (Hcase _ _ Hl) as [(_ & _ & ->)|[(_ & _ & ->)|(Hl1 & Hne & Hlt)]].
      + rewrite HdN. cbn [list_ bN]. intros Hin.
        apply list_elem_of_filter in Hin as [HP Hin]. cbn in HP.
        apply HtoN; [eapply Hitems; eassumption|].
        rewrite Hbitk. unfold P in HP. destruct (Nat.testbit (hash k) L); [discriminate|reflexivity].
      + rewrite HdO. cbn [list_ bO]. intros Hin.
        apply list_elem_of_filter in Hin as [HP Hin]. cbn in HP.
        apply HtoO; [eapply Hitems; eassumption|].
        rewrite Hbitk. unfold P in HP. destruct (Nat.testbit (hash k) L); [reflexivity|discriminate].
      + rewrite Hdh by assumption. intros Hin. apply Hkeep; [|assumption].
        eapply wf_home; eassumption.
    - exact (wf_int _ _ Hwf1). }
  assert (Hidx : ∀ k, IndexOf t' k = IndexOf t1 k) by reflexivity.
  split; [exact Hwf'|]. split; [exact Hbs1|]. split.
  - intros k. rewrite <- HFind1. unfold EHT.Find. rewrite Hidx.
    pose proof (dir_IndexOf t1 k Hwf1) as Hk1.
    set (h1 := dir_at t1 (IndexOf t1 k)) in *.
    destruct (decide (h1 = T)) as [HeT|HneT].
    + rewrite HeT in Hk1. rewrite IndexOf_mod in Hk1 |- *.
      destruct (Nat.testbit (hash k) L) eqn:Hb.
      * rewrite (dir_at_Some _ _ _ (HtoO _ Hk1 ltac:(rewrite Hbitk; exact Hb))).
        rewrite HdO, HeT. unfold Bucket_Find. cbn [list_ bO].
        rewrite (find_key_filter (λ k, negb (P k))). unfold P. rewrite Hb. reflexivity.
      * rewrite (dir_at_Some _ _ _ (HtoN _ Hk1 ltac:(rewrite Hbitk; exact Hb))).
        rewrite HdN, HeT. unfold Bucket_Find. cbn [list_ bN].
        rewrite (find_key_filter P). unfold P. rewrite Hb. reflexivity.
    + rewrite (dir_at_Some _ _ _ (Hkeep _ _ Hk1 HneT)).
      rewrite Hdh; [reflexivity | | assumption].
      eapply wf_alloc; eassumption.
  - intros k Hk. rewrite <- HIdx1 in Hk by assumption.
    rewrite Hidx. pose proof (dir_IndexOf t1 k Hwf1) as Hk1. rewrite Hk in Hk1.
    rewrite <- HderT. fold L.
    rewrite IndexOf_mod in Hk1 |- *.
    destruct (Nat.testbit (hash k) L) eqn:Hb.
    + rewrite (dir_at_Some _ _ _ (HtoO _ Hk1 ltac:(rewrite Hbitk; exact Hb))).
      rewrite HdO. reflexivity.
    + rewrite (dir_at_Some _ _ _ (HtoN _ Hk1 ltac:(rewrite Hbitk; exact Hb))).
      rewrite HdN. reflexivity.
Qed.

(** *** The insertion loop *)

Lemma Insert_loop_spec fuel : ∀ t key value t',
  wf t →
  Insert_loop fuel t (IndexOf t key) (dir_at t (IndexOf t key)) key value = Some t' →
  wf t' ∧ bucket_size_ t' = bucket_size_ t ∧
  ∀ k', Find t' k' = if decide (k' = key) then Some value else Find t k'.
Proof.
  induction fuel as [|fuel IH]; intros t key value t' Hwf; simpl.
  - destruct (Bucket_Insert key value _) as [b|] eqn:Hb; [|discriminate].
    intros [= <-]. split; [eapply insert_here_wf; eassumption|].
    split; [reflexivity|]. intros k'. eapply insert_here_find; eassumption.
  - destruct (Bucket_Insert key value _) as [b|] eqn:Hb.
    + intros [= <-]. split; [eapply insert_here_wf; eassumption|].
      split; [reflexivity|]. intros k'. eapply insert_here_find; eassumption.
    + destruct (split t (IndexOf t key) (dir_at t (IndexOf t key))) as [t1|] eqn:Hs;
        [|discriminate].
      intros Hloop.
      destruct (split_spec t (IndexOf t key) (dir_at t (IndexOf t key)) t1 Hwf
                  (dir_IndexOf t key Hwf) Hs) as (Hwf1 & Hbs1 & HF1 & _).
      destruct (IH _ _ _ _ Hwf1 Hloop) as (Hwf' & Hbs' & HF').
      split; [exact Hwf'|]. split; [congruence|].
      intros k'. rewrite HF'. destruct (decide (k' = key)); [reflexivity | apply HF1].
Qed.

Lemma Insert_wf fuel t key value t' :
  wf t → Insert fuel t key value = Some t' → wf t'.
Proof. intros Hwf Hi. eapply Insert_loop_spec; eassumption. Qed.

Lemma Insert_Find fuel t key value t' k' :
  wf t → Insert fuel t key value = Some t' →
  Find t' k' = if decide (k' = key) then Some value else Find t k'.
Proof. intros Hwf Hi. eapply Insert_loop_spec; eassumption. Qed.

Lemma Insert_bucket_size fuel t key value t' :
  wf t → Insert fuel t key value = Some t' → bucket_size_ t' = bucket_size_ t.
Proof. intros Hwf Hi. eapply Insert_loop_spec; eassumption. Qed.

Lemma reachable_wf t : reachable t → wf t.
Proof.
  induction 1 as [bs | fuel t key value t' _ IH Hi | t key _ IH].
  - apply wf_init.
  - eapply Insert_wf; eassumption.
  - apply Remove_wf. exact IH.
Qed.

(** One iteration of the loop body goes through when the bucket to split
    has a local depth below 30. *)
Lemma split_returns t di T :
  wf t → dir_ t !! di = Some T → depth_ (deref t T) < 30 →
  is_Some (split t di T).
Proof.
  intros Hwf Hdi HL. unfold EHT.split.
  destruct (grow t di) as [t1|] eqn:Hg; [eauto|].
  apply (grow_None t di Hwf) in Hg as [He H30].
  unfold GetLocalDepth, GetGlobalDepth in He. rewrite (dir_at_Some _ _ _ Hdi) in He. lia.
Qed.

(** The loop ends: when the hash separates keys within [D] bits, [D] at most
    30, and a bucket holds at least one pair, a bucket of local depth [D] or
    more is never split, and each iteration deepens the bucket of [key] by
    one. *)
Lemma Insert_loop_terminates D fuel : ∀ t key value,
  wf t → 1 ≤ bucket_size_ t → D ≤ 30 →
  (∀ k', is_Some (Find t k') → hash k' mod 2 ^ D = hash key mod 2 ^ D → k' = key) →
  D < fuel + S (depth_ (deref t (dir_at t (IndexOf t key)))) →
  is_Some (Insert_loop fuel t (IndexOf t key) (dir_at t (IndexOf t key)) key value).
Proof.
  induction fuel as [|fuel IH]; intros t key value Hwf Hbs HD Hsep Hfuel;
    pose proof (dir_IndexOf t key Hwf) as Hdir;
    set (T := dir_at t (IndexOf t key)) in *;
    cbn [EHT.Insert_loop]; fold T;
    destruct (Bucket_Insert key value (deref t T)) as [b|] eqn:Hb; eauto.
  all: apply Bucket_Insert_None in Hb as [Hk Hfull];
    rewrite (wf_size _ _ Hwf _ _ Hdir) in Hfull;
    destruct (list_ (deref t T)) as [|[k0 v0] l] eqn:Hl; [simpl in Hfull; lia|];
    assert (Hin : (k0, v0) ∈ list_ (deref t T)) by (rewrite Hl; left);
    pose proof (wf_home _ _ Hwf _ _ _ _ Hdir Hin) as Hhome;
    pose proof (wf_depth _ _ Hwf _ _ Hdir) as Hdepth;
    assert (Hlt : hash k0 mod 2 ^ global_depth_ t < 2 ^ global_depth_ t)
      by (apply Nat.mod_upper_bound; pose proof (pow2_pos (global_depth_ t)); lia);
    apply (wf_share _ _ Hwf _ _ _ Hdir Hlt) in Hhome;
    rewrite IndexOf_mod in Hhome; rewrite !mod_mod_pow2 in Hhome by assumption;
    assert (HLD : depth_ (deref t T) < D)
      by (destruct (decide (depth_ (deref t T) < D)) as [|Hge]; [assumption|];
          exfalso; apply Hk;
          assert (k0 = key) as <-
            by (apply Hsep;
                [exists v0; unfold EHT.Find;
                 rewrite IndexOf_mod,
                   (dir_at_Some _ _ _ (wf_home _ _ Hwf _ _ _ _ Hdir Hin));
                 apply find_key_nodup;
                 [exact (wf_nodup _ _ Hwf _ _ Hdir) | exact Hin]|];
                rewrite <- (mod_mod_pow2 (hash k0) D (depth_ (deref t T))) by lia;
                rewrite <- (mod_mod_pow2 (hash key) D (depth_ (deref t T))) by lia;
                rewrite Hhome; reflexivity);
          left).
  - lia.
  - destruct (split_returns t (IndexOf t key) T Hwf Hdir ltac:(lia)) as [t1 Hs].
    rewrite Hs.
    destruct (split_spec t (IndexOf t key) T t1 Hwf Hdir Hs) as (Hwf1 & Hbs1 & HF1 & Hd1).
    apply IH; try assumption; [lia | |].
    + intros k' Hk'. rewrite HF1 in Hk'. apply Hsep. exact Hk'.
    + rewrite Hd1 by reflexivity. lia.
Qed.

(** Enough fuel: [S D] iterations, when no key of the table agrees with
    [key] on the low [D] bits of the hash. *)
Lemma Insert_returns D t key value :
  wf t → 1 ≤ bucket_size_ t → D ≤ 30 →
  (∀ k', is_Some (Find t k') → hash k' mod 2 ^ D = hash key mod 2 ^ D → k' = key) →
  ∃ t', Insert (S D) t key value = Some t'.
Proof.
  intros Hwf Hbs HD Hsep.
  destruct (Insert_loop_terminates D (S D) t key value Hwf Hbs HD Hsep ltac:(lia)) as [t' Ht'].
  exists t'. exact Ht'.
Qed.

Lemma Insert_terminates D t key value :
  wf t → 1 ≤ bucket_size_ t → D ≤ 30 → separates hash D →
  ∃ t', Insert (S D) t key value = Some t'.
Proof.
  intros Hwf Hbs HD Hsep. apply Insert_returns; try assumption.
  intros k' _ Hk'. apply Hsep. exact Hk'.
Qed.

Lemma Remove_bucket_size t k : bucket_size_ (Remove t k).2 = bucket_size_ t.
Proof. unfold EHT.Remove. destruct (Bucket_Remove _ _). reflexivity. Qed.

(** *** The directory of a reachable table *)

Lemma slots_of_wf t i :
  wf t → i < 2 ^ global_depth_ t →
  slots_of t (dir_at t i) =
  filter (λ j, j mod 2 ^ GetLocalDepth t i = i mod 2 ^ GetLocalDepth t i)
         (seq 0 (2 ^ global_depth_ t)).
Proof.
  intros Hwf Hi. unfold slots_of, GetLocalDepth. rewrite (wf_len _ _ Hwf).
  assert (Hl : dir_ t !! i = Some (dir_at t i))
    by (apply dir_at_lookup; rewrite (wf_len _ _ Hwf); exact Hi).
  apply filter_ext_elem. intros j Hj.
  apply elem_of_seq in Hj. apply (wf_share _ _ Hwf _ _ _ Hl). lia.
Qed.

(** C4. In every reachable table the directory has [2 ^ global_depth] slots;
    the local depth seen through any slot is at most the global depth; and the
    bucket of slot [i], of local depth [L], sits in exactly the slots that
    agree with [i] on their low [L] bits, of which there are
    [2 ^ (global_depth - L)]. *)
Theorem directory_invariant t :
  reachable t →
  length (dir_ t) = 2 ^ GetGlobalDepth t ∧
  ∀ i, i < 2 ^ GetGlobalDepth t →
    GetLocalDepth t i ≤ GetGlobalDepth t ∧
    (∀ j, j < 2 ^ GetGlobalDepth t →
       (dir_at t j = dir_at t i ↔
        j mod 2 ^ GetLocalDepth t i = i mod 2 ^ GetLocalDepth t i)) ∧
    length (slots_of t (dir_at t i)) = 2 ^ (GetGlobalDepth t - GetLocalDepth t i).
Proof.
  intros Hr. pose proof (reachable_wf t Hr) as Hwf. unfold GetGlobalDepth.
  split; [apply Hwf|]. intros i Hi.
  assert (Hl : dir_ t !! i = Some (dir_at t i))
    by (apply dir_at_lookup; rewrite (wf_len _ _ Hwf); exact Hi).
  pose proof (wf_depth _ _ Hwf _ _ Hl) as Hd. fold (GetLocalDepth t i) in Hd.
  split; [exact Hd|]. split.
  - intros j Hj. unfold GetLocalDepth.
    rewrite <- (wf_share _ _ Hwf _ _ _ Hl Hj).
    assert (Hlj : dir_ t !! j = Some (dir_at t j))
      by (apply dir_at_lookup; rewrite (wf_len _ _ Hwf); exact Hj).
    rewrite Hlj. split; [intros ->; reflexivity | intros [= ->]; reflexivity].
  - rewrite slots_of_wf by assumption.
    set (L := GetLocalDepth t i) in *.
    replace (2 ^ global_depth_ t) with (2 ^ (global_depth_ t - L) * 2 ^ L).
    + apply count_residue. apply Nat.mod_upper_bound. pose proof (pow2_pos L). lia.
    + rewrite <- Nat.pow_add_r. f_equal. lia.
Qed.

(** *** Insert and find *)

(** C3. On a reachable table, once [Insert key value] has returned, with or
    without bucket splits and directory doublings on the way, [Find key] gives
    [value], whether [key] was bound before or not. *)
Theorem insert_then_find fuel t key value t' :
  reachable t → Insert fuel t key value = Some t' → Find t' key = Some value.
Proof.
  intros Hr Hi. rewrite (Insert_Find fuel t key value t' key (reachable_wf t Hr) Hi).
  rewrite decide_True; reflexivity.
Qed.

(** C10. On a reachable table, [Insert key value] leaves the binding of every
    other key as it was, bound to the same value or absent, also when it
    splits buckets, doubles the directory and rehashes. *)
Theorem insert_preserves_others fuel t key value t' k' :
  reachable t → k' ≠ key → Insert fuel t key value = Some t' →
  Find t' k' = Find t k'.
Proof.
  intros Hr Hne Hi.
  rewrite (Insert_Find fuel t key value t' k' (reachable_wf t Hr) Hi).
  rewrite decide_False by assumption. reflexivity.
Qed.

(** *** Counting the buckets *)

Lemma live_buckets_bound t : size (live_buckets t) ≤ length (dir_ t).
Proof.
  unfold live_buckets. induction (dir_ t) as [|h l IH].
  - rewrite list_to_set_nil, size_empty. reflexivity.
  - rewrite list_to_set_cons, length_cons. pose proof (size_union_alt ({[h]} : gset nat) (list_to_set l)) as Hu.
    pose proof (subseteq_size (list_to_set l ∖ {[h]} : gset nat) (list_to_set l)
                  ltac:(set_solver)).
    rewrite size_singleton in Hu. lia.
Qed.

Lemma grow_live t di t1 : grow t di = Some t1 → live_buckets t1 = live_buckets t.
Proof.
  intros ->%grow_Some. unfold live_buckets. destruct (_ =? _); [|reflexivity].
  cbn [dir_]. rewrite list_to_set_app_L. set_solver.
Qed.

Lemma set_bucket_live t h b : live_buckets (set_bucket t h b) = live_buckets t.
Proof. reflexivity. Qed.

(** A split takes the split bucket out of the directory and puts two fresh
    ones in. *)
Lemma split_live t di T t' :
  wf t → dir_ t !! di = Some T → split t di T = Some t' →
  live_buckets t'
  = live_buckets t ∖ {[T]} ∪ {[length (heap t); S (length (heap t))]} ∧
  num_buckets_ t' = S (num_buckets_ t) ∧
  global_depth_ t ≤ global_depth_ t' ≤ S (global_depth_ t).
Proof.
  intros Hwf Hdi Hsplit.
  destruct (grow t di) as [t1|] eqn:Hg;
    [|unfold EHT.split in Hsplit; rewrite Hg in Hsplit; discriminate].
  rewrite (split_eq t di T t1 Hwf Hdi Hg) in Hsplit. injection Hsplit as Hsplit.
  subst t'.
  pose proof (grow_wf t di t1 Hwf Hg) as Hwf1.
  pose proof (grow_room t di t1 T Hwf Hg Hdi) as Hroom.
  pose proof (grow_live t di t1 Hg) as Hlive1.
  pose proof (grow_heap t di t1 Hg) as Hheap1.
  pose proof (grow_num_buckets t di t1 Hg) as Hnum1.
  pose proof (grow_depth_le t di t1 Hg) as HG1.
  pose proof (grow_slot t di t1 T Hwf Hg Hdi) as HT1.
  set (L := depth_ (deref t1 T)) in *.
  cbn [global_depth_ num_buckets_]. split; [|split; [congruence | exact HG1]].
  unfold live_buckets at 1. cbn [dir_]. rewrite <- Hlive1, Hheap1.
  set (N := length (heap t)). unfold live_buckets.
  assert (Hlt2 : 2 ^ S L ≤ 2 ^ global_depth_ t1) by (apply Nat.pow_le_mono_r; lia).
  pose proof (pow2_pos L) as HposL. simpl in Hlt2.
  pose proof (Nat.mod_upper_bound di (2 ^ L) ltac:(lia)) as Hj0.
  apply set_eq. intros h.
  rewrite elem_of_list_to_set, elem_of_union, elem_of_difference, elem_of_list_to_set.
  rewrite list_elem_of_lookup. split.
  - intros [j Hj]. rewrite redirect_lookup in Hj.
    destruct (dir_ t1 !! j) as [h0|] eqn:Hh0; [|discriminate]. cbn in Hj.
    destruct (decide (h0 = T)) as [->|Hne].
    + right. destruct (_ =? 0); injection Hj as <-; set_solver.
    + left. injection Hj as <-. split; [|set_solver].
      eapply list_elem_of_lookup_2. exact Hh0.
  - intros [[Hin HnT]|HNO].
    + apply list_elem_of_lookup in Hin as [j Hj]. exists j. rewrite redirect_lookup, Hj.
      cbn. rewrite decide_False by set_solver. reflexivity.
    + assert (Hcase : h = N ∨ h = S N) by set_solver. destruct Hcase as [-> | ->].
      * exists (di mod 2 ^ L). rewrite redirect_lookup.
        assert (Hs : dir_ t1 !! (di mod 2 ^ L) = Some T).
        { apply (wf_share _ _ Hwf1 di _ T HT1); [lia|]. fold L.
          apply Nat.Div0.mod_mod. }
        rewrite Hs. cbn. rewrite decide_True by reflexivity. rewrite land_bit_zero.
        rewrite Nat.mod_pow2_bits_high by lia. reflexivity.
      * exists (di mod 2 ^ L + 2 ^ L). rewrite redirect_lookup.
        assert (Hs : dir_ t1 !! (di mod 2 ^ L + 2 ^ L) = Some T).
        { apply (wf_share _ _ Hwf1 di _ T HT1); [lia|]. fold L.
          replace (di mod 2 ^ L + 2 ^ L) with (di mod 2 ^ L + 1 * 2 ^ L) by lia.
          rewrite Nat.Div0.mod_add. apply Nat.Div0.mod_mod. }
        rewrite Hs. cbn. rewrite decide_True by reflexivity. rewrite land_bit_zero.
        assert (Hbit : Nat.testbit (di mod 2 ^ L + 2 ^ L) L = true).
        { rewrite Nat.testbit_eqb.
          replace (di mod 2 ^ L + 2 ^ L) with (di mod 2 ^ L + 1 * 2 ^ L) by lia.
          rewrite Nat.div_add by lia. rewrite Nat.div_small by lia. reflexivity. }
        rewrite Hbit. reflexivity.
Qed.

Lemma split_counted t di T t' :
  wf t → counted t → dir_ t !! di = Some T → split t di T = Some t' → counted t'.
Proof.
  intros Hwf Hc Hdi Hsplit.
  destruct (split_live t di T t' Hwf Hdi Hsplit) as (Hlive & Hnum & _).
  unfold counted in *. rewrite Hnum, Hlive, Hc.
  assert (HT : T ∈ live_buckets t)
    by (unfold live_buckets; apply elem_of_list_to_set; eapply list_elem_of_lookup_2; exact Hdi).
  assert (Hfresh : ∀ h, h ∈ live_buckets t → h < length (heap t)).
  { intros h Hh. unfold live_buckets in Hh. apply elem_of_list_to_set in Hh.
    apply list_elem_of_lookup in Hh as [j Hj]. eapply wf_alloc; eassumption. }
  rewrite size_union.
  2:{ intros h Hh1 Hh2. apply elem_of_difference in Hh1 as [Hh1 _].
      apply Hfresh in Hh1. set_solver by lia. }
  rewrite size_difference by set_solver. rewrite size_singleton.
  rewrite size_union by set_solver by lia. rewrite !size_singleton.
  assert (0 < size (live_buckets t)).
  { destruct (size (live_buckets t)) eqn:Hs; [|lia].
    apply size_empty_inv in Hs. set_solver. }
  lia.
Qed.

(** What a returning [Insert] does to the shape of the table. *)
Lemma Insert_loop_shape fuel : ∀ t key value t',
  wf t → counted t →
  Insert_loop fuel t (IndexOf t key) (dir_at t (IndexOf t key)) key value = Some t' →
  counted t' ∧
  global_depth_ t ≤ global_depth_ t' ∧ num_buckets_ t ≤ num_buckets_ t' ∧
  global_depth_ t' + num_buckets_ t ≤ global_depth_ t + num_buckets_ t' ∧
  (num_buckets_ t' = num_buckets_ t → dir_ t' = dir_ t).
Proof.
  induction fuel as [|fuel IH]; intros t key value t' Hwf Hc; simpl.
  - destruct (Bucket_Insert key value _) as [b|] eqn:Hb; [|discriminate].
    intros [= <-]. cbn. splits; auto.
  - destruct (Bucket_Insert key value _) as [b|] eqn:Hb.
    + intros [= <-]. cbn. splits; auto.
    + destruct (split t (IndexOf t key) (dir_at t (IndexOf t key))) as [t1|] eqn:Hs;
        [|discriminate].
      intros Hloop.
      pose proof (dir_IndexOf t key Hwf) as Hdi.
      destruct (split_spec t _ _ t1 Hwf Hdi Hs) as (Hwf1 & _).
      destruct (split_live t _ _ t1 Hwf Hdi Hs) as (_ & Hnum & HG).
      pose proof (split_counted t _ _ t1 Hwf Hc Hdi Hs) as Hc1.
      destruct (IH _ _ _ _ Hwf1 Hc1 Hloop) as (Hc' & HG' & Hn' & Hsum & _).
      splits; try assumption; lia.
Qed.

Lemma reachable_counted t : reachable t → counted t.
Proof.
  induction 1 as [bs | fuel t key value t' Hr IH Hi | t key Hr IH].
  - unfold counted, live_buckets. cbn. rewrite union_empty_r_L, size_singleton. reflexivity.
  - eapply Insert_loop_shape; [apply reachable_wf; exact Hr | exact IH | exact Hi].
  - unfold counted, live_buckets, EHT.Remove in *.
    destruct (Bucket_Remove _ _). exact IH.
Qed.

Lemma init_empty bucket_size k : Find (init bucket_size : Table) k = None.
Proof.
  unfold EHT.Find, EHT.IndexOf, dir_at, deref. cbn [global_depth_ dir_ heap init].
  rewrite land_mask_mod. change (2 ^ 0) with 1. rewrite Nat.mod_1_r. reflexivity.
Qed.

Lemma Insert_loop_no_capacity fuel : ∀ t key value,
  wf t → bucket_size_ t = 0 →
  Insert_loop fuel t (IndexOf t key) (dir_at t (IndexOf t key)) key value = None.
Proof.
  induction fuel as [|fuel IH]; intros t key value Hwf Hz;
    pose proof (dir_IndexOf t key Hwf) as Hdi;
    pose proof (wf_cap _ _ Hwf _ _ Hdi) as Hcap;
    pose proof (wf_size _ _ Hwf _ _ Hdi) as Hsize;
    assert (Hb : Bucket_Insert key value (deref t (dir_at t (IndexOf t key))) = None)
      by (apply Bucket_Insert_None;
          destruct (list_ (deref t (dir_at t (IndexOf t key)))) eqn:Hl;
          [split; [apply not_elem_of_nil | simpl; lia] | simpl in Hcap; lia]);
    simpl; rewrite Hb; [reflexivity|].
  destruct (split t (IndexOf t key) (dir_at t (IndexOf t key))) as [t1|] eqn:Hs;
    [|reflexivity].
  destruct (split_spec t _ _ t1 Hwf Hdi Hs) as (Hwf1 & Hbs1 & _).
  apply IH; [exact Hwf1 | congruence].
Qed.

(** *** Further properties of the table *)

(** X8. In every reachable table [GetNumBuckets] is the number of distinct
    buckets the directory refers to, which is at least one and at most the
    number of directory slots. *)
Theorem num_buckets_counts_directory t :
  reachable t →
  GetNumBuckets t = size (live_buckets t) ∧
  1 ≤ GetNumBuckets t ≤ 2 ^ GetGlobalDepth t.
Proof.
  intros Hr. pose proof (reachable_wf t Hr) as Hwf.
  pose proof (reachable_counted t Hr) as Hc. unfold counted in Hc.
  unfold GetNumBuckets, GetGlobalDepth. split; [exact Hc|]. rewrite Hc. split.
  - destruct (size (live_buckets t)) eqn:Hs; [|lia]. exfalso.
    apply size_empty_inv in Hs.
    pose proof (pow2_pos (global_depth_ t)) as Hpos. rewrite <- (wf_len _ _ Hwf) in Hpos.
    destruct (dir_ t) as [|h l] eqn:Hd; [simpl in Hpos; lia|].
    unfold live_buckets in Hs. rewrite Hd in Hs. set_solver.
  - rewrite <- (wf_len _ _ Hwf). apply live_buckets_bound.
Qed.

(** X9. An [Insert] that returns on a reachable table keeps the bucket
    capacity and never lowers the global depth or the number of buckets; the
    global depth grows by no more than the number of buckets does; and when
    the number of buckets is unchanged, so are the directory and the global
    depth. *)
Theorem insert_grows_only fuel t key value t' :
  reachable t → Insert fuel t key value = Some t' →
  bucket_size_ t' = bucket_size_ t ∧
  GetGlobalDepth t ≤ GetGlobalDepth t' ∧ GetNumBuckets t ≤ GetNumBuckets t' ∧
  GetGlobalDepth t' - GetGlobalDepth t ≤ GetNumBuckets t' - GetNumBuckets t ∧
  (GetNumBuckets t' = GetNumBuckets t →
     dir_ t' = dir_ t ∧ GetGlobalDepth t' = GetGlobalDepth t).
Proof.
  intros Hr Hi. pose proof (reachable_wf t Hr) as Hwf.
  destruct (Insert_loop_shape fuel t key value t' Hwf (reachable_counted t Hr) Hi)
    as (_ & HG & Hn & Hsum & Hsame).
  unfold GetGlobalDepth, GetNumBuckets. splits; try lia.
  - eapply Insert_bucket_size; eassumption.
  - intros Heq. split; [auto | lia].
Qed.

(** X10. On a reachable table, when the key is present or its bucket has
    room, [Insert] returns at once, whatever the number of iterations it is
    given: the directory, the global depth, the number of buckets and every
    local depth are unchanged. *)
Theorem insert_in_place fuel t key value :
  reachable t →
  is_Some (Find t key) ∨
  length (list_ (deref t (dir_at t (IndexOf t key)))) < bucket_size_ t →
  ∃ t', Insert fuel t key value = Some t' ∧ dir_ t' = dir_ t ∧
        GetGlobalDepth t' = GetGlobalDepth t ∧ GetNumBuckets t' = GetNumBuckets t ∧
        (∀ i, GetLocalDepth t' i = GetLocalDepth t i).
Proof.
  intros Hr Hcase. pose proof (reachable_wf t Hr) as Hwf.
  pose proof (dir_IndexOf t key Hwf) as Hdi.
  destruct (Bucket_Insert key value (deref t (dir_at t (IndexOf t key)))) as [b|] eqn:Hb.
  2:{ exfalso. apply Bucket_Insert_None in Hb as [Hnin Hfull].
      rewrite (wf_size _ _ Hwf _ _ Hdi) in Hfull.
      destruct Hcase as [[v Hv]|Hlt]; [|lia].
      apply find_key_None in Hnin. unfold EHT.Find, Bucket_Find in Hv. congruence. }
  exists (set_bucket t (dir_at t (IndexOf t key)) b). split.
  { unfold EHT.Insert. destruct fuel; simpl; rewrite Hb; reflexivity. }
  splits; try reflexivity. intros i. unfold GetLocalDepth.
  change (dir_at (set_bucket t (dir_at t (IndexOf t key)) b) i) with (dir_at t i).
  destruct (decide (dir_at t i = dir_at t (IndexOf t key))) as [->|Hne].
  - rewrite deref_set_eq by (eapply wf_alloc; eassumption).
    apply Bucket_Insert_Some in Hb. apply Hb.
  - rewrite deref_set_ne by congruence. reflexivity.
Qed.

(** X11. On a reachable table with buckets of capacity at least one,
    [Insert] returns within [D + 1] iterations of its loop when no key of
    the table other than the one inserted agrees with it on the low [D] bits
    of the hash, for [D] at most 30: no bucket of local depth [D] or more is
    split, so the directory is not doubled beyond the [2 ^ 30] slots that
    its [int] length allows, and [dir_.resize] does not throw. *)
Theorem insert_terminates_when_hash_separates fuel D t key value :
  reachable t → 1 ≤ bucket_size_ t → D < fuel → D ≤ 30 →
  (∀ k', is_Some (Find t k') → hash k' mod 2 ^ D = hash key mod 2 ^ D → k' = key) →
  ∃ t', Insert fuel t key value = Some t'.
Proof.
  intros Hr Hbs Hfuel HD Hsep. pose proof (reachable_wf t Hr) as Hwf.
  destruct (Insert_loop_terminates D fuel t key value Hwf Hbs HD Hsep ltac:(lia))
    as [t' Ht'].
  exists t'. exact Ht'.
Qed.

(** X12. With buckets of capacity zero [Insert] never returns: on a
    reachable table every iteration of its loop finds the bucket full and
    splits again, so that no number of iterations gives a table (the loop
    can only be left by the exception of [dir_.resize]). *)
Theorem insert_spins_without_capacity fuel t key value :
  reachable t → bucket_size_ t = 0 → Insert fuel t key value = None.
Proof.
  intros Hr Hz. apply Insert_loop_no_capacity; [apply reachable_wf; exact Hr | exact Hz].
Qed.

(** X13. On a reachable table [Remove key] returns true exactly when the key
    was present; afterwards the key is absent and every other key is bound
    as before; and the directory, the global depth, the number of buckets
    and every local depth are unchanged (buckets are never merged). *)
Theorem remove_erases_key t key :
  reachable t →
  ((Remove t key).1 = true ↔ is_Some (Find t key)) ∧
  Find (Remove t key).2 key = None ∧
  (∀ k', k' ≠ key → Find (Remove t key).2 k' = Find t k') ∧
  dir_ (Remove t key).2 = dir_ t ∧
  GetGlobalDepth (Remove t key).2 = GetGlobalDepth t ∧
  GetNumBuckets (Remove t key).2 = GetNumBuckets t ∧
  (∀ i, GetLocalDepth (Remove t key).2 i = GetLocalDepth t i).
Proof.
  intros Hr. pose proof (reachable_wf t Hr) as Hwf.
  pose proof (dir_IndexOf t key Hwf) as Hdi. splits.
  - rewrite Remove_result. apply bool_decide_eq_true.
  - rewrite Remove_find by assumption. rewrite decide_True; reflexivity.
  - intros k' Hne. rewrite Remove_find by assumption. rewrite decide_False; auto.
  - unfold EHT.Remove. destruct (Bucket_Remove _ _). reflexivity.
  - unfold EHT.Remove. destruct (Bucket_Remove _ _). reflexivity.
  - unfold EHT.Remove. destruct (Bucket_Remove _ _). reflexivity.
  - intros i. unfold GetLocalDepth, EHT.Remove, Bucket_Remove.
    destruct (list_erase_key key _) as [l|]; cbn [snd].
    + change (dir_at (set_bucket t ?h ?b) i) with (dir_at t i).
      destruct (decide (dir_at t i = dir_at t (IndexOf t key))) as [->|Hne].
      * rewrite deref_set_eq by (eapply wf_alloc; eassumption). reflexivity.
      * rewrite deref_set_ne by congruence. reflexivity.
    + change (dir_at (set_bucket t ?h ?b) i) with (dir_at t i).
      destruct (decide (dir_at t i = dir_at t (IndexOf t key))) as [->|Hne].
      * rewrite deref_set_eq by (eapply wf_alloc; eassumption). reflexivity.
      * rewrite deref_set_ne by congruence. reflexivity.
Qed.

(** X14. In every reachable table each bucket of the directory holds at most
    [bucket_size] pairs, with distinct keys, and [Find] returns the value of
    each pair it holds; and whatever [Find] returns is held by a bucket of
    the directory. *)
Theorem stored_pairs_are_found t :
  reachable t →
  (∀ i h, dir_ t !! i = Some h →
     length (list_ (deref t h)) ≤ bucket_size_ t ∧ NoDup (list_ (deref t h)).*1 ∧
     ∀ k v, (k, v) ∈ list_ (deref t h) → Find t k = Some v) ∧
  (∀ k v, Find t k = Some v →
     ∃ i h, dir_ t !! i = Some h ∧ (k, v) ∈ list_ (deref t h)).
Proof.
  intros Hr. pose proof (reachable_wf t Hr) as Hwf. split.
  - intros i h Hdi. split; [eapply wf_cap; eassumption|].
    split; [eapply wf_nodup; eassumption|]. intros k v Hin.
    pose proof (wf_home _ _ Hwf _ _ _ _ Hdi Hin) as Hhome.
    unfold EHT.Find, Bucket_Find. rewrite IndexOf_mod, (dir_at_Some _ _ _ Hhome).
    apply find_key_nodup; [eapply wf_nodup; eassumption | exact Hin].
  - intros k v HF. exists (IndexOf t k), (dir_at t (IndexOf t k)).
    split; [apply dir_IndexOf; exact Hwf|]. apply find_key_elem. exact HF.
Qed.

End Facts.

Lemma example_table_reachable : reachable id example_table.
Proof.
  unfold example_table. cbn [fold_left].
  repeat (lazymatch goal with
          | |- EHT.reachable _ (put ?t ?kv) =>
              apply (reach_insert id 8 t kv.1 kv.2); [|vm_compute; reflexivity]
          end).
  apply reach_init.
Qed.

Lemma directory_invariant_witness :
  length (dir_ example_table) = 2 ^ GetGlobalDepth example_table ∧
  ∀ i, i < 2 ^ GetGlobalDepth example_table →
    GetLocalDepth example_table i ≤ GetGlobalDepth example_table ∧
    (∀ j, j < 2 ^ GetGlobalDepth example_table →
       (dir_at example_table j = dir_at example_table i ↔
        j mod 2 ^ GetLocalDepth example_table i
        = i mod 2 ^ GetLocalDepth example_table i)) ∧
    length (slots_of example_table (dir_at example_table i))
    = 2 ^ (GetGlobalDepth example_table - GetLocalDepth example_table i).
Proof. apply (directory_invariant id example_table), example_table_reachable. Defined.

Lemma insert_then_find_witness :
  ∃ t', Insert id 8 example_table 8 18 = Some t' ∧ global_depth_ t' = 3 ∧
        Find id t' 8 = Some 18.
Proof.
  eexists. split; [vm_compute; reflexivity|]. split; [reflexivity|].
  eapply (insert_then_find id 8 example_table 8 18).
  - apply example_table_reachable.
  - vm_compute. reflexivity.
Defined.

Lemma insert_preserves_others_witness :
  ∃ t', Insert id 8 example_table 8 18 = Some t' ∧
        Find id t' 4 = Find id example_table 4.
Proof.
  eexists. split; [vm_compute; reflexivity|].
  eapply (insert_preserves_others id 8 example_table 8 18).
  - apply example_table_reachable.
  - discriminate.
  - vm_compute. reflexivity.
Defined.

Lemma num_buckets_counts_directory_witness :
  GetNumBuckets example_table = size (live_buckets example_table) ∧
  1 ≤ GetNumBuckets example_table ≤ 2 ^ GetGlobalDepth example_table.
Proof. apply (num_buckets_counts_directory id example_table), example_table_reachable. Defined.

Lemma insert_grows_only_witness :
  ∃ t', Insert id 8 example_table 8 18 = Some t' ∧
        GetGlobalDepth t' - GetGlobalDepth example_table
        ≤ GetNumBuckets t' - GetNumBuckets example_table.
Proof.
  eexists. split; [vm_compute; reflexivity|].
  eapply (insert_grows_only id 8 example_table 8 18).
  - apply example_table_reachable.
  - vm_compute. reflexivity.
Defined.

Lemma insert_in_place_witness :
  ∃ t', Insert id 0 example_table 4 44 = Some t' ∧ dir_ t' = dir_ example_table ∧
        GetGlobalDepth t' = GetGlobalDepth example_table ∧
        GetNumBuckets t' = GetNumBuckets example_table ∧
        (∀ i, GetLocalDepth t' i = GetLocalDepth example_table i).
Proof.
  apply (insert_in_place id 0 example_table 4 44 example_table_reachable).
  left. vm_compute. eauto.
Defined.

(** Key 8 goes to the full bucket of keys 0 and 4, which is split twice;
    it differs from every key of the table within its low four bits. *)
Lemma insert_terminates_when_hash_separates_witness :
  IsFull (deref example_table (dir_at example_table (IndexOf id example_table 8))) = true ∧
  ∃ t', Insert id 5 example_table 8 18 = Some t'.
Proof.
  split; [reflexivity|].
  apply (insert_terminates_when_hash_separates id 5 4 example_table 8 18).
  - apply example_table_reachable.
  - vm_compute. lia.
  - lia.
  - lia.
  - intros k' [v Hv] Hmod.
    assert (Hk : k' < 16 ∨ 16 ≤ k') by lia. destruct Hk as [Hk|Hk].
    + do 16 (destruct k' as [|k']; [vm_compute in Hv, Hmod; congruence|]). lia.
    + exfalso. revert Hv. unfold Find, EHT.Find.
      rewrite (IndexOf_mod id example_table k').
      change (global_depth_ example_table) with 1. unfold id.
      assert (Hlt : k' mod 2 ^ 1 < 2) by (apply Nat.mod_upper_bound; cbn; lia).
      destruct (k' mod 2 ^ 1) as [|[|?]] eqn:Hm; [| |lia].
      all: match goal with |- Bucket_Find _ ?b = _ → _ =>
             let b' := eval vm_compute in b in change b with b' end;
           unfold Bucket_Find; cbn [list_ list_find_key];
           repeat (destruct (decide _) as [?|]; [lia|]); discriminate.
Defined.

Lemma insert_spins_without_capacity_witness : Insert id 5 (init 0) 1 10 = None.
Proof.
  apply (insert_spins_without_capacity id 5 (init 0) 1 10); [apply reach_init | reflexivity].
Defined.

Lemma remove_erases_key_witness :
  (Remove id example_table 3).1 = true ∧ Find id (Remove id example_table 3).2 3 = None.
Proof.
  pose proof (remove_erases_key id example_table 3 example_table_reachable)
    as (Hret & Hgone & _).
  split; [apply Hret; vm_compute; eauto | exact Hgone].
Defined.

Lemma stored_pairs_are_found_witness :
  ∃ i h, dir_ example_table !! i = Some h ∧ (3, 13) ∈ list_ (deref example_table h).
Proof.
  apply (proj2 (stored_pairs_are_found id example_table example_table_reachable) 3 13).
  vm_compute. reflexivity.
Defined.

End EHT_Facts.

(* ===================================================================== *)
(** * LRU-K replacer: properties                                          *)
(* ===================================================================== *)

Module LRUK_Facts.
Import LRUK.

Lemma elem_of_list_erase (f x : Z) (l : list Z) :
  NoDup l → x ∈ list_erase f l ↔ x ∈ l ∧ x ≠ f.
Proof.
  induction l as [|y l IH]; simpl; intros Hnd.
  - split; [intros H; apply elem_of_nil in H as [] | intros [H _]; exact H].
  - apply NoDup_cons in Hnd as [Hy Hnd]. destruct (decide (y = f)) as [->|Hne].
    + rewrite elem_of_cons. split.
      * intros Hx. split; [right; exact Hx | intros ->; auto].
      * intros [[->|Hx] Hxf]; [congruence | exact Hx].
    + rewrite !elem_of_cons, IH by assumption. split.
      * intros [->|[Hx Hxf]]; auto.
      * intros [[->|Hx] Hxf]; auto.
Qed.

Lemma NoDup_list_erase (f : Z) (l : list Z) : NoDup l → NoDup (list_erase f l).
Proof.
  induction l as [|y l IH]; simpl; intros Hnd; [constructor|].
  apply NoDup_cons in Hnd as [Hy Hnd]. destruct (decide (y = f)); [assumption|].
  apply NoDup_cons. split; [|auto]. rewrite elem_of_list_erase by assumption.
  intros [? _]. auto.
Qed.

Lemma list_erase_notin (f : Z) (l : list Z) : f ∉ l → list_erase f l = l.
Proof.
  induction l as [|y l IH]; simpl; intros Hn; [reflexivity|].
  apply not_elem_of_cons in Hn as [Hne Hn].
  rewrite decide_False by congruence. f_equal. auto.
Qed.

Lemma replacer_wf_init num_frames k : wf (init num_frames k).
Proof.
  split; simpl.
  - constructor.
  - constructor.
  - intros f. rewrite elem_of_nil. set_solver.
  - intros f. rewrite elem_of_nil. set_solver.
  - intros f. rewrite elem_of_nil. unfold access_count. simpl.
    rewrite lookup_empty. simpl. lia.
  - intros f. rewrite elem_of_nil. unfold access_count. simpl.
    rewrite lookup_empty. simpl. lia.
  - unfold is_evictable. simpl. intros f. rewrite lookup_empty. discriminate.
  - unfold evictable_count. rewrite map_filter_empty, map_size_empty. reflexivity.
Qed.

(** Reading the two maps after an update. *)
Lemma access_count_insert r f c r' f' :
  access_record_map_ r' = <[f := c]> (access_record_map_ r) →
  access_count r' f' = if decide (f' = f) then c else access_count r f'.
Proof.
  unfold access_count. intros ->. destruct (decide (f' = f)) as [->|Hne].
  - rewrite lookup_insert_eq. reflexivity.
  - rewrite lookup_insert_ne by congruence. reflexivity.
Qed.

Lemma access_count_delete r f r' f' :
  access_record_map_ r' = delete f (access_record_map_ r) →
  access_count r' f' = if decide (f' = f) then 0 else access_count r f'.
Proof.
  unfold access_count. intros ->. destruct (decide (f' = f)) as [->|Hne].
  - rewrite lookup_delete_eq. reflexivity.
  - rewrite lookup_delete_ne by congruence. reflexivity.
Qed.

Lemma is_evictable_insert r f b r' f' :
  evictable_map_ r' = <[f := b]> (evictable_map_ r) →
  is_evictable r' f' = if decide (f' = f) then b else is_evictable r f'.
Proof.
  unfold is_evictable. intros ->. destruct (decide (f' = f)) as [->|Hne].
  - rewrite lookup_insert_eq. reflexivity.
  - rewrite lookup_insert_ne by congruence. reflexivity.
Qed.

Lemma is_evictable_delete r f r' f' :
  evictable_map_ r' = delete f (evictable_map_ r) →
  is_evictable r' f' = if decide (f' = f) then false else is_evictable r f'.
Proof.
  unfold is_evictable. intros ->. destruct (decide (f' = f)) as [->|Hne].
  - rewrite lookup_delete_eq. reflexivity.
  - rewrite lookup_delete_ne by congruence. reflexivity.
Qed.

Lemma evictable_count_set_true m f :
  default false (m !! f) = false →
  evictable_count (<[f := true]> m) = S (evictable_count m).
Proof.
  intros Hf. unfold evictable_count.
  rewrite map_filter_insert_True by reflexivity.
  apply map_size_insert_None. apply map_lookup_filter_None. 
  destruct (m !! f) as [b|] eqn:Hm; [right | left; reflexivity].
  intros x [= <-]. simpl in *. subst b. discriminate.
Qed.

Lemma evictable_count_drop m f :
  default false (m !! f) = true →
  evictable_count (delete f m) = evictable_count m - 1.
Proof.
  intros Hf. unfold evictable_count. rewrite map_filter_delete.
  rewrite map_size_delete_Some; [lia|].
  exists true. apply map_lookup_filter_Some.
  destruct (m !! f) as [b|] eqn:Hm; simpl in *; [subst b; auto | discriminate].
Qed.

Lemma evictable_count_set_false m f :
  default false (m !! f) = true →
  evictable_count (<[f := false]> m) = evictable_count m - 1.
Proof.
  intros Hf. unfold evictable_count.
  rewrite map_filter_insert_False by (simpl; discriminate).
  apply evictable_count_drop. exact Hf.
Qed.

Lemma evictable_count_pos m f :
  default false (m !! f) = true → 0 < evictable_count m.
Proof.
  intros Hf. unfold evictable_count.
  destruct (m !! f) as [b|] eqn:Hm; simpl in *; [subst b | discriminate].
  assert (Hl : filter (λ kv : Z * bool, kv.2 = true) m !! f = Some true)
    by (apply map_lookup_filter_Some; auto).
  destruct (size (filter (λ kv : Z * bool, kv.2 = true) m)) eqn:Hs; [|lia].
  apply map_size_empty_inv in Hs. rewrite Hs, lookup_empty in Hl. discriminate.
Qed.

Lemma evictable_count_zero m f :
  evictable_count m = 0 → default false (m !! f) = false.
Proof.
  intros Hz. destruct (default false (m !! f)) eqn:Hf; [|reflexivity].
  apply evictable_count_pos in Hf. lia.
Qed.

(** Case analysis on a frame against the frame an operation touches, with
    the two maps read through their updates. *)
Ltac map_reads f0 f :=
  unfold access_count, is_evictable in *;
  cbn [access_record_map_ evictable_map_ k_ outer_list_ outer_index_
       pool_cache_list_ pool_cache_index_ curr_size_] in *;
  destruct (decide (f0 = f)) as [->|?];
  [ rewrite ?lookup_insert_eq, ?lookup_delete_eq in *
  | rewrite ?lookup_insert_ne, ?lookup_delete_ne in * by congruence ];
  repeat match goal with
    | |- context [default ?d (Some ?x)] => change (default d (Some x)) with x
    | |- context [default ?d None] => change (default d None) with d
    | H : context [default ?d (Some ?x)] |- _ => change (default d (Some x)) with x in H
    | H : context [default ?d None] |- _ => change (default d None) with d in H
    end.


Lemma RecordAccess_cases f r :
  wf r →
  match RecordAccess f r with
  | Ret _ r' =>
      invalid_frame r f = false ∧ wf r' ∧
      access_record_map_ r' = <[f := S (access_count r f)]> (access_record_map_ r) ∧
      evictable_map_ r' = evictable_map_ r ∧ curr_size_ r' = curr_size_ r ∧
      replacer_size_ r' = replacer_size_ r ∧ k_ r' = k_ r
  | Throw r' => r' = r ∧ invalid_frame r f = true
  | Undef => invalid_frame r f = false ∧ k_ r = 1 ∧ access_count r f = 0
  | Timeout => False
  end.
Proof.
  intros [Hnd1 Hnd2 Hi1 Hi2 Ho Hc Ht Hs]. unfold RecordAccess.
  destruct (invalid_frame r f) eqn:Hinv; [auto|].
  pose proof (Ho f) as Hof. pose proof (Hc f) as Hcf.
  pose proof (Hi1 f) as Hi1f. pose proof (Hi2 f) as Hi2f.
  unfold access_count in *.
  remember (default 0 (access_record_map_ r !! f)) as c eqn:Hceq.
  destruct (Nat.ltb_spec (S c) (k_ r)) as [Hlt|Hge].
  - destruct (decide (f ∈ outer_index_ r)) as [Hin|Hnin].
    + assert (0 < c < k_ r) by (apply Hof, Hi1f, Hin).
      split; [reflexivity|]. split; [|auto 10]. split; cbn; try assumption.
      * intros f0. rewrite Ho. map_reads f0 f; [rewrite <- Hceq; arith | reflexivity].
      * intros f0. rewrite Hc. map_reads f0 f; [rewrite <- Hceq; arith | reflexivity].
      * intros f0 He. specialize (Ht f0 He). map_reads f0 f; [lia | assumption].
    + assert (c = 0) as Hc0 by (rewrite Hi1f, Hof in Hnin; lia).
      split; [reflexivity|]. split; [|auto 10]. split; cbn; try assumption.
      * apply NoDup_cons. split; [rewrite <- Hi1f; assumption | assumption].
      * intros f0. rewrite elem_of_union, elem_of_singleton, elem_of_cons, Hi1. reflexivity.
      * intros f0. rewrite elem_of_cons, Ho. map_reads f0 f; [rewrite <- Hceq; arith | arith].
      * intros f0. rewrite Hc. map_reads f0 f; [rewrite <- Hceq; arith | reflexivity].
      * intros f0 He. specialize (Ht f0 He). map_reads f0 f; [lia | assumption].
  - destruct (Nat.eqb_spec (S c) (k_ r)) as [Heq|Hneq].
    + destruct (decide (f ∈ outer_index_ r)) as [Hin|Hnin].
      * assert (0 < c < k_ r) by (apply Hof, Hi1f, Hin).
        split; [reflexivity|]. split; [|auto 10]. split; cbn; try assumption.
        -- apply NoDup_list_erase. assumption.
        -- apply NoDup_cons. split; [rewrite Hcf; lia | assumption].
        -- intros f0. rewrite elem_of_difference, elem_of_singleton, Hi1.
           rewrite elem_of_list_erase by assumption. reflexivity.
        -- intros f0. rewrite elem_of_union, elem_of_singleton, elem_of_cons, Hi2.
           reflexivity.
        -- intros f0. rewrite elem_of_list_erase by assumption. rewrite Ho.
           map_reads f0 f; [rewrite <- Hceq; arith | arith].
        -- intros f0. rewrite elem_of_cons, Hc.
           map_reads f0 f; [rewrite <- Hceq; arith | arith].
        -- intros f0 He. specialize (Ht f0 He). map_reads f0 f; [lia | assumption].
      * rewrite Hi1f, Hof in Hnin. repeat split; lia.
    + assert (Hgt : k_ r < S c) by lia.
      split; [reflexivity|]. split; [|auto 10].
      assert (Hcache : ∀ f0, f0 ∈ (if decide (f ∈ pool_cache_index_ r)
                                   then list_erase f (pool_cache_list_ r)
                                   else pool_cache_list_ r)
                             ↔ f0 ∈ pool_cache_list_ r ∧ f0 ≠ f).
      { intros f0. destruct (decide (f ∈ pool_cache_index_ r)) as [Hin|Hnin].
        - apply elem_of_list_erase. assumption.
        - rewrite Hi2f in Hnin. split; [|intros [? _]; assumption].
          intros Hf0. split; [assumption | intros ->; auto]. }
      split; cbn; try assumption.
      * apply NoDup_cons. split.
        -- rewrite Hcache. intros [_ ?]. congruence.
        -- destruct (decide (f ∈ pool_cache_index_ r));
             [apply NoDup_list_erase|]; assumption.
      * intros f0. rewrite elem_of_union, elem_of_singleton, elem_of_cons, Hcache, Hi2.
        destruct (decide (f0 = f)); tauto.
      * intros f0. rewrite Ho. map_reads f0 f; [rewrite <- Hceq; arith | reflexivity].
      * intros f0. rewrite elem_of_cons, Hcache, Hc.
        map_reads f0 f; [rewrite <- Hceq; arith | arith].
      * intros f0 He. specialize (Ht f0 He). map_reads f0 f; [lia | assumption].
Qed.

(** With [K = 1] the first access of a frame erases from the history list
    through an iterator that was never stored. *)
Lemma RecordAccess_first_k1 f r :
  wf r → k_ r = 1 → invalid_frame r f = false → access_count r f = 0 →
  RecordAccess f r = Undef.
Proof.
  intros Hwf Hk Hvalid Hz. unfold RecordAccess. rewrite Hvalid, Hz, Hk. cbn.
  rewrite decide_False; [reflexivity|].
  rewrite (wf_outer_index _ Hwf), (wf_outer _ Hwf). lia.
Qed.

Lemma SetEvictable_cases f b r :
  wf r →
  match SetEvictable f b r with
  | Ret _ r' =>
      invalid_frame r f = false ∧ wf r' ∧
      access_record_map_ r' = access_record_map_ r ∧
      outer_list_ r' = outer_list_ r ∧ pool_cache_list_ r' = pool_cache_list_ r ∧
      replacer_size_ r' = replacer_size_ r ∧ k_ r' = k_ r ∧
      (∀ f0, is_evictable r' f0 =
             if decide (f0 = f)
             then (if access_count r f =? 0 then is_evictable r f else b)
             else is_evictable r f0)
  | Throw r' => r' = r ∧ invalid_frame r f = true
  | Undef | Timeout => False
  end.
Proof.
  intros Hwf. pose proof Hwf as [Hnd1 Hnd2 Hi1 Hi2 Ho Hc Ht Hs]. unfold SetEvictable.
  destruct (invalid_frame r f) eqn:Hinv; [auto|].
  destruct (Nat.eqb_spec (access_count r f) 0) as [Hz|Hnz].
  { splits; try assumption; try reflexivity. intros f0. destruct (decide (f0 = f)); congruence. }
  destruct (eqb (is_evictable r f) b) eqn:Heqb.
  { apply eqb_prop in Heqb. splits; try assumption; try reflexivity.
    intros f0. destruct (decide (f0 = f)); congruence. }
  apply eqb_false_iff in Heqb.
  split; [reflexivity|]. split; [|splits; try reflexivity].
  - split; cbn; try assumption.
    + intros f0 He. map_reads f0 f; [lia | auto].
    + unfold is_evictable in Heqb. destruct b.
      * rewrite evictable_count_set_true; [congruence|].
        destruct (default false (evictable_map_ r !! f)); congruence.
      * rewrite evictable_count_set_false; [congruence|].
        destruct (default false (evictable_map_ r !! f)); congruence.
  - intros f0. apply is_evictable_insert. reflexivity.
Qed.

Lemma wf_drop_outer f r :
  wf r → f ∈ outer_list_ r → is_evictable r f = true →
  wf (mkReplacer (replacer_size_ r) (k_ r) (curr_size_ r - 1)
        (delete f (access_record_map_ r)) (delete f (evictable_map_ r))
        (list_erase f (outer_list_ r)) (outer_index_ r ∖ {[f]})
        (pool_cache_list_ r) (pool_cache_index_ r)).
Proof.
  intros [Hnd1 Hnd2 Hi1 Hi2 Ho Hc Ht Hs] Hin Hev.
  assert (Hnc : f ∉ pool_cache_list_ r) by (rewrite Hc; apply Ho in Hin; lia).
  split; cbn; try assumption.
  - apply NoDup_list_erase. assumption.
  - intros f0. rewrite elem_of_difference, elem_of_singleton, Hi1.
    rewrite elem_of_list_erase by assumption. reflexivity.
  - intros f0. rewrite elem_of_list_erase by assumption. rewrite Ho.
    map_reads f0 f; arith.
  - intros f0. rewrite Hc. destruct (decide (f0 = f)) as [->|Hne].
    + rewrite <- Hc. unfold access_count. cbn. rewrite lookup_delete_eq. cbn. arith.
    + unfold access_count. cbn. rewrite lookup_delete_ne by congruence. reflexivity.
  - intros f0 He. specialize (Ht f0). map_reads f0 f; [discriminate | auto].
  - rewrite evictable_count_drop by exact Hev. congruence.
Qed.

Lemma wf_drop_cache f r :
  wf r → f ∈ pool_cache_list_ r → is_evictable r f = true →
  wf (mkReplacer (replacer_size_ r) (k_ r) (curr_size_ r - 1)
        (delete f (access_record_map_ r)) (delete f (evictable_map_ r))
        (outer_list_ r) (outer_index_ r)
        (list_erase f (pool_cache_list_ r)) (pool_cache_index_ r ∖ {[f]})).
Proof.
  intros [Hnd1 Hnd2 Hi1 Hi2 Ho Hc Ht Hs] Hin Hev.
  assert (Hnc : f ∉ outer_list_ r) by (rewrite Ho; apply Hc in Hin; lia).
  split; cbn; try assumption.
  - apply NoDup_list_erase. assumption.
  - intros f0. rewrite elem_of_difference, elem_of_singleton, Hi2.
    rewrite elem_of_list_erase by assumption. reflexivity.
  - intros f0. rewrite Ho. destruct (decide (f0 = f)) as [->|Hne].
    + rewrite <- Ho. unfold access_count. cbn. rewrite lookup_delete_eq. cbn. arith.
    + unfold access_count. cbn. rewrite lookup_delete_ne by congruence. reflexivity.
  - intros f0. rewrite elem_of_list_erase by assumption. rewrite Hc.
    map_reads f0 f; arith.
  - intros f0 He. specialize (Ht f0). map_reads f0 f; [discriminate | auto].
  - rewrite evictable_count_drop by exact Hev. congruence.
Qed.

(** A frame marked evictable is in one of the two lists. *)
Lemma evictable_listed r f :
  wf r → is_evictable r f = true → f ∈ outer_list_ r ∨ f ∈ pool_cache_list_ r.
Proof.
  intros Hwf Hev. pose proof (wf_tracked _ Hwf f Hev) as Hpos.
  rewrite (wf_outer _ Hwf), (wf_cache _ Hwf). lia.
Qed.

Lemma Evict_cases r :
  wf r →
  match Evict r with
  | Ret None r' => r' = r ∧ ∀ f, is_evictable r f = false
  | Ret (Some f) r' =>
      is_evictable r f = true ∧ wf r' ∧ 0 < curr_size_ r ∧
      access_record_map_ r' = delete f (access_record_map_ r) ∧
      evictable_map_ r' = delete f (evictable_map_ r) ∧
      curr_size_ r' = curr_size_ r - 1 ∧
      replacer_size_ r' = replacer_size_ r ∧ k_ r' = k_ r
  | Throw _ | Undef | Timeout => False
  end.
Proof.
  intros Hwf. unfold Evict.
  destruct (Nat.eqb_spec (curr_size_ r) 0) as [Hz|Hnz].
  { split; [reflexivity|]. intros f. unfold is_evictable.
    apply evictable_count_zero. rewrite <- (wf_size _ Hwf). exact Hz. }
  destruct (find (is_evictable r) (rev (outer_list_ r))) as [f|] eqn:Hf1.
  { apply find_some in Hf1 as [Hin Hev]. apply in_rev, list_elem_of_In in Hin.
    unfold evict_frame. rewrite decide_True by (apply (wf_outer_index _ Hwf); exact Hin).
    split; [exact Hev|]. split; [apply wf_drop_outer; assumption|].
    repeat split. lia. }
  destruct (find (is_evictable r) (rev (pool_cache_list_ r))) as [f|] eqn:Hf2.
  { apply find_some in Hf2 as [Hin Hev]. apply in_rev, list_elem_of_In in Hin.
    unfold evict_frame. rewrite decide_True by (apply (wf_cache_index _ Hwf); exact Hin).
    split; [exact Hev|]. split; [apply wf_drop_cache; assumption|].
    repeat split. lia. }
  split; [reflexivity|]. intros f.
  destruct (is_evictable r f) eqn:Hev; [|reflexivity].
  destruct (evictable_listed r f Hwf Hev) as [Hin|Hin].
  - rewrite <- Hev. apply (find_none _ _ Hf1). apply in_rev. rewrite rev_involutive.
    apply list_elem_of_In. exact Hin.
  - rewrite <- Hev. apply (find_none _ _ Hf2). apply in_rev. rewrite rev_involutive.
    apply list_elem_of_In. exact Hin.
Qed.

Lemma Remove_cases f r :
  wf r →
  match Remove f r with
  | Ret _ r' =>
      invalid_frame r f = false ∧ wf r' ∧
      replacer_size_ r' = replacer_size_ r ∧ k_ r' = k_ r ∧
      ((access_count r f = 0 ∧ r' = r) ∨
       (0 < access_count r f ∧ is_evictable r f = true ∧
        access_record_map_ r' = delete f (access_record_map_ r) ∧
        evictable_map_ r' = delete f (evictable_map_ r) ∧
        curr_size_ r' = curr_size_ r - 1))
  | Throw r' =>
      r' = r ∧ (invalid_frame r f = true ∨
                (0 < access_count r f ∧ is_evictable r f = false))
  | Undef | Timeout => False
  end.
Proof.
  intros Hwf. unfold Remove.
  destruct (invalid_frame r f) eqn:Hinv; [auto|].
  destruct (Nat.eqb_spec (access_count r f) 0) as [Hz|Hnz]; [auto 10|].
  destruct (is_evictable r f) eqn:Hev; cbn [negb]; [|split; [reflexivity|right; split; [lia|reflexivity]]].
  destruct (Nat.ltb_spec (access_count r f) (k_ r)) as [Hlt|Hge].
  - assert (Hin : f ∈ outer_list_ r) by (apply (wf_outer _ Hwf); lia).
    rewrite decide_True by (apply (wf_outer_index _ Hwf); exact Hin).
    split; [reflexivity|]. split; [apply wf_drop_outer; assumption|].
    split; [reflexivity|]. split; [reflexivity|]. right. repeat split. lia.
  - assert (Hin : f ∈ pool_cache_list_ r) by (apply (wf_cache _ Hwf); lia).
    rewrite decide_True by (apply (wf_cache_index _ Hwf); exact Hin).
    split; [reflexivity|]. split; [apply wf_drop_cache; assumption|].
    split; [reflexivity|]. split; [reflexivity|]. right. repeat split. lia.
Qed.

Lemma exec_wf c r r' : wf r → exec c r = Some r' → wf r'.
Proof.
  intros Hwf. destruct c as [f|f b| |f]; cbn.
  - pose proof (RecordAccess_cases f r Hwf) as H.
    destruct (RecordAccess f r); cbn; intros [= <-]; [apply H | destruct H as [-> _]; exact Hwf].
  - pose proof (SetEvictable_cases f b r Hwf) as H.
    destruct (SetEvictable f b r); cbn; intros [= <-]; [apply H | destruct H as [-> _]; exact Hwf].
  - pose proof (Evict_cases r Hwf) as H.
    destruct (Evict r) as [[f|] r0|r0| |]; cbn; intros [= <-];
      [apply H | destruct H as [-> _]; exact Hwf | destruct H].
  - pose proof (Remove_cases f r Hwf) as H.
    destruct (Remove f r); cbn; intros [= <-]; [apply H | destruct H as [-> _]; exact Hwf].
Qed.

Lemma replacer_reachable_wf r : reachable r → wf r.
Proof.
  induction 1 as [n k | c r r' _ IH He]; [apply replacer_wf_init | eapply exec_wf; eassumption].
Qed.

(** *** What [Evict] guarantees in a reachable state *)

(** [Evict] returns no frame exactly when no frame is evictable; a frame it
    returns was evictable, its access history is erased and the size drops
    by one; and it comes from the history list whenever an evictable frame
    has fewer than [K] accesses. *)
Lemma Evict_sound r :
  reachable r →
  match Evict r with
  | Ret None r' => r' = r ∧ ∀ f, is_evictable r f = false
  | Ret (Some f) r' =>
      is_evictable r f = true ∧ access_count r' f = 0 ∧
      is_evictable r' f = false ∧ Size r' = Size r - 1 ∧ 0 < Size r ∧
      ((∃ g, is_evictable r g = true ∧ access_count r g < k_ r) →
       access_count r f < k_ r)
  | Throw _ | Undef | Timeout => False
  end.
Proof.
  intros Hr. pose proof (replacer_reachable_wf r Hr) as Hwf.
  pose proof (Evict_cases r Hwf) as H.
  destruct (Evict r) as [[f|] r'|r'| |] eqn:HE; try exact H.
  destruct H as (Hev & Hwf' & Hpos & Hacc & Hevm & Hcs & _).
  splits; try assumption.
  - rewrite (access_count_delete r f r' f Hacc), decide_True; reflexivity.
  - rewrite (is_evictable_delete r f r' f Hevm), decide_True; reflexivity.
  - intros (g & Hg & Hlt). unfold Evict in HE.
    destruct (curr_size_ r =? 0); [discriminate|].
    destruct (find (is_evictable r) (rev (outer_list_ r))) as [f1|] eqn:Hf1.
    + apply find_some in Hf1 as [Hin _]. apply in_rev, list_elem_of_In in Hin.
      unfold evict_frame in HE. destruct (decide (f1 ∈ outer_index_ r)); [|discriminate].
      injection HE as -> _. apply (wf_outer _ Hwf) in Hin. lia.
    + exfalso. assert (Hgin : g ∈ outer_list_ r).
      { apply (wf_outer _ Hwf). pose proof (wf_tracked _ Hwf g Hg). lia. }
      apply list_elem_of_In in Hgin. rewrite in_rev in Hgin.
      rewrite (find_none _ _ Hf1 g Hgin) in Hg. discriminate.
Qed.

(** The clock and the histories only observe a run. *)
Lemma timed_exec_state c s s' :
  timed_exec c s = Some s' → exec c (state s) = Some (state s').
Proof.
  destruct c as [f|f b| |f]; cbn.
  - destruct (RecordAccess f (state s)) as [[] r|r| |]; intros [= <-]; reflexivity.
  - destruct (SetEvictable f b (state s)) as [[] r|r| |]; cbn; intros [= <-]; reflexivity.
  - destruct (Evict (state s)) as [[f|] r|r| |]; intros [= <-]; reflexivity.
  - destruct (Remove f (state s)) as [[] r|r| |]; intros [= <-]; reflexivity.
Qed.

Lemma timed_run_reachable cs : ∀ s s',
  reachable (state s) → timed_run cs s = Some s' → reachable (state s').
Proof.
  induction cs as [|c cs IH]; cbn; intros s s' Hr.
  - intros [= <-]. exact Hr.
  - destruct (timed_exec c s) as [s1|] eqn:He; [|discriminate].
    apply IH. eapply reach_exec; [exact Hr | apply timed_exec_state; exact He].
Qed.

(** *** The claims on the replacer *)

(** C1, at a failing input.  With K = 2, frame 0 is accessed at times 0 and
    3 and frame 1 at times 1 and 2, and both are evictable with two accesses
    each.  The second most recent access of frame 0 (time 0) is older than
    that of frame 1 (time 1), so frame 0 has the larger backward K-distance;
    [Evict] returns frame 1, the least recently accessed one. *)
Theorem evict_takes_least_recent_not_largest_k_distance :
  ∃ s, timed_run two_frames_run two_frames_start = Some s ∧
       reachable (state s) ∧
       is_evictable (state s) 0 = true ∧ is_evictable (state s) 1 = true ∧
       access_count (state s) 0 = 2 ∧ access_count (state s) 1 = 2 ∧
       kth_recent_access s 0 = Some 0 ∧ kth_recent_access s 1 = Some 1 ∧
       ∃ r', Evict (state s) = Ret (Some 1%Z) r'.
Proof.
  destruct (timed_run two_frames_run two_frames_start) as [s|] eqn:Hrun;
    [|vm_compute in Hrun; discriminate].
  exists s. split; [reflexivity|]. split.
  - apply (timed_run_reachable two_frames_run two_frames_start s); [|exact Hrun].
    apply reach_init.
  - vm_compute in Hrun. injection Hrun as <-.
    splits; try (vm_compute; reflexivity).
    eexists. vm_compute. reflexivity.
Qed.

(** C8, as stated, fails at a negative frame id: [-1] is outside
    [[0, replacer_size)], yet none of the three operations throws, and
    [RecordAccess] starts a history for it. *)
Lemma negative_frame_not_rejected :
  ¬ (0 ≤ -1 < Z.of_nat (replacer_size_ (init 1 2)))%Z ∧
  (∃ r', RecordAccess (-1) (init 1 2) = Ret tt r' ∧ access_count r' (-1) = 1 ∧
         r' ≠ init 1 2) ∧
  SetEvictable (-1) true (init 1 2) = Ret tt (init 1 2) ∧
  Remove (-1) (init 1 2) = Ret tt (init 1 2).
Proof.
  split; [lia|]. split; [|split; vm_compute; reflexivity].
  eexists. split; [vm_compute; reflexivity|]. split; [vm_compute; reflexivity|].
  intros H. apply (f_equal outer_list_) in H. vm_compute in H. discriminate.
Qed.

(** C8, amended.  In any state of the replacer, a frame id at or above
    [replacer_size_] makes each of [RecordAccess], [SetEvictable] and
    [Remove] throw with the replacer left as it was; and [Remove] of a frame
    that has an access history and is not evictable throws as well, with
    the replacer left as it was. *)
Theorem invalid_frame_rejected r :
  (∀ f b, (Z.of_nat (replacer_size_ r) ≤ f)%Z →
     RecordAccess f r = Throw r ∧ SetEvictable f b r = Throw r ∧
     Remove f r = Throw r) ∧
  (∀ g, 0 < access_count r g → is_evictable r g = false → Remove g r = Throw r).
Proof.
  split.
  - intros f b Hf.
    assert (Hinv : invalid_frame r f = true).
    { unfold invalid_frame, static_cast_int. apply Z.leb_le.
      pose proof (Z.mod_le (Z.of_nat (replacer_size_ r) + 2 ^ 31) (2 ^ 32)
                    ltac:(lia) ltac:(lia)).
      lia. }
    unfold RecordAccess, SetEvictable, Remove. rewrite Hinv. splits; reflexivity.
  - intros g Hg Hev. unfold Remove.
    destruct (invalid_frame r g); [reflexivity|].
    destruct (Nat.eqb_spec (access_count r g) 0); [lia|]. rewrite Hev. reflexivity.
Qed.

(** On a fresh replacer of three frames, which tracks no frame, and on one
    that tracks frame 0, not evictable. *)
Lemma invalid_frame_rejected_witness :
  (RecordAccess 3 (init 3 2) = Throw (init 3 2) ∧
   SetEvictable 3 true (init 3 2) = Throw (init 3 2) ∧
   Remove 3 (init 3 2) = Throw (init 3 2)) ∧
  Remove 0 one_access = Throw one_access.
Proof.
  split.
  - apply (proj1 (invalid_frame_rejected (init 3 2)) 3%Z true). vm_compute. discriminate.
  - apply (proj2 (invalid_frame_rejected one_access) 0%Z).
    + vm_compute. lia.
    + vm_compute. reflexivity.
Defined.

(** *** The order of the two lists *)

Lemma list_erase_sub (f x : Z) (l : list Z) : x ∈ list_erase f l → x ∈ l.
Proof.
  induction l as [|y l IH]; simpl; [auto|].
  destruct (decide (y = f)); rewrite ?elem_of_cons; intuition.
Qed.

Lemma sorted_erase (R : Z → Z → Prop) f l :
  StronglySorted R l → StronglySorted R (list_erase f l).
Proof.
  induction 1 as [|y l Hs IH Hall]; simpl; [constructor|].
  destruct (decide (y = f)); [assumption|]. constructor; [assumption|].
  rewrite List.Forall_forall in *. intros x Hx.
  apply Hall, list_elem_of_In, (list_erase_sub f), list_elem_of_In, Hx.
Qed.

Lemma sorted_key_ext (key key' : Z → nat) l :
  (∀ x, x ∈ l → key' x = key x) →
  StronglySorted (λ f g, key g < key f) l →
  StronglySorted (λ f g, key' g < key' f) l.
Proof.
  intros Hext Hs. induction Hs as [|y l Hs IH Hall]; [constructor|].
  constructor.
  - apply IH. intros x Hx. apply Hext. right. exact Hx.
  - rewrite List.Forall_forall in *. intros x Hx.
    rewrite (Hext y) by left. rewrite (Hext x) by (right; apply list_elem_of_In, Hx).
    apply Hall, Hx.
Qed.

Lemma find_snoc {A} (P : A → bool) (l : list A) (x : A) :
  find P (l ++ [x]) = match find P l with
                      | Some y => Some y
                      | None => if P x then Some x else None
                      end.
Proof.
  induction l as [|y l IH]; simpl; [reflexivity|]. destruct (P y); [reflexivity | exact IH].
Qed.

(** Scanning a list ordered by decreasing key from its back finds, among the
    elements that pass the test, one of least key. *)
Lemma find_rev_sorted (key : Z → nat) (P : Z → bool) l f :
  StronglySorted (λ a b, key b < key a) l →
  find P (rev l) = Some f →
  ∀ g, g ∈ l → P g = true → key f ≤ key g.
Proof.
  induction 1 as [|y l Hs IH Hall]; simpl; [discriminate|].
  rewrite find_snoc. destruct (find P (rev l)) as [f'|] eqn:Hf.
  - intros [= <-] g Hg HP. apply elem_of_cons in Hg as [->|Hg]; [|auto].
    apply find_some in Hf as [Hin _]. apply in_rev in Hin.
    rewrite List.Forall_forall in Hall. specialize (Hall _ Hin). simpl in Hall. lia.
  - destruct (P y) eqn:Hy; [|discriminate]. intros [= <-] g Hg HP.
    apply elem_of_cons in Hg as [->|Hg]; [lia|].
    apply list_elem_of_In in Hg. rewrite in_rev in Hg.
    rewrite (find_none _ _ Hf g Hg) in HP. discriminate.
Qed.

(** How the calls change the two lists. *)
Lemma RecordAccess_lists f r r' :
  wf r → RecordAccess f r = Ret tt r' →
  (S (access_count r f) < k_ r ∧ pool_cache_list_ r' = pool_cache_list_ r ∧
   (f ∉ pool_cache_list_ r) ∧
   ((access_count r f = 0 ∧ (f ∉ outer_list_ r) ∧ outer_list_ r' = f :: outer_list_ r) ∨
    (0 < access_count r f ∧ outer_list_ r' = outer_list_ r))) ∨
  (k_ r ≤ S (access_count r f) ∧
   outer_list_ r' = list_erase f (outer_list_ r) ∧
   pool_cache_list_ r' = f :: list_erase f (pool_cache_list_ r)).
Proof.
  intros Hwf. unfold RecordAccess.
  destruct (invalid_frame r f); [discriminate|].
  pose proof (wf_outer _ Hwf f) as Ho. pose proof (wf_cache _ Hwf f) as Hc.
  pose proof (wf_outer_index _ Hwf f) as Hio. pose proof (wf_cache_index _ Hwf f) as Hic.
  destruct (Nat.ltb_spec (S (access_count r f)) (k_ r)) as [Hlt|Hge].
  - assert (Hnc : f ∉ pool_cache_list_ r) by (rewrite Hc; lia).
    destruct (decide (f ∈ outer_index_ r)) as [Hin|Hnin]; intros [= <-]; cbn; left;
      (split; [exact Hlt|]; split; [reflexivity|]; split; [exact Hnc|]).
    + right. split; [|reflexivity]. apply Hio, Ho in Hin. lia.
    + left. rewrite Hio in Hnin. split; [|auto].
      destruct (access_count r f) eqn:Hz; [reflexivity|]. exfalso. apply Hnin, Ho. lia.
  - destruct (Nat.eqb_spec (S (access_count r f)) (k_ r)) as [Heq|Hne].
    + destruct (decide (f ∈ outer_index_ r)); [|discriminate]. intros [= <-]; cbn.
      right. split; [exact Hge|].
      split; [reflexivity|]. rewrite list_erase_notin; [reflexivity|]. rewrite Hc. lia.
    + intros [= <-]; cbn. right. split; [exact Hge|]. split.
      * rewrite list_erase_notin; [reflexivity|]. rewrite Ho. lia.
      * destruct (decide (f ∈ pool_cache_index_ r)) as [|Hn]; [reflexivity|].
        rewrite list_erase_notin; [reflexivity|]. rewrite <- Hic. exact Hn.
Qed.

Lemma Evict_lists r f r' :
  wf r → Evict r = Ret (Some f) r' →
  outer_list_ r' = list_erase f (outer_list_ r) ∧
  pool_cache_list_ r' = list_erase f (pool_cache_list_ r).
Proof.
  intros Hwf. unfold Evict. destruct (curr_size_ r =? 0); [discriminate|].
  destruct (find (is_evictable r) (rev (outer_list_ r))) as [g|] eqn:Hf1.
  - apply find_some in Hf1 as [Hin _]. apply in_rev, list_elem_of_In in Hin.
    unfold evict_frame. destruct (decide (g ∈ outer_index_ r)); [|discriminate].
    intros [= <- <-]; cbn. split; [reflexivity|].
    rewrite list_erase_notin; [reflexivity|].
    rewrite (wf_cache _ Hwf). apply (wf_outer _ Hwf) in Hin. lia.
  - destruct (find (is_evictable r) (rev (pool_cache_list_ r))) as [g|] eqn:Hf2;
      [|discriminate].
    apply find_some in Hf2 as [Hin _]. apply in_rev, list_elem_of_In in Hin.
    unfold evict_frame. destruct (decide (g ∈ pool_cache_index_ r)); [|discriminate].
    intros [= <- <-]; cbn. split; [|reflexivity].
    rewrite list_erase_notin; [reflexivity|].
    rewrite (wf_outer _ Hwf). apply (wf_cache _ Hwf) in Hin. lia.
Qed.

Lemma Remove_lists f r r' :
  wf r → Remove f r = Ret tt r' → 0 < access_count r f →
  outer_list_ r' = list_erase f (outer_list_ r) ∧
  pool_cache_list_ r' = list_erase f (pool_cache_list_ r).
Proof.
  intros Hwf. unfold Remove. destruct (invalid_frame r f); [discriminate|].
  destruct (Nat.eqb_spec (access_count r f) 0) as [|Hnz]; [lia|].
  destruct (negb (is_evictable r f)); [discriminate|].
  destruct (Nat.ltb_spec (access_count r f) (k_ r)) as [Hlt|Hge].
  - destruct (decide (f ∈ outer_index_ r)); [|discriminate]. intros [= <-] _; cbn.
    split; [reflexivity|]. rewrite list_erase_notin; [reflexivity|].
    rewrite (wf_cache _ Hwf). lia.
  - destruct (decide (f ∈ pool_cache_index_ r)); [|discriminate]. intros [= <-] _; cbn.
    split; [|reflexivity]. rewrite list_erase_notin; [reflexivity|].
    rewrite (wf_outer _ Hwf). lia.
Qed.

Lemma history_of_insert (h : gmap Z (list nat)) f l g :
  history_of (<[f := l]> h) g = if decide (g = f) then l else history_of h g.
Proof.
  unfold history_of. destruct (decide (g = f)) as [->|Hne].
  - rewrite lookup_insert_eq. reflexivity.
  - rewrite lookup_insert_ne by congruence. reflexivity.
Qed.

Lemma history_of_delete (h : gmap Z (list nat)) f g :
  history_of (delete f h) g = if decide (g = f) then [] else history_of h g.
Proof.
  unfold history_of. destruct (decide (g = f)) as [->|Hne].
  - rewrite lookup_delete_eq. reflexivity.
  - rewrite lookup_delete_ne by congruence. reflexivity.
Qed.

Lemma timed_wf_init n k : timed_wf (mkTimed 0 (init n k) ∅).
Proof.
  split; cbn.
  - apply replacer_wf_init.
  - intros f. reflexivity.
  - intros f t Ht. unfold history_of in Ht. rewrite lookup_empty in Ht.
    apply elem_of_nil in Ht as [].
  - intros f. unfold history_of. rewrite lookup_empty. constructor.
  - constructor.
  - constructor.
Qed.

(** A tracked frame has a first and a latest access, both in the past. *)
Lemma tracked_times s g :
  timed_wf s → 0 < access_count (state s) g →
  ∃ t0 t1, earliest_access s g = Some t0 ∧ latest_access s g = Some t1 ∧
           t0 < now s ∧ t1 < now s ∧ t0 ≤ t1.
Proof.
  intros Hs Hpos. pose proof (twf_count _ Hs g) as Hlen.
  pose proof (twf_past _ Hs g) as Hpast. pose proof (twf_sorted _ Hs g) as Hsort.
  unfold earliest_access, latest_access.
  destruct (history_of (history s) g) as [|t1 l] eqn:Hh; [simpl in Hlen; lia|].
  destruct (last (t1 :: l)) as [t0|] eqn:Hlast.
  2:{ apply last_None in Hlast. discriminate. }
  exists t0, t1. split; [reflexivity|]. split; [reflexivity|].
  assert (Hin : t0 ∈ t1 :: l).
  { rewrite last_lookup in Hlast. eapply list_elem_of_lookup_2. exact Hlast. }
  split; [apply Hpast, Hin|]. split; [apply Hpast; left|].
  apply elem_of_cons in Hin as [->|Hin]; [lia|].
  apply StronglySorted_inv in Hsort as [_ Hall].
  rewrite List.Forall_forall in Hall. apply list_elem_of_In in Hin.
  specialize (Hall _ Hin). simpl in Hall. lia.
Qed.

Lemma first_time_past s g :
  timed_wf s → 0 < access_count (state s) g → first_time s g < now s.
Proof.
  intros Hs Hpos. destruct (tracked_times s g Hs Hpos) as (t0 & t1 & H0 & _ & Hlt & _).
  unfold first_time. rewrite H0. exact Hlt.
Qed.

Lemma last_time_past s g :
  timed_wf s → 0 < access_count (state s) g → last_time s g < now s.
Proof.
  intros Hs Hpos. destruct (tracked_times s g Hs Hpos) as (t0 & t1 & _ & H1 & _ & Hlt & _).
  unfold last_time. rewrite H1. exact Hlt.
Qed.

(** The clock ticks and nothing that the order depends on changes. *)
Lemma timed_wf_same s r' :
  timed_wf s → wf r' →
  access_record_map_ r' = access_record_map_ (state s) →
  outer_list_ r' = outer_list_ (state s) →
  pool_cache_list_ r' = pool_cache_list_ (state s) →
  timed_wf (mkTimed (S (now s)) r' (history s)).
Proof.
  intros [Hst Hcnt Hpast Hsort Hout Hcache] Hwf' Hacc Hol Hcl. split; cbn.
  - exact Hwf'.
  - intros f. rewrite Hcnt. unfold access_count. rewrite Hacc. reflexivity.
  - intros f t Ht. specialize (Hpast f t Ht). lia.
  - exact Hsort.
  - rewrite Hol. exact Hout.
  - rewrite Hcl. exact Hcache.
Qed.

(** The frame [f] leaves the replacer, by [Evict] or by [Remove]. *)
Lemma timed_wf_drop s f r' :
  timed_wf s → wf r' →
  access_record_map_ r' = delete f (access_record_map_ (state s)) →
  outer_list_ r' = list_erase f (outer_list_ (state s)) →
  pool_cache_list_ r' = list_erase f (pool_cache_list_ (state s)) →
  timed_wf (mkTimed (S (now s)) r' (delete f (history s))).
Proof.
  intros [Hst Hcnt Hpast Hsort Hout Hcache] Hwf' Hacc Hol Hcl. split; cbn.
  - exact Hwf'.
  - intros g. rewrite history_of_delete, (access_count_delete _ f _ g Hacc).
    destruct (decide (g = f)); [reflexivity | apply Hcnt].
  - intros g t. rewrite history_of_delete. destruct (decide (g = f)).
    + intros Ht. apply elem_of_nil in Ht as [].
    + intros Ht. specialize (Hpast g t Ht). lia.
  - intros g. rewrite history_of_delete. destruct (decide (g = f)); [constructor | apply Hsort].
  - rewrite Hol. apply (sorted_key_ext (first_time s)); [|apply sorted_erase, Hout].
    intros x Hx. apply elem_of_list_erase in Hx as [_ Hne]; [|apply (wf_outer_nodup _ Hst)].
    unfold first_time, earliest_access; cbn.
    rewrite history_of_delete, decide_False by exact Hne. reflexivity.
  - rewrite Hcl. apply (sorted_key_ext (last_time s)); [|apply sorted_erase, Hcache].
    intros x Hx. apply elem_of_list_erase in Hx as [_ Hne]; [|apply (wf_cache_nodup _ Hst)].
    unfold last_time, latest_access; cbn.
    rewrite history_of_delete, decide_False by exact Hne. reflexivity.
Qed.

(** The frame [f] is accessed at the time [now s]. *)
Lemma timed_wf_access s f r' :
  timed_wf s → RecordAccess f (state s) = Ret tt r' →
  timed_wf (mkTimed (S (now s)) r'
              (<[f := now s :: history_of (history s) f]> (history s))).
Proof.
  intros Hs HR. pose proof Hs as [Hst Hcnt Hpast Hsort Hout Hcache].
  pose proof (RecordAccess_cases f (state s) Hst) as Hc. rewrite HR in Hc.
  destruct Hc as (_ & Hwf' & Hacc & _).
  pose proof (RecordAccess_lists f (state s) r' Hst HR) as Hlists.
  set (s' := mkTimed (S (now s)) r' (<[f := now s :: history_of (history s) f]> (history s))).
  assert (Hfirst_ne : ∀ x, x ≠ f → first_time s' x = first_time s x).
  { intros x Hne. unfold first_time, earliest_access; cbn.
    rewrite history_of_insert, decide_False by exact Hne. reflexivity. }
  assert (Hlast_ne : ∀ x, x ≠ f → last_time s' x = last_time s x).
  { intros x Hne. unfold last_time, latest_access; cbn.
    rewrite history_of_insert, decide_False by exact Hne. reflexivity. }
  assert (Hlast_f : last_time s' f = now s).
  { unfold last_time, latest_access; cbn. rewrite history_of_insert, decide_True by reflexivity.
    reflexivity. }
  split; cbn.
  - exact Hwf'.
  - intros g. rewrite history_of_insert, (access_count_insert _ f _ _ g Hacc).
    destruct (decide (g = f)) as [->|]; [cbn; rewrite Hcnt; reflexivity | apply Hcnt].
  - intros g t. rewrite history_of_insert. destruct (decide (g = f)) as [->|].
    + intros Ht. apply elem_of_cons in Ht as [->|Ht]; [lia|]. specialize (Hpast f t Ht). lia.
    + intros Ht. specialize (Hpast g t Ht). lia.
  - intros g. rewrite history_of_insert. destruct (decide (g = f)) as [->|]; [|apply Hsort].
    constructor; [apply Hsort|]. rewrite List.Forall_forall. intros t Ht.
    apply list_elem_of_In in Ht. apply (Hpast f t Ht).
  - destruct Hlists as [(Hlt & _ & _ & [(Hz & Hnin & ->)|(Hpos & ->)])|(_ & -> & _)].
    + assert (Hold : StronglySorted (λ a b, first_time s' b < first_time s' a)
                       (outer_list_ (state s))).
      { apply (sorted_key_ext (first_time s)); [|exact Hout].
        intros x Hx. apply Hfirst_ne. intros ->. exact (Hnin Hx). }
      constructor; [exact Hold|]. rewrite List.Forall_forall. intros g Hg.
      apply list_elem_of_In in Hg.
      assert (g ≠ f) by (intros ->; exact (Hnin Hg)).
      rewrite Hfirst_ne by assumption.
      assert (Hf : first_time s' f = now s).
      { unfold first_time, earliest_access; cbn.
        rewrite history_of_insert, decide_True by reflexivity.
        pose proof (Hcnt f) as Hl. rewrite Hz in Hl.
        destruct (history_of (history s) f); [reflexivity | discriminate]. }
      rewrite Hf. apply first_time_past; [exact Hs|]. apply (wf_outer _ Hst) in Hg. lia.
    + apply (sorted_key_ext (first_time s)); [|exact Hout].
      intros x _. destruct (decide (x = f)) as [->|Hne]; [|apply Hfirst_ne, Hne].
      unfold first_time, earliest_access; cbn.
      rewrite history_of_insert, decide_True by reflexivity.
      pose proof (Hcnt f) as Hl.
      destruct (history_of (history s) f) as [|t l]; [simpl in Hl; lia | reflexivity].
    + apply (sorted_key_ext (first_time s)); [|apply sorted_erase, Hout].
      intros x Hx. apply elem_of_list_erase in Hx as [_ Hne]; [|apply (wf_outer_nodup _ Hst)].
      apply Hfirst_ne, Hne.
  - destruct Hlists as [(_ & -> & Hnin & _)|(_ & _ & ->)].
    + apply (sorted_key_ext (last_time s)); [|exact Hcache].
      intros x Hx. apply Hlast_ne. intros ->. exact (Hnin Hx).
    + constructor.
      * apply (sorted_key_ext (last_time s)); [|apply sorted_erase, Hcache].
        intros x Hx. apply elem_of_list_erase in Hx as [_ Hne]; [|apply (wf_cache_nodup _ Hst)].
        apply Hlast_ne, Hne.
      * rewrite List.Forall_forall. intros g Hg. apply list_elem_of_In in Hg.
        apply elem_of_list_erase in Hg as [Hg Hne]; [|apply (wf_cache_nodup _ Hst)].
        rewrite Hlast_f, Hlast_ne by exact Hne.
        apply last_time_past; [exact Hs|]. apply (wf_cache _ Hst) in Hg. lia.
Qed.

Lemma timed_exec_wf c s s' : timed_wf s → timed_exec c s = Some s' → timed_wf s'.
Proof.
  intros Hs. pose proof (twf_state _ Hs) as Hst. destruct c as [f|f b| |f]; cbn.
  - pose proof (RecordAccess_cases f (state s) Hst) as Hc.
    destruct (RecordAccess f (state s)) as [[] r|r| |] eqn:HR; try discriminate; intros [= <-].
    + apply timed_wf_access; assumption.
    + destruct Hc as [-> _]. apply timed_wf_same; auto.
  - pose proof (SetEvictable_cases f b (state s) Hst) as Hc.
    destruct (SetEvictable f b (state s)) as [[] r|r| |]; cbn; try discriminate; intros [= <-].
    + destruct Hc as (_ & Hwf' & Hacc & Hol & Hcl & _). apply timed_wf_same; auto.
    + destruct Hc as [-> _]. apply timed_wf_same; auto.
  - pose proof (Evict_cases (state s) Hst) as Hc.
    destruct (Evict (state s)) as [[f|] r|r| |] eqn:HE; try discriminate; intros [= <-].
    + destruct Hc as (_ & Hwf' & _ & Hacc & _).
      destruct (Evict_lists (state s) f r Hst HE) as [Hol Hcl]. apply timed_wf_drop; auto.
    + destruct Hc as [-> _]. apply timed_wf_same; auto.
  - pose proof (Remove_cases f (state s) Hst) as Hc.
    destruct (Remove f (state s)) as [[] r|r| |] eqn:HR; try discriminate; intros [= <-].
    + destruct Hc as (_ & Hwf' & _ & _ & [[Hz ->]|(Hpos & _ & Hacc & _)]).
      * rewrite Hz. cbn. apply timed_wf_same; auto.
      * destruct (Remove_lists f (state s) r Hst HR Hpos) as [Hol Hcl].
        destruct (Nat.eqb_spec (access_count (state s) f) 0); [lia|].
        apply timed_wf_drop; auto.
    + destruct Hc as [-> _]. apply timed_wf_same; auto.
Qed.

Lemma timed_run_wf cs : ∀ s s', timed_wf s → timed_run cs s = Some s' → timed_wf s'.
Proof.
  induction cs as [|c cs IH]; cbn; intros s s' Hs.
  - intros [= <-]. exact Hs.
  - destruct (timed_exec c s) as [s1|] eqn:He; [|discriminate].
    apply IH. eapply timed_exec_wf; eassumption.
Qed.

Lemma timed_reachable_wf s : timed_reachable s → timed_wf s.
Proof.
  intros (n & k & cs & Hrun). eapply timed_run_wf; [apply timed_wf_init | exact Hrun].
Qed.

(** *** Further properties of the replacer *)

Lemma evictable_count_none (m : gmap Z bool) :
  (∀ f, default false (m !! f) = false) → evictable_count m = 0.
Proof.
  intros Hall. unfold evictable_count. apply map_size_empty_iff, map_empty.
  intros f. apply map_lookup_filter_None. right. intros b Hb Ht. simpl in Ht. subst b.
  specialize (Hall f). rewrite Hb in Hall. discriminate.
Qed.

Lemma size_positive r f : wf r → is_evictable r f = true → 0 < Size r.
Proof.
  intros Hwf Hev. unfold Size. rewrite (wf_size _ Hwf).
  apply (evictable_count_pos _ f). exact Hev.
Qed.

Lemma two_frames_end_run : timed_run two_frames_run two_frames_start = Some two_frames_end.
Proof. vm_compute. reflexivity. Qed.

Lemma two_frames_end_reachable : timed_reachable two_frames_end.
Proof. exists 2, 2, two_frames_run. exact two_frames_end_run. Qed.

Lemma three_frames_end_reachable : timed_reachable three_frames_end.
Proof. exists 3, 3, three_frames_run. vm_compute. reflexivity. Qed.

Lemma timed_reachable_state s : timed_reachable s → reachable (state s).
Proof.
  intros (n & k & cs & Hrun).
  apply (timed_run_reachable cs (mkTimed 0 (init n k) ∅) s); [apply reach_init | exact Hrun].
Qed.

Lemma one_access_reachable : reachable one_access.
Proof. apply (reach_exec (CRecordAccess 0) (init 3 2)); [apply reach_init | reflexivity]. Qed.

(** X1. Along every run of a replacer, replayed with a clock: when [Evict]
    returns a frame with fewer than [K] accesses, no evictable frame with
    fewer than [K] accesses was first accessed earlier; it returns a frame
    with [K] accesses or more only when every evictable frame has as many,
    and then no evictable frame was last accessed earlier. *)
Theorem evict_order s f r' :
  timed_reachable s → Evict (state s) = Ret (Some f) r' →
  (access_count (state s) f < k_ (state s) →
     ∀ g, is_evictable (state s) g = true → access_count (state s) g < k_ (state s) →
       ∃ tf tg, earliest_access s f = Some tf ∧ earliest_access s g = Some tg ∧ tf ≤ tg) ∧
  (k_ (state s) ≤ access_count (state s) f →
     ∀ g, is_evictable (state s) g = true →
       k_ (state s) ≤ access_count (state s) g ∧
       ∃ tf tg, latest_access s f = Some tf ∧ latest_access s g = Some tg ∧ tf ≤ tg).
Proof.
  intros Hr HE. pose proof (timed_reachable_wf s Hr) as Hs.
  pose proof (twf_state _ Hs) as Hwf.
  pose proof (Evict_cases (state s) Hwf) as Hc. rewrite HE in Hc.
  destruct Hc as (Hevf & _). pose proof (wf_tracked _ Hwf f Hevf) as Hposf.
  destruct (tracked_times s f Hs Hposf) as (f0 & f1 & Hf0 & Hf1 & _).
  unfold Evict in HE. destruct (curr_size_ (state s) =? 0); [discriminate|].
  destruct (find (is_evictable (state s)) (rev (outer_list_ (state s)))) as [f'|] eqn:Hfind.
  - assert (f' = f).
    { unfold evict_frame in HE. destruct (decide (f' ∈ outer_index_ (state s)));
        [|discriminate]. congruence. }
    subst f'. split.
    + intros _ g Hevg Hltg. pose proof (wf_tracked _ Hwf g Hevg) as Hposg.
      destruct (tracked_times s g Hs Hposg) as (g0 & g1 & Hg0 & _).
      exists f0, g0. split; [exact Hf0|]. split; [exact Hg0|].
      pose proof (find_rev_sorted (first_time s) _ _ f (twf_outer _ Hs) Hfind g) as Hle.
      unfold first_time in Hle. rewrite Hf0, Hg0 in Hle. apply Hle; [|exact Hevg].
      apply (wf_outer _ Hwf). lia.
    + intros Hge. exfalso. apply find_some in Hfind as [Hin _].
      apply in_rev, list_elem_of_In, (wf_outer _ Hwf) in Hin. lia.
  - destruct (find (is_evictable (state s)) (rev (pool_cache_list_ (state s))))
      as [f'|] eqn:Hfind2; [|discriminate].
    assert (f' = f).
    { unfold evict_frame in HE. destruct (decide (f' ∈ pool_cache_index_ (state s)));
        [|discriminate]. congruence. }
    subst f'.
    assert (Hfull : ∀ g, is_evictable (state s) g = true →
                         k_ (state s) ≤ access_count (state s) g).
    { intros g Hevg. destruct (Nat.le_gt_cases (k_ (state s)) (access_count (state s) g))
        as [|Hlt]; [assumption|]. exfalso.
      assert (Hin : g ∈ outer_list_ (state s)).
      { apply (wf_outer _ Hwf). pose proof (wf_tracked _ Hwf g Hevg). lia. }
      apply list_elem_of_In in Hin. rewrite in_rev in Hin.
      rewrite (find_none _ _ Hfind g Hin) in Hevg. discriminate. }
    split.
    + intros Hlt. specialize (Hfull f Hevf). lia.
    + intros _ g Hevg. split; [apply Hfull, Hevg|].
      pose proof (wf_tracked _ Hwf g Hevg) as Hposg.
      destruct (tracked_times s g Hs Hposg) as (g0 & g1 & _ & Hg1 & _).
      exists f1, g1. split; [exact Hf1|]. split; [exact Hg1|].
      pose proof (find_rev_sorted (last_time s) _ _ f (twf_cache _ Hs) Hfind2 g) as Hle.
      unfold last_time in Hle. rewrite Hf1, Hg1 in Hle. apply Hle; [|exact Hevg].
      apply (wf_cache _ Hwf). specialize (Hfull g Hevg). lia.
Qed.

Lemma evict_order_witness :
  ∃ r', Evict (state three_frames_end) = Ret (Some 0%Z) r' ∧
        ∃ tf tg, earliest_access three_frames_end 0 = Some tf ∧
                 earliest_access three_frames_end 2 = Some tg ∧ tf ≤ tg.
Proof.
  destruct (Evict (state three_frames_end)) as [[f|] r'|r'| |] eqn:HE;
    try (vm_compute in HE; discriminate).
  assert (f = 0%Z) by (vm_compute in HE; congruence). subst f.
  exists r'. split; [reflexivity|].
  apply (proj1 (evict_order three_frames_end 0%Z r' three_frames_end_reachable HE)).
  - vm_compute. lia.
  - vm_compute. reflexivity.
  - vm_compute. lia.
Defined.

(** X2. In every reachable replacer [Evict] returns, without throwing: it
    returns no frame exactly when no frame is evictable, and changes nothing
    then.  A frame it returns was evictable; afterwards its access count is
    zero and it is not evictable, the size is one less, and every other frame
    is as it was. *)
Theorem evict_victim r :
  reachable r →
  ((∃ r', Evict r = Ret None r') ↔ ∀ f, is_evictable r f = false) ∧
  (∀ r', Evict r = Ret None r' → r' = r) ∧
  (∀ f r', Evict r = Ret (Some f) r' →
     is_evictable r f = true ∧ access_count r' f = 0 ∧ is_evictable r' f = false ∧
     Size r' + 1 = Size r ∧
     ∀ g, g ≠ f → access_count r' g = access_count r g ∧
                  is_evictable r' g = is_evictable r g) ∧
  (∃ o r', Evict r = Ret o r').
Proof.
  intros Hr. pose proof (replacer_reachable_wf r Hr) as Hwf.
  pose proof (Evict_cases r Hwf) as Hc.
  destruct (Evict r) as [[f|] r1|r1| |] eqn:HE; try (destruct Hc; fail).
  - destruct Hc as (Hev & Hwf' & Hpos & Hacc & Hevm & Hcs & _). splits.
    + split; [intros [r' [=]] | intros Hall; rewrite Hall in Hev; discriminate].
    + intros r' [=].
    + intros f' r' [= <- <-]. splits; try assumption.
      * rewrite (access_count_delete r f r1 f Hacc), decide_True; reflexivity.
      * rewrite (is_evictable_delete r f r1 f Hevm), decide_True; reflexivity.
      * unfold Size. lia.
      * intros g Hne. rewrite (access_count_delete r f r1 g Hacc),
          (is_evictable_delete r f r1 g Hevm), !decide_False by exact Hne. auto.
    + eauto.
  - destruct Hc as [-> Hall]. splits.
    + split; [intros _; exact Hall | intros _; eauto].
    + intros r' [= <-]. reflexivity.
    + intros f r' [=].
    + eauto.
Qed.

Lemma evict_victim_witness :
  ∃ o r', Evict (state two_frames_end) = Ret o r'.
Proof.
  apply (evict_victim (state two_frames_end)).
  apply timed_reachable_state, two_frames_end_reachable.
Defined.

(** X3. In every reachable replacer [Size] is the number of frames marked
    evictable; each of them has a recorded access; and the size is zero
    exactly when no frame is evictable. *)
Theorem size_counts_evictable r :
  reachable r →
  Size r = evictable_count (evictable_map_ r) ∧
  (∀ f, is_evictable r f = true → 0 < access_count r f) ∧
  (Size r = 0 ↔ ∀ f, is_evictable r f = false).
Proof.
  intros Hr. pose proof (replacer_reachable_wf r Hr) as Hwf. splits.
  - exact (wf_size _ Hwf).
  - exact (wf_tracked _ Hwf).
  - unfold Size. rewrite (wf_size _ Hwf). split.
    + intros Hz f. apply evictable_count_zero, Hz.
    + intros Hall. apply evictable_count_none. exact Hall.
Qed.

Lemma size_counts_evictable_witness :
  Size (state two_frames_end) = evictable_count (evictable_map_ (state two_frames_end)).
Proof.
  apply (size_counts_evictable (state two_frames_end)).
  apply timed_reachable_state, two_frames_end_reachable.
Defined.

(** X4. In every reachable replacer, for a frame id below the replacer
    size: [SetEvictable] returns; it changes nothing for a frame without
    recorded accesses; for a tracked frame it sets the flag as asked and
    moves the size by one exactly when the flag changes; no access count and
    no other frame's flag changes; and the same call once more changes
    nothing. *)
Theorem set_evictable_toggles f b r :
  reachable r → invalid_frame r f = false →
  ∃ r', SetEvictable f b r = Ret tt r' ∧
        (∀ g, access_count r' g = access_count r g) ∧
        (∀ g, g ≠ f → is_evictable r' g = is_evictable r g) ∧
        (access_count r f = 0 → r' = r) ∧
        (0 < access_count r f →
           is_evictable r' f = b ∧
           Size r' + (if is_evictable r f then 1 else 0) = Size r + (if b then 1 else 0)) ∧
        SetEvictable f b r' = Ret tt r'.
Proof.
  intros Hr Hvalid. pose proof (replacer_reachable_wf r Hr) as Hwf.
  unfold SetEvictable at 1. rewrite Hvalid.
  destruct (Nat.eqb_spec (access_count r f) 0) as [Hz|Hnz].
  { exists r. splits; auto; [lia|].
    unfold SetEvictable. rewrite Hvalid, Hz. reflexivity. }
  destruct (eqb (is_evictable r f) b) eqn:Heqb.
  { apply eqb_prop in Heqb. exists r. splits; auto; [rewrite Heqb; auto |].
    unfold SetEvictable. rewrite Hvalid. destruct (access_count r f =? 0); [reflexivity|].
    rewrite Heqb, eqb_reflx. reflexivity. }
  apply eqb_false_iff in Heqb. eexists. split; [reflexivity|]. splits.
  - intros g. reflexivity.
  - intros g Hne. unfold is_evictable; cbn. rewrite lookup_insert_ne by congruence.
    reflexivity.
  - lia.
  - intros _. split.
    + unfold is_evictable; cbn. rewrite lookup_insert_eq. reflexivity.
    + unfold Size; cbn. destruct b, (is_evictable r f) eqn:Hev; try congruence; try lia.
      pose proof (size_positive r f Hwf Hev). unfold Size in *. lia.
  - unfold SetEvictable, invalid_frame, access_count, is_evictable in *; cbn.
    rewrite Hvalid. destruct (default 0 (access_record_map_ r !! f) =? 0); [reflexivity|].
    rewrite lookup_insert_eq. cbn. rewrite eqb_reflx. reflexivity.
Qed.

Lemma set_evictable_toggles_witness :
  ∃ r', SetEvictable 0 true one_access = Ret tt r' ∧
        (∀ g, access_count r' g = access_count one_access g) ∧
        (∀ g, g ≠ 0%Z → is_evictable r' g = is_evictable one_access g) ∧
        (access_count one_access 0 = 0 → r' = one_access) ∧
        (0 < access_count one_access 0 →
           is_evictable r' 0 = true ∧
           Size r' + (if is_evictable one_access 0 then 1 else 0)
           = Size one_access + (if true then 1 else 0)) ∧
        SetEvictable 0 true r' = Ret tt r'.
Proof.
  apply (set_evictable_toggles 0%Z true one_access one_access_reachable).
  vm_compute. reflexivity.
Defined.

(** X5. In every reachable replacer, for a frame id below the replacer
    size, and unless [K = 1] and the frame has no recorded access:
    [RecordAccess] returns; the access count of the frame is one more and no
    other count changes; no frame's evictable flag and not the size change;
    and the frame is then in the history list when its count is below [K],
    and at the front of the cache list when not. *)
Theorem record_access_counts f r :
  reachable r → invalid_frame r f = false →
  (k_ r = 1 → 0 < access_count r f) →
  ∃ r', RecordAccess f r = Ret tt r' ∧
        access_count r' f = S (access_count r f) ∧
        (∀ g, g ≠ f → access_count r' g = access_count r g) ∧
        (∀ g, is_evictable r' g = is_evictable r g) ∧
        Size r' = Size r ∧
        (S (access_count r f) < k_ r →
           f ∈ outer_list_ r' ∧ f ∉ pool_cache_list_ r') ∧
        (k_ r ≤ S (access_count r f) →
           head (pool_cache_list_ r') = Some f ∧ f ∉ outer_list_ r').
Proof.
  intros Hr Hvalid Hk. pose proof (replacer_reachable_wf r Hr) as Hwf.
  pose proof (RecordAccess_cases f r Hwf) as Hc.
  destruct (RecordAccess f r) as [[] r'|r'| |] eqn:HR.
  - destruct Hc as (_ & Hwf' & Hacc & Hevm & Hcs & _ & Hk').
    pose proof (access_count_insert r f _ r' f Hacc) as Hf.
    rewrite decide_True in Hf by reflexivity.
    exists r'. splits; try assumption; try reflexivity.
    + intros g Hne. rewrite (access_count_insert r f _ r' g Hacc), decide_False by exact Hne.
      reflexivity.
    + intros g. unfold is_evictable. rewrite Hevm. reflexivity.
    + intros Hlt. rewrite (wf_outer _ Hwf'), (wf_cache _ Hwf'), Hf, Hk'. lia.
    + intros Hge. split.
      * destruct (RecordAccess_lists f r r' Hwf HR) as [(Hlt & _)|(_ & _ & ->)];
          [lia | reflexivity].
      * rewrite (wf_outer _ Hwf'), Hf, Hk'. lia.
  - destruct Hc as [_ Hc]. congruence.
  - destruct Hc as (_ & Hk1 & Hz). specialize (Hk Hk1). lia.
  - destruct Hc.
Qed.

Lemma record_access_counts_witness :
  ∃ r', RecordAccess 0 one_access = Ret tt r' ∧
        access_count r' 0 = S (access_count one_access 0).
Proof.
  destruct (record_access_counts 0%Z one_access one_access_reachable
              ltac:(vm_compute; reflexivity) ltac:(vm_compute; discriminate))
    as (r' & HR & Hcount & _).
  exists r'. split; assumption.
Defined.

(** X6. With [K = 1], in every reachable replacer, the first [RecordAccess]
    of a frame id below the replacer size is undefined: it erases from the
    history list through an iterator that was never stored for the frame. *)
Theorem record_access_undefined_for_k1 f r :
  reachable r → k_ r = 1 → invalid_frame r f = false → access_count r f = 0 →
  RecordAccess f r = Undef.
Proof.
  intros Hr Hk Hvalid Hz. pose proof (replacer_reachable_wf r Hr) as Hwf.
  unfold RecordAccess. rewrite Hvalid, Hz, Hk. cbn.
  rewrite decide_False; [reflexivity|].
  rewrite (wf_outer_index _ Hwf), (wf_outer _ Hwf). lia.
Qed.

Lemma record_access_undefined_for_k1_witness : RecordAccess 0 lru1 = Undef.
Proof.
  apply (record_access_undefined_for_k1 0%Z lru1); try reflexivity. apply reach_init.
Defined.

(** X7. In every reachable replacer, for a frame id below the replacer
    size: [Remove] changes nothing for a frame without recorded accesses;
    for a tracked frame that is evictable it returns, erases the access
    count and the flag of the frame, takes it out of both lists, lowers the
    size by one and leaves every other frame as it was. *)
Theorem remove_erases_frame f r :
  reachable r → invalid_frame r f = false →
  (access_count r f = 0 → Remove f r = Ret tt r) ∧
  (0 < access_count r f → is_evictable r f = true →
   ∃ r', Remove f r = Ret tt r' ∧
         access_count r' f = 0 ∧ is_evictable r' f = false ∧
         Size r' + 1 = Size r ∧
         (f ∉ outer_list_ r') ∧ (f ∉ pool_cache_list_ r') ∧
         ∀ g, g ≠ f → access_count r' g = access_count r g ∧
                      is_evictable r' g = is_evictable r g).
Proof.
  intros Hr Hvalid. pose proof (replacer_reachable_wf r Hr) as Hwf. split.
  - intros Hz. unfold Remove. rewrite Hvalid, Hz. reflexivity.
  - intros Hpos Hev. pose proof (Remove_cases f r Hwf) as Hc.
    destruct (Remove f r) as [[] r'|r'| |] eqn:HR.
    + destruct Hc as (_ & Hwf' & _ & Hk' & [[Hz _]|(_ & _ & Hacc & Hevm & Hcs)]); [lia|].
      pose proof (access_count_delete r f r' f Hacc) as Hf.
      rewrite decide_True in Hf by reflexivity.
      exists r'. splits; try reflexivity.
      * exact Hf.
      * rewrite (is_evictable_delete r f r' f Hevm), decide_True; reflexivity.
      * pose proof (size_positive r f Hwf Hev). unfold Size in *. lia.
      * rewrite (wf_outer _ Hwf'), Hf. lia.
      * rewrite (wf_cache _ Hwf'), Hf. lia.
      * intros g Hne. rewrite (access_count_delete r f r' g Hacc),
          (is_evictable_delete r f r' g Hevm), !decide_False by exact Hne. auto.
    + destruct Hc as (_ & [Hc|[_ Hc]]); congruence.
    + destruct Hc.
    + destruct Hc.
Qed.

Lemma remove_erases_frame_witness :
  ∃ r', Remove 0 (state two_frames_end) = Ret tt r' ∧ access_count r' 0 = 0.
Proof.
  destruct (proj2 (remove_erases_frame 0%Z (state two_frames_end)
                     (timed_reachable_state _ two_frames_end_reachable)
                     ltac:(vm_compute; reflexivity))
              ltac:(vm_compute; lia) ltac:(vm_compute; reflexivity))
    as (r' & HR & Hcount & _).
  exists r'. split; assumption.
Defined.

End LRUK_Facts.

(* ===================================================================== *)
(** * Buffer pool manager instance: properties                            *)
(* ===================================================================== *)

Module BPM_Facts.
Import BPM.

Section Facts.
Context {Data : Type} (zero : Data) (hash : Z → nat) (bucket_size : nat).

Local Abbreviation Pool := (@BPM.Pool Data).
Local Abbreviation Page := (@BPM.Page Data).
Local Abbreviation inv := (BPM.inv hash bucket_size).
Local Abbreviation inv_limbo := (BPM.inv_limbo hash bucket_size).
Local Abbreviation Find := (EHT.Find hash).

Implicit Types (s : Pool) (pg : Page) (f p : Z).

Lemma page_at_range s f pg :
  page_at s f = Some pg → (0 ≤ f < Z.of_nat (length (pages_ s)))%Z.
Proof.
  unfold page_at. destruct (Z.ltb_spec f 0); [discriminate|].
  intros Hl. apply lookup_lt_Some in Hl. lia.
Qed.

Lemma page_at_is_Some s f :
  is_Some (page_at s f) ↔ (0 ≤ f < Z.of_nat (length (pages_ s)))%Z.
Proof.
  split.
  - intros [pg Hpg]. eapply page_at_range; eassumption.
  - intros Hf. unfold page_at. destruct (Z.ltb_spec f 0); [lia|].
    apply lookup_lt_is_Some_2. lia.
Qed.

Lemma page_at_set_page s f pg f' :
  is_Some (page_at s f) →
  page_at (set_page s f pg) f' = if decide (f' = f) then Some pg else page_at s f'.
Proof.
  intros Hs. apply page_at_is_Some in Hs. unfold page_at, set_page. cbn.
  destruct (decide (f' = f)) as [->|Hne].
  - destruct (Z.ltb_spec f 0); [lia|]. apply list_lookup_insert_eq. lia.
  - destruct (Z.ltb_spec f' 0); [reflexivity|].
    apply list_lookup_insert_ne. lia.
Qed.

Lemma length_set_page s f pg : length (pages_ (set_page s f pg)) = length (pages_ s).
Proof. unfold set_page. cbn. apply length_insert. Qed.

Lemma all_pinned_true s :
  all_pinned s = true ↔ ∀ f pg, page_at s f = Some pg → (0 < pin_count_ pg)%Z.
Proof.
  unfold all_pinned. rewrite forallb_forall. split.
  - intros Hall f pg Hpg. unfold page_at in Hpg.
    destruct (Z.ltb_spec f 0); [discriminate|].
    apply list_elem_of_lookup_2, list_elem_of_In in Hpg. specialize (Hall _ Hpg).
    apply negb_true_iff, Z.leb_gt in Hall. exact Hall.
  - intros Hall pg Hin. apply list_elem_of_In, list_elem_of_lookup in Hin as [i Hi].
    apply negb_true_iff, Z.leb_gt. apply (Hall (Z.of_nat i)).
    unfold page_at. destruct (Z.ltb_spec (Z.of_nat i) 0); [lia|].
    rewrite Nat2Z.id. exact Hi.
Qed.

Lemma all_pinned_false s :
  all_pinned s = false ↔ ∃ f pg, page_at s f = Some pg ∧ (pin_count_ pg ≤ 0)%Z.
Proof.
  split.
  - intros Hf. unfold all_pinned in Hf.
    assert (Hex : ∃ pg, pg ∈ pages_ s ∧ (pin_count_ pg ≤ 0)%Z).
    { induction (pages_ s) as [|pg l IH]; [discriminate|]. cbn in Hf.
      destruct (Z.leb_spec (pin_count_ pg) 0); cbn in Hf.
      - exists pg. split; [left | assumption].
      - destruct (IH Hf) as (pg' & Hin & Hle). exists pg'. split; [right|]; assumption. }
    destruct Hex as (pg & Hin & Hle). apply list_elem_of_lookup in Hin as [i Hi].
    exists (Z.of_nat i), pg. split; [|assumption].
    unfold page_at. destruct (Z.ltb_spec (Z.of_nat i) 0); [lia|].
    rewrite Nat2Z.id. exact Hi.
  - intros (f & pg & Hpg & Hle). destruct (all_pinned s) eqn:Ha; [|reflexivity].
    rewrite all_pinned_true in Ha. specialize (Ha _ _ Hpg). lia.
Qed.

(** A frame of the array passes the replacer's range check. *)
Lemma valid_frame r s f :
  LRUK.replacer_size_ r = length (pages_ s) →
  (Z.of_nat (length (pages_ s)) < 2 ^ 31)%Z →
  is_Some (page_at s f) → LRUK.invalid_frame r f = false.
Proof.
  intros Hsz Hsmall Hf. apply page_at_is_Some in Hf. unfold LRUK.invalid_frame.
  rewrite Hsz, static_cast_int_small by lia. apply Z.leb_gt. lia.
Qed.

Lemma Find_init bs p : Find (EHT.init bs : EHT.Table (K:=Z) (V:=Z)) p = None.
Proof.
  unfold EHT.Find.
  rewrite (EHT_Facts.IndexOf_mod hash (EHT.init bs : EHT.Table (K:=Z) (V:=Z)) p).
  change (EHT.global_depth_ (EHT.init bs)) with 0.
  rewrite Nat.pow_0_r, Nat.mod_1_r. reflexivity.
Qed.

Lemma init_free_list pool_size k dk :
  (Z.of_nat pool_size < 2 ^ 31)%Z →
  free_list_ (init zero bucket_size pool_size k dk) = map Z.of_nat (seq 0 pool_size).
Proof.
  intros Hsmall. cbn. apply map_ext_in. intros i Hi. apply in_seq in Hi.
  apply static_cast_int_small. lia.
Qed.

Lemma inv_init pool_size k dk :
  (Z.of_nat pool_size < 2 ^ 31)%Z →
  inv (init zero bucket_size pool_size k dk).
Proof.
  intros Hsmall.
  assert (Hfree : ∀ f, f ∈ free_list_ (init zero bucket_size pool_size k dk)
                       ↔ (0 ≤ f < Z.of_nat pool_size)%Z).
  { intros f. rewrite init_free_list by assumption.
    rewrite list_elem_of_In, in_map_iff. split.
    - intros (i & <- & Hi). apply in_seq in Hi. lia.
    - intros Hf. exists (Z.to_nat f). split; [lia|]. apply in_seq. lia. }
  assert (Hlen : length (pages_ (init zero bucket_size pool_size k dk)) = pool_size)
    by (cbn; apply length_replicate).
  split.
  - apply LRUK_Facts.replacer_wf_init.
  - apply EHT_Facts.wf_init.
  - cbn. rewrite length_replicate. reflexivity.
  - rewrite Hlen. exact Hsmall.
  - intros _ f. unfold LRUK.access_count. cbn. rewrite lookup_empty. reflexivity.
  - intros p f Hf. cbn in Hf. rewrite Find_init in Hf. discriminate.
  - rewrite init_free_list by assumption.
    apply NoDup_fmap_2; [intros ? ? ?; lia | apply NoDup_seq].
  - intros f Hf. apply Hfree in Hf. exists (fresh_page zero). split; [|reflexivity].
    unfold page_at. destruct (Z.ltb_spec f 0); [lia|]. cbn.
    apply lookup_replicate_2. lia.
  - intros f pg Hpg Hnf. exfalso. apply Hnf, Hfree.
    apply page_at_range in Hpg. rewrite Hlen in Hpg. exact Hpg.
  - intros f Hf. cbn in Hf. unfold LRUK.access_count in Hf. cbn in Hf.
    rewrite lookup_empty in Hf. cbn in Hf. lia.
  - reflexivity.
Qed.

(** *** Taking a frame *)

Lemma take_frame_spec s :
  inv s → all_pinned s = false →
  ∃ f s1 pg,
    take_frame s = Ret (Some f) s1 ∧ inv_limbo f s1 ∧
    page_at s f = Some pg ∧ pin_count_ pg = 0%Z ∧
    pages_ s1 = pages_ s ∧ page_table_ s1 = page_table_ s ∧
    disk_ s1 = disk_ s ∧ next_page_id_ s1 = next_page_id_ s ∧
    LRUK.k_ (replacer_ s1) = LRUK.k_ (replacer_ s).
Proof.
  intros Hinv Hnp. unfold take_frame.
  destruct (free_list_ s) as [|f rest] eqn:Hfl.
  - apply all_pinned_false in Hnp as (f0 & pg0 & Hpg0 & Hle0).
    destruct (inv_used _ _ _ Hinv f0 pg0 Hpg0) as (Htr0 & Hge0 & Hev0);
      [rewrite Hfl; apply not_elem_of_nil|].
    assert (Hev : LRUK.is_evictable (replacer_ s) f0 = true) by (apply Hev0; lia).
    pose proof (LRUK_Facts.Evict_cases (replacer_ s) (inv_replacer _ _ _ Hinv)) as Hcases.
    destruct (LRUK.Evict (replacer_ s)) as [[f|] r1|r1| |]; cbn;
      [|destruct Hcases as [_ Hn]; rewrite Hn in Hev; discriminate|destruct Hcases..].
    destruct Hcases as (Hevf & Hwf1 & Hpos & Hacc & Hevm & Hsz & Hrs & Hk).
    pose proof (LRUK.wf_tracked _ (inv_replacer _ _ _ Hinv) f Hevf) as Htrf.
    destruct (inv_tracked _ _ _ Hinv f Htrf) as [[pg Hpg] Hnfree].
    destruct (inv_used _ _ _ Hinv f pg Hpg Hnfree) as (_ & Hge & Hiff).
    exists f, (set_replacer s r1), pg. split; [reflexivity|].
    split; [|repeat split; try assumption; apply Hiff; assumption].
    split; cbn.
    + exact Hwf1.
    + apply Hinv.
    + rewrite Hrs. apply Hinv.
    + apply Hinv.
    + intros Hk1 f'. rewrite (LRUK_Facts.access_count_delete _ _ _ f' Hacc).
      destruct (decide (f' = f)); [reflexivity|].
      apply (inv_k _ _ _ Hinv). congruence.
    + apply (inv_resident _ _ _ Hinv).
    + apply Hinv.
    + apply (inv_free _ _ _ Hinv).
    + intros f' pg' Hpg' Hnf' Hne.
      destruct (inv_used _ _ _ Hinv f' pg' Hpg' Hnf') as (H1 & H2 & H3).
      rewrite (LRUK_Facts.access_count_delete _ _ _ f' Hacc).
      rewrite (LRUK_Facts.is_evictable_delete _ _ _ f' Hevm).
      rewrite !decide_False by assumption. auto.
    + intros f' Hf'. rewrite (LRUK_Facts.access_count_delete _ _ _ f' Hacc) in Hf'.
      destruct (decide (f' = f)); [lia|]. apply (inv_tracked _ _ _ Hinv). exact Hf'.
    + eauto.
    + exact Hnfree.
    + rewrite (LRUK_Facts.access_count_delete _ _ _ f Hacc).
      rewrite decide_True; reflexivity.
    + exact (inv_bucket _ _ _ Hinv).
  - clear Hnp.
    pose proof (inv_free_nodup _ _ _ Hinv) as Hnd. rewrite Hfl in Hnd.
    apply NoDup_cons in Hnd as [Hfr Hnd].
    destruct (inv_free _ _ _ Hinv f) as (pg & Hpg & Hpin); [rewrite Hfl; left|].
    assert (Hacc0 : LRUK.access_count (replacer_ s) f = 0).
    { destruct (LRUK.access_count (replacer_ s) f) eqn:Ha; [reflexivity|].
      destruct (inv_tracked _ _ _ Hinv f) as [_ Hn]; [lia|].
      exfalso. apply Hn. rewrite Hfl. left. }
    exists f, (set_free s rest), pg. split; [reflexivity|].
    split; [|repeat split; assumption].
    split; cbn.
    + apply Hinv.
    + apply Hinv.
    + apply Hinv.
    + apply Hinv.
    + apply Hinv.
    + intros p f' Hf'. destruct (inv_resident _ _ _ Hinv p f' Hf') as (pg' & H1 & H2 & H3).
      exists pg'. repeat split; try assumption.
      intros Hin. apply H3. rewrite Hfl. right. exact Hin.
    + exact Hnd.
    + intros f' Hin. apply (inv_free _ _ _ Hinv). rewrite Hfl. right. exact Hin.
    + intros f' pg' Hpg' Hnf' Hne. apply (inv_used _ _ _ Hinv f' pg' Hpg').
      rewrite Hfl. intros Hin. apply elem_of_cons in Hin as [?|?]; auto.
    + intros f' Hf'. destruct (inv_tracked _ _ _ Hinv f' Hf') as [H1 H2].
      split; [exact H1|]. intros Hin. apply H2. rewrite Hfl. right. exact Hin.
    + eauto.
    + exact Hfr.
    + exact Hacc0.
    + exact (inv_bucket _ _ _ Hinv).
Qed.

(** *** Between taking a frame and publishing it *)

Lemma limbo_set_page f s pg :
  inv_limbo f s → (∀ p, Find (page_table_ s) p ≠ Some f) →
  inv_limbo f (set_page s f pg).
Proof.
  intros Hl Hnone. pose proof (limbo_page _ _ _ _ Hl) as Hpage.
  assert (Hother : ∀ f', f' ≠ f → page_at (set_page s f pg) f' = page_at s f').
  { intros f' Hne. rewrite page_at_set_page by assumption.
    rewrite decide_False by assumption. reflexivity. }
  split; cbn [set_page set_pages pages_ page_table_ replacer_ free_list_].
  - apply Hl.
  - apply Hl.
  - rewrite length_insert. apply Hl.
  - rewrite length_insert. apply Hl.
  - apply Hl.
  - intros p f' Hf'. destruct (limbo_resident _ _ _ _ Hl p f' Hf') as (pg' & H1 & H2 & H3).
    exists pg'. fold (set_page s f pg). rewrite Hother; [auto|].
    intros ->. exact (Hnone p Hf').
  - apply Hl.
  - intros f' Hin. fold (set_page s f pg). rewrite Hother; [apply (limbo_free _ _ _ _ Hl); exact Hin|].
    intros ->. exact (limbo_not_free _ _ _ _ Hl Hin).
  - intros f' pg' Hpg' Hnf Hne. fold (set_page s f pg) in Hpg'.
    rewrite Hother in Hpg' by assumption. apply (limbo_used _ _ _ _ Hl); assumption.
  - intros f' Hf'. destruct (limbo_tracked _ _ _ _ Hl f' Hf') as [H1 H2].
    split; [|exact H2]. apply page_at_is_Some. cbn. rewrite length_insert.
    apply page_at_is_Some. exact H1.
  - fold (set_page s f pg). rewrite page_at_set_page by assumption.
    rewrite decide_True by reflexivity. eauto.
  - exact (limbo_not_free _ _ _ _ Hl).
  - exact (limbo_untracked _ _ _ _ Hl).
  - exact (limbo_bucket _ _ _ _ Hl).
Qed.

Lemma limbo_set_disk f s dk : inv_limbo f s → inv_limbo f (set_disk s dk).
Proof. intros [? ? ? ? ? ? ? ? ? ? ? ? ? ?]. split; assumption. Qed.

Lemma limbo_set_next f s n : inv_limbo f s → inv_limbo f (set_next s n).
Proof. intros [? ? ? ? ? ? ? ? ? ? ? ? ? ?]. split; assumption. Qed.

Lemma retire_spec f s frame :
  inv_limbo f s → page_at s f = Some frame →
  inv_limbo f (retire hash s f frame) ∧
  (∀ p, Find (page_table_ (retire hash s f frame)) p ≠ Some f) ∧
  page_at (retire hash s f frame) f
    = Some (mkPage (data_ frame) (page_id_ frame) (pin_count_ frame) false) ∧
  (∀ f', f' ≠ f → page_at (retire hash s f frame) f' = page_at s f') ∧
  (∀ p, Find (page_table_ (retire hash s f frame)) p
        = if decide (p = page_id_ frame) then None else Find (page_table_ s) p) ∧
  replacer_ (retire hash s f frame) = replacer_ s ∧
  free_list_ (retire hash s f frame) = free_list_ s ∧
  next_page_id_ (retire hash s f frame) = next_page_id_ s ∧
  disk_ (retire hash s f frame)
    = (if is_dirty_ frame
       then WritePage (page_id_ frame) (data_ frame) (disk_ s) else disk_ s).
Proof.
  intros Hl Hframe. unfold retire.
  set (frame2 := mkPage (data_ frame) (page_id_ frame) (pin_count_ frame) false).
  set (s1 := if is_dirty_ frame then _ else s).
  assert (Hs1 : page_table_ s1 = page_table_ s ∧ replacer_ s1 = replacer_ s ∧
                free_list_ s1 = free_list_ s ∧ next_page_id_ s1 = next_page_id_ s ∧
                length (pages_ s1) = length (pages_ s) ∧
                page_at s1 f = Some frame2 ∧
                (∀ f', f' ≠ f → page_at s1 f' = page_at s f')).
  { unfold s1. destruct (is_dirty_ frame) eqn:Hd.
    - repeat split; cbn; try reflexivity.
      + apply length_insert.
      + change (page_at (set_page (set_disk s (WritePage (page_id_ frame) (data_ frame)
                  (disk_ s))) f frame2) f = Some frame2).
        rewrite page_at_set_page by (cbn; eauto). rewrite decide_True; reflexivity.
      + intros f' Hne.
        change (page_at (set_page (set_disk s (WritePage (page_id_ frame) (data_ frame)
                  (disk_ s))) f frame2) f' = page_at s f').
        rewrite page_at_set_page by (cbn; eauto). rewrite decide_False by assumption.
        reflexivity.
    - repeat split; try reflexivity. rewrite Hframe. unfold frame2.
      destruct frame as [d pid pc dirty]. cbn in *. subst dirty. reflexivity. }
  destruct Hs1 as (Ht1 & Hr1 & Hf1 & Hn1 & Hlen1 & Hpf1 & Hother1).
  pose proof (limbo_table _ _ _ _ Hl) as Hwft.
  assert (HFind : ∀ p, Find (EHT.Remove hash (page_table_ s1) (page_id_ frame)).2 p
                       = if decide (p = page_id_ frame) then None
                         else Find (page_table_ s) p).
  { intros p. rewrite Ht1. apply EHT_Facts.Remove_find. exact Hwft. }
  assert (Hnone : ∀ p, Find (EHT.Remove hash (page_table_ s1) (page_id_ frame)).2 p
                       ≠ Some f).
  { intros p. rewrite HFind. destruct (decide (p = page_id_ frame)) as [->|Hne];
      [discriminate|].
    intros Hp. destruct (limbo_resident _ _ _ _ Hl p f Hp) as (pg' & H1 & H2 & _).
    rewrite Hframe in H1. injection H1 as <-. congruence. }
  split; [|repeat split; try assumption].
  - split; cbn [set_table pages_ page_table_ replacer_ free_list_].
    + rewrite Hr1. apply Hl.
    + rewrite Ht1. apply EHT_Facts.Remove_wf. exact Hwft.
    + rewrite Hr1, Hlen1. apply Hl.
    + rewrite Hlen1. apply Hl.
    + rewrite Hr1. apply Hl.
    + intros p f' Hf'. pose proof (Hnone p) as Hnf. rewrite HFind in Hf'.
      destruct (decide (p = page_id_ frame)); [discriminate|].
      destruct (limbo_resident _ _ _ _ Hl p f' Hf') as (pg' & H1 & H2 & H3).
      assert (f' ≠ f).
      { intros ->. rewrite Hframe in H1. injection H1 as <-. congruence. }
      exists pg'. rewrite Hf1.
      change (page_at (set_table s1 _) f') with (page_at s1 f').
      rewrite Hother1 by assumption. auto.
    + rewrite Hf1. apply Hl.
    + intros f' Hin. rewrite Hf1 in Hin.
      change (page_at (set_table s1 _) f') with (page_at s1 f').
      rewrite Hother1; [apply (limbo_free _ _ _ _ Hl); exact Hin|].
      intros ->. exact (limbo_not_free _ _ _ _ Hl Hin).
    + intros f' pg' Hpg' Hnf Hne. rewrite Hr1. rewrite Hf1 in Hnf.
      change (page_at (set_table s1 _) f') with (page_at s1 f') in Hpg'.
      rewrite Hother1 in Hpg' by assumption. apply (limbo_used _ _ _ _ Hl); assumption.
    + intros f' Hf'. rewrite Hr1 in Hf'. rewrite Hf1.
      destruct (limbo_tracked _ _ _ _ Hl f' Hf') as [H1 H2]. split; [|exact H2].
      apply page_at_is_Some. cbn. rewrite Hlen1. apply page_at_is_Some. exact H1.
    + change (page_at (set_table s1 _) f) with (page_at s1 f). rewrite Hpf1. eauto.
    + rewrite Hf1. exact (limbo_not_free _ _ _ _ Hl).
    + rewrite Hr1. exact (limbo_untracked _ _ _ _ Hl).
    + rewrite Ht1, EHT_Facts.Remove_bucket_size. exact (limbo_bucket _ _ _ _ Hl).
  - unfold s1. destruct (is_dirty_ frame); reflexivity.
Qed.

(** *** Publishing a frame *)

Lemma publish_spec {A} fuel s pid f (a : A) pg :
  inv_limbo f s → (∀ p, Find (page_table_ s) p ≠ Some f) →
  page_at s f = Some pg → page_id_ pg = pid → pin_count_ pg = 1%Z →
  match publish hash fuel s pid f a with
  | Ret r s' =>
      r = Some a ∧ inv s' ∧
      EHT.Insert hash fuel (page_table_ s) pid f = Some (page_table_ s') ∧
      pages_ s' = pages_ s ∧ free_list_ s' = free_list_ s ∧
      next_page_id_ s' = next_page_id_ s ∧ disk_ s' = disk_ s ∧
      LRUK.access_count (replacer_ s') f = 1 ∧
      LRUK.is_evictable (replacer_ s') f = false ∧
      (∀ f', f' ≠ f →
         LRUK.access_count (replacer_ s') f' = LRUK.access_count (replacer_ s) f' ∧
         LRUK.is_evictable (replacer_ s') f' = LRUK.is_evictable (replacer_ s) f') ∧
      LRUK.k_ (replacer_ s) ≠ 1
  | Timeout =>
      EHT.Insert hash fuel (page_table_ s) pid f = None ∧ LRUK.k_ (replacer_ s) ≠ 1
  | Undef => LRUK.k_ (replacer_ s) = 1
  | Throw _ => False
  end.
Proof.
  intros Hl Hnone Hpg Hpid Hpin. unfold publish.
  pose proof (valid_frame (replacer_ s) s f (limbo_size _ _ _ _ Hl) (limbo_small _ _ _ _ Hl)
                ltac:(eauto)) as Hvalid.
  destruct (decide (LRUK.k_ (replacer_ s) = 1)) as [Hk1|Hk].
  { rewrite (LRUK_Facts.RecordAccess_first_k1 f (replacer_ s) (limbo_replacer _ _ _ _ Hl)
               Hk1 Hvalid (limbo_untracked _ _ _ _ Hl)).
    exact Hk1. }
  pose proof (LRUK_Facts.RecordAccess_cases f (replacer_ s) (limbo_replacer _ _ _ _ Hl)) as H1.
  destruct (LRUK.RecordAccess f (replacer_ s)) as [[] r1|r1| |]; cbn [on_replacer].
  2:{ destruct H1 as [_ H1]. congruence. }
  2:{ destruct H1 as (_ & H1 & _). contradiction. }
  2:{ destruct H1. }
  destruct H1 as (_ & Hwf1 & Hacc1 & Hev1 & Hcs1 & Hrs1 & Hk1).
  cbn [set_replacer replacer_].
  assert (Hvalid1 : LRUK.invalid_frame r1 f = false).
  { unfold LRUK.invalid_frame in *. rewrite Hrs1. exact Hvalid. }
  pose proof (LRUK_Facts.SetEvictable_cases f false r1 Hwf1) as H2.
  destruct (LRUK.SetEvictable f false r1) as [[] r2|r2| |]; cbn [on_replacer].
  2:{ destruct H2 as [_ H2]. congruence. }
  2:{ destruct H2. }
  2:{ destruct H2. }
  destruct H2 as (_ & Hwf2 & Hacc2 & _ & _ & Hrs2 & Hk2 & Hev2).
  cbn [set_replacer replacer_ page_table_ pages_ free_list_ next_page_id_ disk_].
  assert (Haccf : ∀ f', LRUK.access_count r2 f' =
            if decide (f' = f) then S (LRUK.access_count (replacer_ s) f)
            else LRUK.access_count (replacer_ s) f').
  { intros f'. unfold LRUK.access_count at 1. rewrite Hacc2.
    apply (LRUK_Facts.access_count_insert (replacer_ s) f _ r1 f' Hacc1). }
  assert (Hevf : ∀ f', LRUK.is_evictable r2 f' =
            if decide (f' = f) then false else LRUK.is_evictable (replacer_ s) f').
  { intros f'. rewrite Hev2. destruct (decide (f' = f)) as [->|Hne].
    - pose proof (Haccf f) as Ha. rewrite decide_True in Ha by reflexivity.
      unfold LRUK.access_count in Ha at 1. rewrite Hacc2 in Ha.
      fold (LRUK.access_count r1 f) in Ha. rewrite Ha. reflexivity.
    - unfold LRUK.is_evictable. rewrite Hev1. reflexivity. }
  destruct (EHT.Insert hash fuel (page_table_ s) pid f) as [t|] eqn:Hins;
    [|split; [reflexivity | exact Hk]].
  pose proof (EHT_Facts.Insert_wf hash fuel _ _ _ _ (limbo_table _ _ _ _ Hl) Hins) as Hwft.
  pose proof (λ k', EHT_Facts.Insert_Find hash fuel _ _ _ _ k' (limbo_table _ _ _ _ Hl) Hins)
    as HFind.
  split; [reflexivity|].
  assert (Hf1 : LRUK.access_count r2 f = 1).
  { rewrite Haccf, decide_True by reflexivity. rewrite (limbo_untracked _ _ _ _ Hl).
    reflexivity. }
  split; [|cbn [set_table set_replacer pages_ page_table_ replacer_ free_list_
                next_page_id_ disk_];
            repeat match goal with |- _ ∧ _ => split end; try reflexivity].
  - split; cbn [set_table set_replacer pages_ page_table_ replacer_ free_list_].
    + exact Hwf2.
    + exact Hwft.
    + rewrite Hrs2, Hrs1. apply Hl.
    + apply Hl.
    + rewrite Hk2, Hk1. intros Hk1'. contradiction.
    + intros p f' Hf'. rewrite HFind in Hf'.
      destruct (decide (p = pid)) as [->|Hne].
      * injection Hf' as <-. exists pg. repeat split; try assumption.
        exact (limbo_not_free _ _ _ _ Hl).
      * exact (limbo_resident _ _ _ _ Hl p f' Hf').
    + exact (limbo_free_nodup _ _ _ _ Hl).
    + exact (limbo_free _ _ _ _ Hl).
    + intros f' pg' Hpg' Hnf. rewrite Haccf, Hevf.
      change (page_at (set_table (set_replacer (set_replacer s r1) r2) t) f')
        with (page_at s f') in Hpg'.
      destruct (decide (f' = f)) as [->|Hne].
      * rewrite Hpg in Hpg'. injection Hpg' as <-. rewrite Hpin.
        split; [lia|]. split; [lia|]. split; [discriminate | lia].
      * apply (limbo_used _ _ _ _ Hl); assumption.
    + intros f' Hf'. rewrite Haccf in Hf'.
      change (page_at (set_table (set_replacer (set_replacer s r1) r2) t) f')
        with (page_at s f').
      destruct (decide (f' = f)) as [->|Hne].
      * split; [eauto | exact (limbo_not_free _ _ _ _ Hl)].
      * exact (limbo_tracked _ _ _ _ Hl f' Hf').
    + rewrite (EHT_Facts.Insert_bucket_size hash fuel _ _ _ _ (limbo_table _ _ _ _ Hl) Hins).
      exact (limbo_bucket _ _ _ _ Hl).
  - exact Hf1.
  - rewrite Hevf, decide_True; reflexivity.
  - intros f' Hne. rewrite Haccf, Hevf, !decide_False by assumption. auto.
  - exact Hk.
Qed.

(** *** [NewPgImp] *)

Lemma NewPgImp_spec fuel s :
  inv s →
  match NewPgImp zero hash fuel s with
  | Ret None s' => s' = s ∧ all_pinned s = true
  | Ret (Some (pid, f)) s' =>
      all_pinned s = false ∧ inv s' ∧ pid = next_page_id_ s ∧
      next_page_id_ s' = (pid + 1)%Z ∧
      page_at s' f = Some (mkPage zero pid 1 false) ∧
      LRUK.access_count (replacer_ s') f = 1 ∧
      LRUK.is_evictable (replacer_ s') f = false ∧
      Find (page_table_ s') pid = Some f ∧
      LRUK.k_ (replacer_ s) ≠ 1
  | Timeout =>
      all_pinned s = false ∧ LRUK.k_ (replacer_ s) ≠ 1 ∧
      ∃ t f, EHT.wf hash t ∧ EHT.bucket_size_ t = bucket_size ∧
             (∀ p, is_Some (Find t p) → is_Some (Find (page_table_ s) p)) ∧
             EHT.Insert hash fuel t (next_page_id_ s) f = None
  | Undef => all_pinned s = false ∧ LRUK.k_ (replacer_ s) = 1
  | Throw _ => False
  end.
Proof.
  intros Hinv. unfold NewPgImp.
  destruct (all_pinned s) eqn:Hap; [auto|].
  destruct (take_frame_spec s Hinv Hap)
    as (f & s1 & pg & Htake & Hl1 & Hpg & Hpin & Hp1 & Ht1 & Hd1 & Hn1 & Hks1).
  rewrite Htake.
  assert (Hpg1 : page_at s1 f = Some pg) by (unfold page_at in *; rewrite Hp1; exact Hpg).
  rewrite Hpg1.
  destruct (retire_spec f s1 pg Hl1 Hpg1)
    as (Hl2 & Hnone2 & Hpg2 & _ & HF2 & Hr2 & Hfl2 & Hn2 & Hd2).
  set (s2 := retire hash s1 f pg) in *.
  set (pid := next_page_id_ s2).
  change (page_at (set_next s2 (pid + 1)%Z) f) with (page_at s2 f). rewrite Hpg2.
  cbn [pin_count_ is_dirty_]. rewrite Hpin. change (0 + 1)%Z with 1%Z.
  set (s4 := set_page (set_next s2 (pid + 1)%Z) f (mkPage zero pid 1 false)).
  assert (Hl4 : inv_limbo f s4).
  { apply limbo_set_page; [apply limbo_set_next; exact Hl2 | exact Hnone2]. }
  assert (Hpg4 : page_at s4 f = Some (mkPage zero pid 1 false)).
  { unfold s4. rewrite page_at_set_page by (cbn; eauto). rewrite decide_True; reflexivity. }
  assert (Hpid : pid = next_page_id_ s) by (unfold pid; congruence).
  assert (Hk4 : LRUK.k_ (replacer_ s4) = LRUK.k_ (replacer_ s)).
  { change (replacer_ s4) with (replacer_ s2). rewrite Hr2. exact Hks1. }
  pose proof (publish_spec fuel s4 pid f (pid, f) _ Hl4 Hnone2 Hpg4 eq_refl eq_refl) as Hpub.
  rewrite Hk4 in Hpub.
  destruct (publish hash fuel s4 pid f (pid, f)) as [r s'|?| |]; try exact Hpub.
  - destruct Hpub as (-> & Hinv' & Hins & Hp' & Hf' & Hn' & Hd' & Hacc & Hev & _ & Hk).
    split; [reflexivity|]. split; [exact Hinv'|]. split; [exact Hpid|].
    split; [rewrite Hn'; reflexivity|].
    split; [unfold page_at in *; rewrite Hp'; exact Hpg4|].
    split; [exact Hacc|]. split; [exact Hev|]. split; [|exact Hk].
    rewrite (EHT_Facts.Insert_Find hash fuel _ _ _ _ pid (limbo_table _ _ _ _ Hl4) Hins).
    rewrite decide_True; reflexivity.
  - split; [reflexivity | exact Hpub].
  - destruct Hpub as [Hpub Hk]. split; [reflexivity|]. split; [exact Hk|].
    exists (page_table_ s4), f.
    split; [exact (limbo_table _ _ _ _ Hl4)|].
    split; [exact (limbo_bucket _ _ _ _ Hl4)|].
    split; [|rewrite <- Hpid; exact Hpub].
    intros p. change (page_table_ s4) with (page_table_ s2). rewrite HF2, Ht1.
    destruct (decide (p = page_id_ pg)); [intros [? ?]; discriminate | auto].
Qed.

(** *** [FetchPgImp] *)

Lemma FetchPgImp_spec fuel p s :
  inv s →
  match FetchPgImp zero hash fuel p s with
  | Ret None s' => s' = s ∧ Find (page_table_ s) p = None ∧ all_pinned s = true
  | Ret (Some f) s' =>
      inv s' ∧ Find (page_table_ s') p = Some f ∧
      LRUK.is_evictable (replacer_ s') f = false ∧
      (∀ q, is_Some (Find (page_table_ s') q) →
            q = p ∨ is_Some (Find (page_table_ s) q)) ∧
      ((Find (page_table_ s) p = Some f ∧
        (∃ pg, page_at s f = Some pg ∧ page_id_ pg = p ∧
               page_at s' f = Some (mkPage (data_ pg) p (pin_count_ pg + 1)%Z
                                           (is_dirty_ pg)) ∧
               (∀ f', f' ≠ f → page_at s' f' = page_at s f')) ∧
        LRUK.access_count (replacer_ s') f = S (LRUK.access_count (replacer_ s) f) ∧
        page_table_ s' = page_table_ s ∧ free_list_ s' = free_list_ s ∧
        disk_ s' = disk_ s)
       ∨
       (Find (page_table_ s) p = None ∧ all_pinned s = false ∧
        page_at s' f = Some (mkPage (ReadPage zero p (disk_ s')) p 1 false) ∧
        LRUK.access_count (replacer_ s') f = 1 ∧
        LRUK.k_ (replacer_ s) ≠ 1))
  | Timeout =>
      Find (page_table_ s) p = None ∧ all_pinned s = false ∧
      LRUK.k_ (replacer_ s) ≠ 1 ∧
      ∃ t f, EHT.wf hash t ∧ EHT.bucket_size_ t = bucket_size ∧
             (∀ q, is_Some (Find t q) → is_Some (Find (page_table_ s) q)) ∧
             EHT.Insert hash fuel t p f = None
  | Undef =>
      Find (page_table_ s) p = None ∧ all_pinned s = false ∧
      LRUK.k_ (replacer_ s) = 1
  | Throw _ => False
  end.
Proof.
  intros Hinv. unfold FetchPgImp.
  destruct (Find (page_table_ s) p) as [f|] eqn:HFind.
  - (* hit *)
    destruct (inv_resident _ _ _ Hinv p f HFind) as (pg & Hpg & Hpid & Hnfree).
    destruct (inv_used _ _ _ Hinv f pg Hpg Hnfree) as (Htr & Hge & Hiff).
    pose proof (valid_frame (replacer_ s) s f (inv_size _ _ _ Hinv) (inv_small _ _ _ Hinv)
                  ltac:(eauto)) as Hvalid.
    pose proof (LRUK_Facts.RecordAccess_cases f (replacer_ s) (inv_replacer _ _ _ Hinv)) as H1.
    destruct (LRUK.RecordAccess f (replacer_ s)) as [[] r1|r1| |]; cbn [on_replacer].
    2:{ destruct H1 as [_ H1]. congruence. }
    2:{ destruct H1 as (_ & _ & H1). lia. }
    2:{ destruct H1. }
    destruct H1 as (_ & Hwf1 & Hacc1 & Hev1 & Hcs1 & Hrs1 & Hk1).
    cbn [set_replacer replacer_].
    pose proof (LRUK_Facts.SetEvictable_cases f false r1 Hwf1) as H2.
    destruct (LRUK.SetEvictable f false r1) as [[] r2|r2| |]; cbn [on_replacer].
    2:{ destruct H2 as [_ H2]. unfold LRUK.invalid_frame in *. rewrite Hrs1 in H2. congruence. }
    2:{ destruct H2. }
    2:{ destruct H2. }
    destruct H2 as (_ & Hwf2 & Hacc2 & _ & _ & Hrs2 & Hk2 & Hev2).
    set (s2 := set_replacer (set_replacer s r1) r2).
    change (page_at s2 f) with (page_at s f).
    rewrite Hpg.
    set (pg' := mkPage (data_ pg) (page_id_ pg) (pin_count_ pg + 1)%Z (is_dirty_ pg)).
    assert (Haccf : ∀ f', LRUK.access_count r2 f' =
              if decide (f' = f) then S (LRUK.access_count (replacer_ s) f)
              else LRUK.access_count (replacer_ s) f').
    { intros f'. unfold LRUK.access_count at 1. rewrite Hacc2.
      apply (LRUK_Facts.access_count_insert (replacer_ s) f _ r1 f' Hacc1). }
    assert (Hevf : ∀ f', LRUK.is_evictable r2 f' =
              if decide (f' = f) then false else LRUK.is_evictable (replacer_ s) f').
    { intros f'. rewrite Hev2. destruct (decide (f' = f)) as [->|Hne].
      - pose proof (Haccf f) as Ha. rewrite decide_True in Ha by reflexivity.
        unfold LRUK.access_count in Ha at 1. rewrite Hacc2 in Ha.
        fold (LRUK.access_count r1 f) in Ha. rewrite Ha. reflexivity.
      - unfold LRUK.is_evictable. rewrite Hev1. reflexivity. }
    assert (Hs2 : is_Some (page_at s2 f)) by (change (page_at s2 f) with (page_at s f); eauto).
    assert (Hpat : ∀ f', page_at (set_page s2 f pg') f' =
              if decide (f' = f) then Some pg' else page_at s f').
    { intros f'. rewrite page_at_set_page by exact Hs2. reflexivity. }
    split; [|split; [exact HFind|]; split; [cbn; rewrite Hevf, decide_True; reflexivity|];
             split; [intros q Hq; right; exact Hq|]].
    + split; cbn [set_page set_pages set_replacer pages_ page_table_ replacer_ free_list_ s2];
        fold s2; fold (set_page s2 f pg').
      * exact Hwf2.
      * apply Hinv.
      * rewrite length_insert, Hrs2, Hrs1. apply Hinv.
      * rewrite length_insert. apply Hinv.
      * rewrite Hk2, Hk1. intros Hk1' f'. exfalso.
        pose proof (inv_k _ _ _ Hinv Hk1' f). lia.
      * intros q f' Hq. destruct (inv_resident _ _ _ Hinv q f' Hq) as (pg0 & H1 & H2 & H3).
        rewrite Hpat. destruct (decide (f' = f)) as [->|Hne]; [|eauto].
        exists pg'. rewrite Hpg in H1. injection H1 as <-. auto.
      * apply Hinv.
      * intros f' Hin. rewrite Hpat. rewrite decide_False by (intros ->; auto).
        apply (inv_free _ _ _ Hinv). exact Hin.
      * intros f' pg0 Hpg0 Hnf. rewrite Hpat in Hpg0. rewrite Haccf, Hevf.
        destruct (decide (f' = f)) as [->|Hne].
        -- injection Hpg0 as <-. cbn. split; [lia|]. split; [lia|].
           split; [discriminate | lia].
        -- apply (inv_used _ _ _ Hinv); assumption.
      * intros f' Hf'. rewrite Haccf in Hf'. rewrite Hpat.
        destruct (decide (f' = f)) as [->|Hne]; [split; [eauto | assumption]|].
        apply (inv_tracked _ _ _ Hinv). exact Hf'.
      * exact (inv_bucket _ _ _ Hinv).
    + left. split; [reflexivity|]. split.
      * exists pg. split; [exact Hpg|]. split; [exact Hpid|]. split.
        -- rewrite Hpat, decide_True by reflexivity. unfold pg'. rewrite Hpid. reflexivity.
        -- intros f' Hne. rewrite Hpat, decide_False by assumption. reflexivity.
      * cbn. rewrite Haccf, decide_True by reflexivity. auto.
  - (* miss *)
    destruct (all_pinned s) eqn:Hap; [auto|].
    destruct (take_frame_spec s Hinv Hap)
      as (f & s1 & pg & Htake & Hl1 & Hpg & Hpin & Hp1 & Ht1 & Hd1 & Hn1 & Hks1).
    rewrite Htake.
    assert (Hpg1 : page_at s1 f = Some pg) by (unfold page_at in *; rewrite Hp1; exact Hpg).
    rewrite Hpg1.
    destruct (retire_spec f s1 pg Hl1 Hpg1)
      as (Hl2 & Hnone2 & Hpg2 & _ & HF2 & Hr2 & Hfl2 & Hn2 & Hd2).
    set (s2 := retire hash s1 f pg) in *.
    rewrite Hpg2. cbn [pin_count_ is_dirty_]. rewrite Hpin. change (0 + 1)%Z with 1%Z.
    set (pg3 := mkPage (ReadPage zero p (disk_ s2)) p 1 false).
    set (s3 := set_page s2 f pg3).
    assert (Hl3 : inv_limbo f s3) by (apply limbo_set_page; assumption).
    assert (Hpg3 : page_at s3 f = Some pg3).
    { unfold s3. rewrite page_at_set_page by (rewrite Hpg2; eauto).
      rewrite decide_True; reflexivity. }
    assert (Hk3 : LRUK.k_ (replacer_ s3) = LRUK.k_ (replacer_ s)).
    { change (replacer_ s3) with (replacer_ s2). rewrite Hr2. exact Hks1. }
    pose proof (publish_spec fuel s3 p f f _ Hl3 Hnone2 Hpg3 eq_refl eq_refl) as Hpub.
    rewrite Hk3 in Hpub.
    destruct (publish hash fuel s3 p f f) as [r s'|?| |]; try exact Hpub.
    + destruct Hpub as (-> & Hinv' & Hins & Hp' & Hf' & Hn' & Hd' & Hacc & Hev & _ & Hk).
      split; [exact Hinv'|]. split.
      { rewrite (EHT_Facts.Insert_Find hash fuel _ _ _ _ p (limbo_table _ _ _ _ Hl3) Hins).
        rewrite decide_True; reflexivity. }
      split; [exact Hev|]. split.
      { intros q.
        rewrite (EHT_Facts.Insert_Find hash fuel _ _ _ _ q (limbo_table _ _ _ _ Hl3) Hins).
        destruct (decide (q = p)) as [->|Hne]; [auto|].
        change (page_table_ s3) with (page_table_ s2). rewrite HF2, Ht1.
        destruct (decide (q = page_id_ pg)); [intros [? ?]; discriminate | auto]. }
      right.
      split; [reflexivity|]. split; [reflexivity|]. split; [|split; [exact Hacc | exact Hk]].
      unfold page_at in *. rewrite Hp', Hd'. exact Hpg3.
    + split; [reflexivity|]. split; [reflexivity | exact Hpub].
    + destruct Hpub as [Hpub Hk].
      split; [reflexivity|]. split; [reflexivity|]. split; [exact Hk|].
      exists (page_table_ s3), f.
      split; [exact (limbo_table _ _ _ _ Hl3)|].
      split; [exact (limbo_bucket _ _ _ _ Hl3)|].
      split; [|exact Hpub].
      intros q. change (page_table_ s3) with (page_table_ s2). rewrite HF2, Ht1.
      destruct (decide (q = page_id_ pg)); [intros [? ?]; discriminate | auto].
Qed.

(** *** Updating one frame in place *)

Lemma inv_update s s' f pg pg' :
  inv s → page_at s f = Some pg →
  pages_ s' = <[Z.to_nat f := pg']> (pages_ s) →
  page_table_ s' = page_table_ s → free_list_ s' = free_list_ s →
  LRUK.wf (replacer_ s') →
  LRUK.replacer_size_ (replacer_ s') = LRUK.replacer_size_ (replacer_ s) →
  LRUK.k_ (replacer_ s') = LRUK.k_ (replacer_ s) →
  (∀ f0, LRUK.access_count (replacer_ s') f0 = LRUK.access_count (replacer_ s) f0) →
  (∀ f0, f0 ≠ f →
     LRUK.is_evictable (replacer_ s') f0 = LRUK.is_evictable (replacer_ s) f0) →
  page_id_ pg' = page_id_ pg →
  (f ∈ free_list_ s → pin_count_ pg' = 0%Z) →
  (f ∉ free_list_ s →
     (0 ≤ pin_count_ pg')%Z ∧
     (LRUK.is_evictable (replacer_ s') f = true ↔ pin_count_ pg' = 0%Z)) →
  inv s'.
Proof.
  intros Hinv Hpg Hp' Ht' Hf' Hwf' Hrs' Hk' Hacc' Hev' Hpid Hfree Hused.
  assert (Hpat : ∀ f0, page_at s' f0 = if decide (f0 = f) then Some pg' else page_at s f0).
  { intros f0. change (page_at s' f0) with (page_at (set_pages s (pages_ s')) f0).
    rewrite Hp'. apply (page_at_set_page s f pg' f0). eauto. }
  split.
  - exact Hwf'.
  - rewrite Ht'. apply Hinv.
  - rewrite Hrs', Hp', length_insert. apply Hinv.
  - rewrite Hp', length_insert. apply Hinv.
  - rewrite Hk'. intros Hk1 f0. rewrite Hacc'. apply (inv_k _ _ _ Hinv Hk1).
  - intros q f0 Hq. rewrite Ht' in Hq. rewrite Hf', Hpat.
    destruct (inv_resident _ _ _ Hinv q f0 Hq) as (pg0 & H1 & H2 & H3).
    destruct (decide (f0 = f)) as [->|Hne]; [|eauto].
    exists pg'. rewrite Hpg in H1. injection H1 as <-. split; [reflexivity|].
    split; [congruence | assumption].
  - rewrite Hf'. apply Hinv.
  - intros f0 Hin. rewrite Hf' in Hin. rewrite Hpat.
    destruct (decide (f0 = f)) as [->|Hne]; [eauto|].
    apply (inv_free _ _ _ Hinv). exact Hin.
  - intros f0 pg0 Hpg0 Hnf. rewrite Hf' in Hnf. rewrite Hpat in Hpg0. rewrite Hacc'.
    destruct (decide (f0 = f)) as [->|Hne].
    + injection Hpg0 as <-. destruct (inv_used _ _ _ Hinv f pg Hpg Hnf) as (H1 & _ & _).
      split; [exact H1|]. apply Hused. exact Hnf.
    + rewrite Hev' by assumption. apply (inv_used _ _ _ Hinv); assumption.
  - intros f0 Hf0. rewrite Hacc' in Hf0. rewrite Hf', Hpat.
    destruct (inv_tracked _ _ _ Hinv f0 Hf0) as [H1 H2]. split; [|exact H2].
    destruct (decide (f0 = f)); [eauto | exact H1].
  - rewrite Ht'. exact (inv_bucket _ _ _ Hinv).
Qed.

(** A change of the buffer or of the dirty flag alone. *)
Lemma inv_set_content s f pg d dirty dk :
  inv s → page_at s f = Some pg →
  inv (set_page (set_disk s dk) f (mkPage d (page_id_ pg) (pin_count_ pg) dirty)).
Proof.
  intros Hinv Hpg.
  apply (inv_update s _ f pg (mkPage d (page_id_ pg) (pin_count_ pg) dirty));
    try assumption; try reflexivity.
  - apply Hinv.
  - cbn. intros Hin. destruct (inv_free _ _ _ Hinv f Hin) as (pg0 & H1 & H2). congruence.
  - cbn. intros Hnf. destruct (inv_used _ _ _ Hinv f pg Hpg Hnf) as (_ & H1 & H2). auto.
Qed.

Lemma write_data_inv s f d s' : inv s → write_data f d s = Some s' → inv s'.
Proof.
  intros Hinv. unfold write_data. destruct (page_at s f) as [pg|] eqn:Hpg; [|discriminate].
  intros [= <-]. apply (inv_set_content s f pg d (is_dirty_ pg) (disk_ s) Hinv Hpg).
Qed.

Lemma FlushPgImp_spec p s :
  inv s →
  match FlushPgImp hash p s with
  | Ret _ s' => inv s'
  | Throw _ | Undef | Timeout => False
  end.
Proof.
  intros Hinv. unfold FlushPgImp. destruct (p =? INVALID_PAGE_ID)%Z; [exact Hinv|].
  destruct (Find (page_table_ s) p) as [f|] eqn:HFind; [|exact Hinv].
  destruct (inv_resident _ _ _ Hinv p f HFind) as (pg & Hpg & _). rewrite Hpg.
  apply (inv_set_content s f pg (data_ pg) false _ Hinv Hpg).
Qed.

(** *** [UnpinPgImp] *)

Lemma UnpinPgImp_spec p d s :
  inv s →
  match UnpinPgImp hash p d s with
  | Ret false s' =>
      s' = s ∧
      (Find (page_table_ s) p = None ∨
       ∃ f pg, Find (page_table_ s) p = Some f ∧ page_at s f = Some pg ∧
               pin_count_ pg = 0%Z)
  | Ret true s' =>
      inv s' ∧
      ∃ f pg, Find (page_table_ s) p = Some f ∧ page_at s f = Some pg ∧
              (0 < pin_count_ pg)%Z ∧
              page_at s' f = Some (mkPage (data_ pg) (page_id_ pg) (pin_count_ pg - 1)%Z
                                          (if d then true else is_dirty_ pg)) ∧
              (∀ f', f' ≠ f → page_at s' f' = page_at s f') ∧
              page_table_ s' = page_table_ s ∧ free_list_ s' = free_list_ s ∧
              next_page_id_ s' = next_page_id_ s ∧ disk_ s' = disk_ s ∧
              LRUK.is_evictable (replacer_ s) f = false ∧
              LRUK.is_evictable (replacer_ s') f = bool_decide (pin_count_ pg - 1 = 0)%Z ∧
              (∀ f', f' ≠ f → LRUK.is_evictable (replacer_ s') f'
                              = LRUK.is_evictable (replacer_ s) f') ∧
              (∀ f', LRUK.access_count (replacer_ s') f'
                     = LRUK.access_count (replacer_ s) f') ∧
              ((pin_count_ pg - 1)%Z ≠ 0%Z → replacer_ s' = replacer_ s)
  | Throw _ | Undef | Timeout => False
  end.
Proof.
  intros Hinv. unfold UnpinPgImp.
  destruct (Find (page_table_ s) p) as [f|] eqn:HFind; [|auto].
  destruct (inv_resident _ _ _ Hinv p f HFind) as (pg & Hpg & Hpid & Hnfree).
  destruct (inv_used _ _ _ Hinv f pg Hpg Hnfree) as (Htr & Hge & Hiff).
  rewrite Hpg. destruct (Z.leb_spec (pin_count_ pg) 0) as [Hle|Hgt].
  { split; [reflexivity|]. right. exists f, pg. repeat split; try assumption. lia. }
  assert (Hev0 : LRUK.is_evictable (replacer_ s) f = false).
  { destruct (LRUK.is_evictable (replacer_ s) f); [|reflexivity].
    assert (pin_count_ pg = 0%Z) by (apply Hiff; reflexivity). lia. }
  set (pg' := mkPage (data_ pg) (page_id_ pg) (pin_count_ pg - 1)%Z
                     (if d then true else is_dirty_ pg)).
  assert (Hpat : ∀ s0, pages_ s0 = pages_ (set_page s f pg') →
            page_at s0 f = Some pg' ∧ ∀ f', f' ≠ f → page_at s0 f' = page_at s f').
  { intros s0 Hs0.
    assert (Heq : ∀ f0, page_at s0 f0 = page_at (set_page s f pg') f0)
      by (intros f0; unfold page_at; rewrite Hs0; reflexivity).
    split; [|intros f' Hne]; rewrite Heq, page_at_set_page by eauto;
      [rewrite decide_True by reflexivity | rewrite decide_False by assumption];
      reflexivity. }
  cbn [pin_count_ pg'].
  destruct (Z.eqb_spec (pin_count_ pg - 1) 0) as [Hz|Hnz].
  - change (replacer_ (set_page s f pg')) with (replacer_ s).
    pose proof (valid_frame (replacer_ s) s f (inv_size _ _ _ Hinv) (inv_small _ _ _ Hinv)
                  ltac:(eauto)) as Hvalid.
    pose proof (LRUK_Facts.SetEvictable_cases f true (replacer_ s)
                  (inv_replacer _ _ _ Hinv)) as H2.
    destruct (LRUK.SetEvictable f true (replacer_ s)) as [[] r2|r2| |]; cbn [on_replacer].
    2:{ destruct H2 as [_ H2]. congruence. }
    2:{ destruct H2. }
    2:{ destruct H2. }
    destruct H2 as (_ & Hwf2 & Hacc2 & _ & _ & Hrs2 & Hk2 & Hev2).
    assert (Hevf : ∀ f', LRUK.is_evictable r2 f' =
              if decide (f' = f) then true else LRUK.is_evictable (replacer_ s) f').
    { intros f'. rewrite Hev2. destruct (decide (f' = f)) as [->|]; [|reflexivity].
      destruct (Nat.eqb_spec (LRUK.access_count (replacer_ s) f) 0); [lia | reflexivity]. }
    assert (Haccf : ∀ f', LRUK.access_count r2 f' = LRUK.access_count (replacer_ s) f').
    { intros f'. unfold LRUK.access_count. rewrite Hacc2. reflexivity. }
    destruct (Hpat (set_replacer (set_page s f pg') r2) eq_refl) as [Hp1 Hp2].
    split.
    + apply (inv_update s _ f pg pg'); try assumption; try reflexivity.
      * intros f0 Hne. cbn. rewrite Hevf, decide_False by assumption. reflexivity.
      * intros Hin. contradiction.
      * intros _. cbn. split; [lia|]. rewrite Hevf, decide_True by reflexivity.
        split; auto.
    + exists f, pg. splits; try assumption; try reflexivity.
      * cbn. rewrite Hevf, decide_True by reflexivity. symmetry.
        apply bool_decide_eq_true. exact Hz.
      * intros f' Hne. cbn. rewrite Hevf, decide_False by assumption. reflexivity.
      * intros Hc. contradiction.
  - destruct (Hpat (set_page s f pg') eq_refl) as [Hp1 Hp2].
    split.
    + apply (inv_update s _ f pg pg'); try assumption; try reflexivity.
      * apply Hinv.
      * intros Hin. contradiction.
      * intros _. cbn. split; [lia|]. rewrite Hev0. split; [discriminate | lia].
    + exists f, pg. splits; try assumption; try reflexivity.
      cbn. rewrite Hev0. symmetry. apply bool_decide_eq_false. exact Hnz.
Qed.

(** *** [DeletePgImp] *)

Lemma DeletePgImp_spec p s :
  inv s →
  match DeletePgImp zero hash p s with
  | Ret b s' =>
      (Find (page_table_ s) p = None ∧ b = true ∧ s' = s) ∨
      (∃ f pg, Find (page_table_ s) p = Some f ∧ page_at s f = Some pg ∧
               (0 < pin_count_ pg)%Z ∧ b = false ∧ s' = s) ∨
      (∃ f pg, Find (page_table_ s) p = Some f ∧ page_at s f = Some pg ∧
               pin_count_ pg = 0%Z ∧ b = true ∧ inv s' ∧
               (∀ q, Find (page_table_ s') q
                     = if decide (q = p) then None else Find (page_table_ s) q) ∧
               LRUK.is_evictable (replacer_ s) f = true ∧
               LRUK.access_count (replacer_ s') f = 0 ∧
               LRUK.is_evictable (replacer_ s') f = false ∧
               (f ∉ LRUK.outer_list_ (replacer_ s')) ∧
               (f ∉ LRUK.pool_cache_list_ (replacer_ s')) ∧
               LRUK.Size (replacer_ s') = LRUK.Size (replacer_ s) - 1 ∧
               free_list_ s' = free_list_ s ++ [f] ∧
               page_at s' f = Some (mkPage zero INVALID_PAGE_ID 0 false) ∧
               (∀ f', f' ≠ f → page_at s' f' = page_at s f') ∧
               next_page_id_ s' = next_page_id_ s ∧
               disk_ s' = DeallocatePage p (disk_ s))
  | Throw _ | Undef | Timeout => False
  end.
Proof.
  intros Hinv. unfold DeletePgImp.
  destruct (Find (page_table_ s) p) as [f|] eqn:HFind; [|auto].
  destruct (inv_resident _ _ _ Hinv p f HFind) as (pg & Hpg & Hpid & Hnfree).
  destruct (inv_used _ _ _ Hinv f pg Hpg Hnfree) as (Htr & Hge & Hiff).
  rewrite Hpg. destruct (Z.ltb_spec 0 (pin_count_ pg)) as [Hgt|Hle].
  { right. left. exists f, pg. auto. }
  assert (Hpin : pin_count_ pg = 0%Z) by lia.
  assert (Hev : LRUK.is_evictable (replacer_ s) f = true) by (apply Hiff; exact Hpin).
  change (replacer_ (set_table s (EHT.Remove hash (page_table_ s) p).2)) with (replacer_ s).
  pose proof (LRUK_Facts.Remove_cases f (replacer_ s) (inv_replacer _ _ _ Hinv)) as HR.
  destruct (LRUK.Remove f (replacer_ s)) as [[] r2|r2| |]; cbn [on_replacer].
  2:{ destruct HR as [_ [HR|[_ HR]]]; [|congruence].
      rewrite (valid_frame (replacer_ s) s f (inv_size _ _ _ Hinv) (inv_small _ _ _ Hinv))
        in HR by eauto. discriminate. }
  2:{ destruct HR. }
  2:{ destruct HR. }
  destruct HR as (_ & Hwf2 & Hrs2 & Hk2 & [[HR _]|(_ & _ & Hacc2 & Hevm2 & Hcs2)]); [lia|].
  set (t' := (EHT.Remove hash (page_table_ s) p).2).
  set (s' := set_disk _ _).
  assert (HFind' : ∀ q, Find t' q = if decide (q = p) then None else Find (page_table_ s) q).
  { intros q. apply EHT_Facts.Remove_find. apply Hinv. }
  assert (Hpat : ∀ f0, page_at s' f0 =
            if decide (f0 = f) then Some (mkPage zero INVALID_PAGE_ID 0 false)
            else page_at s f0).
  { intros f0. unfold s'.
    change (page_at (set_disk ?x _) f0) with (page_at x f0).
    rewrite page_at_set_page by (change (is_Some (page_at s f)); eauto). reflexivity. }
  assert (Haccf : ∀ f0, LRUK.access_count r2 f0 =
            if decide (f0 = f) then 0 else LRUK.access_count (replacer_ s) f0).
  { intros f0. apply LRUK_Facts.access_count_delete. exact Hacc2. }
  assert (Hevf : ∀ f0, LRUK.is_evictable r2 f0 =
            if decide (f0 = f) then false else LRUK.is_evictable (replacer_ s) f0).
  { intros f0. apply LRUK_Facts.is_evictable_delete. exact Hevm2. }
  assert (Hacc0 : LRUK.access_count r2 f = 0)
    by (rewrite Haccf, decide_True; reflexivity).
  right. right. exists f, pg. splits; try assumption; try reflexivity.
  - split.
    + exact Hwf2.
    + apply EHT_Facts.Remove_wf. apply Hinv.
    + cbn. rewrite length_insert, Hrs2. apply Hinv.
    + cbn. rewrite length_insert. apply Hinv.
    + cbn. rewrite Hk2. intros Hk1 f0. rewrite Haccf.
      destruct (decide (f0 = f)); [reflexivity | apply (inv_k _ _ _ Hinv Hk1)].
    + intros q f0 Hq. change (page_table_ s') with t' in Hq. rewrite HFind' in Hq.
      destruct (decide (q = p)) as [->|Hne]; [discriminate|].
      destruct (inv_resident _ _ _ Hinv q f0 Hq) as (pg0 & H1 & H2 & H3).
      assert (f0 ≠ f) by (intros ->; rewrite Hpg in H1; injection H1 as <-; congruence).
      exists pg0. rewrite Hpat, decide_False by assumption. splits; try assumption.
      cbn. rewrite elem_of_app, list_elem_of_singleton. tauto.
    + cbn. apply NoDup_app. split; [apply Hinv|]. split; [|apply NoDup_singleton].
      intros x Hx Hx'. apply list_elem_of_singleton in Hx'. congruence.
    + intros f0 Hin. cbn in Hin. rewrite Hpat.
      destruct (decide (f0 = f)) as [->|Hne]; [eauto|].
      apply elem_of_app in Hin as [Hin|Hin];
        [apply (inv_free _ _ _ Hinv); exact Hin|].
      apply list_elem_of_singleton in Hin. contradiction.
    + intros f0 pg0 Hpg0 Hnf. cbn in Hnf. rewrite elem_of_app, list_elem_of_singleton in Hnf.
      assert (f0 ≠ f) by tauto. rewrite Hpat, decide_False in Hpg0 by assumption.
      cbn. rewrite Haccf, Hevf, !decide_False by assumption.
      apply (inv_used _ _ _ Hinv); [assumption | tauto].
    + intros f0 Hf0. cbn in Hf0. rewrite Haccf in Hf0.
      destruct (decide (f0 = f)) as [|Hne]; [lia|].
      destruct (inv_tracked _ _ _ Hinv f0 Hf0) as [H1 H2]. rewrite Hpat.
      rewrite decide_False by assumption. split; [exact H1|].
      cbn. rewrite elem_of_app, list_elem_of_singleton. tauto.
    + cbn. fold t'. unfold t'. rewrite EHT_Facts.Remove_bucket_size.
      exact (inv_bucket _ _ _ Hinv).
  - cbn. rewrite Hevf, decide_True; reflexivity.
  - cbn. rewrite (LRUK.wf_outer _ Hwf2). lia.
  - cbn. rewrite (LRUK.wf_cache _ Hwf2). lia.
  - rewrite Hpat, decide_True; reflexivity.
  - intros f' Hne. rewrite Hpat, decide_False by assumption. reflexivity.
Qed.

(** *** Reachable pools *)

Lemma exec_inv c s s' : inv s → exec zero hash c s = Some s' → inv s'.
Proof.
  intros Hinv. destruct c as [fuel|fuel p|p d|p| |p|f d]; cbn [exec].
  - pose proof (NewPgImp_spec fuel s Hinv) as H.
    destruct (NewPgImp zero hash fuel s) as [[[pid f]|] s0|s0| |]; cbn;
      intros [= <-]; [apply H | destruct H as [-> _]; exact Hinv | destruct H].
  - pose proof (FetchPgImp_spec fuel p s Hinv) as H.
    destruct (FetchPgImp zero hash fuel p s) as [[f|] s0|s0| |]; cbn;
      intros [= <-]; [apply H | destruct H as [-> _]; exact Hinv | destruct H].
  - pose proof (UnpinPgImp_spec p d s Hinv) as H.
    destruct (UnpinPgImp hash p d s) as [[|] s0|s0| |]; cbn;
      intros [= <-]; [apply H | destruct H as [-> _]; exact Hinv | destruct H].
  - pose proof (FlushPgImp_spec p s Hinv) as H.
    destruct (FlushPgImp hash p s) as [b s0|s0| |]; cbn;
      intros [= <-]; [exact H | destruct H].
  - unfold FlushAllPgsImp. destruct (pages_ s); cbn; intros [= <-]. exact Hinv.
  - pose proof (DeletePgImp_spec p s Hinv) as H.
    destruct (DeletePgImp zero hash p s) as [b s0|s0| |]; cbn;
      intros [= <-]; [|destruct H].
    destruct H as [(_ & _ & ->)|[(f & pg & _ & _ & _ & _ & ->)|(f & pg & _ & _ & _ & _ & H & _)]];
      assumption.
  - apply write_data_inv. exact Hinv.
Qed.

Lemma reachable_inv s : reachable zero hash bucket_size s → inv s.
Proof.
  induction 1 as [n k dk Hn | c s s' _ IH He].
  - apply inv_init; assumption.
  - eapply exec_inv; eassumption.
Qed.

Lemma run_reachable cs : ∀ s s',
  reachable zero hash bucket_size s → run zero hash cs s = Some s' →
  reachable zero hash bucket_size s'.
Proof.
  induction cs as [|c cs IH]; cbn; intros s s' Hr.
  - intros [= <-]. exact Hr.
  - destruct (exec zero hash c s) as [s1|] eqn:He; [|discriminate].
    apply IH. eapply reach_exec; eassumption.
Qed.

(** With [K = 1] a call that has to take a frame, and has one to take, is
    undefined. *)
Lemma take_frame_undefined_for_k1 s :
  inv s → LRUK.k_ (replacer_ s) = 1 → all_pinned s = false →
  (∀ fuel, NewPgImp zero hash fuel s = Undef) ∧
  (∀ fuel p, Find (page_table_ s) p = None → FetchPgImp zero hash fuel p s = Undef).
Proof.
  intros Hinv Hk Hnp. split.
  - intros fuel. pose proof (NewPgImp_spec fuel s Hinv) as H.
    destruct (NewPgImp zero hash fuel s) as [[[pid f]|] s'|s'| |];
      try (destruct H; fail); try reflexivity.
    + destruct H as (_ & _ & _ & _ & _ & _ & _ & _ & H). contradiction.
    + destruct H as [_ H]. congruence.
    + destruct H as (_ & H & _). contradiction.
  - intros fuel p HF. pose proof (FetchPgImp_spec fuel p s Hinv) as H.
    destruct (FetchPgImp zero hash fuel p s) as [[f|] s'|s'| |];
      try (destruct H; fail); try reflexivity.
    + destruct H as (_ & _ & _ & _ & [(HF' & _)|(_ & _ & _ & _ & H)]);
        [congruence | contradiction].
    + destruct H as (_ & _ & H). congruence.
    + destruct H as (_ & _ & H & _). contradiction.
Qed.

(** *** The claims on the buffer pool *)

(** X19. In every reachable pool: [NewPgImp] returns [nullptr] exactly when
    every frame is pinned, and [FetchPgImp p] exactly when [p] is not
    resident and every frame is pinned.  A page that is returned is pinned:
    its pin count is 1 for a new page and after a miss, one more than before
    after a hit; its access is recorded in the replacer (one more access for
    the frame on a hit, the first access of a fresh history otherwise); and
    its frame is not evictable.  [FetchPgImp] of a resident page returns it.
    When a frame has to be taken and some frame is unpinned, the call
    returns a page if the replacer's [K] is not 1, given [S D] iterations
    for the page table when the hash tells the page id apart from the
    resident ones within [D] bits, [D] at most 30. *)
Theorem new_and_fetch_page s :
  reachable zero hash bucket_size s →
  (∀ fuel, (∃ s', NewPgImp zero hash fuel s = Ret None s') ↔ every_frame_pinned s) ∧
  (∀ fuel pid f s', NewPgImp zero hash fuel s = Ret (Some (pid, f)) s' →
     page_at s' f = Some (mkPage zero pid 1 false) ∧
     LRUK.access_count (replacer_ s') f = 1 ∧
     LRUK.is_evictable (replacer_ s') f = false) ∧
  (∀ D, 1 ≤ bucket_size → D ≤ 30 → LRUK.k_ (replacer_ s) ≠ 1 →
     told_apart hash D s (next_page_id_ s) →
     ¬ every_frame_pinned s →
     ∃ r s', NewPgImp zero hash (S D) s = Ret (Some r) s') ∧
  (∀ fuel p, (∃ s', FetchPgImp zero hash fuel p s = Ret None s') ↔
             Find (page_table_ s) p = None ∧ every_frame_pinned s) ∧
  (∀ fuel p f s', FetchPgImp zero hash fuel p s = Ret (Some f) s' →
     LRUK.is_evictable (replacer_ s') f = false ∧
     match Find (page_table_ s) p with
     | Some f0 =>
         f = f0 ∧
         ∃ pg, page_at s f = Some pg ∧
               page_at s' f = Some (mkPage (data_ pg) p (pin_count_ pg + 1)%Z
                                           (is_dirty_ pg)) ∧
               LRUK.access_count (replacer_ s') f
               = S (LRUK.access_count (replacer_ s) f)
     | None =>
         page_at s' f = Some (mkPage (ReadPage zero p (disk_ s')) p 1 false) ∧
         LRUK.access_count (replacer_ s') f = 1
     end) ∧
  (∀ fuel p, is_Some (Find (page_table_ s) p) →
     ∃ f s', FetchPgImp zero hash fuel p s = Ret (Some f) s') ∧
  (∀ D p, 1 ≤ bucket_size → D ≤ 30 → LRUK.k_ (replacer_ s) ≠ 1 →
     told_apart hash D s p → ¬ every_frame_pinned s →
     ∃ f s', FetchPgImp zero hash (S D) p s = Ret (Some f) s').
Proof.
  intros Hr. pose proof (reachable_inv s Hr) as Hinv.
  assert (Hpinned : all_pinned s = true ↔ every_frame_pinned s) by apply all_pinned_true.
  assert (Hunpinned : ¬ every_frame_pinned s → all_pinned s = false).
  { intros Hn. destruct (all_pinned s) eqn:Ha; [|reflexivity].
    exfalso. apply Hn, Hpinned. reflexivity. }
  splits.
  - intros fuel. pose proof (NewPgImp_spec fuel s Hinv) as H. split.
    + intros [s' Hs']. rewrite Hs' in H. apply Hpinned, H.
    + intros Hp. apply Hpinned in Hp. exists s. unfold NewPgImp. rewrite Hp. reflexivity.
  - intros fuel pid f s' Hs'. pose proof (NewPgImp_spec fuel s Hinv) as H.
    rewrite Hs' in H. destruct H as (_ & _ & _ & _ & H1 & H2 & H3 & _). auto.
  - intros D Hbs HD Hk Hapart Hnp. apply Hunpinned in Hnp.
    pose proof (NewPgImp_spec (S D) s Hinv) as H.
    destruct (NewPgImp zero hash (S D) s) as [[r|] s'|s'| |]; try (destruct H; fail).
    + eauto.
    + destruct H as [_ H]. congruence.
    + destruct H as [_ H]. contradiction.
    + destruct H as (_ & _ & t & f & Hwft & Hbst & Hsub & Hnone).
      destruct (EHT_Facts.Insert_returns hash D t (next_page_id_ s) f Hwft
                  ltac:(lia) HD) as [t' Ht'].
      * intros q Hq. apply Hapart, Hsub, Hq.
      * congruence.
  - intros fuel p. pose proof (FetchPgImp_spec fuel p s Hinv) as H. split.
    + intros [s' Hs']. rewrite Hs' in H. destruct H as (_ & H1 & H2).
      split; [exact H1 | apply Hpinned, H2].
    + intros [Hf Hp]. apply Hpinned in Hp. exists s. unfold FetchPgImp.
      rewrite Hf, Hp. reflexivity.
  - intros fuel p f s' Hs'. pose proof (FetchPgImp_spec fuel p s Hinv) as H.
    rewrite Hs' in H. destruct H as (_ & _ & Hev & _ & Hcase). split; [exact Hev|].
    destruct Hcase as [(HF & (pg & Hpg & Hpid & Hpg' & _) & Hacc & _)
                      |(HF & _ & Hpg' & Hacc & _)];
      rewrite HF.
    + split; [reflexivity|]. exists pg. auto.
    + auto.
  - intros fuel p [f0 Hres].
    pose proof (FetchPgImp_spec fuel p s Hinv) as H.
    destruct (FetchPgImp zero hash fuel p s) as [[f|] s'|s'| |]; try (destruct H; fail).
    + eauto.
    + destruct H as (_ & HF & _). congruence.
    + destruct H as (HF & _). congruence.
    + destruct H as (HF & _). congruence.
  - intros D p Hbs HD Hk Hapart Hnp. apply Hunpinned in Hnp.
    pose proof (FetchPgImp_spec (S D) p s Hinv) as H.
    destruct (FetchPgImp zero hash (S D) p s) as [[f|] s'|s'| |]; try (destruct H; fail).
    + eauto.
    + destruct H as (_ & HF & Hp). congruence.
    + destruct H as (_ & _ & H). contradiction.
    + destruct H as (_ & _ & _ & t & f & Hwft & Hbst & Hsub & Hnone).
      destruct (EHT_Facts.Insert_returns hash D t p f Hwft ltac:(lia) HD) as [t' Ht'].
      * intros q Hq. apply Hapart, Hsub, Hq.
      * congruence.
Qed.

(** C5. In every reachable pool, [UnpinPgImp p is_dirty] returns false and
    changes nothing when [p] is not resident or its pin count is zero.
    Otherwise it returns true, lowers the pin count of the page by one, sets
    the dirty flag when [is_dirty] holds and keeps it as it was when not,
    and leaves the frame evictable in the replacer exactly when the pin
    count has reached zero (it was not evictable before, and no other frame
    changes). *)
Theorem unpin_page p is_dirty s :
  reachable zero hash bucket_size s →
  ((Find (page_table_ s) p = None ∨
    ∃ f pg, Find (page_table_ s) p = Some f ∧ page_at s f = Some pg ∧
            (pin_count_ pg ≤ 0)%Z) →
   UnpinPgImp hash p is_dirty s = Ret false s) ∧
  (∀ f pg, Find (page_table_ s) p = Some f → page_at s f = Some pg →
     (0 < pin_count_ pg)%Z →
     ∃ s', UnpinPgImp hash p is_dirty s = Ret true s' ∧
           page_at s' f = Some (mkPage (data_ pg) (page_id_ pg) (pin_count_ pg - 1)%Z
                                       (if is_dirty then true else is_dirty_ pg)) ∧
           LRUK.is_evictable (replacer_ s) f = false ∧
           LRUK.is_evictable (replacer_ s') f = bool_decide (pin_count_ pg - 1 = 0)%Z ∧
           (∀ f', f' ≠ f →
              page_at s' f' = page_at s f' ∧
              LRUK.is_evictable (replacer_ s') f' = LRUK.is_evictable (replacer_ s) f') ∧
           page_table_ s' = page_table_ s ∧ free_list_ s' = free_list_ s ∧
           disk_ s' = disk_ s).
Proof.
  intros Hr. pose proof (reachable_inv s Hr) as Hinv. split.
  - intros [HF|(f & pg & HF & Hpg & Hpin)]; unfold UnpinPgImp; rewrite HF; [reflexivity|].
    rewrite Hpg. rewrite (proj2 (Z.leb_le _ _) Hpin). reflexivity.
  - intros f pg HF Hpg Hpin. pose proof (UnpinPgImp_spec p is_dirty s Hinv) as H.
    destruct (UnpinPgImp hash p is_dirty s) as [[|] s'|s'| |]; try (destruct H; fail).
    + destruct H as (_ & f0 & pg0 & HF0 & Hpg0 & _ & Hpg' & Hoth & Ht & Hfl & _ & Hdk &
                     Hev0 & Hev' & Hevo & _).
      assert (f0 = f) as -> by congruence. assert (pg0 = pg) as -> by congruence.
      exists s'. splits; auto.
    + destruct H as (_ & [HF0|(f0 & pg0 & HF0 & Hpg0 & Hz)]); [congruence|].
      assert (f0 = f) as -> by congruence. assert (pg0 = pg) as -> by congruence. lia.
Qed.


(** *** Further properties of the buffer pool *)

(** Where [take_frame] gets its frame: the front of the free list, and the
    replacer only when the free list is empty. *)
Lemma take_frame_choice s f s1 :
  take_frame s = Ret (Some f) s1 →
  (free_list_ s = f :: free_list_ s1 ∧ replacer_ s1 = replacer_ s) ∨
  (free_list_ s = [] ∧ free_list_ s1 = [] ∧
   LRUK.Evict (replacer_ s) = Ret (Some f) (replacer_ s1)).
Proof.
  unfold take_frame. destruct (free_list_ s) as [|f0 rest] eqn:Hfl.
  - destruct (LRUK.Evict (replacer_ s)) as [[v|] r1|r1| |]; cbn; try discriminate.
    intros [= <- <-]. right. cbn. rewrite Hfl. auto.
  - intros [= <- <-]. left. cbn. auto.
Qed.

Local Abbreviation reused := (BPM.reused hash).

Lemma NewPgImp_reuse fuel s pid f s' :
  inv s → NewPgImp zero hash fuel s = Ret (Some (pid, f)) s' → reused s s' pid f.
Proof.
  intros Hinv. unfold NewPgImp.
  destruct (all_pinned s) eqn:Hap; [discriminate|].
  destruct (take_frame_spec s Hinv Hap)
    as (f0 & s1 & pg & Htake & Hl1 & Hpg & Hpin & Hp1 & Ht1 & Hd1 & Hn1).
  rewrite Htake.
  assert (Hpg1 : page_at s1 f0 = Some pg) by (unfold page_at in *; rewrite Hp1; exact Hpg).
  rewrite Hpg1.
  destruct (retire_spec f0 s1 pg Hl1 Hpg1)
    as (Hl2 & Hnone2 & Hpg2 & Hoth2 & HF2 & Hr2 & Hfl2 & Hn2 & Hd2).
  set (s2 := retire hash s1 f0 pg) in *.
  set (pid0 := next_page_id_ s2).
  change (page_at (set_next s2 (pid0 + 1)%Z) f0) with (page_at s2 f0). rewrite Hpg2.
  cbn [pin_count_ is_dirty_]. rewrite Hpin. change (0 + 1)%Z with 1%Z.
  set (s4 := set_page (set_next s2 (pid0 + 1)%Z) f0 (mkPage zero pid0 1 false)).
  assert (Hl4 : inv_limbo f0 s4).
  { apply limbo_set_page; [apply limbo_set_next; exact Hl2 | exact Hnone2]. }
  assert (Hpg4 : page_at s4 f0 = Some (mkPage zero pid0 1 false)).
  { unfold s4. rewrite page_at_set_page by (cbn; eauto). rewrite decide_True; reflexivity. }
  pose proof (publish_spec fuel s4 pid0 f0 (pid0, f0) _ Hl4 Hnone2 Hpg4 eq_refl eq_refl) as Hpub.
  destruct (publish hash fuel s4 pid0 f0 (pid0, f0)) as [r s0|?| |]; try discriminate.
  destruct Hpub as (-> & Hinv' & Hins & Hp' & Hf' & Hn' & Hd' & _).
  intros [= <- <- <-]. exists pg. splits.
  - exact Hpg.
  - exact Hpin.
  - rewrite Hd'. change (disk_ s4) with (disk_ s2). rewrite Hd2, Hd1. reflexivity.
  - intros f' Hne. unfold page_at at 1. rewrite Hp'. fold (page_at s4 f').
    unfold s4. rewrite page_at_set_page by (cbn; eauto). rewrite decide_False by exact Hne.
    change (page_at (set_next s2 (pid0 + 1)%Z) f') with (page_at s2 f').
    rewrite Hoth2 by exact Hne. unfold page_at. rewrite Hp1. reflexivity.
  - intros q.
    rewrite (EHT_Facts.Insert_Find hash fuel _ _ _ _ q (limbo_table _ _ _ _ Hl4) Hins).
    destruct (decide (q = pid0)); [reflexivity|].
    change (page_table_ s4) with (page_table_ s2). rewrite HF2, Ht1. reflexivity.
  - rewrite Hf'. change (free_list_ s4) with (free_list_ s2). rewrite Hfl2.
    destruct (take_frame_choice s f0 s1 Htake) as [[Hfl _]|(Hfl & Hfl1 & HE)]; [left; exact Hfl|].
    right. split; [exact Hfl|]. split; [exact Hfl1|].
    pose proof (LRUK_Facts.Evict_cases (replacer_ s) (inv_replacer _ _ _ Hinv)) as Hc.
    rewrite HE in Hc. split; [apply Hc | eauto].
Qed.

Lemma FetchPgImp_reuse fuel p s f s' :
  inv s → Find (page_table_ s) p = None →
  FetchPgImp zero hash fuel p s = Ret (Some f) s' → reused s s' p f.
Proof.
  intros Hinv HFind. unfold FetchPgImp. rewrite HFind.
  destruct (all_pinned s) eqn:Hap; [discriminate|].
  destruct (take_frame_spec s Hinv Hap)
    as (f0 & s1 & pg & Htake & Hl1 & Hpg & Hpin & Hp1 & Ht1 & Hd1 & Hn1).
  rewrite Htake.
  assert (Hpg1 : page_at s1 f0 = Some pg) by (unfold page_at in *; rewrite Hp1; exact Hpg).
  rewrite Hpg1.
  destruct (retire_spec f0 s1 pg Hl1 Hpg1)
    as (Hl2 & Hnone2 & Hpg2 & Hoth2 & HF2 & Hr2 & Hfl2 & Hn2 & Hd2).
  set (s2 := retire hash s1 f0 pg) in *.
  rewrite Hpg2. cbn [pin_count_ is_dirty_]. rewrite Hpin. change (0 + 1)%Z with 1%Z.
  set (pg3 := mkPage (ReadPage zero p (disk_ s2)) p 1 false).
  set (s3 := set_page s2 f0 pg3).
  assert (Hl3 : inv_limbo f0 s3) by (apply limbo_set_page; assumption).
  assert (Hpg3 : page_at s3 f0 = Some pg3).
  { unfold s3. rewrite page_at_set_page by (rewrite Hpg2; eauto).
    rewrite decide_True; reflexivity. }
  pose proof (publish_spec fuel s3 p f0 f0 _ Hl3 Hnone2 Hpg3 eq_refl eq_refl) as Hpub.
  destruct (publish hash fuel s3 p f0 f0) as [r s0|?| |]; try discriminate.
  destruct Hpub as (-> & Hinv' & Hins & Hp' & Hf' & Hn' & Hd' & _).
  intros [= <- <-]. exists pg. splits.
  - exact Hpg.
  - exact Hpin.
  - rewrite Hd'. change (disk_ s3) with (disk_ s2). rewrite Hd2, Hd1. reflexivity.
  - intros f' Hne. unfold page_at at 1. rewrite Hp'. fold (page_at s3 f').
    unfold s3. rewrite page_at_set_page by (rewrite Hpg2; eauto).
    rewrite decide_False by exact Hne.
    rewrite Hoth2 by exact Hne. unfold page_at. rewrite Hp1. reflexivity.
  - intros q.
    rewrite (EHT_Facts.Insert_Find hash fuel _ _ _ _ q (limbo_table _ _ _ _ Hl3) Hins).
    destruct (decide (q = p)); [reflexivity|].
    change (page_table_ s3) with (page_table_ s2). rewrite HF2, Ht1. reflexivity.
  - rewrite Hf'. change (free_list_ s3) with (free_list_ s2). rewrite Hfl2.
    destruct (take_frame_choice s f0 s1 Htake) as [[Hfl _]|(Hfl & Hfl1 & HE)]; [left; exact Hfl|].
    right. split; [exact Hfl|]. split; [exact Hfl1|].
    pose proof (LRUK_Facts.Evict_cases (replacer_ s) (inv_replacer _ _ _ Hinv)) as Hc.
    rewrite HE in Hc. split; [apply Hc | eauto].
Qed.


(** X16. In every reachable pool [FlushPgImp p] returns false and changes
    nothing when [p] is the invalid page id or is not resident.  Otherwise it
    returns true, writes the buffer of the page to disk whether the page is
    dirty or not, clears the dirty flag, and changes nothing else: not the
    buffer, the pin count, any other frame, the page table, the replacer or
    the free list. *)
Theorem flush_page p s :
  reachable zero hash bucket_size s →
  (p = INVALID_PAGE_ID ∨ Find (page_table_ s) p = None →
   FlushPgImp hash p s = Ret false s) ∧
  (∀ f, p ≠ INVALID_PAGE_ID → Find (page_table_ s) p = Some f →
   ∃ pg s', page_at s f = Some pg ∧ FlushPgImp hash p s = Ret true s' ∧
            disk_ s' = WritePage p (data_ pg) (disk_ s) ∧
            page_at s' f = Some (mkPage (data_ pg) p (pin_count_ pg) false) ∧
            (∀ f', f' ≠ f → page_at s' f' = page_at s f') ∧
            page_table_ s' = page_table_ s ∧ replacer_ s' = replacer_ s ∧
            free_list_ s' = free_list_ s ∧ next_page_id_ s' = next_page_id_ s).
Proof.
  intros Hr. pose proof (reachable_inv s Hr) as Hinv. split.
  - unfold FlushPgImp. intros [-> | HF]; [reflexivity|].
    destruct (p =? INVALID_PAGE_ID)%Z; [reflexivity|]. rewrite HF. reflexivity.
  - intros f Hp HF. destruct (inv_resident _ _ _ Hinv p f HF) as (pg & Hpg & Hpid & _).
    unfold FlushPgImp. rewrite (proj2 (Z.eqb_neq _ _) Hp), HF, Hpg.
    exists pg. eexists. split; [reflexivity|]. split; [reflexivity|].
    assert (Hsome : is_Some (page_at (set_disk s (WritePage p (data_ pg) (disk_ s))) f))
      by (change (is_Some (page_at s f)); eauto).
    splits; try reflexivity.
    + rewrite page_at_set_page by exact Hsome. rewrite decide_True by reflexivity.
      rewrite Hpid. reflexivity.
    + intros f' Hne. rewrite page_at_set_page by exact Hsome.
      rewrite decide_False by exact Hne. reflexivity.
Qed.

(** X17. In every reachable pool: no pin count is negative; a resident page
    sits in a frame that holds its page id and is not on the free list, so no
    frame serves two resident page ids; the free list has no duplicates and
    its frames are unpinned and unknown to the replacer; a frame off the free
    list is evictable exactly when its pin count is zero; and the replacer
    was built for as many frames as the pool has. *)
Theorem pool_invariant s :
  reachable zero hash bucket_size s →
  (∀ f pg, page_at s f = Some pg → (0 ≤ pin_count_ pg)%Z) ∧
  (∀ p f, Find (page_table_ s) p = Some f →
     ∃ pg, page_at s f = Some pg ∧ page_id_ pg = p ∧ f ∉ free_list_ s) ∧
  (∀ p q f, Find (page_table_ s) p = Some f → Find (page_table_ s) q = Some f → p = q) ∧
  NoDup (free_list_ s) ∧
  (∀ f, f ∈ free_list_ s →
     ∃ pg, page_at s f = Some pg ∧ pin_count_ pg = 0%Z ∧
           LRUK.access_count (replacer_ s) f = 0 ∧
           LRUK.is_evictable (replacer_ s) f = false) ∧
  (∀ f pg, page_at s f = Some pg → f ∉ free_list_ s →
     (LRUK.is_evictable (replacer_ s) f = true ↔ pin_count_ pg = 0%Z)) ∧
  LRUK.replacer_size_ (replacer_ s) = pool_size_ s.
Proof.
  intros Hr. pose proof (reachable_inv s Hr) as Hinv. splits.
  - intros f pg Hpg. destruct (decide (f ∈ free_list_ s)) as [Hin|Hnin].
    + destruct (inv_free _ _ _ Hinv f Hin) as (pg' & Hpg' & Hz). 
      assert (pg' = pg) by congruence. subst. lia.
    + apply (inv_used _ _ _ Hinv f pg Hpg Hnin).
  - exact (inv_resident _ _ _ Hinv).
  - intros p q f Hp Hq.
    destruct (inv_resident _ _ _ Hinv p f Hp) as (pg & Hpg & Hpid & _).
    destruct (inv_resident _ _ _ Hinv q f Hq) as (pg' & Hpg' & Hpid' & _). congruence.
  - exact (inv_free_nodup _ _ _ Hinv).
  - intros f Hin. destruct (inv_free _ _ _ Hinv f Hin) as (pg & Hpg & Hz).
    assert (Hacc : LRUK.access_count (replacer_ s) f = 0).
    { destruct (LRUK.access_count (replacer_ s) f) eqn:Ha; [reflexivity|].
      destruct (inv_tracked _ _ _ Hinv f ltac:(lia)) as [_ Hn]. contradiction. }
    exists pg. splits; try assumption.
    destruct (LRUK.is_evictable (replacer_ s) f) eqn:Hev; [|reflexivity].
    pose proof (LRUK.wf_tracked _ (inv_replacer _ _ _ Hinv) f Hev). lia.
  - intros f pg Hpg Hnin. apply (inv_used _ _ _ Hinv f pg Hpg Hnin).
  - exact (inv_size _ _ _ Hinv).
Qed.

(** X18. The outcomes of the calls on a reachable pool.  [UnpinPgImp],
    [FlushPgImp] and [DeletePgImp] return.  [FlushAllPgsImp] returns on a
    pool without frames and is undefined on every other: it takes [latch_]
    and calls [FlushPgImp], which takes it again.  [NewPgImp] and
    [FetchPgImp] never get an exception from the replacer, which is never
    handed a frame id it rejects, and never index a frame outside the pool:
    they return; or the page table's [Insert] gives no table; or they are
    undefined, which they are exactly when the replacer has [K = 1], a
    frame has to be taken and some frame is not pinned. *)
Theorem call_outcomes s :
  reachable zero hash bucket_size s →
  (∀ p d, ∃ b s', UnpinPgImp hash p d s = Ret b s') ∧
  (∀ p, ∃ b s', FlushPgImp hash p s = Ret b s') ∧
  (∀ p, ∃ b s', DeletePgImp zero hash p s = Ret b s') ∧
  (pages_ s = [] → FlushAllPgsImp s = Ret tt s) ∧
  (pages_ s ≠ [] → FlushAllPgsImp s = Undef) ∧
  (∀ fuel, (∃ r s', NewPgImp zero hash fuel s = Ret r s') ∨
           (NewPgImp zero hash fuel s = Timeout ∧
            ∃ t f, EHT.wf hash t ∧
                   EHT.Insert hash fuel t (next_page_id_ s) f = None) ∨
           NewPgImp zero hash fuel s = Undef) ∧
  (∀ fuel, NewPgImp zero hash fuel s = Undef ↔
           LRUK.k_ (replacer_ s) = 1 ∧ ¬ every_frame_pinned s) ∧
  (∀ fuel p, (∃ r s', FetchPgImp zero hash fuel p s = Ret r s') ∨
             (FetchPgImp zero hash fuel p s = Timeout ∧
              ∃ t f, EHT.wf hash t ∧ EHT.Insert hash fuel t p f = None) ∨
             FetchPgImp zero hash fuel p s = Undef) ∧
  (∀ fuel p, FetchPgImp zero hash fuel p s = Undef ↔
             LRUK.k_ (replacer_ s) = 1 ∧ Find (page_table_ s) p = None ∧
             ¬ every_frame_pinned s).
Proof.
  intros Hr. pose proof (reachable_inv s Hr) as Hinv.
  assert (Hpinned : all_pinned s = false ↔ ¬ every_frame_pinned s).
  { pose proof (all_pinned_true s) as Ht. unfold every_frame_pinned.
    destruct (all_pinned s); split; try discriminate; try reflexivity.
    - intros Hn. exfalso. apply Hn, Ht. reflexivity.
    - intros _ Hall. apply Ht in Hall. discriminate. }
  splits.
  - intros p d. pose proof (UnpinPgImp_spec p d s Hinv) as H.
    destruct (UnpinPgImp hash p d s) as [r s'|s'| |]; try (destruct H; fail); eauto.
  - intros p. pose proof (FlushPgImp_spec p s Hinv) as H.
    destruct (FlushPgImp hash p s) as [r s'|s'| |]; try (destruct H; fail); eauto.
  - intros p. pose proof (DeletePgImp_spec p s Hinv) as H.
    destruct (DeletePgImp zero hash p s) as [r s'|s'| |]; try (destruct H; fail); eauto.
  - intros He. unfold FlushAllPgsImp. rewrite He. reflexivity.
  - intros Hne. unfold FlushAllPgsImp. destruct (pages_ s); [contradiction | reflexivity].
  - intros fuel. pose proof (NewPgImp_spec fuel s Hinv) as H.
    destruct (NewPgImp zero hash fuel s) as [r s'|s'| |]; try (destruct H; fail); eauto.
    right. left. split; [reflexivity|].
    destruct H as (_ & _ & t & f & Hwft & _ & _ & Hnone). eauto.
  - intros fuel. pose proof (NewPgImp_spec fuel s Hinv) as H. split.
    + intros HU. rewrite HU in H. destruct H as [Hap Hk].
      split; [exact Hk | apply Hpinned; exact Hap].
    + intros [Hk Hnp]. apply Hpinned in Hnp.
      destruct (NewPgImp zero hash fuel s) as [[[pid f]|] s'|s'| |];
        try (destruct H; fail); try reflexivity.
      * destruct H as (_ & _ & _ & _ & _ & _ & _ & _ & H). contradiction.
      * destruct H as [_ H]. congruence.
      * destruct H as (_ & H & _). contradiction.
  - intros fuel p. pose proof (FetchPgImp_spec fuel p s Hinv) as H.
    destruct (FetchPgImp zero hash fuel p s) as [r s'|s'| |]; try (destruct H; fail); eauto.
    right. left. split; [reflexivity|].
    destruct H as (_ & _ & _ & t & f & Hwft & _ & _ & Hnone). eauto.
  - intros fuel p. pose proof (FetchPgImp_spec fuel p s Hinv) as H. split.
    + intros HU. rewrite HU in H. destruct H as (HF & Hap & Hk).
      split; [exact Hk|]. split; [exact HF | apply Hpinned; exact Hap].
    + intros (Hk & HF & Hnp). apply Hpinned in Hnp.
      destruct (FetchPgImp zero hash fuel p s) as [[f|] s'|s'| |];
        try (destruct H; fail); try reflexivity.
      * destruct H as (_ & _ & _ & _ & [(HF' & _)|(_ & _ & _ & _ & H)]);
          [congruence | contradiction].
      * destruct H as (_ & _ & H). congruence.
      * destruct H as (_ & _ & H & _). contradiction.
Qed.

End Facts.

Lemma example_pool_reachable :
  reachable 0 example_hash 2 example_pool.
Proof.
  apply (run_reachable 0 example_hash 2 [CNew 4; CNew 4; CUnpin 0 true] example_start).
  - apply reach_init. vm_compute. reflexivity.
  - vm_compute. reflexivity.
Qed.

(** With both frames in use and page 0 unpinned, a new page takes frame 0. *)
Lemma new_and_fetch_page_witness :
  ∃ s', NewPgImp 0 example_hash 4 example_pool = Ret (Some (2, 0)%Z) s' ∧
        page_at s' 0 = Some (mkPage 0 2 1 false) ∧
        LRUK.access_count (replacer_ s') 0 = 1 ∧
        LRUK.is_evictable (replacer_ s') 0 = false.
Proof.
  eexists. split; [vm_compute; reflexivity|].
  eapply (proj1 (proj2 (new_and_fetch_page 0 example_hash 2 example_pool
                          example_pool_reachable)) 4).
  vm_compute. reflexivity.
Defined.

(** Page 1 is resident in frame 1 with pin count 1. *)
Lemma unpin_page_witness :
  ∃ s', UnpinPgImp example_hash 1 false example_pool = Ret true s' ∧
        page_at s' 1 = Some (mkPage 0 1 (1 - 1) false) ∧
        LRUK.is_evictable (replacer_ example_pool) 1 = false ∧
        LRUK.is_evictable (replacer_ s') 1 = bool_decide (1 - 1 = 0)%Z ∧
        (∀ f', f' ≠ 1%Z →
           page_at s' f' = page_at example_pool f' ∧
           LRUK.is_evictable (replacer_ s') f'
           = LRUK.is_evictable (replacer_ example_pool) f') ∧
        page_table_ s' = page_table_ example_pool ∧
        free_list_ s' = free_list_ example_pool ∧
        disk_ s' = disk_ example_pool.
Proof.
  apply (proj2 (unpin_page 0 example_hash 2 1 false example_pool example_pool_reachable)
           1%Z (mkPage 0 1 1 false)).
  - vm_compute. reflexivity.
  - vm_compute. reflexivity.
  - reflexivity.
Defined.



Lemma flush_page_witness :
  ∃ pg s', page_at example_pool 0 = Some pg ∧
           FlushPgImp example_hash 0 example_pool = Ret true s' ∧
           disk_ s' = WritePage 0 (data_ pg) (disk_ example_pool).
Proof.
  destruct (proj2 (flush_page 0 example_hash 2 0%Z example_pool example_pool_reachable)
              0%Z ltac:(discriminate) ltac:(vm_compute; reflexivity))
    as (pg & s' & Hpg & HF & Hd & _).
  exists pg, s'. auto.
Defined.

Lemma pool_invariant_witness :
  NoDup (free_list_ example_pool) ∧
  LRUK.replacer_size_ (replacer_ example_pool) = pool_size_ example_pool.
Proof.
  pose proof (pool_invariant 0 example_hash 2 example_pool example_pool_reachable)
    as (_ & _ & _ & Hnd & _ & _ & Hsize).
  split; assumption.
Defined.

Lemma lru1_pool_reachable : reachable 0 example_hash 2 lru1_pool.
Proof. apply reach_init. vm_compute. reflexivity. Qed.

Lemma lru1_pool_unpinned : ¬ every_frame_pinned lru1_pool.
Proof.
  intros H. specialize (H 0%Z (fresh_page 0) eq_refl). vm_compute in H. discriminate.
Qed.

(** C2, at a failing input.  The pool that the constructor builds with two
    frames and [replacer_k = 1] has both frames free and no page resident,
    so [NewPgImp] and [FetchPgImp] have a frame to take; they take frame 0
    from the free list and hand it to the replacer, whose first
    [RecordAccess] of a frame is undefined for [K = 1]: no page is
    returned. *)
Theorem new_page_undefined_for_k1 :
  reachable 0 example_hash 2 lru1_pool ∧
  ¬ every_frame_pinned lru1_pool ∧
  take_frame lru1_pool = Ret (Some 0%Z) (set_free lru1_pool [1%Z]) ∧
  LRUK.RecordAccess 0 (replacer_ lru1_pool) = Undef ∧
  (∀ fuel, NewPgImp 0 example_hash fuel lru1_pool = Undef) ∧
  (∀ fuel p, FetchPgImp 0 example_hash fuel p lru1_pool = Undef).
Proof.
  destruct (take_frame_undefined_for_k1 0 example_hash 2 lru1_pool
              (reachable_inv 0 example_hash 2 lru1_pool lru1_pool_reachable)
              eq_refl eq_refl) as [Hnew Hfetch].
  splits.
  - exact lru1_pool_reachable.
  - exact lru1_pool_unpinned.
  - reflexivity.
  - reflexivity.
  - exact Hnew.
  - intros fuel p. apply Hfetch. apply Find_init.
Qed.

(** A pool of two free frames whose replacer has [K = 1]. *)
Lemma call_outcomes_witness :
  NewPgImp 0 example_hash 4 lru1_pool = Undef ∧
  FlushAllPgsImp lru1_pool = Undef ∧
  ∃ b s', DeletePgImp 0 example_hash 0 lru1_pool = Ret b s'.
Proof.
  pose proof (call_outcomes 0 example_hash 2 lru1_pool lru1_pool_reachable)
    as (_ & _ & Hdel & _ & Hall & _ & Hnew & _).
  split; [|split].
  - apply Hnew. split; [reflexivity | exact lru1_pool_unpinned].
  - apply Hall. discriminate.
  - apply Hdel.
Defined.

End BPM_Facts.

(* ===================================================================== *)
(** * B+-tree internal page: properties                                   *)
(* ===================================================================== *)

Module BPT_Facts.
Import BPT.

Section Lookup.
Context {KeyType : Type} (comparator : KeyType → KeyType → Z).

Local Abbreviation InternalPage := (@BPT.InternalPage KeyType).
Local Abbreviation Lookup := (BPT.Lookup comparator).
Local Abbreviation lower_bound_loop := (BPT.lower_bound_loop comparator).
Local Abbreviation three_way := (BPT.three_way comparator).
Local Abbreviation keys_increasing := (BPT.keys_increasing comparator).

Implicit Types (pg : InternalPage) (key k : KeyType).

Local Open Scope Z_scope.

Lemma flip_sign a b :
  three_way → (comparator a b < 0 ↔ 0 < comparator b a).
Proof.
  intros [Hanti _]. specialize (Hanti a b).
  pose proof (Z.sgn_spec (comparator a b)). pose proof (Z.sgn_spec (comparator b a)). lia.
Qed.

Lemma less_trans a b c :
  three_way → comparator a b < 0 → comparator b c < 0 → comparator a c < 0.
Proof.
  intros Htw Hab Hbc. pose proof Htw as [Hanti Htrans].
  pose proof (Htrans a b c ltac:(lia) ltac:(lia)) as Hac.
  destruct (Z.eq_dec (comparator a c) 0) as [Hz|]; [|lia]. exfalso.
  assert (Hca : comparator c a ≤ 0).
  { specialize (Hanti a c). rewrite Hz in Hanti. cbn in Hanti.
    pose proof (Z.sgn_spec (comparator c a)). lia. }
  pose proof (Htrans c a b Hca ltac:(lia)) as Hcb.
  apply (flip_sign b c Htw) in Hbc. lia.
Qed.

Lemma above_stays_above a b c :
  three_way → comparator a b < 0 → 0 ≤ comparator a c → 0 < comparator b c.
Proof.
  intros Htw Hab Hac. pose proof Htw as [Hanti Htrans].
  destruct (Z.ltb_spec 0 (comparator b c)) as [|Hbc]; [assumption|]. exfalso.
  pose proof (Htrans a b c ltac:(lia) Hbc) as Hac'.
  assert (Hz : comparator a c = 0) by lia.
  assert (Hca : comparator c a ≤ 0).
  { specialize (Hanti a c). rewrite Hz in Hanti. cbn in Hanti.
    pose proof (Z.sgn_spec (comparator c a)). lia. }
  pose proof (Htrans b c a Hbc Hca) as Hba.
  apply (flip_sign a b Htw) in Hab. lia.
Qed.

Lemma slot_at_is_Some pg i :
  is_Some (slot_at pg i) ↔ 0 ≤ i < Z.of_nat (length (array_ pg)).
Proof.
  unfold slot_at. destruct (Z.ltb_spec i 0).
  - split; [intros [? ?]; discriminate | lia].
  - rewrite lookup_lt_is_Some. lia.
Qed.

(** The halving loop finds the partition point of a range whose slots are
    all in the buffer and in which the slots below the probe come first. *)
Lemma lower_bound_loop_spec pg key fuel : ∀ first len,
  0 ≤ first → first + len ≤ Z.of_nat (length (array_ pg)) →
  (Z.to_nat len ≤ fuel)%nat →
  (∀ i j ki kj, first ≤ i → i < j → j < first + len →
     KeyAt pg i = Some ki → KeyAt pg j = Some kj →
     comparator kj key < 0 → comparator ki key < 0) →
  ∃ t, lower_bound_loop fuel pg key first len = Some t ∧
       first ≤ t ∧ t ≤ Z.max first (first + len) ∧
       (∀ i ki, first ≤ i < t → KeyAt pg i = Some ki → comparator ki key < 0) ∧
       (∀ i ki, t ≤ i < first + len → KeyAt pg i = Some ki → 0 ≤ comparator ki key).
Proof.
  induction fuel as [|fuel IH]; intros first len Hfirst Hcap Hfuel Hpart; cbn.
  - destruct (Z.leb_spec len 0) as [Hle|Hgt]; [|lia].
    exists first. splits; [reflexivity | lia | lia | intros; lia | intros; lia].
  - destruct (Z.leb_spec len 0) as [Hle|Hgt].
    { exists first. splits; [reflexivity | lia | lia | intros; lia | intros; lia]. }
    assert (Hhalf : Z.shiftr len 1 = len / 2) by (rewrite Z.shiftr_div_pow2 by lia; reflexivity).
    rewrite Hhalf. set (half := len / 2).
    assert (Hh : 0 ≤ half < len) by (unfold half; split; [apply Z.div_pos | apply Z.div_lt]; lia).
    destruct (proj2 (slot_at_is_Some pg (first + half)) ltac:(lia)) as [[km vm] Hm].
    rewrite Hm. cbn [fst].
    assert (HKm : KeyAt pg (first + half) = Some km) by (unfold KeyAt; rewrite Hm; reflexivity).
    destruct (Z.ltb_spec (comparator km key) 0) as [Hlt|Hge].
    + destruct (IH (first + half + 1) (len - half - 1)) as (t & Ht & H1 & H2 & H3 & H4);
        try lia.
      { intros i j ki kj Hi Hij Hj. apply Hpart; lia. }
      exists t. splits; try assumption; try lia.
      * intros i ki Hi HKi. destruct (Z.ltb_spec i (first + half + 1)) as [Hlow|Hhigh].
        -- destruct (Z.eq_dec i (first + half)) as [->|Hne]; [congruence|].
           apply (Hpart i (first + half) ki km); try lia; assumption.
        -- apply (H3 i ki); [lia | assumption].
      * intros i ki Hi. apply H4. lia.
    + destruct (IH first half) as (t & Ht & H1 & H2 & H3 & H4); try lia.
      { intros i j ki kj Hi Hij Hj. apply Hpart; lia. }
      exists t. splits; try assumption; try lia.
      intros i ki Hi HKi. destruct (Z.ltb_spec i (first + half)) as [Hlow|Hhigh].
      * apply (H4 i ki); [lia | assumption].
      * destruct (Z.eq_dec i (first + half)) as [->|Hne]; [congruence|].
        destruct (Z.ltb_spec (comparator ki key) 0) as [Hc|]; [|assumption].
        pose proof (Hpart (first + half) i km ki ltac:(lia) ltac:(lia) ltac:(lia) HKm HKi Hc).
        lia.
Qed.

(** Where [Lookup] lands: the partition point [t] of the keys in
    [[1, size)], and the slot it answers with. *)
Lemma Lookup_lands pg key :
  three_way → keys_increasing pg →
  2 ≤ GetSize pg → GetSize pg ≤ Z.of_nat (length (array_ pg)) →
  ∃ t, 1 ≤ t ≤ GetSize pg ∧
       (∀ i ki, 1 ≤ i < t → KeyAt pg i = Some ki → comparator ki key < 0) ∧
       (∀ i ki, t ≤ i < GetSize pg → KeyAt pg i = Some ki → 0 ≤ comparator ki key) ∧
       (∀ i ki, t < i < GetSize pg → KeyAt pg i = Some ki → 0 < comparator ki key) ∧
       ((t = GetSize pg ∧ Lookup pg key = ValueAt pg (GetSize pg - 1)) ∨
        (∃ kt vt, t < GetSize pg ∧ slot_at pg t = Some (kt, vt) ∧
                  ((comparator kt key = 0 ∧ Lookup pg key = Some vt) ∨
                   (0 < comparator kt key ∧ Lookup pg key = ValueAt pg (t - 1))))).
Proof.
  intros Htw Hinc Hsize Hcap.
  destruct (lower_bound_loop_spec pg key (Z.to_nat (GetSize pg - 1)) 1 (GetSize pg - 1))
    as (t & Ht & H1 & H2 & H3 & H4); try lia.
  { intros i j ki kj Hi Hij Hj HKi HKj Hlt.
    apply (less_trans ki kj key Htw); [|assumption].
    apply (Hinc i j); try assumption; lia. }
  replace (1 + (GetSize pg - 1)) with (GetSize pg) in * by lia.
  assert (Hstrict : ∀ i ki, t < i < GetSize pg → KeyAt pg i = Some ki →
                            0 < comparator ki key).
  { intros i ki Hi HKi.
    destruct (proj2 (slot_at_is_Some pg t) ltac:(lia)) as [[kt vt] Hslot].
    assert (HKt : KeyAt pg t = Some kt) by (unfold KeyAt; rewrite Hslot; reflexivity).
    apply (above_stays_above kt ki key Htw).
    - apply (Hinc t i); try assumption; lia.
    - apply (H4 t); [lia | assumption]. }
  exists t. splits; try assumption; try lia.
  unfold BPT.Lookup, lower_bound. rewrite Ht.
  destruct (Z.eqb_spec t (GetSize pg)) as [Heq|Hne]; [left; auto|]. right.
  destruct (proj2 (slot_at_is_Some pg t) ltac:(lia)) as [[kt vt] Hslot].
  assert (HKt : KeyAt pg t = Some kt) by (unfold KeyAt; rewrite Hslot; reflexivity).
  exists kt, vt. rewrite Hslot. cbn [fst snd].
  split; [lia|]. split; [reflexivity|].
  pose proof (H4 t kt ltac:(lia) HKt) as Hge.
  destruct (Z.eqb_spec (comparator kt key) 0) as [Hz|Hnz]; [left; auto | right; split; [lia | reflexivity]].
Qed.

(** Changing the key of slot 0 changes no other key and no value. *)
Lemma SetKeyAt_0_slots pg k0 pg' :
  SetKeyAt 0 k0 pg = Some pg' →
  GetSize pg' = GetSize pg ∧
  (∀ i, 1 ≤ i → slot_at pg' i = slot_at pg i) ∧
  (∀ i, ValueAt pg' i = ValueAt pg i).
Proof.
  unfold SetKeyAt. destruct (slot_at pg 0) as [[k v]|] eqn:H0; [|discriminate].
  intros [= <-]. split; [reflexivity|].
  assert (Hl0 : array_ pg !! 0%nat = Some (k, v)) by exact H0.
  split.
  - intros i Hi. unfold slot_at. cbn. destruct (Z.ltb_spec i 0); [reflexivity|].
    apply list_lookup_insert_ne. lia.
  - intros i. unfold ValueAt, slot_at. cbn. destruct (Z.ltb_spec i 0); [reflexivity|].
    destruct (decide (Z.to_nat i = 0%nat)) as [->|Hne].
    + rewrite list_lookup_insert_eq by (apply lookup_lt_Some in Hl0; exact Hl0).
      rewrite Hl0. reflexivity.
    + rewrite list_lookup_insert_ne by (change (Z.to_nat 0) with 0%nat; congruence).
      reflexivity.
Qed.

Lemma lower_bound_loop_ext pg pg' key fuel : ∀ first len,
  1 ≤ first → (∀ i, 1 ≤ i → slot_at pg' i = slot_at pg i) →
  lower_bound_loop fuel pg' key first len = lower_bound_loop fuel pg key first len.
Proof.
  induction fuel as [|fuel IH]; intros first len Hfirst Hext; cbn; [reflexivity|].
  destruct (Z.leb_spec len 0) as [Hle|Hgt]; [reflexivity|].
  assert (Hhalf : 0 ≤ Z.shiftr len 1) by (apply Z.shiftr_nonneg; lia).
  rewrite Hext by lia. destruct (slot_at pg (first + Z.shiftr len 1)) as [slot|];
    [|reflexivity].
  destruct (comparator slot.1 key <? 0); apply IH; try assumption; lia.
Qed.

(** C7. On an internal page with at least two slots in use whose keys at
    indices [1 .. size - 1] increase strictly, [Lookup key] answers with the
    value of the largest index in [[1, size)] whose key is at most [key],
    and with the value of slot 0 when [key] is below the key of slot 1; so
    an equal key answers with its own value, and a [key] above every key with
    the value of the last slot.  The key of slot 0 plays no part. *)
Theorem lookup_finds_child pg key :
  three_way → keys_increasing pg →
  2 ≤ GetSize pg → GetSize pg ≤ Z.of_nat (length (array_ pg)) →
  (∀ i ki vi, 1 ≤ i < GetSize pg → slot_at pg i = Some (ki, vi) →
     comparator ki key ≤ 0 →
     (∀ j kj, i < j < GetSize pg → KeyAt pg j = Some kj → 0 < comparator kj key) →
     Lookup pg key = Some vi) ∧
  (∀ k1, KeyAt pg 1 = Some k1 → 0 < comparator k1 key →
     Lookup pg key = ValueAt pg 0) ∧
  (∀ i ki vi, 1 ≤ i < GetSize pg → slot_at pg i = Some (ki, vi) →
     comparator ki key = 0 → Lookup pg key = Some vi) ∧
  ((∀ j kj, 1 ≤ j < GetSize pg → KeyAt pg j = Some kj → comparator kj key < 0) →
     Lookup pg key = ValueAt pg (GetSize pg - 1)) ∧
  (∀ k0 pg', SetKeyAt 0 k0 pg = Some pg' → Lookup pg' key = Lookup pg key) ∧
  is_Some (Lookup pg key).
Proof.
  intros Htw Hinc Hsize Hcap.
  destruct (Lookup_lands pg key Htw Hinc Hsize Hcap)
    as (t & Ht & Hbelow & Hfrom & Habove & Hland).
  assert (Hkey : ∀ i, 0 ≤ i < GetSize pg → ∃ ki vi, slot_at pg i = Some (ki, vi) ∧
                   KeyAt pg i = Some ki ∧ ValueAt pg i = Some vi).
  { intros i Hi. destruct (proj2 (slot_at_is_Some pg i) ltac:(lia)) as [[ki vi] Hs].
    exists ki, vi. unfold KeyAt, ValueAt. rewrite Hs. auto. }
  assert (Hfst : ∀ i ki vi, slot_at pg i = Some (ki, vi) → KeyAt pg i = Some ki)
    by (intros i ki vi Hs; unfold KeyAt; rewrite Hs; reflexivity).
  assert (Hsnd : ∀ i ki vi, slot_at pg i = Some (ki, vi) → ValueAt pg i = Some vi)
    by (intros i ki vi Hs; unfold ValueAt; rewrite Hs; reflexivity).
  (* the index the claim names is the one where the search lands *)
  assert (Hlargest : ∀ i ki vi, 1 ≤ i < GetSize pg → slot_at pg i = Some (ki, vi) →
            comparator ki key ≤ 0 →
            (∀ j kj, i < j < GetSize pg → KeyAt pg j = Some kj → 0 < comparator kj key) →
            Lookup pg key = Some vi).
  { intros i ki vi Hi Hs Hle Hrest.
    destruct Hland as [[-> HL]|(kt & vt & Hlt & Hst & [[Hz HL]|[Hpos HL]])]; rewrite HL.
    - destruct (Z.eq_dec i (GetSize pg - 1)) as [->|Hne]; [eapply Hsnd; eassumption|].
      exfalso. destruct (Hkey (GetSize pg - 1) ltac:(lia)) as (kl & vl & _ & HKl & _).
      pose proof (Hrest (GetSize pg - 1) kl ltac:(lia) HKl).
      pose proof (Hbelow (GetSize pg - 1) kl ltac:(lia) HKl). lia.
    - destruct (Z.lt_trichotomy i t) as [Hit|[->|Hti]].
      + exfalso. pose proof (Hrest t kt ltac:(lia) (Hfst _ _ _ Hst)). lia.
      + congruence.
      + exfalso. pose proof (Habove i ki ltac:(lia) (Hfst _ _ _ Hs)). lia.
    - assert (i < t).
      { destruct (Z.ltb_spec i t) as [|Hge]; [assumption|]. exfalso.
        destruct (Z.eq_dec i t) as [->|Hne].
        - assert (ki = kt) by congruence. subst. lia.
        - pose proof (Habove i ki ltac:(lia) (Hfst _ _ _ Hs)). lia. }
      destruct (Z.eq_dec i (t - 1)) as [->|Hne]; [eapply Hsnd; eassumption|].
      exfalso. destruct (Hkey (t - 1) ltac:(lia)) as (kp & vp & _ & HKp & _).
      pose proof (Hrest (t - 1) kp ltac:(lia) HKp).
      pose proof (Hbelow (t - 1) kp ltac:(lia) HKp). lia. }
  splits.
  - exact Hlargest.
  - intros k1 HK1 Hpos.
    destruct Hland as [[-> HL]|(kt & vt & Hlt & Hst & [[Hz HL]|[Hpos' HL]])]; rewrite HL.
    + exfalso. pose proof (Hbelow 1 k1 ltac:(lia) HK1). lia.
    + exfalso. destruct (Z.eq_dec t 1) as [->|Hne].
      * pose proof (Hfst _ _ _ Hst). assert (k1 = kt) by congruence. subst. lia.
      * pose proof (Hbelow 1 k1 ltac:(lia) HK1). lia.
    + destruct (Z.eq_dec t 1) as [->|Hne]; [reflexivity|].
      exfalso. pose proof (Hbelow 1 k1 ltac:(lia) HK1). lia.
  - intros i ki vi Hi Hs Hz. apply (Hlargest i ki vi Hi Hs); [lia|].
    intros j kj Hj HKj. apply (above_stays_above ki kj key Htw); [|lia].
    apply (Hinc i j); try lia; [eapply Hfst; eassumption | assumption].
  - intros Hall.
    destruct Hland as [[-> HL]|(kt & vt & Hlt & Hst & Hrest)]; [exact HL|].
    exfalso. pose proof (Hall t kt ltac:(lia) (Hfst _ _ _ Hst)).
    pose proof (Hfrom t kt ltac:(lia) (Hfst _ _ _ Hst)). lia.
  - intros k0 pg' Hset.
    destruct (SetKeyAt_0_slots pg k0 pg' Hset) as (Hsz & Hslots & Hvals).
    unfold BPT.Lookup, lower_bound. rewrite Hsz.
    rewrite (lower_bound_loop_ext pg pg' key _ 1 (GetSize pg - 1) ltac:(lia) Hslots).
    destruct (lower_bound_loop_spec pg key (Z.to_nat (GetSize pg - 1)) 1 (GetSize pg - 1))
      as (t' & Ht' & H1 & _); try lia.
    { intros i j ki kj Hi Hij Hj HKi HKj Hlt'.
      apply (less_trans ki kj key Htw); [|assumption].
      apply (Hinc i j); try assumption; lia. }
    rewrite Ht'. rewrite !Hvals. rewrite (Hslots t') by lia. reflexivity.
  - destruct Hland as [[-> HL]|(kt & vt & Hlt & Hst & [[Hz HL]|[Hpos HL]])]; rewrite HL.
    + destruct (Hkey (GetSize pg - 1) ltac:(lia)) as (? & ? & _ & _ & ->). eauto.
    + eauto.
    + destruct (Hkey (t - 1) ltac:(lia)) as (? & ? & _ & _ & ->). eauto.
Qed.

End Lookup.

(** *** Adoption of the moved children *)

Section Adoption.
Context {KeyType Data : Type} (zero : Data) (hash : Z → nat) (bucket_size : nat).
Context (SetParentPageId : Z → Data → Data) (GetParentPageId : Data → Z).
Context (GetMinSize : @BPT.InternalPage KeyType → Z).

(** Reading the parent page id of a buffer gives what was set last. *)
Hypothesis parent_set : ∀ id d, GetParentPageId (SetParentPageId id d) = id.

Local Abbreviation InternalPage := (@BPT.InternalPage KeyType).
Local Abbreviation Pool := (@BPM.Pool Data).
Local Abbreviation inv := (BPM.inv hash bucket_size).
Local Abbreviation Find := (EHT.Find hash).
Local Abbreviation adopt := (BPT.adopt zero hash SetParentPageId).
Local Abbreviation adopt_loop :=
  (BPT.adopt_loop (KeyType:=KeyType) zero hash SetParentPageId).
Local Abbreviation adopted :=
  (BPT.adopted zero hash SetParentPageId GetParentPageId).
Local Abbreviation hash_tells_apart := (BPT.hash_tells_apart (Data:=Data) hash).
Local Abbreviation MoveHalfTo :=
  (BPT.MoveHalfTo (KeyType:=KeyType) zero hash SetParentPageId GetMinSize).

Implicit Types (pg src rcp : InternalPage) (b : Pool).

Lemma set_disk_same b : BPM.set_disk b (BPM.disk_ b) = b.
Proof. destruct b. reflexivity. Qed.

(** One turn of the loop of [CopyNFrom], for a child that is resident or
    that the pool has a frame for. *)
Lemma adopt_spec D parent child b :
  inv b →
  is_Some (Find (BPM.page_table_ b) child) ∨
  (BPM.all_pinned b = false ∧ LRUK.k_ (BPM.replacer_ b) ≠ 1 ∧ 1 ≤ bucket_size ∧
   D ≤ 30 ∧ BPM.told_apart hash D b child) →
  ∃ b', adopt (S D) parent child b = Ret tt b' ∧ inv b' ∧
        (BPM.all_pinned b = false → BPM.all_pinned b' = false) ∧
        LRUK.k_ (BPM.replacer_ b') ≠ 1 ∧
        (is_Some (Find (BPM.page_table_ b) child) →
         BPM.page_table_ b' = BPM.page_table_ b) ∧
        (∀ q, is_Some (Find (BPM.page_table_ b') q) →
              q = child ∨ is_Some (Find (BPM.page_table_ b) q)) ∧
        (∀ cs b'', adopted parent cs b' b'' → adopted parent (child :: cs) b b'').
Proof.
  intros Hinv Hcan. unfold BPT.adopt.
  pose proof (BPM_Facts.FetchPgImp_spec zero hash bucket_size (S D) child b Hinv) as HF.
  destruct (BPM.FetchPgImp zero hash (S D) child b) as [[f|] b1|b1| |] eqn:Hfetch.
  2:{ destruct HF as (_ & Hnone & Hc).
      destruct Hcan as [[? ?]|(? & _)]; congruence. }
  2: destruct HF.
  2:{ destruct HF as (Hnone & _ & Hk).
      destruct Hcan as [[? ?]|(_ & ? & _)]; [congruence | contradiction]. }
  2:{ destruct HF as (Hnone & _ & _ & t & f & Hwft & Hbst & Hsub & Hnins).
      destruct Hcan as [[? ?]|(_ & _ & Hbs & HD & Hta)]; [congruence|].
      destruct (EHT_Facts.Insert_returns hash D t child f Hwft ltac:(lia) HD) as [t' Ht'].
      - intros q Hq. apply Hta, Hsub, Hq.
      - congruence. }
  destruct HF as (Hinv1 & HF1 & Hev1 & Hres & Hcase).
  destruct (BPM.inv_resident _ _ _ Hinv1 child f HF1) as (page & Hpage & Hpid & Hnfree).
  destruct (BPM.inv_used _ _ _ Hinv1 f page Hpage Hnfree) as (Htr1 & Hge & Hiff).
  assert (Hpos : (0 < BPM.pin_count_ page)%Z).
  { destruct (Z.eq_dec (BPM.pin_count_ page) 0%Z) as [Hz|]; [|lia].
    apply Hiff in Hz. congruence. }
  rewrite Hpage. destruct page as [d pid pin dirty].
  cbn [BPM.data_ BPM.page_id_ BPM.pin_count_ BPM.is_dirty_] in *. subst pid.
  set (page2 := BPM.mkPage (SetParentPageId parent d) child pin dirty).
  set (b2 := BPM.set_page b1 f page2).
  assert (Hinv2 : inv b2).
  { pose proof (BPM_Facts.inv_set_content hash bucket_size b1 f _
                  (SetParentPageId parent d) dirty (BPM.disk_ b1) Hinv1 Hpage) as H.
    rewrite set_disk_same in H. exact H. }
  assert (Hpat2 : ∀ f', BPM.page_at b2 f' =
            if decide (f' = f) then Some page2 else BPM.page_at b1 f').
  { intros f'. apply BPM_Facts.page_at_set_page. eauto. }
  assert (HF2 : Find (BPM.page_table_ b2) child = Some f) by exact HF1.
  pose proof (BPM_Facts.UnpinPgImp_spec hash bucket_size child true b2 Hinv2) as HU.
  destruct (BPM.UnpinPgImp hash child true b2) as [[|] b3|b3| |] eqn:Hunpin;
    try (destruct HU; fail).
  2:{ exfalso. destruct HU as (_ & [Hnone | (f' & pg' & HFf & Hpg' & Hz)]); [congruence|].
      assert (f' = f) by congruence. subst f'.
      rewrite Hpat2, decide_True in Hpg' by reflexivity.
      injection Hpg' as <-. cbn in Hz. lia. }
  destruct HU as (Hinv3 & f' & pg' & HFf & Hpg' & _ & Hpg3 & Hoth & Htab & _ & _ & _ &
                  _ & _ & _ & Hacc3 & _).
  assert (f' = f) by congruence. subst f'.
  rewrite Hpat2, decide_True in Hpg' by reflexivity. injection Hpg' as <-.
  cbn [BPM.data_ BPM.page_id_ BPM.pin_count_ BPM.is_dirty_ page2] in Hpg3.
  exists b3. splits.
  - reflexivity.
  - exact Hinv3.
  - intros Hap. apply BPM_Facts.all_pinned_false.
    destruct Hcase as [(_ & (pg0 & Hpg0 & _ & Hpg1 & Hoth1) & _)|(_ & _ & Hpg1 & _)].
    + apply BPM_Facts.all_pinned_false in Hap as (f0 & pgx & Hx & Hle).
      destruct (decide (f0 = f)) as [->|Hne].
      * eexists f, _. split; [exact Hpg3|]. cbn.
        assert (pgx = pg0) by congruence. subst pgx.
        rewrite Hpage in Hpg1. injection Hpg1 as _ Hpin _. lia.
      * exists f0, pgx. split; [|exact Hle].
        rewrite Hoth by assumption. rewrite Hpat2, decide_False by assumption.
        rewrite Hoth1 by assumption. exact Hx.
    + eexists f, _. split; [exact Hpg3|]. cbn.
      rewrite Hpage in Hpg1. injection Hpg1 as _ Hpin _. lia.
  - intros Hk1. pose proof (BPM.inv_k _ _ _ Hinv3 Hk1 f) as Hz.
    rewrite Hacc3 in Hz. change (BPM.replacer_ b2) with (BPM.replacer_ b1) in Hz. lia.
  - intros [f0 Hf0]. rewrite Htab.
    destruct Hcase as [(_ & _ & _ & Ht & _)|(Hnone & _)]; [exact Ht | congruence].
  - intros q Hq. rewrite Htab in Hq. apply Hres. exact Hq.
  - intros cs b'' Had.
    eapply (adopted_cons zero hash SetParentPageId GetParentPageId parent child cs b
              (S D) f b1 _ b3 _ b'' Hfetch Hpage); cbn; try reflexivity; try assumption.
    + exact Hpg3.
    + reflexivity.
    + apply parent_set.
    + reflexivity.
    + reflexivity.
Qed.

(** The children the loop of [CopyNFrom] visits from [i] on: they are all
    resident, or the pool has a frame to take and the page table can take
    them in. *)
Lemma adopt_loop_spec D pg : ∀ count i b,
  (0 ≤ i + GetSize pg)%Z →
  Z.to_nat (i + GetSize pg) + count ≤ length (array_ pg) →
  inv b →
  (∀ c, c ∈ (take count (drop (Z.to_nat (i + GetSize pg)) (array_ pg))).*2 →
        is_Some (Find (BPM.page_table_ b) c)) ∨
  (BPM.all_pinned b = false ∧ LRUK.k_ (BPM.replacer_ b) ≠ 1 ∧ 1 ≤ bucket_size ∧
   D ≤ 30 ∧
   hash_tells_apart D b
     (take count (drop (Z.to_nat (i + GetSize pg)) (array_ pg))).*2) →
  ∃ b', adopt_loop (S D) pg i count b = Ret tt b' ∧ inv b' ∧
        adopted (GetPageId pg)
          (take count (drop (Z.to_nat (i + GetSize pg)) (array_ pg))).*2 b b'.
Proof.
  induction count as [|count IH]; intros i b Hi Hlen Hinv Hcan.
  - exists b. cbn. splits; [reflexivity | assumption | constructor].
  - destruct (lookup_lt_is_Some_2 (array_ pg) (Z.to_nat (i + GetSize pg)) ltac:(lia))
      as [[k child] Hslot].
    cbn [BPT.adopt_loop]. unfold ValueAt, slot_at.
    destruct (Z.ltb_spec (i + GetSize pg) 0) as [|_]; [lia|].
    rewrite Hslot. cbn [fmap option_fmap option_map snd].
    rewrite (drop_S _ _ _ Hslot) in Hcan |- *.
    cbn [take fmap list_fmap snd] in Hcan |- *.
    replace (S (Z.to_nat (i + GetSize pg))) with (Z.to_nat (i + 1 + GetSize pg))
      in Hcan |- * by lia.
    set (cs := (take count (drop (Z.to_nat (i + 1 + GetSize pg)) (array_ pg))).*2) in *.
    destruct (adopt_spec D (GetPageId pg) child b Hinv)
      as (b1 & Hadopt & Hinv1 & Hap1 & Hk1 & Htab & Hres & Hchain).
    { destruct Hcan as [Hres|(Hap & Hk & Hbs & HD & Hapart)].
      - left. apply Hres. left.
      - right. splits; try assumption.
        intros q Hq Hh. apply Hapart; [left; exact Hq | right; left | exact Hh]. }
    rewrite Hadopt.
    destruct (IH (i + 1)%Z b1 ltac:(lia) ltac:(lia) Hinv1) as (b' & Hloop & Hinv' & Had).
    { fold cs. destruct Hcan as [Hres0|(Hap & Hk & Hbs & HD & Hapart)].
      - left. intros c Hc. rewrite Htab by (apply Hres0; left).
        apply Hres0. right. exact Hc.
      - right. splits; try assumption; [apply Hap1; exact Hap|].
        intros q q' Hq Hq' Hh. apply Hapart; [| |exact Hh].
        + destruct Hq as [Hq|Hq]; [|right; right; exact Hq].
          destruct (Hres q Hq) as [->|]; [right; left | left; assumption].
        + destruct Hq' as [Hq'|Hq']; [|right; right; exact Hq'].
          destruct (Hres q' Hq') as [->|]; [right; left | left; assumption]. }
    exists b'. splits; [exact Hloop | exact Hinv' | apply Hchain; exact Had].
Qed.

(** [¬ every_frame_pinned] as the loop of [NewPgImp] computes it. *)
Lemma unpinned_frame b : ¬ BPM.every_frame_pinned b → BPM.all_pinned b = false.
Proof.
  intros Hnp. destruct (BPM.all_pinned b) eqn:Ha; [|reflexivity].
  exfalso. apply Hnp. exact (proj1 (BPM_Facts.all_pinned_true b) Ha).
Qed.

Lemma copy_slots_spec (src dst : list (KeyType * Z)) from size at_ :
  (0 ≤ from)%Z → (0 ≤ size)%Z → (0 ≤ at_)%Z →
  (from + size ≤ Z.of_nat (length src))%Z →
  (at_ + size ≤ Z.of_nat (length dst))%Z →
  ∃ l, copy_slots src from size dst at_ = Some l ∧
       l = take (Z.to_nat at_) dst ++ take (Z.to_nat size) (drop (Z.to_nat from) src)
           ++ drop (Z.to_nat (at_ + size)) dst ∧
       length l = length dst ∧
       length (take (Z.to_nat size) (drop (Z.to_nat from) src)) = Z.to_nat size ∧
       take (Z.to_nat size) (drop (Z.to_nat at_) l)
       = take (Z.to_nat size) (drop (Z.to_nat from) src).
Proof.
  intros Hfrom Hsize Hat Hsrc Hdst. eexists. split; [|split; [reflexivity|]].
  - unfold copy_slots.
    destruct (Z.ltb_spec size 0); [lia|]. destruct (Z.ltb_spec from 0); [lia|].
    destruct (Z.ltb_spec at_ 0); [lia|]. cbn [orb].
    destruct (Z.ltb_spec (Z.of_nat (length src)) (from + size)); [lia|].
    destruct (Z.ltb_spec (Z.of_nat (length dst)) (at_ + size)); [lia|]. reflexivity.
  - assert (Hmid : length (take (Z.to_nat size) (drop (Z.to_nat from) src)) = Z.to_nat size)
      by (rewrite length_take, length_drop; lia).
    assert (Hfront : length (take (Z.to_nat at_) dst) = Z.to_nat at_)
      by (rewrite length_take; lia).
    split; [|split; [exact Hmid|]].
    + rewrite !length_app, Hmid, Hfront, length_drop. lia.
    + rewrite (drop_app_length' _ _ _ (eq_sym Hfront)).
      apply take_app_length'. symmetry. exact Hmid.
Qed.

(** C9, amended.  In a reachable pool, for a page of size [n] and min size
    [m] with [0 ≤ m ≤ n] within its buffer and a recipient with room for
    [n - m] more slots, when every moved child is resident, or some frame is
    not pinned: [MoveHalfTo] returns; it leaves the page with size [m]; the
    recipient has its slots from its old size on overwritten with the slots
    [[m, n)] of the page, in order, its other slots as they were and its
    size larger by [n - m]; and the children named by the moved slots are
    adopted by the recipient one after the other, each fetched, given the
    page id of the recipient as parent and unpinned as dirty.  Where a child
    may have to be brought in, the replacer's [K] is not 1, and [S D]
    iterations of the page table are enough when the hash tells the page ids
    at hand apart within [D] bits, [D] at most 30. *)
Theorem move_half_to_adopts D src rcp b :
  BPM.reachable zero hash bucket_size b →
  (0 ≤ GetMinSize src ≤ GetSize src)%Z →
  (GetSize src ≤ Z.of_nat (length (array_ src)))%Z →
  (0 ≤ GetSize rcp)%Z →
  (GetSize rcp + (GetSize src - GetMinSize src) ≤ Z.of_nat (length (array_ rcp)))%Z →
  (∀ c, c ∈ (upper_half GetMinSize src).*2 →
        is_Some (Find (BPM.page_table_ b) c)) ∨
  (¬ BPM.every_frame_pinned b ∧ LRUK.k_ (BPM.replacer_ b) ≠ 1 ∧ 1 ≤ bucket_size ∧
   D ≤ 30 ∧ hash_tells_apart D b (upper_half GetMinSize src).*2) →
  ∃ src' rcp' b',
    MoveHalfTo (S D) src rcp b = Ret (src', rcp') b' ∧
    GetSize src' = GetMinSize src ∧ array_ src' = array_ src ∧
    GetSize rcp' = (GetSize rcp + (GetSize src - GetMinSize src))%Z ∧
    GetPageId rcp' = GetPageId rcp ∧
    length (upper_half GetMinSize src) = Z.to_nat (GetSize src - GetMinSize src) ∧
    array_ rcp' = take (Z.to_nat (GetSize rcp)) (array_ rcp)
                  ++ upper_half GetMinSize src
                  ++ drop (Z.to_nat (GetSize rcp + (GetSize src - GetMinSize src)))
                          (array_ rcp) ∧
    adopted (GetPageId rcp) (upper_half GetMinSize src).*2 b b'.
Proof.
  intros Hr Hm Hcap Hrs Hroom Hcan.
  pose proof (BPM_Facts.reachable_inv zero hash bucket_size b Hr) as Hinv.
  destruct (copy_slots_spec (array_ src) (array_ rcp) (GetMinSize src)
              (GetSize src - GetMinSize src) (GetSize rcp))
    as (l & Hcopy & Hl & Hlen & Hmoved & Htake); try lia.
  fold (upper_half GetMinSize src) in Hl, Hmoved, Htake.
  unfold BPT.MoveHalfTo, BPT.CopyNFrom.
  change (array_ (SetSize (GetMinSize src) src)) with (array_ src).
  rewrite Hcopy.
  set (pg1 := set_array l rcp).
  destruct (adopt_loop_spec D pg1 (Z.to_nat (GetSize src - GetMinSize src)) 0 b)
    as (b' & Hloop & _ & Had); try assumption.
  - change (GetSize pg1) with (GetSize rcp). change (array_ pg1) with l. lia.
  - change (GetSize pg1) with (GetSize rcp). change (array_ pg1) with l.
    rewrite Z.add_0_l, Htake.
    destruct Hcan as [Hres|(Hnp & Hk & Hbs & HD & Hapart)]; [left; exact Hres|].
    right. splits; try assumption. apply unpinned_frame. exact Hnp.
  - rewrite Hloop.
    change (GetSize pg1) with (GetSize rcp) in Had. change (array_ pg1) with l in Had.
    rewrite Z.add_0_l, Htake in Had.
    eexists _, _, b'. split; [reflexivity|].
    cbn [GetSize GetPageId SetSize IncreaseSize set_array size_ array_ page_id_ pg1].
    splits; try reflexivity; assumption.
Qed.

End Adoption.

(** *** Slots: search, insertion and removal *)

Section Slots.
Context {KeyType : Type} (comparator : KeyType → KeyType → Z).

Local Abbreviation InternalPage := (@BPT.InternalPage KeyType).
Local Abbreviation Lookup := (BPT.Lookup comparator).
Local Abbreviation three_way := (BPT.three_way comparator).
Local Abbreviation keys_increasing := (BPT.keys_increasing comparator).

Implicit Types (pg : InternalPage) (l : list (KeyType * Z)) (x : KeyType * Z).

Lemma shifted_right_length idx n x l :
  (idx ≤ n)%nat → (S n ≤ length l)%nat → length (shifted_right idx n x l) = length l.
Proof.
  intros Hi Hn. unfold shifted_right.
  rewrite length_app, length_cons, length_app, !length_take, !length_drop. lia.
Qed.

Lemma shifted_right_lookup idx n x l j :
  (idx ≤ n)%nat → (S n ≤ length l)%nat →
  shifted_right idx n x l !! j =
  if (j <? idx)%nat then l !! j
  else if (j =? idx)%nat then Some x
  else if (j <=? n)%nat then l !! (j - 1)%nat else l !! j.
Proof.
  intros Hi Hn. unfold shifted_right.
  assert (Hl1 : length (take idx l) = idx) by (rewrite length_take; lia).
  assert (Hl2 : length (take (n - idx) (drop idx l)) = (n - idx)%nat)
    by (rewrite length_take, length_drop; lia).
  destruct (Nat.ltb_spec j idx) as [Hlt|Hge].
  - rewrite lookup_app_l by lia. rewrite lookup_take, decide_True by lia. reflexivity.
  - rewrite lookup_app_r by lia. rewrite Hl1.
    destruct (Nat.eqb_spec j idx) as [->|Hne].
    + rewrite Nat.sub_diag. reflexivity.
    + destruct (j - idx)%nat as [|m] eqn:Hm; [lia|]. rewrite lookup_cons.
      destruct (Nat.leb_spec j n) as [Hle|Hgt].
      * rewrite lookup_app_l by lia. rewrite lookup_take, decide_True by lia.
        rewrite lookup_drop. f_equal. lia.
      * rewrite lookup_app_r by lia. rewrite Hl2, lookup_drop. f_equal. lia.
Qed.

Lemma shifted_left_length idx n l :
  (S idx ≤ n)%nat → (n ≤ length l)%nat → length (shifted_left idx n l) = length l.
Proof.
  intros Hi Hn. unfold shifted_left.
  rewrite !length_app, !length_take, !length_drop. lia.
Qed.

Lemma shifted_left_lookup idx n l j :
  (S idx ≤ n)%nat → (n ≤ length l)%nat →
  shifted_left idx n l !! j =
  if (j <? idx)%nat then l !! j
  else if (j <? n - 1)%nat then l !! (S j) else l !! j.
Proof.
  intros Hi Hn. unfold shifted_left.
  assert (Hl1 : length (take idx l) = idx) by (rewrite length_take; lia).
  assert (Hl2 : length (take (n - S idx) (drop (S idx) l)) = (n - S idx)%nat)
    by (rewrite length_take, length_drop; lia).
  destruct (Nat.ltb_spec j idx) as [Hlt|Hge].
  - rewrite lookup_app_l by lia. rewrite lookup_take, decide_True by lia. reflexivity.
  - rewrite lookup_app_r by lia. rewrite Hl1.
    destruct (Nat.ltb_spec j (n - 1)) as [Hlt|Hge2].
    + rewrite lookup_app_l by lia. rewrite lookup_take, decide_True by lia.
      rewrite lookup_drop. f_equal. lia.
    + rewrite lookup_app_r by lia. rewrite Hl2, lookup_drop. f_equal. lia.
Qed.

Local Open Scope Z_scope.

Lemma value_index_loop_spec pg v : ∀ count i,
  0 ≤ i → i + Z.of_nat count ≤ Z.of_nat (length (array_ pg)) →
  ∃ r, value_index_loop count pg v i = Some r ∧ i ≤ r ≤ i + Z.of_nat count ∧
       (∀ j, i ≤ j < r → ValueAt pg j ≠ Some v) ∧
       (r < i + Z.of_nat count → ValueAt pg r = Some v).
Proof.
  induction count as [|count IH]; intros i Hi Hlen; cbn [value_index_loop].
  - exists i. splits; [reflexivity | lia | lia | intros; lia | intros; lia].
  - destruct (proj2 (slot_at_is_Some pg i) ltac:(lia)) as [[k w] Hs].
    rewrite Hs. cbn [snd]. destruct (Z.eqb_spec w v) as [->|Hne].
    + exists i. splits; [reflexivity | lia | lia | intros; lia |].
      intros _. unfold ValueAt. rewrite Hs. reflexivity.
    + destruct (IH (i + 1)) as (r & Hr & Hb & Hbefore & Hat); try lia.
      exists r. splits; [exact Hr | lia | lia | |].
      * intros j Hj. destruct (Z.eq_dec j i) as [->|Hji]; [|apply Hbefore; lia].
        unfold ValueAt. rewrite Hs. cbn. congruence.
      * intros Hlt. apply Hat. lia.
Qed.

Lemma ValueIndex_spec pg v :
  0 ≤ GetSize pg ≤ Z.of_nat (length (array_ pg)) →
  ∃ i, ValueIndex v pg = Some i ∧ 0 ≤ i ≤ GetSize pg ∧
       (∀ j, 0 ≤ j < i → ValueAt pg j ≠ Some v) ∧
       (i < GetSize pg → ValueAt pg i = Some v).
Proof.
  intros Hsize. unfold ValueIndex. destruct (Z.ltb_spec (GetSize pg) 0); [lia|].
  destruct (value_index_loop_spec pg v (Z.to_nat (GetSize pg)) 0) as (r & Hr & Hb & H1 & H2);
    try lia.
  exists r. rewrite Z2Nat.id in * by lia. splits; try assumption; lia.
Qed.

(** [InsertNodeAfter] when [old_value] is found at [i]. *)
Lemma InsertNodeAfter_array old_value new_key new_value pg i :
  0 ≤ i < GetSize pg → GetSize pg + 1 ≤ Z.of_nat (length (array_ pg)) →
  ValueIndex old_value pg = Some i →
  InsertNodeAfter old_value new_key new_value pg =
  Some (GetSize pg + 1,
        mkInternal (GetSize pg + 1) (max_size_ pg) (parent_page_id_ pg) (page_id_ pg)
          (shifted_right (Z.to_nat (i + 1)) (Z.to_nat (GetSize pg))
             (new_key, new_value) (array_ pg))).
Proof.
  intros Hi Hroom HVI. unfold InsertNodeAfter, move_backward_slots. rewrite HVI.
  replace (GetSize pg + 1 - (GetSize pg - (i + 1))) with (i + 1 + 1) by lia.
  destruct (copy_slots_spec (array_ pg) (array_ pg) (i + 1) (GetSize pg - (i + 1)) (i + 1 + 1))
    as (l & Hcopy & Hl & Hlen & _); try lia.
  rewrite Hcopy. unfold write_slot.
  assert (Hslot : is_Some (slot_at (set_array l pg) (i + 1))).
  { apply slot_at_is_Some. cbn. lia. }
  destruct Hslot as [s0 Hs0]. rewrite Hs0. cbn [IncreaseSize SetSize set_array GetSize size_
    max_size_ parent_page_id_ page_id_ array_].
  do 3 f_equal. rewrite Hl. unfold shifted_right.
  replace (Z.to_nat (i + 1 + 1)) with (S (Z.to_nat (i + 1))) by lia.
  replace (Z.to_nat (i + 1 + 1 + (GetSize pg - (i + 1)))) with (S (Z.to_nat (GetSize pg)))
    by lia.
  replace (Z.to_nat (GetSize pg - (i + 1)))
    with (Z.to_nat (GetSize pg) - Z.to_nat (i + 1))%nat by lia.
  set (idx := Z.to_nat (i + 1)).
  destruct (lookup_lt_is_Some_2 (array_ pg) idx ltac:(lia)) as [a Ha].
  rewrite (take_S_r _ _ _ Ha), <- app_assoc. cbn [app].
  replace idx with (length (take idx (array_ pg)) + 0)%nat at 1
    by (rewrite length_take; lia).
  rewrite insert_app_r. reflexivity.
Qed.

(** [Remove] of a slot in use. *)
Lemma Remove_array index pg :
  0 ≤ index < GetSize pg → GetSize pg ≤ Z.of_nat (length (array_ pg)) →
  Remove index pg =
  Some (mkInternal (GetSize pg - 1) (max_size_ pg) (parent_page_id_ pg) (page_id_ pg)
          (shifted_left (Z.to_nat index) (Z.to_nat (GetSize pg)) (array_ pg))).
Proof.
  intros Hi Hsize. unfold BPT.Remove, move_slots.
  destruct (copy_slots_spec (array_ pg) (array_ pg) (index + 1) (GetSize pg - (index + 1)) index)
    as (l & Hcopy & Hl & _); try lia.
  rewrite Hcopy. unfold IncreaseSize, SetSize, set_array, GetSize.
  cbn [size_ max_size_ parent_page_id_ page_id_ array_].
  do 2 f_equal. rewrite Hl. unfold shifted_left.
  replace (Z.to_nat (index + 1)) with (S (Z.to_nat index)) by lia.
  replace (Z.to_nat (GetSize pg - (index + 1)))
    with (Z.to_nat (GetSize pg) - S (Z.to_nat index))%nat by lia.
  replace (Z.to_nat (index + (GetSize pg - (index + 1))))
    with (Z.to_nat (GetSize pg) - 1)%nat by lia.
  reflexivity.
Qed.

Lemma slot_at_nat pg j : 0 ≤ j → slot_at pg j = array_ pg !! Z.to_nat j.
Proof. intros Hj. unfold slot_at. destruct (Z.ltb_spec j 0); [lia | reflexivity]. Qed.

Lemma slot_at_shifted_right pg pg' i x :
  0 ≤ i < GetSize pg → GetSize pg + 1 ≤ Z.of_nat (length (array_ pg)) →
  array_ pg' = shifted_right (Z.to_nat (i + 1)) (Z.to_nat (GetSize pg)) x (array_ pg) →
  (∀ j, j ≤ i → slot_at pg' j = slot_at pg j) ∧
  slot_at pg' (i + 1) = Some x ∧
  (∀ j, i + 1 < j ≤ GetSize pg → slot_at pg' j = slot_at pg (j - 1)) ∧
  (∀ j, GetSize pg < j → slot_at pg' j = slot_at pg j).
Proof.
  intros Hi Hroom Harr.
  assert (Hlook : ∀ j, 0 ≤ j → slot_at pg' j =
            if (Z.to_nat j <? Z.to_nat (i + 1))%nat then array_ pg !! Z.to_nat j
            else if (Z.to_nat j =? Z.to_nat (i + 1))%nat then Some x
            else if (Z.to_nat j <=? Z.to_nat (GetSize pg))%nat
                 then array_ pg !! (Z.to_nat j - 1)%nat
                 else array_ pg !! Z.to_nat j).
  { intros j Hj. rewrite slot_at_nat, Harr by exact Hj.
    apply shifted_right_lookup; lia. }
  splits.
  - intros j Hj. destruct (Z.ltb_spec j 0) as [Hneg|Hpos].
    + unfold slot_at. rewrite !(proj2 (Z.ltb_lt _ _) Hneg). reflexivity.
    + rewrite Hlook, (slot_at_nat pg) by lia.
      destruct (Nat.ltb_spec (Z.to_nat j) (Z.to_nat (i + 1))); [reflexivity | lia].
  - rewrite Hlook by lia.
    destruct (Nat.ltb_spec (Z.to_nat (i + 1)) (Z.to_nat (i + 1))); [lia|].
    rewrite Nat.eqb_refl. reflexivity.
  - intros j Hj. rewrite Hlook, (slot_at_nat pg) by lia.
    destruct (Nat.ltb_spec (Z.to_nat j) (Z.to_nat (i + 1))); [lia|].
    destruct (Nat.eqb_spec (Z.to_nat j) (Z.to_nat (i + 1))); [lia|].
    destruct (Nat.leb_spec (Z.to_nat j) (Z.to_nat (GetSize pg))); [|lia].
    f_equal. lia.
  - intros j Hj. rewrite Hlook, (slot_at_nat pg) by lia.
    destruct (Nat.ltb_spec (Z.to_nat j) (Z.to_nat (i + 1))); [lia|].
    destruct (Nat.eqb_spec (Z.to_nat j) (Z.to_nat (i + 1))); [lia|].
    destruct (Nat.leb_spec (Z.to_nat j) (Z.to_nat (GetSize pg))); [lia|]. reflexivity.
Qed.

Lemma slot_at_shifted_left pg pg' index :
  0 ≤ index < GetSize pg → GetSize pg ≤ Z.of_nat (length (array_ pg)) →
  array_ pg' = shifted_left (Z.to_nat index) (Z.to_nat (GetSize pg)) (array_ pg) →
  (∀ j, j < index → slot_at pg' j = slot_at pg j) ∧
  (∀ j, index ≤ j < GetSize pg - 1 → slot_at pg' j = slot_at pg (j + 1)) ∧
  (∀ j, GetSize pg - 1 ≤ j → slot_at pg' j = slot_at pg j).
Proof.
  intros Hi Hsize Harr.
  assert (Hlook : ∀ j, 0 ≤ j → slot_at pg' j =
            if (Z.to_nat j <? Z.to_nat index)%nat then array_ pg !! Z.to_nat j
            else if (Z.to_nat j <? Z.to_nat (GetSize pg) - 1)%nat
                 then array_ pg !! S (Z.to_nat j)
                 else array_ pg !! Z.to_nat j).
  { intros j Hj. rewrite slot_at_nat, Harr by exact Hj.
    apply shifted_left_lookup; lia. }
  splits.
  - intros j Hj. destruct (Z.ltb_spec j 0) as [Hneg|Hpos].
    + unfold slot_at. rewrite !(proj2 (Z.ltb_lt _ _) Hneg). reflexivity.
    + rewrite Hlook, (slot_at_nat pg) by lia.
      destruct (Nat.ltb_spec (Z.to_nat j) (Z.to_nat index)); [reflexivity | lia].
  - intros j Hj. rewrite Hlook, (slot_at_nat pg) by lia.
    destruct (Nat.ltb_spec (Z.to_nat j) (Z.to_nat index)); [lia|].
    destruct (Nat.ltb_spec (Z.to_nat j) (Z.to_nat (GetSize pg) - 1)); [|lia].
    f_equal. lia.
  - intros j Hj. rewrite Hlook, (slot_at_nat pg) by lia.
    destruct (Nat.ltb_spec (Z.to_nat j) (Z.to_nat index)); [lia|].
    destruct (Nat.ltb_spec (Z.to_nat j) (Z.to_nat (GetSize pg) - 1)); [lia|]. reflexivity.
Qed.

(** X20. On a page whose slots in use lie in its buffer, [ValueIndex]
    returns the index of the first slot in use that holds the value, and the
    size of the page exactly when no slot in use holds it. *)
Theorem value_index_first pg v :
  0 ≤ GetSize pg ≤ Z.of_nat (length (array_ pg)) →
  ∃ i, ValueIndex v pg = Some i ∧ 0 ≤ i ≤ GetSize pg ∧
       (∀ j, 0 ≤ j < i → ValueAt pg j ≠ Some v) ∧
       (i < GetSize pg → ValueAt pg i = Some v) ∧
       (i = GetSize pg ↔ ∀ j, 0 ≤ j < GetSize pg → ValueAt pg j ≠ Some v).
Proof.
  intros Hsize. destruct (ValueIndex_spec pg v Hsize) as (i & HVI & Hb & Hbefore & Hat).
  exists i. splits; try assumption; try lia. split.
  - intros -> j Hj. apply Hbefore. exact Hj.
  - intros Hall. destruct (Z.eq_dec i (GetSize pg)) as [|Hne]; [assumption|].
    exfalso. apply (Hall i); [lia | apply Hat; lia].
Qed.

(** X21. When [old_value] is the value of a slot in use, found first at
    index [i], and the buffer has room for one more slot, [InsertNodeAfter]
    returns the new size, one more than before: the slots up to [i] are as
    they were, slot [i + 1] holds the new key and value, the slots that were
    at [i + 1 .. size - 1] have moved one place to the right, and nothing
    behind them changes. *)
Theorem insert_node_after old_value new_key new_value pg i :
  ValueIndex old_value pg = Some i → 0 ≤ i < GetSize pg →
  GetSize pg + 1 ≤ Z.of_nat (length (array_ pg)) →
  ∃ pg', InsertNodeAfter old_value new_key new_value pg = Some (GetSize pg + 1, pg') ∧
         GetSize pg' = GetSize pg + 1 ∧ GetPageId pg' = GetPageId pg ∧
         length (array_ pg') = length (array_ pg) ∧
         (∀ j, j ≤ i → slot_at pg' j = slot_at pg j) ∧
         slot_at pg' (i + 1) = Some (new_key, new_value) ∧
         (∀ j, i + 1 < j ≤ GetSize pg → slot_at pg' j = slot_at pg (j - 1)) ∧
         (∀ j, GetSize pg < j → slot_at pg' j = slot_at pg j).
Proof.
  intros HVI Hi Hroom.
  rewrite (InsertNodeAfter_array old_value new_key new_value pg i Hi Hroom HVI).
  eexists. split; [reflexivity|]. split; [reflexivity|]. split; [reflexivity|].
  split; [cbn; apply shifted_right_length; lia|].
  apply (slot_at_shifted_right pg _ i (new_key, new_value) Hi Hroom). reflexivity.
Qed.

(** X22. When no slot in use holds [old_value], [InsertNodeAfter] is
    undefined: [ValueIndex] returns the size, and [std::move_backward] is
    called on the range from [size + 1] to [size], whose end lies before its
    start. *)
Theorem insert_node_after_absent old_value new_key new_value pg :
  0 ≤ GetSize pg ≤ Z.of_nat (length (array_ pg)) →
  (∀ j, 0 ≤ j < GetSize pg → ValueAt pg j ≠ Some old_value) →
  ValueIndex old_value pg = Some (GetSize pg) ∧
  InsertNodeAfter old_value new_key new_value pg = None.
Proof.
  intros Hsize Habsent.
  destruct (ValueIndex_spec pg old_value Hsize) as (i & HVI & Hb & _ & Hat).
  assert (i = GetSize pg).
  { destruct (Z.eq_dec i (GetSize pg)) as [|Hne]; [assumption|].
    exfalso. apply (Habsent i); [lia | apply Hat; lia]. }
  subst i. split; [exact HVI|].
  unfold InsertNodeAfter, move_backward_slots, copy_slots. rewrite HVI.
  destruct (Z.ltb_spec (GetSize pg - (GetSize pg + 1)) 0); [reflexivity | lia].
Qed.

Lemma Lookup_equal_key pg key i ki vi :
  three_way → keys_increasing pg →
  2 ≤ GetSize pg → GetSize pg ≤ Z.of_nat (length (array_ pg)) →
  1 ≤ i < GetSize pg → slot_at pg i = Some (ki, vi) → comparator ki key = 0 →
  Lookup pg key = Some vi.
Proof.
  intros Htw Hinc Hsz Hcap Hi Hs Hz.
  destruct (Lookup_lands comparator pg key Htw Hinc Hsz Hcap)
    as (t & Ht & Hbelow & Hfrom & Habove & Hland).
  assert (HKi : KeyAt pg i = Some ki) by (unfold KeyAt; rewrite Hs; reflexivity).
  assert (i = t).
  { destruct (Z.lt_trichotomy i t) as [Hlt|[->|Hgt]]; [|reflexivity|].
    - pose proof (Hbelow i ki ltac:(lia) HKi). lia.
    - pose proof (Habove i ki ltac:(lia) HKi). lia. }
  subst t. destruct Hland as [[-> _]|(kt & vt & _ & Hst & [[_ HL]|[Hpos _]])].
  - lia.
  - congruence.
  - assert (kt = ki) by congruence. subst. lia.
Qed.

(** X23. On a page whose keys at indices [1 .. size - 1] increase, after
    [InsertNodeAfter] has put a new key behind the slot of [old_value], at a
    place where it lies above the keys before it and below the keys behind
    it, the keys still increase and [Lookup] of the new key returns the new
    value. *)
Theorem insert_then_lookup old_value new_key new_value pg i :
  three_way → keys_increasing pg →
  ValueIndex old_value pg = Some i → 0 ≤ i < GetSize pg →
  GetSize pg + 1 ≤ Z.of_nat (length (array_ pg)) →
  (∀ j kj, 1 ≤ j ≤ i → KeyAt pg j = Some kj → comparator kj new_key < 0) →
  (∀ j kj, i < j < GetSize pg → KeyAt pg j = Some kj → comparator new_key kj < 0) →
  ∃ n pg', InsertNodeAfter old_value new_key new_value pg = Some (n, pg') ∧
           keys_increasing pg' ∧ Lookup pg' new_key = Some new_value.
Proof.
  intros Htw Hinc HVI Hi Hroom Hbelow Habove.
  rewrite (InsertNodeAfter_array old_value new_key new_value pg i Hi Hroom HVI).
  set (pg' := mkInternal _ _ _ _ _).
  destruct (slot_at_shifted_right pg pg' i (new_key, new_value) Hi Hroom eq_refl)
    as (Hlow & Hmid & Hhigh & _).
  assert (Hkey : ∀ j, 1 ≤ j < GetSize pg + 1 →
            KeyAt pg' j = if Z_le_gt_dec j i then KeyAt pg j
                          else if Z.eq_dec j (i + 1) then Some new_key
                          else KeyAt pg (j - 1)).
  { intros j Hj. unfold KeyAt. destruct (Z_le_gt_dec j i); [rewrite Hlow by lia; reflexivity|].
    destruct (Z.eq_dec j (i + 1)) as [->|]; [rewrite Hmid; reflexivity|].
    rewrite Hhigh by lia. reflexivity. }
  assert (Hinc' : keys_increasing pg').
  { intros a b ka kb Ha Hab Hb. change (GetSize pg') with (GetSize pg + 1) in Hb.
    rewrite !Hkey by lia.
    destruct (Z_le_gt_dec a i), (Z_le_gt_dec b i); try lia.
    - apply Hinc; lia.
    - destruct (Z.eq_dec b (i + 1)).
      + intros HKa [= <-]. apply (Hbelow a); [lia | exact HKa].
      + apply Hinc; lia.
    - destruct (Z.eq_dec a (i + 1)), (Z.eq_dec b (i + 1)); try lia.
      + intros [= <-] HKb. apply (Habove (b - 1)); [lia | exact HKb].
      + apply Hinc; lia. }
  exists (GetSize pg + 1), pg'. split; [reflexivity|]. split; [exact Hinc'|].
  apply (Lookup_equal_key pg' new_key (i + 1) new_key new_value Htw Hinc').
  - change (GetSize pg') with (GetSize pg + 1). lia.
  - change (GetSize pg') with (GetSize pg + 1). cbn [array_ pg'].
    rewrite shifted_right_length by lia. lia.
  - change (GetSize pg') with (GetSize pg + 1). lia.
  - exact Hmid.
  - destruct Htw as [Hanti _]. specialize (Hanti new_key new_key).
    pose proof (Z.sgn_spec (comparator new_key new_key)). lia.
Qed.

(** X24. On a page whose buffer has two slots or more, [PopulateNewRoot]
    leaves a page of size 2 with [old_value] in slot 0 and the new key and
    value in slot 1; [Lookup] then returns [old_value] for the keys below
    the new key and the new value for all others. *)
Theorem populate_new_root old_value new_key new_value pg :
  (2 ≤ length (array_ pg))%nat →
  ∃ pg', PopulateNewRoot old_value new_key new_value pg = Some pg' ∧
         GetSize pg' = 2 ∧ ValueAt pg' 0 = Some old_value ∧
         slot_at pg' 1 = Some (new_key, new_value) ∧
         ∀ key, Lookup pg' key
                = Some (if 0 <? comparator new_key key then old_value else new_value).
Proof.
  destruct pg as [sz mx par pid arr]. cbn [array_].
  destruct arr as [|[k0 v0] [|[k1 v1] rest]]; cbn [length]; try lia. intros _.
  set (pg' := mkInternal 2 mx par pid ((k0, old_value) :: (new_key, new_value) :: rest)).
  exists pg'.
  split; [reflexivity|]. split; [reflexivity|]. split; [reflexivity|].
  split; [reflexivity|]. intros key.
  assert (Hlb : lower_bound_loop comparator 1 pg' key 1 1
                = Some (if comparator new_key key <? 0 then 2 else 1)).
  { cbn [lower_bound_loop]. change (1 <=? 0) with false. cbv iota.
    change (slot_at pg' (1 + Z.shiftr 1 1)) with (Some (new_key, new_value)).
    cbn [fst]. destruct (comparator new_key key <? 0); reflexivity. }
  unfold BPT.Lookup, lower_bound.
  change (GetSize pg') with 2. change (Z.to_nat (2 - 1)) with 1%nat. change (2 - 1) with 1.
  rewrite Hlb.
  destruct (Z.ltb_spec (comparator new_key key) 0) as [Hlt|Hge].
  - change (2 =? 2) with true. cbv iota.
    destruct (Z.ltb_spec 0 (comparator new_key key)); [lia | reflexivity].
  - change (1 =? 2) with false. cbv iota.
    change (slot_at pg' 1) with (Some (new_key, new_value)). cbn [fst snd].
    destruct (Z.eqb_spec (comparator new_key key) 0) as [Hz|Hnz].
    + rewrite Hz. reflexivity.
    + destruct (Z.ltb_spec 0 (comparator new_key key)); [reflexivity | lia].
Qed.

(** X25. On a page whose slots in use lie in its buffer, [Remove] of the
    index of a slot in use lowers the size by one, leaves the slots before
    the index as they were and moves the slots behind it one place to the
    left; for an index that is negative or not below the size the range
    handed to [std::move] is invalid and the call is undefined. *)
Theorem remove_slot index pg :
  GetSize pg ≤ Z.of_nat (length (array_ pg)) →
  (0 ≤ index < GetSize pg →
   ∃ pg', Remove index pg = Some pg' ∧ GetSize pg' = GetSize pg - 1 ∧
          GetPageId pg' = GetPageId pg ∧
          (∀ j, j < index → slot_at pg' j = slot_at pg j) ∧
          (∀ j, index ≤ j < GetSize pg - 1 → slot_at pg' j = slot_at pg (j + 1)) ∧
          (∀ j, GetSize pg - 1 ≤ j → slot_at pg' j = slot_at pg j)) ∧
  (index < 0 ∨ GetSize pg ≤ index → Remove index pg = None).
Proof.
  intros Hsize. split.
  - intros Hi. rewrite (Remove_array index pg Hi Hsize).
    eexists. split; [reflexivity|]. split; [reflexivity|]. split; [reflexivity|].
    apply (slot_at_shifted_left pg _ index Hi Hsize). reflexivity.
  - intros Hout. unfold BPT.Remove, move_slots, copy_slots.
    destruct (Z.ltb_spec (GetSize pg - (index + 1)) 0); [reflexivity|].
    destruct (Z.ltb_spec (index + 1) 0); [reflexivity|].
    destruct (Z.ltb_spec index 0); [reflexivity | lia].
Qed.

(** X26. [Remove] of the slot that [InsertNodeAfter] has just filled gives
    back the size and every slot in use of the page as it was before the
    insertion. *)
Theorem insert_then_remove old_value new_key new_value pg i :
  ValueIndex old_value pg = Some i → 0 ≤ i < GetSize pg →
  GetSize pg + 1 ≤ Z.of_nat (length (array_ pg)) →
  ∃ n pg' pg'', InsertNodeAfter old_value new_key new_value pg = Some (n, pg') ∧
                Remove (i + 1) pg' = Some pg'' ∧
                GetSize pg'' = GetSize pg ∧
                ∀ j, j < GetSize pg → slot_at pg'' j = slot_at pg j.
Proof.
  intros HVI Hi Hroom.
  rewrite (InsertNodeAfter_array old_value new_key new_value pg i Hi Hroom HVI).
  set (pg' := mkInternal _ _ _ _ _).
  destruct (slot_at_shifted_right pg pg' i (new_key, new_value) Hi Hroom eq_refl)
    as (Hlow & Hmid & Hhigh & _).
  assert (Hi' : 0 ≤ i + 1 < GetSize pg') by (change (GetSize pg') with (GetSize pg + 1); lia).
  assert (Hsize' : GetSize pg' ≤ Z.of_nat (length (array_ pg'))).
  { change (GetSize pg') with (GetSize pg + 1). cbn [array_ pg'].
    rewrite shifted_right_length by lia. lia. }
  pose proof (Remove_array (i + 1) pg' Hi' Hsize') as HR.
  set (pg'' := mkInternal _ _ _ _ _) in HR.
  destruct (slot_at_shifted_left pg' pg'' (i + 1) Hi' Hsize' eq_refl) as (L1 & L2 & _).
  change (GetSize pg') with (GetSize pg + 1) in L2.
  exists (GetSize pg + 1), pg', pg''. split; [reflexivity|]. split; [exact HR|].
  split; [cbn; lia|]. intros j Hj.
  destruct (Z_lt_ge_dec j (i + 1)).
  - rewrite L1 by lia. apply Hlow. lia.
  - rewrite L2 by lia. rewrite Hhigh by lia. f_equal. lia.
Qed.

End Slots.

(** *** Moving slots between pages *)

Section Moves.
Context {KeyType Data : Type} (zero : Data) (hash : Z → nat) (bucket_size : nat).
Context (SetParentPageId : Z → Data → Data) (GetParentPageId : Data → Z).

Hypothesis parent_set : ∀ id d, GetParentPageId (SetParentPageId id d) = id.

Local Abbreviation InternalPage := (@BPT.InternalPage KeyType).
Local Abbreviation Pool := (@BPM.Pool Data).
Local Abbreviation Find := (EHT.Find hash).
Local Abbreviation adopt := (BPT.adopt zero hash SetParentPageId).
Local Abbreviation adopted :=
  (BPT.adopted zero hash SetParentPageId GetParentPageId).
Local Abbreviation hash_tells_apart := (BPT.hash_tells_apart (Data:=Data) hash).
Local Abbreviation MoveAllTo :=
  (BPT.MoveAllTo (KeyType:=KeyType) zero hash SetParentPageId).
Local Abbreviation MoveFirstToEndOf :=
  (BPT.MoveFirstToEndOf (KeyType:=KeyType) zero hash SetParentPageId).
Local Abbreviation MoveLastToFrontOf :=
  (BPT.MoveLastToFrontOf (KeyType:=KeyType) zero hash SetParentPageId).

Implicit Types (pg src rcp : InternalPage) (b : Pool).

Local Open Scope Z_scope.

(** The adoption of one child, resident or brought in. *)
Lemma adopt_one D parent child b :
  BPM.reachable zero hash bucket_size b →
  is_Some (Find (BPM.page_table_ b) child) ∨
  (¬ BPM.every_frame_pinned b ∧ LRUK.k_ (BPM.replacer_ b) ≠ 1%nat ∧
   (1 ≤ bucket_size)%nat ∧ (D ≤ 30)%nat ∧ BPM.told_apart hash D b child) →
  ∃ b', adopt (S D) parent child b = Ret tt b' ∧ adopted parent [child] b b'.
Proof.
  intros Hr Hcan.
  destruct (adopt_spec zero hash bucket_size SetParentPageId GetParentPageId parent_set
              D parent child b (BPM_Facts.reachable_inv zero hash bucket_size b Hr))
    as (b' & Had & _ & _ & _ & _ & _ & Hchain).
  { destruct Hcan as [Hres|(Hnp & Hk & Hbs & HD & Hta)]; [left; exact Hres|].
    right. splits; try assumption. apply unpinned_frame. exact Hnp. }
  exists b'. split; [exact Had|]. apply Hchain. constructor.
Qed.

Lemma set_key_values (l : list (KeyType * Z)) k0 v0 mk :
  l !! 0%nat = Some (k0, v0) → (<[0%nat := (mk, v0)]> l).*2 = l.*2.
Proof. destruct l as [|a l]; [discriminate|]. intros [= ->]. reflexivity. Qed.

Lemma SetKeyAt_0 pg k0 v0 mk :
  slot_at pg 0 = Some (k0, v0) →
  SetKeyAt 0 mk pg = Some (set_array (<[0%nat := (mk, v0)]> (array_ pg)) pg).
Proof. intros Hs. unfold SetKeyAt. rewrite Hs. reflexivity. Qed.

(** X27. In a reachable pool, for a page with at least one slot, its slots
    in use within its buffer, and a recipient with room for them, when the
    children of the page are all resident, or some frame is not pinned, the
    replacer's [K] is not 1 and the hash tells the page ids at hand apart
    within [D] bits, [D] at most 30: [MoveAllTo] returns; it leaves the page
    with size 0; the recipient has its slots from its old size on
    overwritten with the slots in use of the page, in order, the first of
    them with the middle key as its key, its other slots as they were and
    its size larger by the size of the page; and the children named by the
    moved slots are adopted by the recipient one after the other. *)
Theorem move_all_to_adopts D middle_key src rcp b k0 v0 :
  BPM.reachable zero hash bucket_size b →
  slot_at src 0 = Some (k0, v0) →
  0 ≤ GetSize src ≤ Z.of_nat (length (array_ src)) →
  0 ≤ GetSize rcp →
  GetSize rcp + GetSize src ≤ Z.of_nat (length (array_ rcp)) →
  (∀ c, c ∈ (slots src).*2 → is_Some (Find (BPM.page_table_ b) c)) ∨
  (¬ BPM.every_frame_pinned b ∧ LRUK.k_ (BPM.replacer_ b) ≠ 1%nat ∧
   (1 ≤ bucket_size)%nat ∧ (D ≤ 30)%nat ∧ hash_tells_apart D b (slots src).*2) →
  ∃ src' rcp' b',
    MoveAllTo (S D) middle_key src rcp b = Ret (src', rcp') b' ∧
    GetSize src' = 0 ∧ GetSize rcp' = GetSize rcp + GetSize src ∧
    GetPageId rcp' = GetPageId rcp ∧
    array_ rcp' = take (Z.to_nat (GetSize rcp)) (array_ rcp)
                  ++ take (Z.to_nat (GetSize src))
                          (<[0%nat := (middle_key, v0)]> (array_ src))
                  ++ drop (Z.to_nat (GetSize rcp + GetSize src)) (array_ rcp) ∧
    adopted (GetPageId rcp) (slots src).*2 b b'.
Proof.
  intros Hr Hs0 Hsize Hrs Hroom Hcan.
  pose proof (BPM_Facts.reachable_inv zero hash bucket_size b Hr) as Hinv.
  unfold BPT.MoveAllTo. rewrite (SetKeyAt_0 src k0 v0 middle_key Hs0).
  set (arr1 := <[0%nat := (middle_key, v0)]> (array_ src)).
  change (array_ (set_array arr1 src)) with arr1.
  change (GetSize (set_array arr1 src)) with (GetSize src).
  assert (Hlen1 : length arr1 = length (array_ src)) by apply length_insert.
  destruct (copy_slots_spec arr1 (array_ rcp) 0 (GetSize src) (GetSize rcp))
    as (l & Hcopy & Hl & Hlen & Hmoved & Htake); try lia.
  change (Z.to_nat 0) with 0%nat in *. rewrite drop_0 in *.
  assert (Hchildren : (take (Z.to_nat (GetSize src)) arr1).*2 = (slots src).*2).
  { unfold slots. rewrite !fmap_take. f_equal.
    apply (set_key_values _ k0 v0). rewrite <- Hs0. reflexivity. }
  unfold BPT.CopyNFrom. rewrite Hcopy.
  set (pg1 := set_array l rcp).
  destruct (adopt_loop_spec zero hash bucket_size SetParentPageId GetParentPageId
              parent_set D pg1 (Z.to_nat (GetSize src)) 0 b)
    as (b' & Hloop & _ & Had); try assumption.
  - change (GetSize pg1) with (GetSize rcp). change (array_ pg1) with l. lia.
  - change (GetSize pg1) with (GetSize rcp). change (array_ pg1) with l.
    rewrite Z.add_0_l, Htake, Hchildren.
    destruct Hcan as [Hres|(Hnp & Hk & Hbs & HD & Hapart)]; [left; exact Hres|].
    right. splits; try assumption. apply unpinned_frame. exact Hnp.
  - rewrite Hloop.
    change (GetSize pg1) with (GetSize rcp) in Had. change (array_ pg1) with l in Had.
    rewrite Z.add_0_l, Htake, Hchildren in Had.
    eexists _, _, b'. split; [reflexivity|].
    cbn [GetSize GetPageId SetSize IncreaseSize set_array size_ array_ page_id_ pg1 fst snd].
    splits; try reflexivity; assumption.
Qed.

(** X28. In a reachable pool, for a page with at least one slot in use and
    a recipient with room for one more, when the first child of the page is
    resident, or some frame is not pinned, the replacer's [K] is not 1 and
    the hash tells the child apart from the resident pages within [D] bits,
    [D] at most 30: [MoveFirstToEndOf] returns; the recipient gets, at its
    old size, the first slot of the page with the middle key as its key, and
    grows by one; the other slots of the page move one place to the left and
    its size drops by one; and the child named by the moved slot is adopted
    by the recipient. *)
Theorem move_first_to_end_of_adopts D middle_key src rcp b k0 v0 :
  BPM.reachable zero hash bucket_size b →
  slot_at src 0 = Some (k0, v0) →
  1 ≤ GetSize src ≤ Z.of_nat (length (array_ src)) →
  0 ≤ GetSize rcp < Z.of_nat (length (array_ rcp)) →
  is_Some (Find (BPM.page_table_ b) v0) ∨
  (¬ BPM.every_frame_pinned b ∧ LRUK.k_ (BPM.replacer_ b) ≠ 1%nat ∧
   (1 ≤ bucket_size)%nat ∧ (D ≤ 30)%nat ∧ BPM.told_apart hash D b v0) →
  ∃ src' rcp' b',
    MoveFirstToEndOf (S D) middle_key src rcp b = Ret (src', rcp') b' ∧
    GetSize src' = GetSize src - 1 ∧
    (∀ j, 0 ≤ j < GetSize src - 1 → slot_at src' j = slot_at src (j + 1)) ∧
    GetSize rcp' = GetSize rcp + 1 ∧
    slot_at rcp' (GetSize rcp) = Some (middle_key, v0) ∧
    (∀ j, j ≠ GetSize rcp → slot_at rcp' j = slot_at rcp j) ∧
    adopted (GetPageId rcp) [v0] b b'.
Proof.
  intros Hr Hs0 Hsize Hrs Hcan.
  unfold BPT.MoveFirstToEndOf. rewrite (SetKeyAt_0 src k0 v0 middle_key Hs0).
  set (arr1 := <[0%nat := (middle_key, v0)]> (array_ src)).
  set (src1 := set_array arr1 src).
  assert (Hlen1 : length arr1 = length (array_ src)) by apply length_insert.
  assert (Hfirst : slot_at src1 0 = Some (middle_key, v0)).
  { unfold slot_at. cbn. apply list_lookup_insert_eq.
    apply lookup_lt_Some with (x := (k0, v0)). rewrite <- Hs0. reflexivity. }
  rewrite Hfirst. unfold BPT.CopyLastFrom, write_slot.
  destruct (proj2 (slot_at_is_Some rcp (GetSize rcp)) ltac:(lia)) as [r0 Hr0].
  rewrite Hr0. cbn [snd].
  destruct (adopt_one D (GetPageId rcp) v0 b Hr Hcan) as (b' & Had & Hchain).
  change (GetPageId (IncreaseSize 1 (set_array ?l rcp))) with (GetPageId rcp).
  rewrite Had.
  assert (Hi : 0 ≤ 0 < GetSize src1) by (change (GetSize src1) with (GetSize src); lia).
  assert (Hcap : GetSize src1 ≤ Z.of_nat (length (array_ src1)))
    by (change (GetSize src1) with (GetSize src); change (array_ src1) with arr1; lia).
  pose proof (Remove_array 0 src1 Hi Hcap) as HR. unfold BPT.Remove in HR.
  change (0 + 1) with 1 in HR.
  destruct (move_slots 1 (GetSize src1) 0 (array_ src1)) as [l|] eqn:Hmove;
    [|discriminate].
  injection HR as HR.
  eexists _, _, b'. split; [reflexivity|]. rewrite HR.
  destruct (slot_at_shifted_left src1
              (IncreaseSize (-1) (set_array
                 (shifted_left (Z.to_nat 0) (Z.to_nat (GetSize src1)) (array_ src1)) src1))
              0 Hi Hcap eq_refl) as (_ & Hshift & _).
  splits.
  - reflexivity.
  - intros j Hj. cbn [fst]. rewrite Hshift by (change (GetSize src1) with (GetSize src); lia).
    unfold slot_at. destruct (Z.ltb_spec (j + 1) 0); [reflexivity|].
    change (array_ src1) with arr1. unfold arr1.
    apply list_lookup_insert_ne. lia.
  - reflexivity.
  - cbn [snd fst]. rewrite slot_at_nat by lia.
    apply list_lookup_insert_eq. lia.
  - intros j Hj. cbn [snd fst]. unfold slot_at. destruct (Z.ltb_spec j 0); [reflexivity|].
    apply list_lookup_insert_ne. lia.
  - exact Hchain.
Qed.

(** X29. In a reachable pool, for a page with at least one slot in use and
    a recipient with room for one more, when the last child of the page is
    resident, or some frame is not pinned, the replacer's [K] is not 1 and
    the hash tells the child apart from the resident pages within [D] bits,
    [D] at most 30: [MoveLastToFrontOf] returns; the slots in use of the
    recipient move one place to the right, the one that was first now with
    the middle key as its key, and slot 0 takes the last slot of the page;
    the recipient grows by one and the page shrinks by one, its buffer
    untouched; and the child named by the moved slot is adopted by the
    recipient. *)
Theorem move_last_to_front_of_adopts D middle_key src rcp b kl vl r0 w0 :
  BPM.reachable zero hash bucket_size b →
  slot_at src (GetSize src - 1) = Some (kl, vl) →
  slot_at rcp 0 = Some (r0, w0) →
  0 ≤ GetSize rcp < Z.of_nat (length (array_ rcp)) →
  is_Some (Find (BPM.page_table_ b) vl) ∨
  (¬ BPM.every_frame_pinned b ∧ LRUK.k_ (BPM.replacer_ b) ≠ 1%nat ∧
   (1 ≤ bucket_size)%nat ∧ (D ≤ 30)%nat ∧ BPM.told_apart hash D b vl) →
  ∃ src' rcp' b',
    MoveLastToFrontOf (S D) middle_key src rcp b = Ret (src', rcp') b' ∧
    GetSize src' = GetSize src - 1 ∧ array_ src' = array_ src ∧
    GetSize rcp' = GetSize rcp + 1 ∧
    slot_at rcp' 0 = Some (kl, vl) ∧
    (1 ≤ GetSize rcp → slot_at rcp' 1 = Some (middle_key, w0)) ∧
    (∀ j, 1 < j ≤ GetSize rcp → slot_at rcp' j = slot_at rcp (j - 1)) ∧
    adopted (GetPageId rcp) [vl] b b'.
Proof.
  intros Hr Hlast Hr0 Hrs Hcan.
  unfold BPT.MoveLastToFrontOf. rewrite Hlast, (SetKeyAt_0 rcp r0 w0 middle_key Hr0).
  set (arr1 := <[0%nat := (middle_key, w0)]> (array_ rcp)).
  set (rcp1 := set_array arr1 rcp).
  assert (Hlen1 : length arr1 = length (array_ rcp)) by apply length_insert.
  unfold BPT.CopyFirstFrom, move_backward_slots.
  change (GetSize rcp1) with (GetSize rcp). change (array_ rcp1) with arr1.
  replace (GetSize rcp + 1 - (GetSize rcp - 0)) with 1 by lia.
  replace (GetSize rcp - 0) with (GetSize rcp) by lia.
  destruct (copy_slots_spec arr1 arr1 0 (GetSize rcp) 1) as (l & Hcopy & Hl & Hlen & _);
    try lia.
  rewrite Hcopy. unfold write_slot.
  destruct (proj2 (slot_at_is_Some (set_array l rcp1) 0) ltac:(cbn; lia)) as [s0 Hs0].
  rewrite Hs0. cbn [snd].
  destruct (adopt_one D (GetPageId rcp) vl b Hr Hcan) as (b' & Had & Hchain).
  change (GetPageId (IncreaseSize 1 (set_array ?l0 (set_array l rcp1)))) with (GetPageId rcp).
  rewrite Had. eexists _, _, b'. split; [reflexivity|].
  assert (Harr : <[Z.to_nat 0 := (kl, vl)]> l
                 = shifted_right 0 (Z.to_nat (GetSize rcp)) (kl, vl) arr1).
  { rewrite Hl. unfold shifted_right. change (Z.to_nat 0) with 0%nat.
    change (Z.to_nat 1) with 1%nat. rewrite drop_0, Nat.sub_0_r. cbn [take app].
    replace (Z.to_nat (1 + GetSize rcp)) with (S (Z.to_nat (GetSize rcp))) by lia.
    destruct arr1 as [|a rest]; [simpl in Hlen1; lia|]. reflexivity. }
  assert (Hlook : ∀ pg' j, array_ pg' = <[Z.to_nat 0 := (kl, vl)]> l → 0 ≤ j →
            slot_at pg' j =
            if (Z.to_nat j <? 0)%nat then arr1 !! Z.to_nat j
            else if (Z.to_nat j =? 0)%nat then Some (kl, vl)
            else if (Z.to_nat j <=? Z.to_nat (GetSize rcp))%nat
                 then arr1 !! (Z.to_nat j - 1)%nat
                 else arr1 !! Z.to_nat j).
  { intros pg' j Hpg' Hj. rewrite slot_at_nat, Hpg', Harr by exact Hj.
    apply shifted_right_lookup; lia. }
  cbn [fst snd]. splits.
  - reflexivity.
  - reflexivity.
  - reflexivity.
  - rewrite (Hlook _ 0) by first [reflexivity | lia]. reflexivity.
  - intros Hone. rewrite (Hlook _ 1) by first [reflexivity | lia].
    change (Z.to_nat 1) with 1%nat. cbn [Nat.ltb Nat.leb Nat.eqb Nat.sub].
    destruct (Z.to_nat (GetSize rcp)) eqn:Hn; [lia|].
    unfold arr1. apply list_lookup_insert_eq.
    apply lookup_lt_Some with (x := (r0, w0)). rewrite <- Hr0. reflexivity.
  - intros j Hj. rewrite (Hlook _ j) by first [reflexivity | lia].
    destruct (Nat.ltb_spec (Z.to_nat j) 0); [lia|].
    destruct (Nat.eqb_spec (Z.to_nat j) 0); [lia|].
    destruct (Nat.leb_spec (Z.to_nat j) (Z.to_nat (GetSize rcp))); [|lia].
    rewrite slot_at_nat by lia.
    unfold arr1. rewrite list_lookup_insert_ne by lia. f_equal. lia.
  - exact Hchain.
Qed.

End Moves.

(** *** The example pages and pools *)

Lemma pool3_reachable : BPM.reachable (-1)%Z BPM.example_hash 2 pool3.
Proof. apply BPM.reach_init. vm_compute. reflexivity. Qed.

Lemma pool3_unpinned : ¬ BPM.every_frame_pinned pool3.
Proof.
  intros H. specialize (H 0%Z (BPM.fresh_page (-1)%Z) eq_refl).
  vm_compute in H. discriminate.
Qed.

Lemma pool3_tells_apart :
  hash_tells_apart BPM.example_hash 1 pool3 (upper_half half_min_size left_page).*2.
Proof.
  assert (Hnone : ∀ q, ¬ is_Some (EHT.Find BPM.example_hash (BPM.page_table_ pool3) q)).
  { intros q [f Hf]. change (BPM.page_table_ pool3) with (EHT.init 2 : EHT.Table (K:=Z) (V:=Z)) in Hf.
    rewrite BPM_Facts.Find_init in Hf. discriminate. }
  assert (Hin : ∀ q, q ∈ (upper_half half_min_size left_page).*2 → q = 22%Z ∨ q = 23%Z).
  { intros q Hq. apply list_elem_of_In in Hq. vm_compute in Hq.
    destruct Hq as [<-|[<-|[]]]; auto. }
  intros q q' [Hq|Hq] [Hq'|Hq'] Hh; try (exfalso; eapply Hnone; eassumption).
  apply Hin in Hq as [-> | ->]; apply Hin in Hq' as [-> | ->];
    try reflexivity; vm_compute in Hh; discriminate.
Qed.

Lemma pool1_pinned_reachable : BPM.reachable (-1)%Z BPM.example_hash 2 pool1_pinned.
Proof.
  apply (BPM_Facts.run_reachable (-1)%Z BPM.example_hash 2 [BPM.CNew 4]
           (BPM.init (-1)%Z 2 1 2 (BPM.mkDisk ∅ []))).
  - apply BPM.reach_init. vm_compute. reflexivity.
  - vm_compute. reflexivity.
Qed.

(** C9, as the claim has it, at a page of size 4 and min size 2 over a
    reachable pool whose one frame is pinned: [FetchPgImp] of the first
    moved child returns [nullptr], which [CopyNFrom] dereferences. *)
Lemma move_half_to_over_pinned_pool :
  GetSize left_page = 4%Z ∧ half_min_size left_page = 2%Z ∧
  BPM.reachable (-1)%Z BPM.example_hash 2 pool1_pinned ∧
  ValueAt left_page 2 = Some 22%Z ∧
  BPM.FetchPgImp (-1)%Z BPM.example_hash 4 22 pool1_pinned = Ret None pool1_pinned ∧
  MoveHalfTo (-1)%Z BPM.example_hash set_parent half_min_size 4
    left_page right_page pool1_pinned = Undef.
Proof.
  splits; try (vm_compute; reflexivity). exact pool1_pinned_reachable.
Qed.

Lemma pool2_resident_reachable :
  BPM.reachable (-1)%Z BPM.example_hash 2 pool2_resident.
Proof.
  apply (BPM_Facts.run_reachable (-1)%Z BPM.example_hash 2
           [BPM.CFetch 4 22; BPM.CFetch 4 23]
           (BPM.init (-1)%Z 2 2 2 (BPM.mkDisk ∅ []))).
  - apply BPM.reach_init. vm_compute. reflexivity.
  - vm_compute. reflexivity.
Qed.

(** Over a pool of three free frames, where the two moved children are
    brought in, and over a pool whose two frames are pinned and hold them. *)
Lemma move_half_to_adopts_witness :
  (∃ src' rcp' b',
    MoveHalfTo (-1)%Z BPM.example_hash set_parent half_min_size 2
      left_page right_page pool3 = Ret (src', rcp') b' ∧
    GetSize src' = half_min_size left_page ∧ array_ src' = array_ left_page ∧
    GetSize rcp' = (GetSize right_page + (GetSize left_page - half_min_size left_page))%Z ∧
    GetPageId rcp' = GetPageId right_page ∧
    length (upper_half half_min_size left_page)
    = Z.to_nat (GetSize left_page - half_min_size left_page) ∧
    array_ rcp' = take (Z.to_nat (GetSize right_page)) (array_ right_page)
                  ++ upper_half half_min_size left_page
                  ++ drop (Z.to_nat (GetSize right_page
                                     + (GetSize left_page - half_min_size left_page)))
                          (array_ right_page) ∧
    adopted (-1)%Z BPM.example_hash set_parent get_parent (GetPageId right_page)
      (upper_half half_min_size left_page).*2 pool3 b') ∧
  BPM.every_frame_pinned pool2_resident ∧
  (∃ src' rcp' b',
    MoveHalfTo (-1)%Z BPM.example_hash set_parent half_min_size 1
      left_page right_page pool2_resident = Ret (src', rcp') b' ∧
    GetSize src' = half_min_size left_page ∧
    GetSize rcp' = (GetSize right_page + (GetSize left_page - half_min_size left_page))%Z ∧
    adopted (-1)%Z BPM.example_hash set_parent get_parent (GetPageId right_page)
      (upper_half half_min_size left_page).*2 pool2_resident b').
Proof.
  split; [|split].
  - apply (move_half_to_adopts (-1)%Z BPM.example_hash 2 set_parent get_parent
             half_min_size (λ _ _, eq_refl) 1 left_page right_page pool3
             pool3_reachable).
    + vm_compute. intuition discriminate.
    + vm_compute. discriminate.
    + vm_compute. discriminate.
    + vm_compute. discriminate.
    + right. splits; [exact pool3_unpinned | vm_compute; discriminate | lia | lia
                     | exact pool3_tells_apart].
  - exact (proj1 (BPM_Facts.all_pinned_true pool2_resident) eq_refl).
  - destruct (move_half_to_adopts (-1)%Z BPM.example_hash 2 set_parent get_parent
                half_min_size (λ _ _, eq_refl) 0 left_page right_page pool2_resident
                pool2_resident_reachable)
      as (src' & rcp' & b' & Hmove & Hsrc & _ & Hrcp & _ & _ & _ & Had).
    + vm_compute. intuition discriminate.
    + vm_compute. discriminate.
    + vm_compute. discriminate.
    + vm_compute. discriminate.
    + left. intros c Hc. apply list_elem_of_In in Hc. vm_compute in Hc.
      destruct Hc as [<-|[<-|[]]]; vm_compute; eauto.
    + exists src', rcp', b'. splits; assumption.
Defined.

Lemma int_comparator_three_way : three_way int_comparator.
Proof.
  unfold three_way, int_comparator. split.
  - intros a b. pose proof (Z.sgn_spec (b - a)). pose proof (Z.sgn_spec (a - b)). lia.
  - intros a b c. lia.
Qed.

Lemma left_page_increasing : keys_increasing int_comparator left_page.
Proof.
  intros i j ki kj Hi Hij Hj. unfold KeyAt, slot_at, GetSize, int_comparator.
  cbn in Hj.
  assert (Hcases : (i = 1 ∧ (j = 2 ∨ j = 3) ∨ i = 2 ∧ j = 3)%Z) by lia.
  destruct Hcases as [[-> [-> | ->]] | [-> ->]]; cbn; intros [= <-] [= <-]; lia.
Qed.

Lemma lookup_finds_child_witness :
  Lookup int_comparator left_page 15%Z = Some 21%Z ∧
  Lookup int_comparator left_page 5%Z = ValueAt left_page 0%Z.
Proof.
  pose proof (lookup_finds_child int_comparator left_page 15%Z int_comparator_three_way
                left_page_increasing ltac:(cbn; lia) ltac:(cbn; lia)) as H15.
  pose proof (lookup_finds_child int_comparator left_page 5%Z int_comparator_three_way
                left_page_increasing ltac:(cbn; lia) ltac:(cbn; lia)) as H5.
  split.
  - apply (proj1 H15 1%Z 10%Z 21%Z); [cbn; lia | reflexivity | unfold int_comparator; lia |].
    intros j kj Hj. cbn in Hj. assert (j = 2 ∨ j = 3)%Z as [-> | ->] by lia;
      cbn; intros [= <-]; unfold int_comparator; lia.
  - apply (proj1 (proj2 H5) 10%Z); [reflexivity | unfold int_comparator; lia].
Defined.

Lemma roomy_page_increasing : keys_increasing int_comparator roomy_page.
Proof.
  intros i j ki kj Hi Hij Hj. unfold KeyAt, slot_at, GetSize, int_comparator.
  cbn in Hj. assert (i = 1 ∧ j = 2)%Z as [-> ->] by lia.
  cbn. intros [= <-] [= <-]. lia.
Qed.

Lemma value_index_first_witness :
  ∃ i, ValueIndex 21 roomy_page = Some i ∧ (0 ≤ i ≤ GetSize roomy_page)%Z ∧
       (∀ j, (0 ≤ j < i)%Z → ValueAt roomy_page j ≠ Some 21%Z) ∧
       ((i < GetSize roomy_page)%Z → ValueAt roomy_page i = Some 21%Z) ∧
       (i = GetSize roomy_page ↔
        ∀ j, (0 ≤ j < GetSize roomy_page)%Z → ValueAt roomy_page j ≠ Some 21%Z).
Proof. apply (value_index_first roomy_page 21). cbn. lia. Defined.

Lemma insert_node_after_witness :
  ∃ pg', InsertNodeAfter 21 20%Z 22 roomy_page = Some ((GetSize roomy_page + 1)%Z, pg') ∧
         slot_at pg' (1 + 1) = Some (20%Z, 22%Z) ∧
         slot_at pg' 3 = slot_at roomy_page (3 - 1).
Proof.
  destruct (insert_node_after 21 20%Z 22 roomy_page 1 eq_refl ltac:(cbn; lia) ltac:(cbn; lia))
    as (pg' & HI & _ & _ & _ & _ & Hmid & Hhigh & _).
  exists pg'. split; [exact HI|]. split; [exact Hmid|]. apply Hhigh. cbn. lia.
Defined.

Lemma insert_node_after_absent_witness :
  ValueIndex 99 roomy_page = Some (GetSize roomy_page) ∧
  InsertNodeAfter 99 20%Z 22 roomy_page = None.
Proof.
  apply (insert_node_after_absent 99 20%Z 22 roomy_page); [cbn; lia|].
  intros j Hj. cbn in Hj. assert (j = 0 ∨ j = 1 ∨ j = 2)%Z as [-> | [-> | ->]] by lia;
    cbn; discriminate.
Defined.

Lemma insert_then_lookup_witness :
  ∃ n pg', InsertNodeAfter 21 20%Z 22 roomy_page = Some (n, pg') ∧
           keys_increasing int_comparator pg' ∧
           Lookup int_comparator pg' 20%Z = Some 22%Z.
Proof.
  apply (insert_then_lookup int_comparator 21 20%Z 22 roomy_page 1
           int_comparator_three_way roomy_page_increasing eq_refl);
    try (cbn; lia).
  - intros j kj Hj. assert (j = 1)%Z as -> by lia. cbn. intros [= <-].
    unfold int_comparator. lia.
  - intros j kj Hj. cbn in Hj. assert (j = 2)%Z as -> by lia. cbn. intros [= <-].
    unfold int_comparator. lia.
Defined.

Lemma populate_new_root_witness :
  ∃ pg', PopulateNewRoot 5 50%Z 6 right_page = Some pg' ∧
         GetSize pg' = 2%Z ∧ ValueAt pg' 0 = Some 5%Z ∧
         slot_at pg' 1 = Some (50%Z, 6%Z) ∧
         ∀ key, Lookup int_comparator pg' key
                = Some (if (0 <? int_comparator 50 key)%Z then 5%Z else 6%Z).
Proof. apply (populate_new_root int_comparator 5 50%Z 6 right_page). cbn. lia. Defined.

Lemma remove_slot_witness :
  ∃ pg', Remove 1 roomy_page = Some pg' ∧ GetSize pg' = (GetSize roomy_page - 1)%Z ∧
         slot_at pg' 1 = slot_at roomy_page (1 + 1).
Proof.
  destruct (proj1 (remove_slot 1 roomy_page ltac:(cbn; lia)) ltac:(cbn; lia))
    as (pg' & HR & Hsz & _ & _ & Hshift & _).
  exists pg'. split; [exact HR|]. split; [exact Hsz|]. apply Hshift. cbn. lia.
Defined.

Lemma insert_then_remove_witness :
  ∃ n pg' pg'', InsertNodeAfter 21 20%Z 22 roomy_page = Some (n, pg') ∧
                Remove (1 + 1) pg' = Some pg'' ∧
                GetSize pg'' = GetSize roomy_page ∧
                ∀ j, (j < GetSize roomy_page)%Z → slot_at pg'' j = slot_at roomy_page j.
Proof.
  apply (insert_then_remove 21 20%Z 22 roomy_page 1 eq_refl); cbn; lia.
Defined.

Lemma pool3_empty q : ¬ is_Some (EHT.Find BPM.example_hash (BPM.page_table_ pool3) q).
Proof.
  intros [f Hf].
  change (BPM.page_table_ pool3) with (EHT.init 2 : EHT.Table (K:=Z) (V:=Z)) in Hf.
  rewrite BPM_Facts.Find_init in Hf. discriminate.
Qed.

Lemma pool3_tells_roomy_apart :
  hash_tells_apart BPM.example_hash 2 pool3 (slots roomy_page).*2.
Proof.
  assert (Hin : ∀ q, q ∈ (slots roomy_page).*2 → q = 20%Z ∨ q = 21%Z ∨ q = 23%Z).
  { intros q Hq. apply list_elem_of_In in Hq. vm_compute in Hq.
    destruct Hq as [<-|[<-|[<-|[]]]]; auto. }
  intros q q' [Hq|Hq] [Hq'|Hq'] Hh; try (exfalso; eapply pool3_empty; eassumption).
  apply Hin in Hq as [-> | [-> | ->]]; apply Hin in Hq' as [-> | [-> | ->]];
    try reflexivity; vm_compute in Hh; discriminate.
Qed.

Lemma move_all_to_adopts_witness :
  ∃ src' rcp' b',
    MoveAllTo (-1)%Z BPM.example_hash set_parent 3 5%Z roomy_page right_page pool3
    = Ret (src', rcp') b' ∧
    GetSize src' = 0%Z ∧ GetSize rcp' = (GetSize right_page + GetSize roomy_page)%Z ∧
    GetPageId rcp' = GetPageId right_page ∧
    array_ rcp' = take (Z.to_nat (GetSize right_page)) (array_ right_page)
                  ++ take (Z.to_nat (GetSize roomy_page))
                          (<[0%nat := (5%Z, 20%Z)]> (array_ roomy_page))
                  ++ drop (Z.to_nat (GetSize right_page + GetSize roomy_page))
                          (array_ right_page) ∧
    adopted (-1)%Z BPM.example_hash set_parent get_parent (GetPageId right_page)
      (slots roomy_page).*2 pool3 b'.
Proof.
  apply (move_all_to_adopts (-1)%Z BPM.example_hash 2 set_parent get_parent
           (λ _ _, eq_refl) 2 5%Z roomy_page right_page pool3 0%Z 20%Z
           pool3_reachable).
  - reflexivity.
  - vm_compute. intuition discriminate.
  - vm_compute. discriminate.
  - vm_compute. discriminate.
  - right. splits; [exact pool3_unpinned | vm_compute; discriminate | lia | lia
                   | exact pool3_tells_roomy_apart].
Defined.

Lemma move_first_to_end_of_adopts_witness :
  ∃ src' rcp' b',
    MoveFirstToEndOf (-1)%Z BPM.example_hash set_parent 2 5%Z left_page roomy_page pool3
    = Ret (src', rcp') b' ∧
    GetSize src' = (GetSize left_page - 1)%Z ∧
    (∀ j, (0 ≤ j < GetSize left_page - 1)%Z → slot_at src' j = slot_at left_page (j + 1)) ∧
    GetSize rcp' = (GetSize roomy_page + 1)%Z ∧
    slot_at rcp' (GetSize roomy_page) = Some (5%Z, 20%Z) ∧
    (∀ j, j ≠ GetSize roomy_page → slot_at rcp' j = slot_at roomy_page j) ∧
    adopted (-1)%Z BPM.example_hash set_parent get_parent (GetPageId roomy_page)
      [20%Z] pool3 b'.
Proof.
  apply (move_first_to_end_of_adopts (-1)%Z BPM.example_hash 2 set_parent get_parent
           (λ _ _, eq_refl) 1 5%Z left_page roomy_page pool3 0%Z 20%Z
           pool3_reachable).
  - reflexivity.
  - vm_compute. intuition discriminate.
  - vm_compute. intuition discriminate.
  - right. splits; [exact pool3_unpinned | vm_compute; discriminate | lia | lia|].
    intros q Hq. exfalso. exact (pool3_empty q Hq).
Defined.

Lemma move_last_to_front_of_adopts_witness :
  ∃ src' rcp' b',
    MoveLastToFrontOf (-1)%Z BPM.example_hash set_parent 2 5%Z left_page roomy_page pool3
    = Ret (src', rcp') b' ∧
    GetSize src' = (GetSize left_page - 1)%Z ∧ array_ src' = array_ left_page ∧
    GetSize rcp' = (GetSize roomy_page + 1)%Z ∧
    slot_at rcp' 0 = Some (30%Z, 23%Z) ∧
    ((1 ≤ GetSize roomy_page)%Z → slot_at rcp' 1 = Some (5%Z, 20%Z)) ∧
    (∀ j, (1 < j ≤ GetSize roomy_page)%Z → slot_at rcp' j = slot_at roomy_page (j - 1)) ∧
    adopted (-1)%Z BPM.example_hash set_parent get_parent (GetPageId roomy_page)
      [23%Z] pool3 b'.
Proof.
  apply (move_last_to_front_of_adopts (-1)%Z BPM.example_hash 2 set_parent get_parent
           (λ _ _, eq_refl) 1 5%Z left_page roomy_page pool3 30%Z 23%Z 0%Z 20%Z
           pool3_reachable).
  - reflexivity.
  - reflexivity.
  - vm_compute. intuition discriminate.
  - right. splits; [exact pool3_unpinned | vm_compute; discriminate | lia | lia|].
    intros q Hq. exfalso. exact (pool3_empty q Hq).
Defined.

End BPT_Facts.
